(** * GeneticEngine: grammar analysis and the tree-based representation

    A shallow embedding of [geneticengine/core/grammar.py] and
    [geneticengine/core/representations/treebased.py].

    Python objects live in an arena ([heap]); every function that touches
    the heap, the random source or the class-level [__gengy__] dictionaries
    is a state transformer over a [world].  Python exceptions are results
    ([Raise]); a computation whose recursion or loop does not end within
    the fuel it was given yields [Diverge], which no [except] clause
    catches. *)

From Stdlib Require Import ZArith QArith Lia.
From stdpp Require Import base option list strings.

Local Open Scope string_scope.
Local Open Scope list_scope.
Local Open Scope Z_scope.

(** ** Types of the grammar *)

(** The name under which a metahandler is attached to an annotated type. *)
Definition metahandler := string.

(** Types as they occur in field annotations, as classes of objects and in
    [__bases__]: the builtins, [List[t]], [Annotated[t, m]] and the
    user-declared node classes. *)
Inductive ty : Type :=
| TInt | TFloat | TStr
| TObject | TABC | TNoneType | TFutureCls | TListCls
| TList (t : ty)
| TAnnotated (t : ty) (m : metahandler)
| TClass (c : string).

#[global] Instance ty_eq_dec : EqDecision ty.
Proof. solve_decision. Defined.

(** ** Exceptions and results *)

Inductive GEError : Type :=
| RecursionDepthReached
| NoDepthSufficient (sym : ty) (provided required : Z)
| SymbolNotInGrammar (sym : ty)
| NoProductions (sym : ty) (depth : Z)
| MinimalDepthIsDefault (d : Z)
| MaxDepthTooSmall (max_depth d : Z).

Inductive exn : Type :=
| GeneticEngineError (e : GEError)
| InvalidGrammarException (t : ty)
| PlainException (nonterminal nodetype : ty)
| KeyError
| ValueError
| IndexError
| AttributeError
| AssertionError
| ZeroDivisionError
| TypeError
| BadReference.

Inductive outcome (A : Type) : Type :=
| Ret (a : A)
| Raise (e : exn)
| Diverge.
Arguments Ret {A} a.
Arguments Raise {A} e.
Arguments Diverge {A}.

Definition obind {A B} (o : outcome A) (k : A -> outcome B) : outcome B :=
  match o with
  | Ret a => k a
  | Raise e => Raise e
  | Diverge => Diverge
  end.

Declare Scope out_scope.
Delimit Scope out_scope with out.
Notation "x <~ o ;; k" := (obind o (fun x => k))
  (at level 20, o at level 99, k at level 200, only parsing) : out_scope.

(** ** Dictionaries and sets

    A Python [dict] keeps insertion order and a key once: an association
    list read at the first match and written in place.  A Python [set] is a
    list without duplicates; the order of the list stands for the order in
    which the interpreter happens to iterate. *)

Section Dict.
Context {K V : Type} `{EqDecision K}.

Fixpoint dict_get (d : list (K * V)) (k : K) : option V :=
  match d with
  | [] => None
  | (k', v) :: d' => if decide (k = k') then Some v else dict_get d' k
  end.

Fixpoint dict_set (d : list (K * V)) (k : K) (v : V) : list (K * V) :=
  match d with
  | [] => [(k, v)]
  | (k', v') :: d' =>
      if decide (k = k') then (k, v) :: d' else (k', v') :: dict_set d' k v
  end.

Definition dict_keys (d : list (K * V)) : list K := map fst d.

Definition dict_has (d : list (K * V)) (k : K) : bool :=
  match dict_get d k with Some _ => true | None => false end.

Definition set_mem (x : K) (s : list K) : bool := bool_decide (x ∈ s).

Definition set_add (x : K) (s : list K) : list K :=
  if set_mem x s then s else s ++ [x].

Definition set_union (s1 s2 : list K) : list K :=
  fold_left (fun acc x => set_add x acc) s2 s1.
End Dict.

(** ** The declared classes *)

(** What the analysis reads off a class object: its [__bases__], whether it
    is abstract, whether its constructor is fully annotated
    ([all_init_arguments_typed]) and the annotated constructor arguments
    ([get_arguments]).  Node classes are dataclasses, so the constructor
    arguments are also the class's [__annotations__]. *)
Record class_decl : Type := {
  c_bases : list ty;
  c_abstract : bool;
  c_typed : bool;
  c_args : list (string * ty)
}.

Definition class_table := list (string * class_decl).

Section Classes.
Variable CT : class_table.

(** Modelled from the spec: [utils.get_arguments] is not among the
    sources; it returns the ordered (field name, field type) list of a
    node type, and nothing for a type without typed fields. *)
Definition get_arguments (t : ty) : list (string * ty) :=
  match t with
  | TClass c => match dict_get CT c with Some d => c_args d | None => [] end
  | _ => []
  end.

(** Modelled from the spec: [utils.is_abstract] is not among the sources;
    an abstract type is a declared class flagged as a non-terminal
    without direct instances. *)
Definition is_abstract (t : ty) : bool :=
  match t with
  | TClass c => match dict_get CT c with Some d => c_abstract d | None => false end
  | _ => false
  end.

Definition all_init_arguments_typed (t : ty) : bool :=
  match t with
  | TClass c => match dict_get CT c with Some d => c_typed d | None => true end
  | _ => true
  end.

(** [t.__bases__]; every builtin derives from [object] alone. *)
Definition bases (t : ty) : list ty :=
  match t with
  | TClass c =>
      match dict_get CT c with
      | Some d => match c_bases d with [] => [TObject] | bs => bs end
      | None => [TObject]
      end
  | TObject => []
  | _ => [TObject]
  end.

(** [t.mro()[1]]: the first base ([IndexError] on [object] itself). *)
Definition mro1 (t : ty) : outcome ty :=
  match bases t with
  | b :: _ => Ret b
  | [] => Raise IndexError
  end.

(** [issubclass(s, t)], following first and further bases. *)
Fixpoint issubclass (fuel : nat) (s t : ty) : bool :=
  bool_decide (s = t) ||
  match fuel with
  | O => false
  | S fuel' => existsb (fun b => issubclass fuel' b t) (bases s)
  end.

(** Modelled from the spec: [utils.is_terminal] is not among the sources;
    a type with no typed fields is terminal, and a type with typed fields
    is terminal unless the grammar lists it among its non-terminals. *)
Definition is_terminal (t : ty) (non_terminals : list ty) : bool :=
  match get_arguments t with
  | [] => true
  | _ => negb (set_mem t non_terminals)
  end.

(** Modelled from the spec: [decorators.is_builtin] is not among the
    sources; the builtins are the types whose instances carry no
    size/depth metadata. *)
Definition is_builtin (t : ty) : bool :=
  match t with
  | TClass _ | TFutureCls | TObject | TABC => false
  | _ => true
  end.

Definition is_generic_list (t : ty) : bool :=
  match t with TList _ => true | _ => false end.

Definition is_annotated (t : ty) : bool :=
  match t with TAnnotated _ _ => true | _ => false end.

(** Modelled from the spec: [utils.strip_annotations] is not among the
    sources; it descends to the underlying node type through annotated
    wrappers and container parameters. *)
Fixpoint strip_annotations (t : ty) : ty :=
  match t with
  | TList u => strip_annotations u
  | TAnnotated u _ => strip_annotations u
  | _ => t
  end.
End Classes.

(** ** Class-level state

    [get_gengy(cls)] is the class's [__gengy__] dictionary; the only entry
    the core reads or writes is ["weight"].  A class name is a key of
    [gengy_state] when the class owns a [__gengy__] dictionary; the value
    is its ["weight"] entry, if any.  This state belongs to the classes,
    not to any grammar built from them. *)
Definition gengy_state := list (string * option Q).

Definition get_gengy_weight (gs : gengy_state) (t : ty) : option Q :=
  match t with
  | TClass c => match dict_get gs c with Some w => w | None => None end
  | _ => None
  end.

(** [cls.__dict__["__gengy__"]["weight"] = w] *)
Definition set_gengy_weight (gs : gengy_state) (t : ty) (w : Q) : outcome gengy_state :=
  match t with
  | TClass c =>
      match dict_get gs c with
      | Some _ => Ret (dict_set gs c (Some w))
      | None => Raise KeyError
      end
  | _ => Raise KeyError
  end.

(** ** The grammar object *)

Record Grammar : Type := {
  starting_symbol : ty;
  alternatives : list (ty * list ty);
  distanceToTerminal : list (ty * Z);
  all_nodes : list ty;
  recursive_prods : list ty;
  terminals : list ty;
  non_terminals : list ty;
  abstract_dist_to_t : list (ty * list (ty * Z));
  considered_subtypes : list ty;
  expansion_depthing : bool
}.

Definition with_alternatives (g : Grammar) (a : list (ty * list ty)) : Grammar :=
  {| starting_symbol := starting_symbol g; alternatives := a;
     distanceToTerminal := distanceToTerminal g; all_nodes := all_nodes g;
     recursive_prods := recursive_prods g; terminals := terminals g;
     non_terminals := non_terminals g; abstract_dist_to_t := abstract_dist_to_t g;
     considered_subtypes := considered_subtypes g;
     expansion_depthing := expansion_depthing g |}.

Definition with_distanceToTerminal (g : Grammar) (d : list (ty * Z)) : Grammar :=
  {| starting_symbol := starting_symbol g; alternatives := alternatives g;
     distanceToTerminal := d; all_nodes := all_nodes g;
     recursive_prods := recursive_prods g; terminals := terminals g;
     non_terminals := non_terminals g; abstract_dist_to_t := abstract_dist_to_t g;
     considered_subtypes := considered_subtypes g;
     expansion_depthing := expansion_depthing g |}.

Definition with_all_nodes (g : Grammar) (s : list ty) : Grammar :=
  {| starting_symbol := starting_symbol g; alternatives := alternatives g;
     distanceToTerminal := distanceToTerminal g; all_nodes := s;
     recursive_prods := recursive_prods g; terminals := terminals g;
     non_terminals := non_terminals g; abstract_dist_to_t := abstract_dist_to_t g;
     considered_subtypes := considered_subtypes g;
     expansion_depthing := expansion_depthing g |}.

Definition with_recursive_prods (g : Grammar) (s : list ty) : Grammar :=
  {| starting_symbol := starting_symbol g; alternatives := alternatives g;
     distanceToTerminal := distanceToTerminal g; all_nodes := all_nodes g;
     recursive_prods := s; terminals := terminals g;
     non_terminals := non_terminals g; abstract_dist_to_t := abstract_dist_to_t g;
     considered_subtypes := considered_subtypes g;
     expansion_depthing := expansion_depthing g |}.

Definition with_terminals (g : Grammar) (s : list ty) : Grammar :=
  {| starting_symbol := starting_symbol g; alternatives := alternatives g;
     distanceToTerminal := distanceToTerminal g; all_nodes := all_nodes g;
     recursive_prods := recursive_prods g; terminals := s;
     non_terminals := non_terminals g; abstract_dist_to_t := abstract_dist_to_t g;
     considered_subtypes := considered_subtypes g;
     expansion_depthing := expansion_depthing g |}.

Definition with_non_terminals (g : Grammar) (s : list ty) : Grammar :=
  {| starting_symbol := starting_symbol g; alternatives := alternatives g;
     distanceToTerminal := distanceToTerminal g; all_nodes := all_nodes g;
     recursive_prods := recursive_prods g; terminals := terminals g;
     non_terminals := s; abstract_dist_to_t := abstract_dist_to_t g;
     considered_subtypes := considered_subtypes g;
     expansion_depthing := expansion_depthing g |}.

Definition with_abstract_dist_to_t (g : Grammar) (a : list (ty * list (ty * Z))) : Grammar :=
  {| starting_symbol := starting_symbol g; alternatives := alternatives g;
     distanceToTerminal := distanceToTerminal g; all_nodes := all_nodes g;
     recursive_prods := recursive_prods g; terminals := terminals g;
     non_terminals := non_terminals g; abstract_dist_to_t := a;
     considered_subtypes := considered_subtypes g;
     expansion_depthing := expansion_depthing g |}.

(** The value every distance starts from, standing for "no finite
    completion known". *)
Definition INF : Z := 1000000.

(** Left-to-right iteration of a step that may raise. *)
Fixpoint ofold_left {A B : Type} (f : A -> B -> outcome A) (l : list B) (a : A) : outcome A :=
  match l with
  | [] => Ret a
  | x :: l' => obind (f a x) (ofold_left f l')
  end.

Section GrammarOps.
Variable CT : class_table.

Local Open Scope out_scope.

(** [Grammar.validate] *)
Definition validate (g : Grammar) : outcome unit :=
  ofold_left (fun _ c =>
    if is_abstract CT c then Ret tt
    else if all_init_arguments_typed CT c then Ret tt
    else Raise (InvalidGrammarException c)) (considered_subtypes g) tt.

(** [Grammar.__init__] *)
Definition Grammar_init (start : ty) (subtypes : list ty) (exp : bool) : outcome Grammar :=
  let g := {| starting_symbol := start; alternatives := [];
              distanceToTerminal := [(TInt, 0); (TStr, 0); (TFloat, 0)];
              all_nodes := []; recursive_prods := []; terminals := [];
              non_terminals := []; abstract_dist_to_t := [];
              considered_subtypes := subtypes; expansion_depthing := exp |} in
  u <~ validate g;; Ret g.

(** [Grammar.register_alternative] *)
Definition register_alternative (g : Grammar) (nonterminal nodetype : ty) : outcome Grammar :=
  if negb (is_abstract CT nonterminal) then Raise (PlainException nonterminal nodetype)
  else
    let old := default [] (dict_get (alternatives g) nonterminal) in
    Ret (with_alternatives g (dict_set (alternatives g) nonterminal (old ++ [nodetype]))).

(** Modelled from the spec: whether [isinstance(argt, type)] holds of a
    field annotation is decided by the interpreter; registration recurses
    into generic container parameters, so classes, builtins and list
    types count as types, annotated types do not (they are handled by the
    [is_annotated] branch). *)
Definition is_type_object (t : ty) : bool :=
  match t with TAnnotated _ _ => false | _ => true end.

(** [Grammar.register_type] *)
Fixpoint register_type (fuel : nat) (g : Grammar) (t : ty) : outcome Grammar :=
  match fuel with
  | O => Diverge
  | S fuel' =>
    if set_mem t (all_nodes g) then Ret g
    else match t with
    | TList gty => register_type fuel' g gty
    | TAnnotated gty _ => register_type fuel' g gty
    | _ =>
      let g := with_all_nodes g (set_add t (all_nodes g)) in
      parent <~ mro1 CT t;;
      g <~ (if set_mem parent [TObject; TABC; TInt; TFloat; TStr] then Ret g
            else g' <~ register_type fuel' g parent;;
                 register_alternative g' parent t);;
      gt <~ (if is_abstract CT t then Ret (g, false)
             else ofold_left (fun (acc : Grammar * bool) (a : string * ty) =>
                    let argt := snd a in
                    g1 <~ (if is_type_object argt
                           then register_type fuel' (fst acc) argt
                           else Ret (fst acc));;
                    g2 <~ (match argt with
                           | TAnnotated (TList inner) _ => register_type fuel' g1 inner
                           | TAnnotated gen _ => register_type fuel' g1 gen
                           | _ => Ret g1
                           end);;
                    Ret (g2, false)) (get_arguments CT t) (g, true));;
      g <~ ofold_left (fun g0 st =>
             if issubclass CT (length CT) st t then register_type fuel' g0 st
             else Ret g0) (considered_subtypes g) (fst gt);;
      Ret (if snd gt then with_terminals g (set_add t (terminals g))
           else with_non_terminals g (set_add t (non_terminals g)))
    end
  end.

(** [Grammar.get_all_symbols] *)
Definition get_all_symbols (g : Grammar) : list ty * list ty * list ty :=
  let keys := set_union [] (dict_keys (alternatives g)) in
  let sequence := set_union [] (concat (map snd (alternatives g))) in
  (keys, sequence, set_union (set_union sequence keys) (all_nodes g)).

(** [Grammar.get_distance_to_terminal] *)
Fixpoint get_distance_to_terminal (g : Grammar) (t : ty) : outcome Z :=
  match t with
  | TAnnotated ta _ => get_distance_to_terminal g ta
  | TList ta =>
      d <~ get_distance_to_terminal g ta;;
      Ret (Z.b2z (expansion_depthing g) + d)
  | _ =>
      match dict_get (distanceToTerminal g) t with
      | Some d => Ret d
      | None => Raise KeyError
      end
  end.

(** [Grammar.get_min_tree_depth] *)
Definition get_min_tree_depth (g : Grammar) : outcome Z :=
  match dict_get (distanceToTerminal g) (starting_symbol g) with
  | Some d => Ret d
  | None => Raise KeyError
  end.
End GrammarOps.

(** ** The reachability and depth analysis: [Grammar.preprocess] *)

(** [d[a][b]] on the nested [defaultdict] [abstract_dist_to_t]: reading
    creates the missing entries with the default [1000000]. *)
Definition adt_read (adt : list (ty * list (ty * Z))) (a b : ty)
  : Z * list (ty * list (ty * Z)) :=
  let inner := default [] (dict_get adt a) in
  match dict_get inner b with
  | Some v => (v, dict_set adt a inner)
  | None => (INF, dict_set adt a (dict_set inner b INF))
  end.

Definition adt_write (adt : list (ty * list (ty * Z))) (a b : ty) (v : Z)
  : list (ty * list (ty * Z)) :=
  dict_set adt a (dict_set (default [] (dict_get adt a)) b v).

(** The state the fixpoint loop works on: the grammar (its
    [distanceToTerminal] and [abstract_dist_to_t] are rewritten), the local
    [reachability] dictionary and the [changed] flag. *)
Record pp_state : Type := {
  pp_g : Grammar;
  pp_reach : list (ty * list ty);
  pp_changed : bool
}.

Section Preprocess.
Variable CT : class_table.

Local Open Scope out_scope.

(** The local function [process_reachability(src, dsts)]. *)
Definition process_reachability (reach : list (ty * list ty)) (src : ty) (dsts : list ty)
  : list (ty * list ty) * bool :=
  let src := strip_annotations src in
  let reach := dict_set reach src (default [] (dict_get reach src)) in
  fold_left (fun (acc : list (ty * list ty) * bool) prod =>
    let prod := strip_annotations prod in
    let r := default [] (dict_get (fst acc) prod) in
    let r1 := set_add src r in
    let src_reach := if decide (prod = src) then r1 else default [] (dict_get (fst acc) src) in
    let r2 := set_union r1 src_reach in
    (dict_set (fst acc) prod r2,
     snd acc || negb (Nat.eqb (length r2) (length r)))) dsts (reach, false).

(** The body of [for prod in prods] for an abstract symbol: the running
    minimum [val] and the bookkeeping of [abstract_dist_to_t]. *)
Definition abstract_step (sym : ty) (acc : Z * pp_state) (prod : ty) : outcome (Z * pp_state) :=
  let '(val, st) := acc in
  let g := pp_g st in
  match dict_get (distanceToTerminal g) prod with
  | None => Raise KeyError
  | Some dprod =>
    let val := Z.min val (Z.b2z (expansion_depthing g) + dprod) in
    let '(old, adt) := adt_read (abstract_dist_to_t g) sym prod in
    let '(adt, ch) := if 1 <? old then (adt_write adt sym prod 1, true)
                      else (adt, pp_changed st) in
    let '(adt, ch) :=
      match dict_get adt prod with
      | None => (adt, ch)
      | Some items =>
          fold_left (fun (a : list (ty * list (ty * Z)) * bool) (it : ty * Z) =>
            let '(currdist, adt1) := adt_read (fst a) sym (fst it) in
            let candidate := snd it + 1 in
            if candidate <? currdist
            then (adt_write adt1 sym (fst it) candidate, true)
            else (adt1, snd a)) items (adt, ch)
      end in
    Ret (val, {| pp_g := with_abstract_dist_to_t g adt;
                 pp_reach := pp_reach st; pp_changed := ch |})
  end.

(** [max(1 + self.get_distance_to_terminal(argt) for (_, argt) in args)] *)
Fixpoint max_field_distance (g : Grammar) (args : list (string * ty)) : outcome Z :=
  match args with
  | [] => Raise ValueError
  | a :: rest =>
      d <~ get_distance_to_terminal g (snd a);;
      match rest with
      | [] => Ret (1 + d)
      | _ => m <~ max_field_distance g rest;; Ret (Z.max (1 + d) m)
      end
  end.

(** The body of [for sym in all_sym]. *)
Definition preprocess_sym (st : pp_state) (sym : ty) : outcome pp_state :=
  let g := pp_g st in
  match dict_get (distanceToTerminal g) sym with
  | None => Raise KeyError
  | Some old_val =>
    vs <~ (if is_abstract CT sym then
             match dict_get (alternatives g) sym with
             | Some prods =>
                 r <~ ofold_left (abstract_step sym) prods (old_val, st);;
                 let '(reach, ch) := process_reachability (pp_reach (snd r)) sym prods in
                 Ret (fst r, {| pp_g := pp_g (snd r); pp_reach := reach;
                                pp_changed := pp_changed (snd r) || ch |})
             | None => Ret (old_val, st)
             end
           else if is_terminal CT sym (non_terminals g) then
             if (bool_decide (sym = TInt) || bool_decide (sym = TFloat) || bool_decide (sym = TStr))
                && negb (expansion_depthing g)
             then Ret (0, st) else Ret (1, st)
           else
             let args := get_arguments CT sym in
             match args with
             | [] => Raise AssertionError
             | _ =>
               val <~ max_field_distance g args;;
               let '(reach, ch) := process_reachability (pp_reach st) sym (map snd args) in
               Ret (val, {| pp_g := g; pp_reach := reach; pp_changed := pp_changed st || ch |})
             end);;
    let '(val, st1) := vs in
    if val <? old_val
    then Ret {| pp_g := with_distanceToTerminal (pp_g st1)
                          (dict_set (distanceToTerminal (pp_g st1)) sym val);
                pp_reach := pp_reach st1; pp_changed := true |}
    else Ret st1
  end.

(** [while changed: changed = False; for sym in all_sym: ...] *)
Fixpoint preprocess_loop (fuel : nat) (all_sym : list ty) (st : pp_state) : outcome pp_state :=
  match fuel with
  | O => Diverge
  | S fuel' =>
      st' <~ ofold_left preprocess_sym all_sym
               {| pp_g := pp_g st; pp_reach := pp_reach st; pp_changed := false |};;
      if pp_changed st' then preprocess_loop fuel' all_sym st' else Ret st'
  end.

(** [Grammar.preprocess] *)
Definition preprocess (fuel : nat) (g : Grammar) : outcome Grammar :=
  let all_sym := snd (get_all_symbols g) in
  let dist := fold_left (fun d s => dict_set d s INF) all_sym (distanceToTerminal g) in
  st <~ preprocess_loop fuel all_sym
          {| pp_g := with_distanceToTerminal g dist; pp_reach := []; pp_changed := true |};;
  let rec := filter (fun sym => set_mem sym (default [] (dict_get (pp_reach st) sym))) all_sym in
  Ret (with_recursive_prods (pp_g st) (set_union (recursive_prods (pp_g st)) rec)).
End Preprocess.

(** ** Objects, the heap and the random source *)

(** What a field or a list slot holds.  A [Future] is the placeholder of a
    deferred expansion: owner, field name, remaining depth and the closure
    [lambda d: expand_node(r, g, wrapper, d, argt, argn, context)], kept as
    the values of its free variables. *)
Inductive value : Type :=
| VNone
| VInt (z : Z)
| VFloat (q : Q)
| VStr (s : string)
| VRef (l : nat)
| VFuture (parent : nat) (name : string) (depth : Z)
          (argt : ty) (argn : string) (context : list (string * ty)).

(** The derived metadata [depth], [distance_to_term] and [nodes], which
    [relabel_nodes] sets together. *)
Record label : Type := {
  depth : Z;
  distance_to_term : Z;
  nodes : Z
}.

(** A heap cell is an instance of a class, with its attributes in the order
    of their creation, or a Python list. *)
Inductive cell : Type :=
| CObj (cls : ty) (fields : list (string * value)) (lab : option label)
| CList (items : list value).

Abbreviation heap := (list cell).

(** The caller-supplied random source: a state and the raw draws of the
    uniform integer and the uniform float. *)
Class Source (R : Type) : Type := {
  draw_int : R -> Z -> Z -> Z * R;
  draw_float : R -> Q -> Q -> Q * R
}.

Record world (R : Type) : Type := {
  w_heap : heap;
  w_rng : R;
  w_gengy : gengy_state
}.
Arguments w_heap {R} w.
Arguments w_rng {R} w.
Arguments w_gengy {R} w.

Definition M (R A : Type) : Type := world R -> outcome A * world R.

Definition mret {R A} (a : A) : M R A := fun w => (Ret a, w).
Definition mraise {R A} (e : exn) : M R A := fun w => (Raise e, w).
Definition mdiverge {R A} : M R A := fun w => (Diverge, w).
Definition mlift {R A} (o : outcome A) : M R A := fun w => (o, w).

Definition mbind {R A B} (m : M R A) (k : A -> M R B) : M R B :=
  fun w =>
    match m w with
    | (Ret a, w') => k a w'
    | (Raise e, w') => (Raise e, w')
    | (Diverge, w') => (Diverge, w')
    end.

(** [try: m except: h] with a bare [except]: every exception is caught,
    whatever the state the attempt left behind. *)
Definition try_except {R A} (m : M R A) (h : M R A) : M R A :=
  fun w =>
    match m w with
    | (Raise _, w') => h w'
    | r => r
    end.

Declare Scope m_scope.
Delimit Scope m_scope with M.
Notation "x <- m ;; k" := (mbind m (fun x => k))
  (at level 20, m at level 99, k at level 200, only parsing) : m_scope.

(** Left-to-right iteration of a stateful step. *)
Fixpoint mfold {R A B} (f : A -> B -> M R A) (l : list B) (a : A) : M R A :=
  match l with
  | [] => mret a
  | x :: l' => mbind (f a x) (mfold f l')
  end.

Section Heap.
Context {R : Type}.

Local Open Scope m_scope.

Definition with_heap (w : world R) (h : heap) : world R :=
  {| w_heap := h; w_rng := w_rng w; w_gengy := w_gengy w |}.

Definition with_rng (w : world R) (r : R) : world R :=
  {| w_heap := w_heap w; w_rng := r; w_gengy := w_gengy w |}.

Definition alloc (c : cell) : M R nat :=
  fun w => (Ret (length (w_heap w)), with_heap w (w_heap w ++ [c])).

Definition read (l : nat) : M R cell :=
  fun w => match w_heap w !! l with
           | Some c => (Ret c, w)
           | None => (Raise BadReference, w)
           end.

Definition write (l : nat) (c : cell) : M R unit :=
  fun w => (Ret tt, with_heap w (<[l := c]> (w_heap w))).

(** [type(v)] *)
Definition type_of (v : value) : M R ty :=
  match v with
  | VNone => mret TNoneType
  | VInt _ => mret TInt
  | VFloat _ => mret TFloat
  | VStr _ => mret TStr
  | VFuture _ _ _ _ _ _ => mret TFutureCls
  | VRef l =>
      c <- read l;;
      match c with
      | CObj cls _ _ => mret cls
      | CList _ => mret TListCls
      end
  end.

(** [getattr(o, name)] for a field of an object. *)
Definition getattr (o : value) (name : string) : M R value :=
  match o with
  | VRef l =>
      c <- read l;;
      match c with
      | CObj _ fields _ =>
          match dict_get fields name with
          | Some v => mret v
          | None => mraise AttributeError
          end
      | CList _ => mraise AttributeError
      end
  | _ => mraise AttributeError
  end.

(** [setattr(o, name, v)] *)
Definition setattr (o : nat) (name : string) (v : value) : M R unit :=
  c <- read o;;
  match c with
  | CObj cls fields lab => write o (CObj cls (dict_set fields name v) lab)
  | CList _ => mraise AttributeError
  end.

(** The metadata of an object, if it has been labelled:
    [hasattr(o, "nodes")]. *)
Definition get_label (o : value) : M R (option label) :=
  match o with
  | VRef l =>
      c <- read l;;
      match c with
      | CObj _ _ lab => mret lab
      | CList _ => mret None
      end
  | _ => mret None
  end.

(** [o.nodes], [o.depth], [o.distance_to_term] *)
Definition the_label (o : value) : M R label :=
  lab <- get_label o;;
  match lab with
  | Some lb => mret lb
  | None => mraise AttributeError
  end.

Definition set_label (l : nat) (lb : label) : M R unit :=
  c <- read l;;
  match c with
  | CObj cls fields _ => write l (CObj cls fields (Some lb))
  | CList _ => mraise AttributeError
  end.
End Heap.

Section Random.
Context {R : Type} `{Source R}.

Local Open Scope m_scope.

(** Modelled from the spec: [core.random.sources] is not among the
    sources; the source exposes a uniform integer on a closed range,
    which is empty when the upper bound is below the lower one (Python's
    [randint] raises [ValueError] then, without drawing). *)
Definition randint (a b : Z) : M R Z :=
  fun w =>
    if b <? a then (Raise ValueError, w)
    else let '(x, r) := draw_int (w_rng w) a b in
         (Ret (a + (x - a) mod (b - a + 1)), with_rng w r).

(** Modelled from the spec: the uniform float of the random source. *)
Definition random_float_between (a b : Q) : M R Q :=
  fun w => let '(x, r) := draw_float (w_rng w) a b in (Ret x, with_rng w r).

(** Modelled from the spec: [Source.choice], the uniform choice among the
    elements of a list, by one uniform integer draw. *)
Definition choice {A : Type} (l : list A) : M R A :=
  i <- randint 0 (Z.of_nat (length l) - 1);;
  match l !! Z.to_nat i with
  | Some x => mret x
  | None => mraise IndexError
  end.

(** Modelled from the spec: [Source.choice_weighted], the weighted choice:
    one uniform float below the total weight selects the first element
    whose accumulated weight exceeds it. *)
Fixpoint pick_weighted {A : Type} (l : list A) (ws : list Q) (acc x : Q) : option A :=
  match l, ws with
  | a :: l', w :: ws' =>
      if Qle_bool (acc + w) x then pick_weighted l' ws' (acc + w)%Q x else Some a
  | _, _ => None
  end.

Definition choice_weighted {A : Type} (l : list A) (ws : list Q) : M R A :=
  x <- random_float_between 0%Q (fold_left Qplus ws 0%Q);;
  match pick_weighted l ws 0%Q x with
  | Some a => mret a
  | None => match l with a :: _ => mret a | [] => mraise IndexError end
  end.

(** [sys.maxsize] *)
Definition maxsize : Z := 2 ^ 63 - 1.

Definition random_int : M R value :=
  z <- randint (- (maxsize - 1)) maxsize;; mret (VInt z).

Definition random_float : M R value :=
  q <- random_float_between (-100)%Q 100%Q;; mret (VFloat q).
End Random.

(** Left-to-right [map] of a stateful function, as a list comprehension
    evaluates its elements. *)
Fixpoint mmap {R A B} (f : A -> M R B) (l : list A) : M R (list B) :=
  match l with
  | [] => mret []
  | x :: l' => mbind (f x) (fun y => mbind (mmap f l') (fun ys => mret (y :: ys)))
  end.

(** The leaf values a metahandler can produce. *)
Inductive scalar : Type :=
| SInt (z : Z)
| SFloat (q : Q)
| SStr (s : string).

Definition value_of_scalar (s : scalar) : value :=
  match s with
  | SInt z => VInt z
  | SFloat q => VFloat q
  | SStr s => VStr s
  end.

(** ** The random tree synthesizer *)

Section Synthesis.
Context {R : Type} `{Source R}.
Variable CT : class_table.

(** Modelled from the spec: [metahandlers.base] and the concrete
    metahandlers are plugins outside the core; [generate] receives the
    random source, the grammar, the depth budget, the base type, the
    field name and the context, and delivers a leaf value of the
    annotated domain. *)
Variable generate :
  metahandler -> Grammar -> Z -> ty -> string -> list (string * ty) -> R -> outcome scalar * R.

Local Open Scope m_scope.

(** [filter_choices] *)
Definition filter_choices (g : Grammar) (possible_choices : list ty) (depth : Z)
  : outcome (list ty) :=
  obind
    (ofold_left (fun acc vp =>
       match dict_get (distanceToTerminal g) vp with
       | Some d => Ret (if d <=? depth then acc ++ [vp] else acc)
       | None => Raise KeyError
       end) possible_choices [])
    (fun valid_productions =>
       if existsb (fun prod => set_mem prod (recursive_prods g)) valid_productions
       then Ret (filter (fun vp => set_mem vp (recursive_prods g)) valid_productions)
       else Ret valid_productions).

(** [random_list], with [rec] the synthesizer itself *)
Definition random_list (rec : Z -> ty -> M R value) (depth : Z) (t : ty) : M R value :=
  let inner_type := match t with TList u => u | _ => t end in
  size <- randint 0 (depth - 1);;
  items <- mmap (fun _ => rec (depth - 1) inner_type) (seq 0 (Z.to_nat size));;
  l <- alloc (CList items);;
  mret (VRef l).

(** [apply_metahandler] *)
Definition apply_metahandler (g : Grammar) (depth : Z) (t : ty) (argn : string)
    (context : list (string * ty)) : M R value :=
  match t with
  | TAnnotated base m =>
      let base_type := match base with TList u => u | _ => base end in
      fun w =>
        let '(o, r) := generate m g depth base_type argn context (w_rng w) in
        (match o with
         | Ret s => Ret (value_of_scalar s)
         | Raise e => Raise e
         | Diverge => Diverge
         end, with_rng w r)
  | _ => mraise AttributeError
  end.

(** The constructor call of [expand_node], with [None] for every
    argument. *)
Definition instantiate (t : ty) (args : list (string * ty)) : M R value :=
  match t with
  | TStr => mret (VStr "")
  | TInt => mret (VInt 0)
  | TFloat => mret (VFloat 0%Q)
  | TNoneType => mret VNone
  | TListCls | TList _ => l <- alloc (CList []);; mret (VRef l)
  | TFutureCls | TAnnotated _ _ => mraise TypeError
  | TObject | TABC | TClass _ =>
      l <- alloc (CObj t (map (fun a => (fst a, VNone)) args) None);;
      mret (VRef l)
  end.

(** The choice among the valid productions: weighted as soon as one of
    them carries an explicit ["weight"], uniform otherwise. *)
Definition choose_rule (valid_productions : list ty) : M R ty :=
  fun w =>
    if existsb (fun p => bool_decide (is_Some (get_gengy_weight (w_gengy w) p)))
               valid_productions
    then choice_weighted valid_productions
           (map (fun p => default 1%Q (get_gengy_weight (w_gengy w) p)) valid_productions) w
    else choice valid_productions w.

(** The branch "Normal production" of [expand_node], called with the
    [wrapper] of [PI_Grow], which packs every field into a [Future].  The
    closure handed to the wrapper refers to the loop variables [argn] and
    [argt]; it runs after the loop has ended, when both hold the
    constructor's last argument. *)
Definition expand_production (depth : Z) (starting_symbol : ty) : M R value :=
  let args := get_arguments CT starting_symbol in
  obj <- instantiate starting_symbol args;;
  let context := args in
  let late := List.last args ("", TNoneType) in
  match obj with
  | VRef o =>
      u <- mfold (fun _ (a : string * ty) =>
             setattr o (fst a)
               (VFuture o (fst a) (depth - 1) (snd late) (fst late) context))
             args tt;;
      mret obj
  | _ => mret obj
  end.

(** The body of [expand_node] after its entry checks; [rec] is
    [expand_node] itself, called with the default [argname] and
    [context]. *)
Definition expand_symbol (rec : Z -> ty -> M R value) (g : Grammar) (depth : Z)
    (starting_symbol : ty) (argname : string) (context : list (string * ty)) : M R value :=
  match starting_symbol with
  | TInt => random_int
  | TFloat => random_float
  | TList _ => random_list rec depth starting_symbol
  | TAnnotated _ _ => apply_metahandler g depth starting_symbol argname context
  | _ =>
    if negb (set_mem starting_symbol (all_nodes g))
    then mraise (GeneticEngineError (SymbolNotInGrammar starting_symbol))
    else
      match dict_get (alternatives g) starting_symbol with
      | Some compatible_productions =>
          valid_productions <- mlift (filter_choices g compatible_productions depth);;
          match valid_productions with
          | [] => mraise (GeneticEngineError (NoProductions starting_symbol depth))
          | _ => rule <- choose_rule valid_productions;; rec depth rule
          end
      | None => expand_production depth starting_symbol
      end
  end.

(** [expand_node] *)
Fixpoint expand_node (fuel : nat) (g : Grammar) (depth : Z) (starting_symbol : ty)
    (argname : string) (context : list (string * ty)) : M R value :=
  if depth <? 0 then mraise (GeneticEngineError RecursionDepthReached)
  else
    d <- mlift (get_distance_to_terminal g starting_symbol);;
    if depth <? d
    then mraise (GeneticEngineError (NoDepthSufficient starting_symbol depth d))
    else
      match fuel with
      | O => mdiverge
      | S fuel' =>
          expand_symbol (fun d t => expand_node fuel' g d t "" []) g depth
            starting_symbol argname context
      end.

(** The body of [extract_futures]; [rec] is the recursive call. *)
Definition extract_futures_body (rec : value -> M R (list value)) (obj : value)
  : M R (list value) :=
  match obj with
  | VRef l =>
      c <- read l;;
      match c with
      | CList items =>
          mfold (fun futures el =>
            match el with
            | VFuture _ _ _ _ _ _ => mret (futures ++ [el])
            | _ => fs <- rec el;; mret (futures ++ fs)
            end) items []
      | CObj cls _ _ =>
          mfold (fun futures (a : string * ty) =>
            v <- getattr obj (fst a);;
            match v with
            | VFuture _ _ _ _ _ _ => mret (futures ++ [v])
            | _ => mret futures
            end) (get_arguments CT cls) []
      end
  | _ => mret []
  end.

(** [extract_futures] *)
Fixpoint extract_futures (fuel : nat) (obj : value) : M R (list value) :=
  match fuel with
  | O => mdiverge
  | S fuel' => extract_futures_body (extract_futures fuel') obj
  end.

(** [get_property_names] *)
Definition get_property_names (cls : ty) : list string :=
  map fst (get_arguments CT cls).

(** The children that [relabel_nodes] visits below a non-terminal. *)
Definition children_of (i : value) : M R (list value) :=
  match i with
  | VRef l =>
      c <- read l;;
      match c with
      | CList items => mret items
      | CObj cls _ _ => mmap (getattr i) (get_property_names cls)
      end
  | _ => mret []
  end.

(** The stores [i.depth = ...; i.distance_to_term = ...; i.nodes = ...],
    which [relabel_nodes] performs on everything but lists. *)
Definition store_label (i : value) (lb : label) : M R unit :=
  match i with
  | VRef l =>
      c <- read l;;
      match c with
      | CList _ => mret tt
      | CObj _ _ _ => set_label l lb
      end
  | _ => mret tt
  end.

(** The body of the inner function [relabel_nodes] of
    [relabel_nodes_of_trees]; it returns
    [(number_of_nodes, distance_to_term)]. *)
Definition relabel_body (rec : value -> Z -> M R (Z * Z)) (non_terminals : list ty)
    (i : value) (depth : Z) : M R (Z * Z) :=
  t <- type_of i;;
  if is_terminal CT t non_terminals then
    u <- (if negb (is_builtin t)
          then store_label i {| depth := depth; distance_to_term := 1; nodes := 0 |}
          else mret tt);;
    mret (0, 1)
  else
    children <- children_of i;;
    match children with
    | [] => mraise AssertionError
    | _ =>
      properties_of_children <- mmap (fun child => rec child (depth + 1)) children;;
      let number_of_nodes := 1 + fold_right Z.add 0 (map fst properties_of_children) in
      let distance_to_term :=
        1 + fold_right Z.max (default 0 (head (map snd properties_of_children)))
              (map snd properties_of_children) in
      u <- store_label i {| depth := depth; distance_to_term := distance_to_term;
                            nodes := number_of_nodes |};;
      mret (number_of_nodes, distance_to_term)
    end.

Fixpoint relabel_nodes (fuel : nat) (non_terminals : list ty) (i : value) (depth : Z)
  : M R (Z * Z) :=
  match fuel with
  | O => mdiverge
  | S fuel' => relabel_body (relabel_nodes fuel' non_terminals) non_terminals i depth
  end.

(** [relabel_nodes_of_trees] *)
Definition relabel_nodes_of_trees (fuel : nat) (i : value) (non_terminals : list ty)
  : M R value :=
  u <- relabel_nodes fuel non_terminals i 1;; mret i.

(** One round of the loop of [PI_Grow]: a future is drawn from the queue,
    forced, and stored in its owner; the futures of the new object join
    the queue. *)
Definition PI_Grow_step (fuel : nat) (g : Grammar) (prod_queue : list value)
  : M R (list value) :=
  index <- randint 0 (Z.of_nat (length prod_queue) - 1);;
  match prod_queue !! Z.to_nat index with
  | None => mraise IndexError
  | Some future =>
    let rest := delete (Z.to_nat index) prod_queue in
    obj <- (match future with
            | VFuture parent name d argt argn context =>
                obj <- expand_node fuel g d argt argn context;;
                u <- setattr parent name obj;;
                mret obj
            | _ => mret future
            end);;
    futures <- extract_futures fuel obj;;
    mret (rest ++ futures)
  end.

(** [while prod_queue: ...] *)
Fixpoint PI_Grow_loop (steps fuel : nat) (g : Grammar) (prod_queue : list value)
  : M R unit :=
  match prod_queue with
  | [] => mret tt
  | _ =>
    match steps with
    | O => mdiverge
    | S steps' =>
        q <- PI_Grow_step fuel g prod_queue;;
        PI_Grow_loop steps' fuel g q
    end
  end.

(** [PI_Grow], also known as [random_node] *)
Definition PI_Grow (fuel : nat) (g : Grammar) (depth : Z) (starting_symbol : ty)
  : M R value :=
  root <- expand_node fuel g depth starting_symbol "" [];;
  u <- PI_Grow_loop fuel fuel g [root];;
  relabel_nodes_of_trees fuel root (non_terminals g).

Definition random_node := PI_Grow.

(** Modelled from the spec: [core.tree.TreeNode] is not among the
    sources; a tree node exposes its size, depth and distance-to-term, so
    [isinstance(ind, TreeNode)] holds of the objects that carry the
    derived metadata. *)
Definition assert_TreeNode (ind : value) : M R unit :=
  lab <- get_label ind;;
  match lab with
  | Some _ => mret tt
  | None => mraise AssertionError
  end.

(** [random_individual] *)
Definition random_individual (fuel : nat) (g : Grammar) (max_depth : Z) : M R value :=
  match get_min_tree_depth g with
  | Ret d =>
      if d <=? max_depth
      then ind <- random_node fuel g max_depth (starting_symbol g);;
           u <- assert_TreeNode ind;;
           mret ind
      else if d =? 1000000
           then mraise (GeneticEngineError (MinimalDepthIsDefault d))
           else mraise (GeneticEngineError (MaxDepthTooSmall max_depth d))
  | Raise e => mraise e
  | Diverge => mdiverge
  end.
End Synthesis.

(** ** Mutation and crossover *)

Section Variation.
Context {R : Type} `{Source R}.
Variable CT : class_table.
Variable generate :
  metahandler -> Grammar -> Z -> ty -> string -> list (string * ty) -> R -> outcome scalar * R.

Local Open Scope m_scope.

(** The copy of the cell at [l]: [copy.deepcopy] creates the copy first and
    enters it in the memo, then copies the state into it; [rec] is the
    recursive call. *)
Definition deepcopy_cell (rec : list (nat * nat) -> value -> M R (list (nat * nat) * value))
    (memo : list (nat * nat)) (l : nat) : M R (list (nat * nat) * value) :=
  c <- read l;;
  match c with
  | CObj cls fields lab =>
      l' <- alloc (CObj cls [] None);;
      r <- mfold (fun (acc : list (nat * nat) * list (string * value))
                      (f : string * value) =>
             r <- rec (fst acc) (snd f);;
             mret (fst r, snd acc ++ [(fst f, snd r)]))
           fields ((l, l') :: memo, []);;
      u <- write l' (CObj cls (snd r) lab);;
      mret (fst r, VRef l')
  | CList items =>
      l' <- alloc (CList []);;
      r <- mfold (fun (acc : list (nat * nat) * list value) (x : value) =>
             r <- rec (fst acc) x;;
             mret (fst r, snd acc ++ [snd r]))
           items ((l, l') :: memo, []);;
      u <- write l' (CList (snd r));;
      mret (fst r, VRef l')
  end.

(** [copy.deepcopy]; a reference met again is answered from the memo. *)
Fixpoint deepcopy (fuel : nat) (memo : list (nat * nat)) (v : value)
  : M R (list (nat * nat) * value) :=
  match v with
  | VRef l =>
      match dict_get memo l with
      | Some l' => mret (memo, VRef l')
      | None =>
        match fuel with
        | O => mdiverge
        | S fuel' => deepcopy_cell (deepcopy fuel') memo l
        end
      end
  | VFuture parent name d argt argn context =>
      match fuel with
      | O => mdiverge
      | S fuel' =>
        r <- deepcopy fuel' memo (VRef parent);;
        match snd r with
        | VRef parent' => mret (fst r, VFuture parent' name d argt argn context)
        | _ => mraise BadReference
        end
      end
  | _ => mret (memo, v)
  end.

(** [i.__class__.__bases__[0]] *)
Definition first_base (i : value) : M R ty :=
  t <- type_of i;;
  match bases CT t with
  | b :: _ => mret b
  | [] => mraise IndexError
  end.

(** [i.__annotations__]: the annotations a node class declares; a class
    that declares none has no such attribute. *)
Definition annotations (i : value) : M R (list string) :=
  t <- type_of i;;
  match get_arguments CT t with
  | [] => mraise AttributeError
  | args => mret (map fst args)
  end.

(** The loop [for field in i.__annotations__] shared by [mutate_inner]
    and [tree_crossover_inner]: the counter [c] walks the labelled
    children until the subtree holding the target is found; [rec] is the
    recursive call on that child. *)
Fixpoint descend (rec : value -> M R value) (i : value) (fields : list string) (c : Z)
  : M R value :=
  match fields with
  | [] => mret i
  | field :: rest =>
      child <- getattr i field;;
      lab <- get_label child;;
      match lab with
      | Some lb =>
          let count := nodes lb in
          if c <=? count
          then n <- rec child;;
               u <- (match i with
                     | VRef l => setattr l field n
                     | _ => mraise AttributeError
                     end);;
               mret i
          else descend rec i rest (c - count)
      | None => descend rec i rest c
      end
  end.

(** The body shared by [mutate_inner] and [tree_crossover_inner]: a
    position is drawn among the [nodes] of [i]; position 0 replaces [i] by
    [replace lb t], where [lb] is the metadata of [i] and [t] its first
    base; another position descends into the fields. *)
Definition vary_body (replace : label -> ty -> M R value) (rec : value -> M R value)
    (i : value) : M R value :=
  lb <- the_label i;;
  if 0 <? nodes lb then
    c <- randint 0 (nodes lb - 1);;
    if c =? 0 then
      t <- first_base i;;
      replace lb t
    else
      fields <- annotations i;;
      descend rec i fields c
  else mret i.

(** [mutate_inner] *)
Fixpoint mutate_inner (fuel : nat) (g : Grammar) (i : value) (max_depth : Z) : M R value :=
  match fuel with
  | O => mdiverge
  | S fuel' =>
      vary_body
        (fun lb t =>
           try_except (random_node CT generate fuel g (max_depth - depth lb + 1) t) (mret i))
        (fun child => mutate_inner fuel' g child max_depth) i
  end.

(** [mutate] *)
Definition mutate (fuel : nat) (g : Grammar) (i : value) (max_depth : Z) : M R value :=
  cp <- deepcopy fuel [] i;;
  new_tree <- mutate_inner fuel g (snd cp) max_depth;;
  relabel_nodes_of_trees CT fuel new_tree (non_terminals g).

(** What [hasattr(o, "__annotations__")] and the loop over the
    annotations of [find_in_tree] visit: the fields of a node, the
    attributes of a pending [Future], nothing for builtins and lists. *)
Definition annotated_children (o : value) : M R (list value) :=
  match o with
  | VRef l =>
      c <- read l;;
      match c with
      | CObj cls _ _ => mmap (getattr o) (map fst (get_arguments CT cls))
      | CList _ => mret []
      end
  | VFuture parent name d _ _ _ => mret [VRef parent; VStr name; VInt d]
  | _ => mret []
  end.

(** The test of [find_in_tree] on the node itself. *)
Definition find_here (t : ty) (o : value) (max_depth : Z) : M R (list value) :=
  cls <- type_of o;;
  if set_mem t (bases CT cls)
  then lb <- the_label o;;
       mret (if distance_to_term lb <=? max_depth then [o] else [])
  else mret [].

(** [find_in_tree], collected into a list *)
Fixpoint find_in_tree (fuel : nat) (t : ty) (o : value) (max_depth : Z) : M R (list value) :=
  match fuel with
  | O => mdiverge
  | S fuel' =>
    here <- find_here t o max_depth;;
    children <- annotated_children o;;
    mfold (fun found child =>
             more <- find_in_tree fuel' t child max_depth;;
             mret (found ++ more)) children here
  end.

(** The replacement that [tree_crossover_inner] puts at the chosen slot:
    one of the donor's qualifying subtrees if there is any, a fresh
    subtree otherwise, and [i] itself when synthesis fails. *)
Definition crossover_replacement (fuel : nat) (g : Grammar) (i o : value) (max_depth : Z)
    (lb : label) (t : ty) : M R value :=
  options <- find_in_tree fuel t o (max_depth - depth lb + 1);;
  match options with
  | _ :: _ => choice options
  | [] => try_except (random_node CT generate fuel g (max_depth - depth lb + 1) t) (mret i)
  end.

(** [tree_crossover_inner] *)
Fixpoint tree_crossover_inner (fuel : nat) (g : Grammar) (i o : value) (max_depth : Z)
  : M R value :=
  match fuel with
  | O => mdiverge
  | S fuel' =>
      vary_body (crossover_replacement fuel g i o max_depth)
        (fun child => tree_crossover_inner fuel' g child o max_depth) i
  end.

(** [tree_crossover] *)
Definition tree_crossover (fuel : nat) (g : Grammar) (p1 p2 : value) (max_depth : Z)
  : M R (value * value) :=
  c1 <- deepcopy fuel [] p1;;
  c2 <- deepcopy fuel [] p2;;
  new_tree1 <- tree_crossover_inner fuel g (snd c1) (snd c2) max_depth;;
  relabeled_new_tree1 <- relabel_nodes_of_trees CT fuel new_tree1 (non_terminals g);;
  d2 <- deepcopy fuel [] p2;;
  d1 <- deepcopy fuel [] p1;;
  new_tree2 <- tree_crossover_inner fuel g (snd d2) (snd d1) max_depth;;
  relabeled_new_tree2 <- relabel_nodes_of_trees CT fuel new_tree2 (non_terminals g);;
  mret (relabeled_new_tree1, relabeled_new_tree2).

(** [tree_crossover_single_tree] *)
Definition tree_crossover_single_tree (fuel : nat) (g : Grammar) (p1 p2 : value)
    (max_depth : Z) : M R value :=
  c1 <- deepcopy fuel [] p1;;
  c2 <- deepcopy fuel [] p2;;
  new_tree <- tree_crossover_inner fuel g (snd c1) (snd c2) max_depth;;
  relabel_nodes_of_trees CT fuel new_tree (non_terminals g).
(** A call of one of the two variation operators of the search loop, and
    the world a sequence of such calls leaves behind. *)
Inductive variation : Type :=
| Mutate (fuel : nat) (g : Grammar) (i : value) (max_depth : Z)
| Crossover (fuel : nat) (g : Grammar) (p1 p2 : value) (max_depth : Z).

Definition run_variation (w : world R) (op : variation) : world R :=
  match op with
  | Mutate fuel g i d => snd (mutate fuel g i d w)
  | Crossover fuel g p1 p2 d => snd (tree_crossover fuel g p1 p2 d w)
  end.

Definition run_variations (ops : list variation) (w : world R) : world R :=
  fold_left run_variation ops w.
End Variation.

(** ** Production weights: [get_weights], [update_weights], [extract_grammar]

    These methods read and write the class-level [__gengy__] dictionaries;
    they are state transformers over [gengy_state]. *)

Section Weights.
Variable CT : class_table.

Local Open Scope out_scope.

(** [Grammar.get_weights] *)
Definition get_weights (g : Grammar) (gs : gengy_state) : list (ty * Q) :=
  map (fun prod => (prod, default 1%Q (get_gengy_weight gs prod))) (all_nodes g).

(** The body of [for rule in self.alternatives] in [update_weights]:
    the additive update with its running total, then the division. *)
Definition update_rule (learning_rate : Q) (extra_weights : list (ty * Q))
    (weights : list (ty * Q)) (prods : list ty) : outcome (list (ty * Q)) :=
  r <~ ofold_left (fun (acc : list (ty * Q) * Q) prod =>
         match dict_get (fst acc) prod, dict_get extra_weights prod with
         | Some w, Some e =>
             let w' := (w + learning_rate * e)%Q in
             Ret (dict_set (fst acc) prod w', (snd acc + w')%Q)
         | _, _ => Raise KeyError
         end) prods (weights, 0%Q);;
  ofold_left (fun ws prod =>
    match dict_get ws prod with
    | Some w =>
        if Qeq_bool (snd r) 0 then Raise ZeroDivisionError
        else Ret (dict_set ws prod (w / snd r)%Q)
    | None => Raise KeyError
    end) prods (fst r).

(** The weights [update_weights] arrives at before it stores them. *)
Definition normalized_weights (g : Grammar) (learning_rate : Q)
    (extra_weights : list (ty * Q)) (gs : gengy_state) : outcome (list (ty * Q)) :=
  ws <~ ofold_left (fun ws (rule : ty * list ty) =>
          update_rule learning_rate extra_weights ws (snd rule))
        (alternatives g) (get_weights g gs);;
  ofold_left (fun ws (kv : ty * Q) =>
    if Qle_bool 0 (snd kv) && Qle_bool (snd kv) 1 then Ret ws else Raise AssertionError)
    ws ws.

(** The stores into [cls.__dict__["__gengy__"]["weight"]]. *)
Fixpoint store_weights (weights : list (ty * Q)) (cs : list ty) (gs : gengy_state)
  : outcome unit * gengy_state :=
  match cs with
  | [] => (Ret tt, gs)
  | c :: cs' =>
      match dict_get weights c with
      | None => (Raise KeyError, gs)
      | Some w =>
          match set_gengy_weight gs c w with
          | Ret gs' => store_weights weights cs' gs'
          | Raise e => (Raise e, gs)
          | Diverge => (Diverge, gs)
          end
      end
  end.

(** [Grammar.update_weights]; the grammar returned is [self], after it
    has been initialised again and preprocessed. *)
Definition update_weights (fuel : nat) (g : Grammar) (learning_rate : Q)
    (extra_weights : list (ty * Q)) (gs : gengy_state) : outcome Grammar * gengy_state :=
  match normalized_weights g learning_rate extra_weights gs with
  | Raise e => (Raise e, gs)
  | Diverge => (Diverge, gs)
  | Ret weights =>
      match store_weights weights (starting_symbol g :: considered_subtypes g) gs with
      | (Raise e, gs') => (Raise e, gs')
      | (Diverge, gs') => (Diverge, gs')
      | (Ret _, gs') =>
          (g0 <~ Grammar_init CT (starting_symbol g) (considered_subtypes g)
                   (expansion_depthing g);;
           g1 <~ register_type CT fuel g0 (starting_symbol g);;
           preprocess CT fuel g1, gs')
      end
  end.

(** [extract_grammar] *)
Definition extract_grammar (fuel : nat) (considered_subtypes : list ty)
    (starting_symbol : ty) (expansion_depthing : bool) (gs : gengy_state)
  : outcome Grammar * gengy_state :=
  match (g0 <~ Grammar_init CT starting_symbol considered_subtypes expansion_depthing;;
         g1 <~ register_type CT fuel g0 starting_symbol;;
         preprocess CT fuel g1) with
  | Ret g =>
      if existsb (fun p => bool_decide (is_Some (get_gengy_weight gs p))) considered_subtypes
      then update_weights fuel g 1%Q (get_weights g gs) gs
      else (Ret g, gs)
  | Raise e => (Raise e, gs)
  | Diverge => (Diverge, gs)
  end.
End Weights.

(** ** Reading a tree off the heap *)

(** The tree below a value, as [str] and the tests see it; a pending
    [Future] shows its field name, depth and closure variables. *)
#[warnings="-register-all"]
Inductive tree : Type :=
| TrNone
| TrInt (z : Z)
| TrFloat (q : Q)
| TrStr (s : string)
| TrPending (name : string) (depth : Z) (argt : ty) (argn : string)
| TrNode (cls : ty) (fields : list (string * tree)) (lab : option label)
| TrSeq (items : list tree).

Fixpoint omap_list {A B : Type} (f : A -> option B) (l : list A) : option (list B) :=
  match l with
  | [] => Some []
  | x :: l' =>
      match f x, omap_list f l' with
      | Some y, Some ys => Some (y :: ys)
      | _, _ => None
      end
  end.

Fixpoint tree_of (fuel : nat) (h : heap) (v : value) : option tree :=
  match v with
  | VNone => Some TrNone
  | VInt z => Some (TrInt z)
  | VFloat q => Some (TrFloat q)
  | VStr s => Some (TrStr s)
  | VFuture _ name d argt argn _ => Some (TrPending name d argt argn)
  | VRef l =>
      match fuel with
      | O => None
      | S fuel' =>
          match h !! l with
          | Some (CObj cls fields lab) =>
              match omap_list (fun f : string * value =>
                      match tree_of fuel' h (snd f) with
                      | Some t => Some (fst f, t)
                      | None => None
                      end) fields with
              | Some fs => Some (TrNode cls fs lab)
              | None => None
              end
          | Some (CList items) =>
              match omap_list (tree_of fuel' h) items with
              | Some ts => Some (TrSeq ts)
              | None => None
              end
          | None => None
          end
      end
  end.

(** The structure of a tree: its classes and field values, without the
    derived metadata. *)
Fixpoint erase (t : tree) : tree :=
  match t with
  | TrNode cls fields _ => TrNode cls (map (fun f => (fst f, erase (snd f))) fields) None
  | TrSeq items => TrSeq (map erase items)
  | _ => t
  end.

(** ** A worked grammar: [Expr -> Plus(Expr, Expr) | One()] *)

Module Example.
Definition Expr := TClass "Expr".
Definition Plus := TClass "Plus".
Definition One := TClass "One".

Definition CT : class_table :=
  [ ("Expr", {| c_bases := [TABC]; c_abstract := true; c_typed := true; c_args := [] |});
    ("Plus", {| c_bases := [Expr]; c_abstract := false; c_typed := true;
                c_args := [("left", Expr); ("right", Expr)] |});
    ("One", {| c_bases := [Expr]; c_abstract := false; c_typed := true; c_args := [] |}) ].

(** A random source that replays a tape of raw draws. *)
#[global] Instance tape_source : Source (list Z) := {|
  draw_int := fun r a b => match r with [] => (a, []) | x :: r' => (x, r') end;
  draw_float := fun r a b => match r with [] => (a, []) | x :: r' => (inject_Z x, r') end
|}.

Definition no_generate (m : metahandler) (g : Grammar) (d : Z) (t : ty) (n : string)
    (c : list (string * ty)) (r : list Z) : outcome scalar * list Z :=
  (Raise AttributeError, r).

Definition world0 (tape : list Z) : world (list Z) :=
  {| w_heap := []; w_rng := tape; w_gengy := [] |}.

Definition grammar : outcome Grammar :=
  fst (extract_grammar CT 20 [Plus; One] Expr false []).
End Example.

(** ** A grammar without finite completion *)

Module Unproductive.
(** [Expr -> Rec(Expr)]: no tree of finite depth exists. *)
Definition Expr := TClass "Expr".
Definition Rec := TClass "Rec".

Definition CT : class_table :=
  [ ("Expr", {| c_bases := [TABC]; c_abstract := true; c_typed := true; c_args := [] |});
    ("Rec", {| c_bases := [Expr]; c_abstract := false; c_typed := true;
               c_args := [("child", Expr)] |}) ].

Definition grammar : Grammar :=
  {| starting_symbol := Expr;
     alternatives := [(Expr, [Rec])];
     distanceToTerminal :=
       [(TInt, 0); (TStr, 0); (TFloat, 0); (Rec, 1000000); (Expr, 1000000)];
     all_nodes := [Expr; Rec];
     recursive_prods := [Rec; Expr];
     terminals := [];
     non_terminals := [Rec; Expr];
     abstract_dist_to_t := [(Expr, [(Rec, 1)])];
     considered_subtypes := [Rec];
     expansion_depthing := false |}.
End Unproductive.

(** ** Predicates of the properties *)

(** The two errors with which [expand_node] refuses a depth budget. *)
Definition is_budget_error (e : exn) : bool :=
  match e with
  | GeneticEngineError RecursionDepthReached => true
  | GeneticEngineError (NoDepthSufficient _ _ _) => true
  | _ => false
  end.


(** The equations of the distance analysis, with [1000000] absorbing:
    what the distance of a symbol is once the loop of [preprocess] has
    come to rest. *)
Section DistanceEquations.
Variable CT : class_table.

Local Open Scope out_scope.

Definition min_step (g : Grammar) (val : Z) (prod : ty) : outcome Z :=
  match dict_get (distanceToTerminal g) prod with
  | Some d => Ret (Z.min val (Z.b2z (expansion_depthing g) + d))
  | None => Raise KeyError
  end.

Definition is_primitive (t : ty) : bool :=
  bool_decide (t = TInt) || bool_decide (t = TFloat) || bool_decide (t = TStr).

Definition distance_equation (g : Grammar) (sym : ty) : outcome Z :=
  if is_abstract CT sym then
    match dict_get (alternatives g) sym with
    | Some prods => ofold_left (min_step g) prods INF
    | None => Ret INF
    end
  else if is_terminal CT sym (non_terminals g) then
    Ret (if is_primitive sym && negb (expansion_depthing g) then 0 else 1)
  else
    match get_arguments CT sym with
    | [] => Raise AssertionError
    | args => m <~ max_field_distance g args;; Ret (Z.min INF m)
    end.

(** The value [val] that the loop body computes for [sym] from the
    current distances and the symbol's current distance [old_val]. *)
Definition val_of (g : Grammar) (old_val : Z) (sym : ty) : outcome Z :=
  if is_abstract CT sym then
    match dict_get (alternatives g) sym with
    | Some prods => ofold_left (min_step g) prods old_val
    | None => Ret old_val
    end
  else if is_terminal CT sym (non_terminals g) then
    Ret (if is_primitive sym && negb (expansion_depthing g) then 0 else 1)
  else
    match get_arguments CT sym with
    | [] => Raise AssertionError
    | args => max_field_distance g args
    end.
End DistanceEquations.

(** A grammar with a primitive field, analysed with [expansion_depthing]. *)
Module Literal.
Definition Lit := TClass "Lit".

Definition CT : class_table :=
  [ ("Lit", {| c_bases := [TObject]; c_abstract := false; c_typed := true;
               c_args := [("x", TInt)] |}) ].
End Literal.

(** Two grammars that differ at most in their distances, in
    [abstract_dist_to_t] and in their recursive productions: the fields
    that [preprocess] computes. *)
Definition same_static (g g' : Grammar) : Prop :=
  starting_symbol g = starting_symbol g' /\
  alternatives g = alternatives g' /\
  all_nodes g = all_nodes g' /\
  terminals g = terminals g' /\
  non_terminals g = non_terminals g' /\
  considered_subtypes g = considered_subtypes g' /\
  expansion_depthing g = expansion_depthing g'.

(** Pointwise order on distance dictionaries with the same keys. *)
Definition dist_le (D' D : list (ty * Z)) : Prop :=
  forall k, match dict_get D' k, dict_get D k with
            | Some a, Some b => a <= b
            | None, None => True
            | _, _ => False
            end.

(** The invariant of the loop of [preprocess]: every symbol is at
    [1000000] or at a value its equation does not exceed. *)
Definition dist_inv (CT : class_table) (all_sym : list ty) (g : Grammar) : Prop :=
  forall sym, sym ∈ all_sym ->
    exists v, dict_get (distanceToTerminal g) sym = Some v /\ v <= INF /\
              (v = INF \/ forall t, distance_equation CT g sym = Ret t -> t <= v).

(** The sum of the weights that a weight dictionary gives to a list of
    productions. *)
Definition sum_weights (ws : list (ty * Q)) (prods : list ty) : Q :=
  fold_right (fun p acc => (default 0%Q (dict_get ws p) + acc)%Q) 0%Q prods.

(** Every production is registered under one non-terminal, once. *)
Definition alternatives_disjoint (g : Grammar) : Prop :=
  NoDup (concat (map snd (alternatives g))).

(** Class-level weights for [Expr -> Plus | One]. *)
Module Weighted.
Definition gengy0 : gengy_state :=
  [("Expr", None); ("Plus", Some (1 # 1)%Q); ("One", Some (3 # 1)%Q)].

Definition grammar : Grammar :=
  {| starting_symbol := Example.Expr;
     alternatives := [(Example.Expr, [Example.Plus; Example.One])];
     distanceToTerminal :=
       [(TInt, 0); (TStr, 0); (TFloat, 0); (Example.Plus, 2); (Example.One, 1);
        (Example.Expr, 1)];
     all_nodes := [Example.Expr; Example.Plus; Example.One];
     recursive_prods := [Example.Plus; Example.Expr];
     terminals := [Example.One];
     non_terminals := [Example.Plus; Example.Expr];
     abstract_dist_to_t := [(Example.Expr, [(Example.Plus, 1); (Example.One, 1)])];
     considered_subtypes := [Example.Plus; Example.One];
     expansion_depthing := false |}.

(** A second grammar over the same classes, for another run. *)
Definition other_grammar : Grammar :=
  {| starting_symbol := Example.One;
     alternatives := [];
     distanceToTerminal := [(TInt, 0); (TStr, 0); (TFloat, 0); (Example.One, 1)];
     all_nodes := [Example.One];
     recursive_prods := [];
     terminals := [Example.One];
     non_terminals := [];
     abstract_dist_to_t := [];
     considered_subtypes := [];
     expansion_depthing := false |}.
End Weighted.

(** ** Specifications of stateful computations *)

(** [triple P m Q E]: from a world that satisfies [P], the computation [m]
    ends in a world that satisfies [Q a] if it returns [a], and in a world
    that satisfies [E] if it raises or runs out of fuel. *)
Definition triple {R A : Type} (P : world R -> Prop) (m : M R A)
    (Q : A -> world R -> Prop) (E : world R -> Prop) : Prop :=
  forall w, P w ->
    match m w with
    | (Ret a, w') => Q a w'
    | (_, w') => E w'
    end.

(** A value, or a cell, that refers to no location below [n]. *)
Definition val_above (n : nat) (v : value) : Prop :=
  match v with
  | VRef l => (n <= l)%nat
  | VFuture p _ _ _ _ _ => (n <= p)%nat
  | _ => True
  end.

Definition cell_above (n : nat) (c : cell) : Prop :=
  match c with
  | CObj _ fields _ => Forall (fun f => val_above n (snd f)) fields
  | CList items => Forall (val_above n) items
  end.

(** The region of the heap from [n] on refers only to itself. *)
Definition closed_above (n : nat) (h : heap) : Prop :=
  forall l c, (n <= l)%nat -> h !! l = Some c -> cell_above n c.

(** The frame condition of the operations that work on fresh objects: the
    cells below [n] are those of [h0], and the region from [n] on is
    closed. *)
Definition fr {R : Type} (n : nat) (h0 : heap) (w : world R) : Prop :=
  (n <= length (w_heap w))%nat /\
  (forall l, (l < n)%nat -> w_heap w !! l = h0 !! l) /\
  closed_above n (w_heap w).

(** The heap [h'] extends [h] and agrees with it on the cells of [h]. *)
Definition extends (h h' : heap) : Prop :=
  (length h <= length h')%nat /\ forall l, (l < length h)%nat -> h' !! l = h !! l.

(** The copies that a memo of [deepcopy] refers to lie in the fresh
    region. *)
Definition memo_above (n : nat) (memo : list (nat * nat)) : Prop :=
  Forall (fun p => (n <= snd p)%nat) memo.

(** ** Relocation

    The same computation run on a heap that already holds [n] cells: every
    location it creates or follows is [n] higher. *)

Definition shift_val (n : nat) (v : value) : value :=
  match v with
  | VRef l => VRef (n + l)
  | VFuture p name d argt argn ctx => VFuture (n + p) name d argt argn ctx
  | _ => v
  end.

Definition shift_cell (n : nat) (c : cell) : cell :=
  match c with
  | CObj cls fields lab => CObj cls (map (fun f => (fst f, shift_val n (snd f))) fields) lab
  | CList items => CList (map (shift_val n) items)
  end.

(** The world of a run started on [h] that corresponds to the world [w0]
    of the same run started on the empty heap. *)
Definition lift_world {R : Type} (h : heap) (w0 : world R) : world R :=
  {| w_heap := h ++ map (shift_cell (length h)) (w_heap w0);
     w_rng := w_rng w0;
     w_gengy := w_gengy w0 |}.

Definition map_outcome {A B : Type} (f : A -> B) (o : outcome A) : outcome B :=
  match o with
  | Ret a => Ret (f a)
  | Raise e => Raise e
  | Diverge => Diverge
  end.

(** [m] is [m0] relocated to the heap [h]; [sh] relocates the result. *)
Definition lifts {R A : Type} (sh : A -> A) (h : heap) (m0 m : M R A) : Prop :=
  forall w0, m (lift_world h w0) = (map_outcome sh (fst (m0 w0)), lift_world h (snd (m0 w0))).

(** Two outcomes of the synthesizer, in two worlds, that cannot be told
    apart: the same exception, or trees that read the same. *)
Definition same_result {R : Type} (r1 r2 : outcome value * world R) : Prop :=
  w_rng (snd r1) = w_rng (snd r2) /\
  match fst r1, fst r2 with
  | Ret v1, Ret v2 =>
      forall k, tree_of k (w_heap (snd r1)) v1 = tree_of k (w_heap (snd r2)) v2
  | Raise e1, Raise e2 => e1 = e2
  | Diverge, Diverge => True
  | _, _ => False
  end.

(** ** Copies

    What [deepcopy] has established when it returns: the memo sends every
    original it has met to its copy, and a copy holds the cell of its
    original with every reference sent through the memo. *)

Definition copy_val (memo : list (nat * nat)) (v : value) : value :=
  match v with
  | VRef l => VRef (default l (dict_get memo l))
  | VFuture p name d argt argn ctx =>
      VFuture (default p (dict_get memo p)) name d argt argn ctx
  | _ => v
  end.

Definition copy_cell (memo : list (nat * nat)) (c : cell) : cell :=
  match c with
  | CObj cls fields lab => CObj cls (map (fun f => (fst f, copy_val memo (snd f))) fields) lab
  | CList items => CList (map (copy_val memo) items)
  end.

(** The references of a value, or of a cell, are keys of the memo. *)
Definition val_known (memo : list (nat * nat)) (v : value) : Prop :=
  match v with
  | VRef l => is_Some (dict_get memo l)
  | VFuture _ _ _ _ _ _ => False
  | _ => True
  end.

Definition cell_known (memo : list (nat * nat)) (c : cell) : Prop :=
  match c with
  | CObj _ fields _ => Forall (fun f => val_known memo (snd f)) fields
  | CList items => Forall (val_known memo) items
  end.

Definition memo_grows (m m' : list (nat * nat)) : Prop :=
  forall l l', dict_get m l = Some l' -> dict_get m' l = Some l'.

Definition memo_new (n : nat) (m m' : list (nat * nat)) : Prop :=
  forall l l', dict_get m' l = Some l' -> dict_get m l = Some l' \/ (n <= l')%nat.

(** The invariant of a [deepcopy] of objects of the heap [h0]; [P] holds
    of the originals whose copy has been created and not yet filled. *)
Definition copy_inv {R : Type} (h0 : heap) (P : nat -> Prop) (memo : list (nat * nat))
    (w : world R) : Prop :=
  extends h0 (w_heap w) /\
  (forall l l', dict_get memo l = Some l' ->
     (length h0 <= l')%nat /\ (l' < length (w_heap w))%nat) /\
  (forall l l', dict_get memo l = Some l' -> ~ P l ->
     exists c, h0 !! l = Some c /\ cell_known memo c /\
               w_heap w !! l' = Some (copy_cell memo c)).

(** A cell without its metadata, and two heaps that differ in metadata
    only. *)
Definition unlabel (c : cell) : cell :=
  match c with
  | CObj cls fields _ => CObj cls fields None
  | CList items => CList items
  end.

Definition same_shape (h h' : heap) : Prop := map unlabel h = map unlabel h'.

Section WellFormed.
Variable CT : class_table.

(** A complete tree of node objects: every object has the fields that its
    class declares, in their order, and no position is pending. *)
Fixpoint wf_tree (t : tree) : bool :=
  match t with
  | TrPending _ _ _ _ => false
  | TrNode cls fields _ =>
      bool_decide (map fst fields = get_property_names CT cls) &&
      forallb (fun f => wf_tree (snd f)) fields
  | TrSeq items => forallb wf_tree items
  | _ => true
  end.
End WellFormed.

(** What a call of [deepcopy] on [v] with memo [m] in world [w] has to
    deliver: a result, the invariant, a memo that has only grown, and the
    copy of [v] through the final memo, without touching the random
    source. *)
Definition copy_post {R : Type} (h0 : heap) (P : nat -> Prop) (m : list (nat * nat))
    (v : value) (w : world R) (res : outcome (list (nat * nat) * value) * world R) : Prop :=
  match res with
  | (Ret (m', v'), w') =>
      copy_inv h0 P m' w' /\ memo_grows m m' /\ memo_new (length (w_heap w)) m m' /\
      val_known m' v /\ v' = copy_val m' v /\
      w_rng w' = w_rng w /\ w_gengy w' = w_gengy w /\
      (length (w_heap w) <= length (w_heap w'))%nat
  | _ => False
  end.

(** ** Structures built by the synthesizer *)

(** The values held by a cell: the field values of an object, the items of
    a list. *)
Definition cell_vals (c : cell) : list value :=
  match c with
  | CObj _ fields _ => map snd fields
  | CList items => items
  end.

Definition is_future (v : value) : bool :=
  match v with
  | VFuture _ _ _ _ _ _ => true
  | _ => false
  end.

Section Built.
Variable CT : class_table.

(** The least depth budget with which an object is created. *)
Variable lo : Z.

(** [bud p] is the depth budget with which the cell at [p] was created.
    A field of the object at [p] holds a scalar, a pending [Future] of that
    field with budget [bud p - 1], or an object or list created with that
    budget. *)
Definition field_ok (len : nat) (bud : nat -> Z) (p : nat) (f : string * value) : Prop :=
  match snd f with
  | VRef c => (c < len)%nat /\ bud c = bud p - 1
  | VFuture par nm d _ _ _ => par = p /\ nm = fst f /\ d = bud p - 1
  | _ => True
  end.

Definition item_ok (len : nat) (bud : nat -> Z) (p : nat) (v : value) : Prop :=
  match v with
  | VRef c => (c < len)%nat /\ bud c = bud p - 1
  | VFuture _ _ _ _ _ _ => False
  | _ => True
  end.

Definition cell_ok (len : nat) (bud : nat -> Z) (p : nat) (c : cell) : Prop :=
  match c with
  | CObj cls fields lab =>
      lo <= bud p /\ 0 <= bud p /\ lab = None /\ is_builtin cls = false /\
      map fst fields = get_property_names CT cls /\
      Forall (field_ok len bud p) fields
  | CList items => 0 <= bud p /\ Forall (item_ok len bud p) items
  end.

Definition heap_ok (bud : nat -> Z) (h : heap) : Prop :=
  forall p c, h !! p = Some c -> cell_ok (length h) bud p c.
End Built.

(** No location is referred to from two places. *)
Definition uniq (h : heap) : Prop :=
  forall p q cp cq i j c,
    h !! p = Some cp -> h !! q = Some cq ->
    cell_vals cp !! i = Some (VRef c) -> cell_vals cq !! j = Some (VRef c) ->
    p = q /\ i = j.

(** No cell refers to [c]. *)
Definition unref (h : heap) (c : nat) : Prop :=
  forall p cp, h !! p = Some cp -> VRef c ∉ cell_vals cp.

(** A pending [Future] whose owner is an object with that field. *)
Definition fut_ok (bud : nat -> Z) (h : heap) (f : value) : Prop :=
  match f with
  | VFuture par nm d _ _ _ =>
      exists cls fields lab,
        h !! par = Some (CObj cls fields lab) /\ nm ∈ map fst fields /\ d = bud par - 1
  | _ => True
  end.

(** The root of a structure created with budget [d] in the part of [h']
    beyond [h]: nothing refers to it yet. *)
Definition root_ok (h h' : heap) (bud' : nat -> Z) (d : Z) (v : value) : Prop :=
  match v with
  | VRef c => (length h <= c < length h')%nat /\ bud' c = d /\ unref h' c
  | VFuture _ _ _ _ _ _ => False
  | _ => True
  end.

(** What calls of [expand_node] with budget [d] have added to the heap [h]
    when they have returned the values [vs] and left the heap [h']. *)
Definition built_items (CT : class_table) (lo : Z) (h : heap) (bud : nat -> Z) (d : Z)
    (vs : list value) (h' : heap) : Prop :=
  exists bud',
    (forall p, (p < length h)%nat -> bud' p = bud p) /\
    extends h h' /\
    heap_ok CT lo bud' h' /\
    uniq h' /\
    (forall p c x, (length h <= p)%nat -> h' !! p = Some c -> VRef x ∈ cell_vals c ->
       (length h <= x)%nat) /\
    (forall p, (length h <= p < length h')%nat -> bud' p <= d) /\
    Forall (root_ok h h' bud' d) vs /\
    (forall i j x, vs !! i = Some (VRef x) -> vs !! j = Some (VRef x) -> i = j).

(** What one call of [expand_node] with budget [d] has added to the heap
    [h] when it returns [v] in the heap [h']. *)
Definition built (CT : class_table) (lo : Z) (h : heap) (bud : nat -> Z) (d : Z) (v : value)
    (h' : heap) : Prop :=
  exists bud',
    (forall p, (p < length h)%nat -> bud' p = bud p) /\
    extends h h' /\
    heap_ok CT lo bud' h' /\
    uniq h' /\
    (forall p c x, (length h <= p)%nat -> h' !! p = Some c -> VRef x ∈ cell_vals c ->
       (length h <= x)%nat) /\
    (forall p, (length h <= p < length h')%nat -> bud' p <= d) /\
    root_ok h h' bud' d v.

(** The locations met when following references from a value. *)
Inductive reach (h : heap) : value -> nat -> Prop :=
| reach_here l : reach h (VRef l) l
| reach_step v y c x :
    reach h v y -> h !! y = Some c -> VRef x ∈ cell_vals c -> reach h v x.

(** Every symbol that is instantiated as an object is at least one level
    away from a terminal, as [preprocess] computes it. *)
Definition positive_distances (g : Grammar) : Prop :=
  forall t dd, dict_get (distanceToTerminal g) t = Some dd -> is_builtin t = false -> 1 <= dd.

(** No class declares a field twice. *)
Definition distinct_fields (CT : class_table) : Prop :=
  forall t, NoDup (get_property_names CT t).

(** ** Consistency of the derived metadata *)

Definition size_of (t : tree) : Z :=
  match t with
  | TrNode _ _ (Some lb) => nodes lb
  | _ => 0
  end.

Definition dist_of (t : tree) : Z :=
  match t with
  | TrNode _ _ (Some lb) => distance_to_term lb
  | _ => 1
  end.

Definition label_is (lab : option label) (d dt n : Z) : bool :=
  match lab with
  | Some lb => (depth lb =? d) && (distance_to_term lb =? dt) && (nodes lb =? n)
  | None => false
  end.

Section Metadata.
Variable CT : class_table.
Variable non_terminals : list ty.

(** The metadata of a tree whose root is at depth [d], as
    [relabel_nodes_of_trees] assigns it: a terminal node has size 0 and
    distance 1; a non-terminal node has size 1 plus the sizes of its
    children and distance 1 plus the largest distance of a child, and its
    children are one level deeper. *)
Fixpoint check_labels (d : Z) (t : tree) : bool :=
  match t with
  | TrNode cls fields lab =>
      if is_terminal CT cls non_terminals then label_is lab d 1 0
      else
        let dts := map (fun f => dist_of (snd f)) fields in
        label_is lab d (1 + fold_right Z.max (default 0 (head dts)) dts)
          (1 + fold_right Z.add 0 (map (fun f => size_of (snd f)) fields)) &&
        forallb (fun f => check_labels (d + 1) (snd f)) fields
  | _ => true
  end.
End Metadata.

(** Every depth recorded in the tree is at most [b]. *)
Fixpoint depth_le (b : Z) (t : tree) : bool :=
  match t with
  | TrNode _ fields lab =>
      match lab with Some lb => depth lb <=? b | None => true end &&
      forallb (fun f => depth_le b (snd f)) fields
  | TrSeq items => forallb (depth_le b) items
  | _ => true
  end.

(** Every depth recorded in the heap is at most [b]. *)
Definition labels_bounded (b : Z) (h : heap) : Prop :=
  forall x cls fields lb, h !! x = Some (CObj cls fields (Some lb)) -> depth lb <= b.

(** Two values from which no common location is met. *)
Definition apart (h : heap) (u1 u2 : value) : Prop :=
  forall x, reach h u1 x -> reach h u2 x -> False.

(** The sizes as the specification words them: the size of every node is
    1 plus the sum of the sizes of its children. *)
Fixpoint sizes_as_claimed (t : tree) : bool :=
  match t with
  | TrNode _ fields lab =>
      match lab with
      | Some lb => nodes lb =? 1 + fold_right Z.add 0 (map (fun f => size_of (snd f)) fields)
      | None => false
      end && forallb (fun f => sizes_as_claimed (snd f)) fields
  | TrSeq items => forallb sizes_as_claimed items
  | _ => true
  end.

(** ** Pending futures *)

(** The heap [h] holds the cells [hnew] from the location [L] on. *)
Definition agrees_at (h : heap) (L : nat) (hnew : heap) : Prop :=
  forall i c, hnew !! i = Some c -> h !! (L + i)%nat = Some c.

(** Every [Future] held by a cell of [hnew] is found by [extract_futures]
    from [v], whenever it returns. *)
Definition covers {R : Type} (CT : class_table) (L : nat) (hnew : heap) (v : value) : Prop :=
  forall fuel (W W' : world R) fs,
    agrees_at (w_heap W) L hnew ->
    extract_futures CT fuel v W = (Ret fs, W') ->
    forall i c fv, hnew !! i = Some c -> fv ∈ cell_vals c -> is_future fv = true -> fv ∈ fs.

(** The same for the items of a list under construction. *)
Definition covers_any {R : Type} (CT : class_table) (L : nat) (hnew : heap)
    (its : list value) : Prop :=
  forall fuel (W : world R),
    agrees_at (w_heap W) L hnew ->
    forall i c fv, hnew !! i = Some c -> fv ∈ cell_vals c -> is_future fv = true ->
      exists el, el ∈ its /\
        forall fs (W' : world R), extract_futures CT fuel el W = (Ret fs, W') -> fv ∈ fs.

(** Every [Future] held by a cell of the heap is in the queue. *)
Definition all_queued (h : heap) (queue : list value) : Prop :=
  forall p c fv, h !! p = Some c -> fv ∈ cell_vals c -> is_future fv = true -> fv ∈ queue.

(** ** Complete trees on the heap *)

(** A value below which a complete tree can be read: every object met has
    the fields of its class and no position is pending. *)
Definition sound (CT : class_table) (h : heap) (v : value) : Prop :=
  exists k t, tree_of k h v = Some t /\ wf_tree CT t = true.

(** Every complete tree of [h] is still a complete tree in [h']. *)
Definition keeps (CT : class_table) (h h' : heap) : Prop :=
  forall u, sound CT h u -> sound CT h' u.

(** [type(v)] and the metadata of [v], read off the heap. *)
Definition type_at (h : heap) (v : value) : option ty :=
  match v with
  | VNone => Some TNoneType
  | VInt _ => Some TInt
  | VFloat _ => Some TFloat
  | VStr _ => Some TStr
  | VFuture _ _ _ _ _ _ => Some TFutureCls
  | VRef l =>
      match h !! l with
      | Some (CObj cls _ _) => Some cls
      | Some (CList _) => Some TListCls
      | None => None
      end
  end.

Definition label_at (h : heap) (v : value) : option label :=
  match v with
  | VRef l =>
      match h !! l with
      | Some (CObj _ _ lab) => lab
      | _ => None
      end
  | _ => None
  end.

(** The values that [find_in_tree] visits below [o]: the declared fields
    of an object, the attributes of a pending [Future]; a list and a
    builtin value have none. *)
Definition field_child (CT : class_table) (h : heap) (o x : value) : Prop :=
  match o with
  | VRef l =>
      exists cls fields lab nm,
        h !! l = Some (CObj cls fields lab) /\
        nm ∈ map fst (get_arguments CT cls) /\ dict_get fields nm = Some x
  | VFuture parent name d _ _ _ => x ∈ [VRef parent; VStr name; VInt d]
  | _ => False
  end.

(** The subtrees of the donor [o]: [o] itself and what is met from it
    along declared fields. *)
Inductive field_subtree (CT : class_table) (h : heap) : value -> value -> Prop :=
| field_subtree_here o : field_subtree CT h o o
| field_subtree_step o y x :
    field_child CT h o y -> field_subtree CT h y x -> field_subtree CT h o x.

(** A subtree qualifies for a slot of supertype [t] with remaining budget
    [budget]: [t] is among the bases of its class and its recorded
    distance to a terminal is at most [budget]. *)
Definition qualifies (CT : class_table) (h : heap) (t : ty) (budget : Z) (x : value) : Prop :=
  exists cls lb,
    type_at h x = Some cls /\ t ∈ bases CT cls /\
    label_at h x = Some lb /\ distance_to_term lb <= budget.

(** The field names of a cell are those of its class. *)
Definition names_ok (CT : class_table) (c : cell) : Prop :=
  match c with
  | CObj cls fields _ => map fst fields = get_property_names CT cls
  | CList _ => True
  end.

(** ** Fuel *)

(** [m'] does what [m] does wherever [m] does not run out of fuel. *)
Definition grows {R A : Type} (m m' : M R A) : Prop :=
  forall w, fst (m w) <> Diverge -> m' w = m w.

(** ** Edits of a tree

    What an edit of the tree below [i] has done between the heaps [h] and
    [h'] when it returns [v]: every complete tree is still complete, [v]
    is a complete tree, and a location [a] that was not met from [i] and
    satisfies [P] is left as it was and is met from nothing new. *)
Definition edited (CT : class_table) (P : nat -> Prop) (h : heap) (i : value)
    (h' : heap) (v : value) : Prop :=
  keeps CT h h' /\ sound CT h' v /\ (length h <= length h')%nat /\
  (forall a, (a < length h)%nat -> ~ reach h i a -> P a ->
     h' !! a = h !! a /\ ~ reach h' v a /\
     forall u, sound CT h u -> reach h' u a -> reach h u a).

(** ** Two parents

    The heap holds the labelled trees [Plus(One, One)] at location 2 and
    [One] at location 3. *)
Module Parents.
Definition leaf (d : Z) : cell :=
  CObj Example.One [] (Some {| depth := d; distance_to_term := 1; nodes := 0 |}).

Definition heap0 : heap :=
  [ leaf 2; leaf 2;
    CObj Example.Plus [("left", VRef 0); ("right", VRef 1)]
      (Some {| depth := 1; distance_to_term := 2; nodes := 1 |});
    leaf 1 ].

Definition world0 (tape : list Z) : world (list Z) :=
  {| w_heap := heap0; w_rng := tape; w_gengy := [] |}.
End Parents.

(** ** Further operations and invariants of the grammar *)

(** The number of [List] layers of a type, annotations apart. *)
Fixpoint list_layers (t : ty) : Z :=
  match t with
  | TList u => 1 + list_layers u
  | TAnnotated u _ => list_layers u
  | _ => 0
  end.

(** The type below every [List] and annotation layer. *)
Fixpoint underlying (t : ty) : ty :=
  match t with
  | TList u => underlying u
  | TAnnotated u _ => underlying u
  | _ => t
  end.

(** [Grammar.get_max_node_depth]: the distances of all the nodes are
    collected first, then their maximum is taken. *)
Definition get_max_node_depth (g : Grammar) : outcome Z :=
  obind
    (ofold_left (fun acc x =>
       match dict_get (distanceToTerminal g) x with
       | Some d => Ret (acc ++ [d])
       | None => Raise KeyError
       end) (all_nodes g) [])
    (fun ds =>
       match ds with
       | [] => Raise ValueError
       | d :: ds' => Ret (fold_left Z.max ds' d)
       end).

(** A considered subtype that [validate] accepts. *)
Definition accepted (CT : class_table) (c : ty) : Prop :=
  is_abstract CT c = true \/ all_init_arguments_typed CT c = true.

(** Every registered type is exactly one of terminal and non-terminal,
    apart from the types in [pending], whose registration is under way; a
    terminal is a concrete type without constructor arguments. *)
Definition classified (CT : class_table) (pending : list ty) (g : Grammar) : Prop :=
  NoDup pending /\
  (forall x, (x ∈ all_nodes g) <-> (x ∈ terminals g \/ x ∈ non_terminals g \/ x ∈ pending)) /\
  (forall x, x ∈ terminals g -> x ∉ non_terminals g) /\
  (forall x, x ∈ pending -> (x ∉ terminals g) /\ (x ∉ non_terminals g)) /\
  (forall x, x ∈ terminals g -> is_abstract CT x = false /\ get_arguments CT x = []) /\
  (forall x, x ∈ non_terminals g -> is_abstract CT x = true \/ get_arguments CT x <> []).

(** Every non-terminal with alternatives is a registered abstract type,
    and each of its alternatives is a registered type that has it as its
    first base. *)
Definition alternatives_ok (CT : class_table) (g : Grammar) : Prop :=
  forall k prods, dict_get (alternatives g) k = Some prods ->
    is_abstract CT k = true /\ k ∈ all_nodes g /\ prods <> [] /\
    forall p, p ∈ prods -> p ∈ all_nodes g /\ mro1 CT p = Ret k.

(** The grammar [g'] holds what [g] holds and possibly more registered
    types and alternatives; nothing else differs. *)
Definition registers_more (g g' : Grammar) : Prop :=
  (forall x, x ∈ all_nodes g -> x ∈ all_nodes g') /\
  (forall x, x ∈ terminals g -> x ∈ terminals g') /\
  (forall x, x ∈ non_terminals g -> x ∈ non_terminals g') /\
  (forall k old, dict_get (alternatives g) k = Some old ->
     exists new, dict_get (alternatives g') k = Some (old ++ new)) /\
  starting_symbol g' = starting_symbol g /\
  distanceToTerminal g' = distanceToTerminal g /\
  recursive_prods g' = recursive_prods g /\
  abstract_dist_to_t g' = abstract_dist_to_t g /\
  considered_subtypes g' = considered_subtypes g /\
  expansion_depthing g' = expansion_depthing g.

(** The last step of [register_type]: the type joins the terminals or the
    non-terminals. *)
Definition classify (CT : class_table) (t : ty) (g : Grammar) : Grammar :=
  if negb (is_abstract CT t) && bool_decide (get_arguments CT t = [])
  then with_terminals g (set_add t (terminals g))
  else with_non_terminals g (set_add t (non_terminals g)).

(** A sequence of calls of [register_type] that all return. *)
Inductive calls (CT : class_table) (fuel : nat) : Grammar -> Grammar -> Prop :=
| calls_nil g : calls CT fuel g g
| calls_step g x g1 g2 :
    register_type CT fuel g x = Ret g1 -> calls CT fuel g1 g2 -> calls CT fuel g g2.

(** What one call of [register_type] that returns has done. *)
Definition reg_step (CT : class_table) (fuel : nat) (g : Grammar) (t : ty) (g' : Grammar)
  : Prop :=
  ((t ∈ all_nodes g) /\ g' = g) \/
  ((t ∉ all_nodes g) /\
   match t with
   | TList u | TAnnotated u _ => register_type CT fuel g u = Ret g'
   | _ =>
     exists parent g2 g3 g4,
       mro1 CT t = Ret parent /\
       (if set_mem parent [TObject; TABC; TInt; TFloat; TStr]
        then g2 = with_all_nodes g (set_add t (all_nodes g))
        else exists gp,
               register_type CT fuel (with_all_nodes g (set_add t (all_nodes g))) parent =
                 Ret gp /\
               register_alternative CT gp parent t = Ret g2) /\
       calls CT fuel g2 g3 /\ calls CT fuel g3 g4 /\ g' = classify CT t g4
   end).

(** The grammar of the small language as [Grammar.__init__] leaves it,
    before any type is registered. *)
Module Fresh.
Definition grammar : Grammar :=
  {| starting_symbol := Example.Expr; alternatives := [];
     distanceToTerminal := [(TInt, 0); (TStr, 0); (TFloat, 0)];
     all_nodes := []; recursive_prods := []; terminals := [];
     non_terminals := []; abstract_dist_to_t := [];
     considered_subtypes := [Example.Plus; Example.One];
     expansion_depthing := false |}.
End Fresh.
(** * Properties *)

(** ** Entry of the synthesizer *)

(** The only failure of the distance lookup is a missing key. *)
Lemma get_distance_to_terminal_raises g t e :
  get_distance_to_terminal g t = Raise e -> e = KeyError.
Proof.
  induction t as [| | | | | | | |u IH|u IH m|c]; simpl;
    try (destruct (dict_get _ _); congruence); auto.
  destruct (get_distance_to_terminal g u); simpl; try congruence.
  intros Hd. inversion Hd; subst. now apply IH.
Qed.

Section EntryCheck.
Context {R : Type} `{Source R}.
Variable CT : class_table.
Variable generate :
  metahandler -> Grammar -> Z -> ty -> string -> list (string * ty) -> R -> outcome scalar * R.

(** Without fuel for its body, [expand_node] performs exactly its entry
    checks: it raises there or reaches the body. *)
Lemma expand_node_entry g depth sym argn ctx (w : world R) :
  expand_node CT generate 0 g depth sym argn ctx w =
    if depth <? 0 then (Raise (GeneticEngineError RecursionDepthReached), w)
    else match get_distance_to_terminal g sym with
         | Ret d => if depth <? d
                    then (Raise (GeneticEngineError (NoDepthSufficient sym depth d)), w)
                    else (Diverge, w)
         | Raise e => (Raise e, w)
         | Diverge => (Diverge, w)
         end.
Proof.
  unfold expand_node. destruct (depth <? 0); [reflexivity|].
  unfold mbind, mlift. destruct (get_distance_to_terminal g sym) as [d|e|]; try reflexivity.
  destruct (depth <? d); reflexivity.
Qed.

(** What is raised at entry is raised whatever the fuel, and the world is
    as it was. *)
Lemma expand_node_entry_any_fuel fuel g depth sym argn ctx (w : world R) e :
  expand_node CT generate 0 g depth sym argn ctx w = (Raise e, w) ->
  expand_node CT generate fuel g depth sym argn ctx w = (Raise e, w).
Proof.
  rewrite expand_node_entry. destruct fuel as [|fuel]; [now rewrite expand_node_entry|].
  cbn [expand_node]. destruct (depth <? 0); [auto|].
  unfold mbind, mlift. destruct (get_distance_to_terminal g sym) as [d|e'|]; auto;
    try discriminate.
  destruct (depth <? d); [auto|discriminate].
Qed.

(** C2. [expand_node] raises a budget error at entry, before it draws
    from the random source or constructs a node, if and only if the depth
    budget is negative or strictly below the distance-to-terminal of the
    requested type; an error raised at entry is raised for every fuel and
    leaves the world untouched. *)
Theorem expand_node_budget_error_iff fuel g depth sym argn ctx (w : world R) :
  ((depth < 0 \/ exists d, get_distance_to_terminal g sym = Ret d /\ depth < d) <->
   (exists e, is_budget_error e = true /\
              expand_node CT generate 0 g depth sym argn ctx w = (Raise e, w))) /\
  (forall e, expand_node CT generate 0 g depth sym argn ctx w = (Raise e, w) ->
             expand_node CT generate fuel g depth sym argn ctx w = (Raise e, w)).
Proof.
  split; [|intros e; apply expand_node_entry_any_fuel].
  rewrite expand_node_entry. split.
  - intros [Hneg | (d & Hd & Hlt)].
    + exists (GeneticEngineError RecursionDepthReached). split; [reflexivity|].
      apply Z.ltb_lt in Hneg. now rewrite Hneg.
    + destruct (depth <? 0) eqn:E.
      * exists (GeneticEngineError RecursionDepthReached). now split.
      * exists (GeneticEngineError (NoDepthSufficient sym depth d)). split; [reflexivity|].
        rewrite Hd. apply Z.ltb_lt in Hlt. now rewrite Hlt.
  - intros (e & He & Heq). destruct (depth <? 0) eqn:E.
    + left. now apply Z.ltb_lt.
    + right. destruct (get_distance_to_terminal g sym) as [d|e'|] eqn:Hd.
      * destruct (depth <? d) eqn:E2; [|discriminate].
        exists d. split; [reflexivity|now apply Z.ltb_lt].
      * (* the lookup itself failed: a [KeyError], not a budget error *)
        injection Heq as <-.
        apply get_distance_to_terminal_raises in Hd. subst. discriminate.
      * discriminate.
Qed.
End EntryCheck.

(** ** A starting symbol without finite completion *)

Lemma unproductive_extract_grammar_returns :
  extract_grammar Unproductive.CT 20 [Unproductive.Rec] Unproductive.Expr false []
  = (Ret Unproductive.grammar, []).
Proof. vm_compute. reflexivity. Qed.

Section Diagnostic.
Context {R : Type} `{Source R}.
Variable CT : class_table.
Variable generate :
  metahandler -> Grammar -> Z -> ty -> string -> list (string * ty) -> R -> outcome scalar * R.

End Diagnostic.



(** ** The fixpoint of the distance analysis *)

Section DictFacts.
Context {K V : Type} `{EqDecision K}.

Lemma dict_get_set (d : list (K * V)) k v k' :
  dict_get (dict_set d k v) k' = if decide (k' = k) then Some v else dict_get d k'.
Proof.
  induction d as [|[k0 v0] d IH]; simpl.
  - destruct (decide (k' = k)); reflexivity.
  - destruct (decide (k = k0)) as [->|Hne]; simpl.
    + destruct (decide (k' = k0)); reflexivity.
    + destruct (decide (k' = k0)) as [->|Hne'].
      * destruct (decide (k0 = k)); [congruence|reflexivity].
      * apply IH.
Qed.

Lemma dict_get_set_eq (d : list (K * V)) k v :
  dict_get (dict_set d k v) k = Some v.
Proof. rewrite dict_get_set. destruct (decide (k = k)); congruence. Qed.

Lemma dict_get_set_ne (d : list (K * V)) k v k' :
  k' <> k -> dict_get (dict_set d k v) k' = dict_get d k'.
Proof. intros Hne. rewrite dict_get_set. destruct (decide (k' = k)); congruence. Qed.
End DictFacts.

Lemma same_static_refl g : same_static g g.
Proof. repeat split. Qed.

Lemma same_static_trans g1 g2 g3 :
  same_static g1 g2 -> same_static g2 g3 -> same_static g1 g3.
Proof.
  unfold same_static. intros (?&?&?&?&?&?&?) (?&?&?&?&?&?&?).
  repeat split; congruence.
Qed.

Lemma dist_le_refl D : dist_le D D.
Proof. intros k. destruct (dict_get D k); [lia|exact I]. Qed.

Lemma dist_le_set D sym old val :
  dict_get D sym = Some old -> val <= old -> dist_le (dict_set D sym val) D.
Proof.
  intros Hold Hle k. rewrite dict_get_set. destruct (decide (k = sym)) as [->|].
  - now rewrite Hold.
  - destruct (dict_get D k); [lia|exact I].
Qed.

(** *** Monotonicity of the equations in the distances *)

Lemma get_distance_to_terminal_ext g g' t :
  distanceToTerminal g = distanceToTerminal g' ->
  expansion_depthing g = expansion_depthing g' ->
  get_distance_to_terminal g t = get_distance_to_terminal g' t.
Proof.
  intros HD He. induction t as [| | | | | | | |u IH|u IH m|c]; simpl;
    rewrite <- ?HD, <- ?He, ?IH; reflexivity.
Qed.

Lemma get_distance_to_terminal_mono g g' t a' :
  dist_le (distanceToTerminal g') (distanceToTerminal g) ->
  expansion_depthing g = expansion_depthing g' ->
  get_distance_to_terminal g' t = Ret a' ->
  exists a, get_distance_to_terminal g t = Ret a /\ a' <= a.
Proof.
  intros HD He. revert a'.
  assert (Hbase : forall t0 a', 
            match dict_get (distanceToTerminal g') t0 with
            | Some d => Ret d | None => Raise KeyError end = Ret a' ->
            exists a, match dict_get (distanceToTerminal g) t0 with
                      | Some d => Ret d | None => Raise KeyError end = Ret a /\ a' <= a).
  { intros t0 a' Hg. specialize (HD t0).
    destruct (dict_get (distanceToTerminal g') t0) as [d'|]; [|discriminate].
    destruct (dict_get (distanceToTerminal g) t0) as [d|]; [|contradiction].
    inversion Hg; subst. eauto. }
  induction t as [| | | | | | | |u IH|u IH m|c]; simpl; intros a' Hg; try (apply Hbase; exact Hg).
  - destruct (get_distance_to_terminal g' u) as [d'| |] eqn:E; simpl in Hg; try discriminate.
    destruct (IH d' eq_refl) as (d & -> & Hle). simpl. inversion Hg; subst.
    rewrite He. eexists; split; [reflexivity|lia].
  - apply IH. exact Hg.
Qed.

Lemma max_field_distance_ext g g' args :
  distanceToTerminal g = distanceToTerminal g' ->
  expansion_depthing g = expansion_depthing g' ->
  max_field_distance g args = max_field_distance g' args.
Proof.
  intros HD He. induction args as [|[n t] args IH]; [reflexivity|].
  cbn [max_field_distance snd]. rewrite (get_distance_to_terminal_ext g g' t HD He), IH.
  reflexivity.
Qed.

Lemma max_field_distance_mono g g' args m' :
  dist_le (distanceToTerminal g') (distanceToTerminal g) ->
  expansion_depthing g = expansion_depthing g' ->
  max_field_distance g' args = Ret m' ->
  exists m, max_field_distance g args = Ret m /\ m' <= m.
Proof.
  intros HD He. revert m'. induction args as [|[n t] args IH]; intros m' Hm; [discriminate|].
  cbn [max_field_distance snd] in *.
  destruct (get_distance_to_terminal g' t) as [d'| |] eqn:E; try discriminate.
  destruct (get_distance_to_terminal_mono g g' t d' HD He E) as (d & Hd & Hle).
  rewrite Hd. cbn [obind] in *. destruct args as [|a args].
  - inversion Hm; subst. eexists; split; [reflexivity|lia].
  - destruct (max_field_distance g' (a :: args)) as [r'| |] eqn:E'; try discriminate.
    destruct (IH r' eq_refl) as (r & Hr & Hle'). rewrite Hr. cbn [obind] in *.
    inversion Hm; subst. eexists; split; [reflexivity|lia].
Qed.

Lemma min_fold_ext g g' prods v :
  distanceToTerminal g = distanceToTerminal g' ->
  expansion_depthing g = expansion_depthing g' ->
  ofold_left (min_step g) prods v = ofold_left (min_step g') prods v.
Proof.
  intros HD He. revert v. induction prods as [|p prods IH]; intros v; [reflexivity|].
  simpl. unfold min_step at 1 3. rewrite HD, He.
  destruct (dict_get (distanceToTerminal g') p); simpl; [apply IH|reflexivity].
Qed.

Lemma min_fold_mono g g' prods v v' r' :
  dist_le (distanceToTerminal g') (distanceToTerminal g) ->
  expansion_depthing g = expansion_depthing g' ->
  v' <= v ->
  ofold_left (min_step g') prods v' = Ret r' ->
  exists r, ofold_left (min_step g) prods v = Ret r /\ r' <= r.
Proof.
  intros HD He. revert v v' r'. induction prods as [|p prods IH]; intros v v' r' Hv Hf.
  - simpl in *. inversion Hf; subst. eauto.
  - simpl in *. unfold min_step at 1 in Hf. unfold min_step at 1.
    specialize (HD p) as Hp.
    destruct (dict_get (distanceToTerminal g') p) as [d'|]; [|discriminate].
    destruct (dict_get (distanceToTerminal g) p) as [d|]; [|contradiction].
    simpl in *. eapply IH; [|exact Hf]. rewrite He. lia.
Qed.

Lemma min_fold_le_start g prods v r :
  ofold_left (min_step g) prods v = Ret r -> r <= v.
Proof.
  revert v. induction prods as [|p prods IH]; intros v Hf; simpl in Hf.
  - inversion Hf; lia.
  - unfold min_step at 1 in Hf. destruct (dict_get (distanceToTerminal g) p); [|discriminate].
    simpl in Hf. apply IH in Hf. lia.
Qed.

(** Two runs of the minimum from different starting values meet. *)
Lemma min_fold_swap g prods a b ra :
  ofold_left (min_step g) prods a = Ret ra ->
  exists rb, ofold_left (min_step g) prods b = Ret rb /\ Z.min a rb = Z.min b ra.
Proof.
  revert a b ra. induction prods as [|p prods IH]; intros a b ra Hf; simpl in *.
  - inversion Hf; subst. eexists; split; [reflexivity|lia].
  - unfold min_step at 1 in Hf. unfold min_step at 1.
    destruct (dict_get (distanceToTerminal g) p) as [d|]; [|discriminate]. simpl in *.
    destruct (IH _ (Z.min b (Z.b2z (expansion_depthing g) + d)) _ Hf) as (rb & Hrb & Heq).
    exists rb. split; [exact Hrb|].
    pose proof (min_fold_le_start _ _ _ _ Hrb). pose proof (min_fold_le_start _ _ _ _ Hf). lia.
Qed.

Section DistanceFixpoint.
Variable CT : class_table.

Lemma distance_equation_le_INF g sym t :
  distance_equation CT g sym = Ret t -> t <= INF.
Proof.
  unfold distance_equation, INF.
  destruct (is_abstract CT sym).
  - destruct (dict_get (alternatives g) sym).
    + intros Hf. apply min_fold_le_start in Hf. exact Hf.
    + intros Hf. inversion Hf. lia.
  - destruct (is_terminal CT sym (non_terminals g)).
    + intros Hf. inversion Hf. destruct (andb _ _); lia.
    + destruct (get_arguments CT sym); [discriminate|].
      destruct (max_field_distance g _); cbn [obind]; try discriminate.
      intros Hf. inversion Hf. lia.
Qed.

Lemma distance_equation_mono g g' sym t' :
  same_static g g' ->
  dist_le (distanceToTerminal g') (distanceToTerminal g) ->
  distance_equation CT g' sym = Ret t' ->
  exists t, distance_equation CT g sym = Ret t /\ t' <= t.
Proof.
  intros (_ & Ha & _ & _ & Hn & _ & He) HD. unfold distance_equation.
  rewrite <- Ha, <- Hn, <- He.
  destruct (is_abstract CT sym).
  - destruct (dict_get (alternatives g) sym).
    + intros Hf. eapply min_fold_mono; eauto. lia.
    + intros Hf. inversion Hf; subst. eexists; split; [reflexivity|lia].
  - destruct (is_terminal CT sym (non_terminals g)).
    + intros Hf. inversion Hf; subst. eexists; split; [reflexivity|lia].
    + destruct (get_arguments CT sym) as [|a args]; [discriminate|].
      destruct (max_field_distance g' (a :: args)) as [m'| |] eqn:E; cbn [obind];
        try discriminate.
      destruct (max_field_distance_mono g g' _ _ HD He E) as (m & -> & Hle).
      cbn [obind]. intros Hf. inversion Hf; subst. eexists; split; [reflexivity|lia].
Qed.

Lemma val_of_ext g g' old sym :
  same_static g g' ->
  distanceToTerminal g = distanceToTerminal g' ->
  val_of CT g old sym = val_of CT g' old sym.
Proof.
  intros (_ & Ha & _ & _ & Hn & _ & He) HD. unfold val_of.
  rewrite <- Ha, <- Hn, <- He.
  destruct (is_abstract CT sym).
  - destruct (dict_get (alternatives g) sym); [|reflexivity].
    now apply min_fold_ext.
  - destruct (is_terminal CT sym (non_terminals g)); [reflexivity|].
    destruct (get_arguments CT sym); [reflexivity|].
    now apply max_field_distance_ext.
Qed.

Lemma distance_equation_ext g g' sym :
  same_static g g' ->
  distanceToTerminal g = distanceToTerminal g' ->
  distance_equation CT g sym = distance_equation CT g' sym.
Proof.
  intros (_ & Ha & _ & _ & Hn & _ & He) HD. unfold distance_equation.
  rewrite <- Ha, <- Hn, <- He.
  destruct (is_abstract CT sym).
  - destruct (dict_get (alternatives g) sym); [|reflexivity].
    now apply min_fold_ext.
  - destruct (is_terminal CT sym (non_terminals g)); [reflexivity|].
    destruct (get_arguments CT sym); [reflexivity|].
    now rewrite (max_field_distance_ext g g').
Qed.

(** The value the loop body computes is never below the equation. *)
Lemma equation_le_val g old sym val t :
  val_of CT g old sym = Ret val ->
  distance_equation CT g sym = Ret t ->
  old <= INF -> (old = INF \/ t <= old) ->
  t <= val.
Proof.
  unfold val_of, distance_equation.
  destruct (is_abstract CT sym).
  - destruct (dict_get (alternatives g) sym) as [prods|].
    + intros Hv Ht Hold Hor.
      destruct (min_fold_swap g prods old INF val Hv) as (rb & Hrb & Heq).
      rewrite Hrb in Ht. inversion Ht; subst.
      pose proof (min_fold_le_start _ _ _ _ Hv). pose proof (min_fold_le_start _ _ _ _ Hrb).
      lia.
    + intros Hv Ht. inversion Hv; inversion Ht; subst. lia.
  - destruct (is_terminal CT sym (non_terminals g)).
    + intros Hv Ht. inversion Hv; inversion Ht; subst. lia.
    + destruct (get_arguments CT sym); [discriminate|].
      intros ->. cbn [obind]. intros Ht. inversion Ht. lia.
Qed.

(** When the loop body leaves a symbol alone, its distance is not above
    the equation. *)
Lemma equation_ge_old g old sym val :
  val_of CT g old sym = Ret val ->
  old <= val -> old <= INF ->
  exists t, distance_equation CT g sym = Ret t /\ old <= t.
Proof.
  unfold val_of, distance_equation.
  destruct (is_abstract CT sym).
  - destruct (dict_get (alternatives g) sym) as [prods|].
    + intros Hv Hle Hold.
      destruct (min_fold_swap g prods old INF val Hv) as (rb & Hrb & Heq).
      exists rb. split; [exact Hrb|].
      pose proof (min_fold_le_start _ _ _ _ Hv). pose proof (min_fold_le_start _ _ _ _ Hrb).
      lia.
    + intros Hv Hle Hold. inversion Hv; subst. eexists; split; [reflexivity|lia].
  - destruct (is_terminal CT sym (non_terminals g)).
    + intros Hv Hle Hold. inversion Hv; subst. eexists; split; [reflexivity|lia].
    + destruct (get_arguments CT sym); [discriminate|].
      intros -> Hle Hold. cbn [obind]. eexists; split; [reflexivity|lia].
Qed.

(** *** The loop body *)

Lemma adt_fold_changed (sym : ty) items (init : list (ty * list (ty * Z)) * bool) :
  snd init = true ->
  snd (fold_left (fun (a : list (ty * list (ty * Z)) * bool) (it : ty * Z) =>
         let '(currdist, adt1) := adt_read (fst a) sym (fst it) in
         let candidate := snd it + 1 in
         if candidate <? currdist
         then (adt_write adt1 sym (fst it) candidate, true)
         else (adt1, snd a)) items init) = true.
Proof.
  revert init. induction items as [|it items IH]; intros init Hi; [exact Hi|].
  simpl. apply IH. destruct (adt_read (fst init) sym (fst it)) as [c a1].
  destruct (_ <? _); [reflexivity|exact Hi].
Qed.

Lemma abstract_step_spec sym v st prod v1 st1 :
  abstract_step sym (v, st) prod = Ret (v1, st1) ->
  min_step (pp_g st) v prod = Ret v1 /\
  same_static (pp_g st) (pp_g st1) /\
  distanceToTerminal (pp_g st1) = distanceToTerminal (pp_g st) /\
  pp_reach st1 = pp_reach st /\
  (pp_changed st = true -> pp_changed st1 = true).
Proof.
  unfold abstract_step, min_step.
  destruct (dict_get (distanceToTerminal (pp_g st)) prod) as [dprod|]; [|discriminate].
  destruct (adt_read (abstract_dist_to_t (pp_g st)) sym prod) as [old adt0].
  set (p1 := if 1 <? old then (adt_write adt0 sym prod 1, true) else (adt0, pp_changed st)).
  assert (Hp1 : pp_changed st = true -> snd p1 = true).
  { unfold p1. destruct (1 <? old); auto. }
  destruct p1 as [adt1 ch1]. simpl in Hp1.
  match goal with |- context [match dict_get adt1 prod with _ => _ end] =>
    set (p2 := match dict_get adt1 prod with
               | Some items => _
               | None => (adt1, ch1)
               end) end.
  assert (Hp2 : pp_changed st = true -> snd p2 = true).
  { intros Hc. unfold p2. destruct (dict_get adt1 prod); [|simpl; auto].
    apply adt_fold_changed. simpl. auto. }
  destruct p2 as [adt2 ch2]. simpl in Hp2.
  intros Heq. inversion Heq; subst. simpl.
  repeat split; auto.
Qed.

Lemma abstract_fold_spec sym prods v st v' st' :
  ofold_left (abstract_step sym) prods (v, st) = Ret (v', st') ->
  ofold_left (min_step (pp_g st)) prods v = Ret v' /\
  same_static (pp_g st) (pp_g st') /\
  distanceToTerminal (pp_g st') = distanceToTerminal (pp_g st) /\
  pp_reach st' = pp_reach st /\
  (pp_changed st = true -> pp_changed st' = true).
Proof.
  revert v st. induction prods as [|p prods IH]; intros v st Hf.
  - simpl in Hf. inversion Hf; subst. simpl. auto using same_static_refl.
  - cbn [ofold_left] in Hf |- *.
    destruct (abstract_step sym (v, st) p) as [[v1 st1]| |] eqn:E; try discriminate.
    cbn [obind] in Hf.
    apply abstract_step_spec in E. destruct E as (Hm & Hs & HD & Hr & Hc).
    rewrite Hm. cbn [obind].
    destruct (IH _ _ Hf) as (Hm' & Hs' & HD' & Hr' & Hc').
    split; [|split; [|split; [|split]]].
    + rewrite <- Hm'. apply min_fold_ext; [congruence|apply Hs].
    + eapply same_static_trans; eauto.
    + congruence.
    + congruence.
    + auto.
Qed.

Lemma preprocess_sym_spec st sym st' :
  preprocess_sym CT st sym = Ret st' ->
  exists old val,
    dict_get (distanceToTerminal (pp_g st)) sym = Some old /\
    val_of CT (pp_g st) old sym = Ret val /\
    same_static (pp_g st) (pp_g st') /\
    distanceToTerminal (pp_g st') =
      (if val <? old then dict_set (distanceToTerminal (pp_g st)) sym val
       else distanceToTerminal (pp_g st)) /\
    ((val <? old) = true -> pp_changed st' = true) /\
    (pp_changed st = true -> pp_changed st' = true).
Proof.
  unfold preprocess_sym.
  destruct (dict_get (distanceToTerminal (pp_g st)) sym) as [old|]; [|discriminate].
  match goal with |- (obind ?m _ = _) -> _ => destruct m as [[val st1]| |] eqn:Em end;
    cbn [obind]; try discriminate.
  assert (Hmid : val_of CT (pp_g st) old sym = Ret val /\
                 same_static (pp_g st) (pp_g st1) /\
                 distanceToTerminal (pp_g st1) = distanceToTerminal (pp_g st) /\
                 (pp_changed st = true -> pp_changed st1 = true)).
  { unfold val_of. destruct (is_abstract CT sym).
    - destruct (dict_get (alternatives (pp_g st)) sym) as [prods|].
      + destruct (ofold_left (abstract_step sym) prods (old, st)) as [[v2 st2]| |] eqn:Ef;
          cbn [obind] in Em; try discriminate.
        apply abstract_fold_spec in Ef. destruct Ef as (Hm & Hs & HD & Hr & Hc).
        cbn [fst snd] in Em.
        destruct (process_reachability (pp_reach st2) sym prods) as [reach ch].
        inversion Em; subst. simpl. repeat split; auto; try apply Hs.
        intros Hch. rewrite (Hc Hch). reflexivity.
      + inversion Em; subst. auto using same_static_refl.
    - unfold is_primitive.
      destruct (is_terminal CT sym (non_terminals (pp_g st))).
      + destruct (andb _ _); inversion Em; subst; auto using same_static_refl.
      + destruct (get_arguments CT sym) as [|a args] eqn:Ea; [discriminate|].
        destruct (max_field_distance (pp_g st) (a :: args)) as [m| |];
          cbn [obind] in Em; try discriminate.
        destruct (process_reachability (pp_reach st) sym (map snd (a :: args))) as [reach ch].
        inversion Em; subst. simpl. repeat split; auto.
        intros ->. reflexivity. }
  destruct Hmid as (Hv & Hs & HD & Hc).
  intros Heq. exists old, val. destruct (val <? old) eqn:E; inversion Heq; subst; simpl.
  - repeat split; auto; try apply Hs. now rewrite HD.
  - repeat split; auto; try apply Hs. discriminate.
Qed.

(** *** The invariant along a pass and along the loop *)

Lemma preprocess_sym_inv all_sym st sym st' :
  sym ∈ all_sym ->
  preprocess_sym CT st sym = Ret st' ->
  dist_inv CT all_sym (pp_g st) ->
  dist_inv CT all_sym (pp_g st').
Proof.
  intros Hin Hstep Hinv.
  destruct (preprocess_sym_spec _ _ _ Hstep) as (old & val & Hold & Hval & Hs & HD & _ & _).
  destruct (val <? old) eqn:E.
  - apply Z.ltb_lt in E.
    assert (Hle : dist_le (distanceToTerminal (pp_g st')) (distanceToTerminal (pp_g st))).
    { rewrite HD. eapply dist_le_set; eauto. lia. }
    intros s Hs_in. destruct (Hinv s Hs_in) as (v & Hv & HvI & Hor).
    rewrite HD. rewrite dict_get_set. destruct (decide (s = sym)) as [->|Hne].
    + rewrite Hold in Hv. inversion Hv; subst v.
      exists val. split; [reflexivity|]. split; [lia|]. right. intros t' Ht'.
      destruct (distance_equation_mono _ _ _ _ Hs Hle Ht') as (t & Ht & Htt).
      pose proof (equation_le_val _ _ _ _ _ Hval Ht HvI) as Hq.
      assert (t <= val); [|lia]. apply Hq. destruct Hor as [->|Hor]; auto.
    + exists v. split; [exact Hv|]. split; [exact HvI|].
      destruct Hor as [->|Hor]; [now left|]. right. intros t' Ht'.
      destruct (distance_equation_mono _ _ _ _ Hs Hle Ht') as (t & Ht & Htt).
      specialize (Hor _ Ht). lia.
  - intros s Hs_in. destruct (Hinv s Hs_in) as (v & Hv & HvI & Hor).
    exists v. rewrite HD. split; [exact Hv|]. split; [exact HvI|].
    destruct Hor as [->|Hor]; [now left|]. right. intros t Ht. apply Hor.
    rewrite <- Ht. apply distance_equation_ext; [exact Hs|congruence].
Qed.

Lemma pass_spec all_sym syms st st' :
  (forall s, s ∈ syms -> s ∈ all_sym) ->
  ofold_left (preprocess_sym CT) syms st = Ret st' ->
  same_static (pp_g st) (pp_g st') /\
  (pp_changed st = true -> pp_changed st' = true) /\
  (dist_inv CT all_sym (pp_g st) -> dist_inv CT all_sym (pp_g st')) /\
  (pp_changed st' = false ->
     distanceToTerminal (pp_g st') = distanceToTerminal (pp_g st) /\
     forall sym, sym ∈ syms ->
       exists old val, dict_get (distanceToTerminal (pp_g st)) sym = Some old /\
                       val_of CT (pp_g st) old sym = Ret val /\ old <= val).
Proof.
  revert st. induction syms as [|s syms IH]; intros st Hsub Hf.
  - simpl in Hf. inversion Hf; subst. repeat split; auto using same_static_refl.
    intros sym Hin. inversion Hin.
  - cbn [ofold_left] in Hf.
    destruct (preprocess_sym CT st s) as [st1| |] eqn:E; cbn [obind] in Hf; try discriminate.
    assert (Hs_in : s ∈ all_sym) by (apply Hsub; left).
    pose proof (preprocess_sym_inv all_sym _ _ _ Hs_in E) as Hinv1.
    destruct (preprocess_sym_spec _ _ _ E) as (old & val & Hold & Hval & Hs & HD & Hc1 & Hc2).
    destruct (IH st1) as (Hs' & Hc' & Hinv' & Hlast); [intros; apply Hsub; now right|exact Hf|].
    split; [eapply same_static_trans; eauto|]. split; [auto|]. split; [auto|].
    intros Hfalse. destruct (Hlast Hfalse) as (HD' & Hvals).
    destruct (val <? old) eqn:Elt.
    { specialize (Hc1 eq_refl). specialize (Hc' Hc1). congruence. }
    split; [congruence|]. intros sym Hin. apply list_elem_of_In in Hin. destruct Hin as [<-|Hin].
    + exists old, val. repeat split; auto. apply Z.ltb_ge in Elt. exact Elt.
    + apply list_elem_of_In in Hin. destruct (Hvals sym Hin) as (o & v & Ho & Hv & Hle).
      exists o, v. rewrite <- HD. split; [exact Ho|]. split; [|exact Hle].
      rewrite <- Hv. apply val_of_ext; [exact Hs|now rewrite HD].
Qed.

Lemma preprocess_loop_spec fuel all_sym st st' :
  preprocess_loop CT fuel all_sym st = Ret st' ->
  dist_inv CT all_sym (pp_g st) ->
  same_static (pp_g st) (pp_g st') /\
  dist_inv CT all_sym (pp_g st') /\
  forall sym, sym ∈ all_sym ->
    exists old val, dict_get (distanceToTerminal (pp_g st')) sym = Some old /\
                    val_of CT (pp_g st') old sym = Ret val /\ old <= val.
Proof.
  revert st. induction fuel as [|fuel IH]; intros st Hl Hinv; [discriminate|].
  cbn [preprocess_loop] in Hl.
  match type of Hl with obind ?m _ = _ => destruct m as [st1| |] eqn:E end;
    cbn [obind] in Hl; try discriminate.
  destruct (pass_spec all_sym _ _ _ (fun s Hs => Hs) E) as (Hs & _ & Hinv1 & Hlast).
  simpl in Hs, Hinv1, Hlast. specialize (Hinv1 Hinv).
  destruct (pp_changed st1) eqn:Ech.
  - destruct (IH _ Hl Hinv1) as (Hs' & Hinv' & Hv').
    split; [eapply same_static_trans; eauto|]. auto.
  - inversion Hl; subst st'. split; [exact Hs|]. split; [exact Hinv1|].
    destruct (Hlast eq_refl) as (HD & Hvals). intros sym Hin.
    destruct (Hvals sym Hin) as (o & v & Ho & Hv & Hle).
    exists o, v. rewrite HD. split; [exact Ho|]. split; [|exact Hle].
    rewrite <- Hv. symmetry. apply val_of_ext; [exact Hs|now rewrite HD].
Qed.

Lemma init_distances (syms : list ty) (D : list (ty * Z)) (sym : ty) :
  sym ∈ syms ->
  dict_get (fold_left (fun d s => dict_set d s INF) syms D) sym = Some INF.
Proof.
  assert (Hkeep : forall (syms : list ty) (D : list (ty * Z)), dict_get D sym = Some INF ->
            dict_get (fold_left (fun d s => dict_set d s INF) syms D) sym = Some INF).
  { clear. induction syms as [|s syms IH]; intros D HD; [exact HD|].
    simpl. apply IH. rewrite dict_get_set. destruct (decide (sym = s)); auto. }
  revert D. induction syms as [|s syms IH]; intros D Hin.
  - inversion Hin.
  - apply list_elem_of_In in Hin. simpl. destruct Hin as [<-|Hin].
    + apply Hkeep. apply dict_get_set_eq.
    + apply IH. now apply list_elem_of_In.
Qed.

(** C3 (as the code has it). Once [preprocess] has converged, the distance
    of every symbol satisfies its equation with [1000000] absorbing: an
    abstract type is at the minimum, capped at [1000000], of
    [int(expansion_depthing)] plus the distance of each alternative; a
    type without typed fields is at 0 if it is [int], [float] or [str] and
    [expansion_depthing] is off, and at 1 otherwise; a concrete type with
    fields is at 1 plus the maximum of its fields' distances, capped at
    [1000000]. *)
Theorem preprocess_fixpoint_equations fuel g g' :
  preprocess CT fuel g = Ret g' ->
  forall sym, sym ∈ snd (get_all_symbols g) ->
    exists v, dict_get (distanceToTerminal g') sym = Some v /\
              distance_equation CT g' sym = Ret v.
Proof.
  unfold preprocess. set (all_sym := snd (get_all_symbols g)).
  match goal with |- (obind ?m _ = _) -> _ => destruct m as [st| |] eqn:El end;
    cbn [obind]; try discriminate.
  intros Hg' sym Hin. inversion Hg'; subst g'. clear Hg'.
  apply preprocess_loop_spec in El.
  - destruct El as (Hs & Hinv & Hvals).
    destruct (Hvals sym Hin) as (old & val & Hold & Hval & Hle).
    destruct (Hinv sym Hin) as (v & Hv & HvI & Hor).
    rewrite Hold in Hv. inversion Hv; subst v.
    destruct (equation_ge_old _ _ _ _ Hval Hle HvI) as (t & Ht & Hot).
    pose proof (distance_equation_le_INF _ _ _ Ht) as HtI.
    assert (old = t) as -> by (destruct Hor as [->|Hor]; [lia|specialize (Hor _ Ht); lia]).
    exists t. split; [exact Hold|].
    rewrite <- Ht. apply distance_equation_ext; [repeat split|reflexivity].
  - intros s Hs_in. exists INF. cbn [pp_g]. split; [|split; [unfold INF; lia|now left]].
    apply init_distances. exact Hs_in.
Qed.
End DistanceFixpoint.

(** C3, the claim as stated fails: with [expansion_depthing] the primitive
    [int] ends at distance 1, not 0; and in [Expr -> Rec(Expr)] the
    concrete type [Rec] ends at [1000000], which is not 1 plus the distance
    [1000000] of its field. *)
Lemma preprocess_equations_counterexample :
  (exists g, extract_grammar Literal.CT 20 [Literal.Lit] Literal.Lit true [] = (Ret g, []) /\
             dict_get (distanceToTerminal g) TInt = Some 1) /\
  (exists g, extract_grammar Unproductive.CT 20 [Unproductive.Rec] Unproductive.Expr false []
             = (Ret g, []) /\
             dict_get (distanceToTerminal g) Unproductive.Rec = Some 1000000 /\
             get_distance_to_terminal g Unproductive.Expr = Ret 1000000 /\
             1000000 <> 1 + 1000000).
Proof.
  split.
  - eexists. split; [vm_compute; reflexivity|reflexivity].
  - exists Unproductive.grammar.
    split; [apply unproductive_extract_grammar_returns|].
    repeat split. lia.
Qed.

Lemma preprocess_fixpoint_equations_witness :
  exists v, dict_get (distanceToTerminal Unproductive.grammar) Unproductive.Rec = Some v /\
            distance_equation Unproductive.CT Unproductive.grammar Unproductive.Rec = Ret v.
Proof.
  apply (preprocess_fixpoint_equations Unproductive.CT 20
           {| starting_symbol := Unproductive.Expr;
              alternatives := [(Unproductive.Expr, [Unproductive.Rec])];
              distanceToTerminal := [(TInt, 0); (TStr, 0); (TFloat, 0)];
              all_nodes := [Unproductive.Expr; Unproductive.Rec];
              recursive_prods := []; terminals := [];
              non_terminals := [Unproductive.Rec; Unproductive.Expr];
              abstract_dist_to_t := [];
              considered_subtypes := [Unproductive.Rec];
              expansion_depthing := false |}).
  - vm_compute. reflexivity.
  - apply list_elem_of_In. vm_compute. auto.
Defined.

(** ** Production weights *)

Section WeightFacts.
Variable CT : class_table.

Lemma get_gengy_weight_set gs c w t :
  get_gengy_weight (dict_set gs c (Some w)) t =
    if decide (t = TClass c) then Some w else get_gengy_weight gs t.
Proof.
  destruct t; try (destruct (decide _); [discriminate|reflexivity]).
  simpl. rewrite dict_get_set.
  destruct (decide (c0 = c)) as [->|Hne]; destruct (decide _) as [Heq|Hne']; try congruence.
Qed.

(** What [store_weights] leaves in the class-level state. *)
Lemma store_weights_spec weights cs gs gs' :
  store_weights weights cs gs = (Ret tt, gs') ->
  forall t, get_gengy_weight gs' t =
            if bool_decide (t ∈ cs) then dict_get weights t else get_gengy_weight gs t.
Proof.
  revert gs. induction cs as [|c cs IH]; intros gs Hs t.
  - simpl in Hs. inversion Hs; subst. reflexivity.
  - cbn [store_weights] in Hs.
    destruct (dict_get weights c) as [w|] eqn:Ew; [|discriminate].
    destruct (set_gengy_weight gs c w) as [gs1| |] eqn:Es; try discriminate.
    rewrite (IH _ Hs t).
    destruct c; simpl in Es; try discriminate.
    destruct (dict_get gs c) eqn:Eg; [|discriminate]. inversion Es; subst gs1.
    rewrite get_gengy_weight_set.
    destruct (bool_decide (t ∈ cs)) eqn:E1.
    + apply bool_decide_eq_true in E1.
      rewrite bool_decide_eq_true_2; [reflexivity|now right].
    + apply bool_decide_eq_false in E1.
      destruct (decide (t = TClass c)) as [->|Hne].
      * rewrite bool_decide_eq_true_2; [now rewrite Ew|left].
      * rewrite bool_decide_eq_false_2; [reflexivity|].
        intros Hin. apply list_elem_of_In in Hin. destruct Hin as [Heq|Hin]; [congruence|].
        apply E1. now apply list_elem_of_In.
Qed.

(** *** The two loops of [update_rule] *)

Lemma update_rule_add learning_rate (extra : list (ty * Q)) (prods : list ty)
    (ws : list (ty * Q)) t0 ws1 t1 :
  ofold_left (fun (acc : list (ty * Q) * Q) prod =>
     match dict_get (fst acc) prod, dict_get extra prod with
     | Some w, Some e =>
         let w' := (w + learning_rate * e)%Q in
         Ret (dict_set (fst acc) prod w', (snd acc + w')%Q)
     | _, _ => Raise KeyError
     end) prods (ws, t0) = Ret (ws1, t1) ->
  NoDup prods ->
  (t1 == t0 + sum_weights ws1 prods)%Q /\
  (forall k, k ∉ prods -> dict_get ws1 k = dict_get ws k) /\
  (forall p, p ∈ prods -> is_Some (dict_get ws1 p)).
Proof.
  revert ws t0. induction prods as [|p prods IH]; intros ws t0 Hf Hnd.
  - simpl in Hf. inversion Hf; subst. simpl. repeat split.
    + ring.
    + intros p Hp. inversion Hp.
  - cbn [ofold_left] in Hf. cbn [fst snd] in Hf.
    destruct (dict_get ws p) as [w|] eqn:Ew; [|discriminate].
    destruct (dict_get extra p) as [e|] eqn:Ee; [|discriminate].
    cbn [obind] in Hf. apply NoDup_cons in Hnd. destruct Hnd as [Hnin Hnd].
    destruct (IH _ _ Hf Hnd) as (Ht & Hk & Hs).
    assert (Hp : dict_get ws1 p = Some (w + learning_rate * e)%Q).
    { rewrite (Hk p Hnin). apply dict_get_set_eq. }
    repeat split.
    + simpl. rewrite Hp. simpl. rewrite Ht. ring.
    + intros k Hkn. rewrite Hk.
      * apply dict_get_set_ne. intros ->. apply Hkn. left.
      * intros Hin. apply Hkn. now right.
    + intros q Hq. apply list_elem_of_In in Hq. destruct Hq as [<-|Hq].
      * rewrite Hp. eauto.
      * apply Hs. now apply list_elem_of_In.
Qed.

Lemma update_rule_div total (prods : list ty) (ws1 ws2 : list (ty * Q)) :
  ofold_left (fun ws prod =>
     match dict_get ws prod with
     | Some w =>
         if Qeq_bool total 0 then Raise ZeroDivisionError
         else Ret (dict_set ws prod (w / total)%Q)
     | None => Raise KeyError
     end) prods ws1 = Ret ws2 ->
  NoDup prods ->
  (prods <> [] -> ~ (total == 0)%Q) /\
  (forall k, k ∉ prods -> dict_get ws2 k = dict_get ws1 k) /\
  (forall p, p ∈ prods ->
     exists w, dict_get ws1 p = Some w /\ dict_get ws2 p = Some (w / total)%Q).
Proof.
  revert ws1. induction prods as [|p prods IH]; intros ws1 Hf Hnd.
  - simpl in Hf. inversion Hf; subst. repeat split; try congruence.
    intros p Hp. inversion Hp.
  - cbn [ofold_left] in Hf.
    destruct (dict_get ws1 p) as [w|] eqn:Ew; [|discriminate].
    destruct (Qeq_bool total 0) eqn:Ez; [discriminate|].
    cbn [obind] in Hf. apply NoDup_cons in Hnd. destruct Hnd as [Hnin Hnd].
    destruct (IH _ Hf Hnd) as (_ & Hk & Hs).
    repeat split.
    + intros _ Hz. apply Qeq_bool_iff in Hz. congruence.
    + intros k Hkn. rewrite Hk.
      * apply dict_get_set_ne. intros ->. apply Hkn. left.
      * intros Hin. apply Hkn. now right.
    + intros q Hq. apply list_elem_of_In in Hq. destruct Hq as [<-|Hq].
      * exists w. split; [exact Ew|]. rewrite (Hk p Hnin). apply dict_get_set_eq.
      * apply list_elem_of_In in Hq. destruct (Hs q Hq) as (w' & Hw1 & Hw2).
        exists w'. split; [|exact Hw2]. rewrite <- Hw1. symmetry.
        apply dict_get_set_ne. intros ->. contradiction.
Qed.

Lemma sum_weights_div total (prods : list ty) (ws1 ws2 : list (ty * Q)) :
  ~ (total == 0)%Q ->
  (forall p, p ∈ prods ->
     exists w, dict_get ws1 p = Some w /\ dict_get ws2 p = Some (w / total)%Q) ->
  (sum_weights ws2 prods == sum_weights ws1 prods / total)%Q.
Proof.
  intros Hz. induction prods as [|p prods IH]; intros Hp.
  - simpl. field. exact Hz.
  - simpl. destruct (Hp p) as (w & -> & ->); [left|]. simpl.
    rewrite IH; [field; exact Hz|]. intros q Hq. apply Hp. now right.
Qed.

Lemma sum_weights_ext (prods : list ty) (ws ws' : list (ty * Q)) :
  (forall p, p ∈ prods -> dict_get ws' p = dict_get ws p) ->
  sum_weights ws' prods = sum_weights ws prods.
Proof.
  induction prods as [|p prods IH]; intros Hp; [reflexivity|].
  simpl. rewrite (Hp p); [|left]. rewrite IH; [reflexivity|].
  intros q Hq. apply Hp. now right.
Qed.

(** One rule: the weights of its productions sum to 1 afterwards, and no
    other weight is touched. *)
Lemma update_rule_spec learning_rate extra ws prods ws' :
  update_rule learning_rate extra ws prods = Ret ws' ->
  NoDup prods ->
  (prods <> [] -> (sum_weights ws' prods == 1)%Q) /\
  (forall k, k ∉ prods -> dict_get ws' k = dict_get ws k).
Proof.
  unfold update_rule. intros Hu Hnd.
  match type of Hu with obind ?m _ = _ => destruct m as [[ws1 total]| |] eqn:E1 end;
    cbn [obind fst snd] in Hu; try discriminate.
  destruct (update_rule_add _ _ _ _ _ _ _ E1 Hnd) as (Ht & Hk1 & _).
  destruct (update_rule_div _ _ _ _ Hu Hnd) as (Hz & Hk2 & Hp).
  split.
  - intros Hne. specialize (Hz Hne).
    rewrite (sum_weights_div total prods ws1 ws' Hz Hp).
    assert (Hs : (sum_weights ws1 prods == total)%Q) by (rewrite Ht; ring).
    rewrite Hs. field. exact Hz.
  - intros k Hkn. rewrite (Hk2 k Hkn). apply Hk1. exact Hkn.
Qed.

Lemma update_rules_spec learning_rate extra rules ws ws' :
  ofold_left (fun ws (rule : ty * list ty) =>
                update_rule learning_rate extra ws (snd rule)) rules ws = Ret ws' ->
  NoDup (concat (map snd rules)) ->
  (forall rule, rule ∈ rules -> snd rule <> [] -> (sum_weights ws' (snd rule) == 1)%Q) /\
  (forall k, k ∉ concat (map snd rules) -> dict_get ws' k = dict_get ws k).
Proof.
  revert ws. induction rules as [|[sym prods] rules IH]; intros ws Hf Hnd.
  - simpl in Hf. inversion Hf; subst. split; [|reflexivity].
    intros rule Hr. inversion Hr.
  - cbn [ofold_left snd] in Hf.
    destruct (update_rule learning_rate extra ws prods) as [ws1| |] eqn:E1;
      cbn [obind] in Hf; try discriminate.
    simpl in Hnd. apply NoDup_app in Hnd. destruct Hnd as (Hnd1 & Hdisj & Hnd2).
    destruct (update_rule_spec _ _ _ _ _ E1 Hnd1) as (Hsum & Hk1).
    destruct (IH _ Hf Hnd2) as (Hsums & Hk2).
    split.
    + intros rule Hr Hne. apply list_elem_of_In in Hr. destruct Hr as [<-|Hr].
      * cbn [snd] in *. rewrite (sum_weights_ext prods ws1 ws').
        -- now apply Hsum.
        -- intros p Hp. apply Hk2. intros Hin. exact (Hdisj p Hp Hin).
      * apply Hsums; [now apply list_elem_of_In|exact Hne].
    + intros k Hkn. simpl in Hkn. rewrite Hk2.
      * apply Hk1. intros Hin. apply Hkn. apply elem_of_app. now left.
      * intros Hin. apply Hkn. apply elem_of_app. now right.
Qed.

Lemma assert_fold_id (ws0 ws ws' : list (ty * Q)) :
  ofold_left (fun ws (kv : ty * Q) =>
    if Qle_bool 0 (snd kv) && Qle_bool (snd kv) 1 then Ret ws else Raise AssertionError)
    ws0 ws = Ret ws' -> ws' = ws.
Proof.
  revert ws. induction ws0 as [|kv ws0 IH]; intros ws Hf.
  - simpl in Hf. congruence.
  - cbn [ofold_left] in Hf. destruct (andb _ _); cbn [obind] in Hf; [|discriminate].
    now apply IH.
Qed.

End WeightFacts.



(** * The heap operations *)

(** ** Rules for specifications *)

Section TripleRules.
Context {R : Type}.

Lemma triple_ret {A} (P : world R -> Prop) (a : A) Q E :
  (forall w, P w -> Q a w) -> triple P (mret a) Q E.
Proof. intros HQ w HP. simpl. auto. Qed.

Lemma triple_raise {A} (P : world R -> Prop) e (Q : A -> world R -> Prop) E :
  (forall w, P w -> E w) -> triple P (mraise e) Q E.
Proof. intros HE w HP. simpl. auto. Qed.

Lemma triple_diverge {A} (P : world R -> Prop) (Q : A -> world R -> Prop) E :
  (forall w, P w -> E w) -> triple P mdiverge Q E.
Proof. intros HE w HP. simpl. auto. Qed.

Lemma triple_lift {A} (P : world R -> Prop) (o : outcome A) (Q : A -> world R -> Prop) E :
  (forall w, P w -> E w) -> (forall a w, o = Ret a -> P w -> Q a w) ->
  triple P (mlift o) Q E.
Proof. intros HE HQ w HP. unfold mlift. destruct o; auto. Qed.

Lemma triple_bind {A B} (P : world R -> Prop) (m : M R A) (k : A -> M R B) Q1 Q2 E :
  triple P m Q1 E ->
  (forall a, triple (Q1 a) (k a) Q2 E) ->
  triple P (mbind m k) Q2 E.
Proof.
  intros Hm Hk w HP. unfold mbind. specialize (Hm w HP).
  destruct (m w) as [[a|e|] w']; auto. apply Hk. exact Hm.
Qed.

Lemma triple_conseq {A} (P P' : world R -> Prop) (m : M R A) (Q Q' : A -> world R -> Prop)
    (E E' : world R -> Prop) :
  triple P m Q E ->
  (forall w, P' w -> P w) ->
  (forall a w, Q a w -> Q' a w) ->
  (forall w, E w -> E' w) ->
  triple P' m Q' E'.
Proof.
  intros Hm HP HQ HE w HP'. specialize (Hm w (HP w HP')).
  destruct (m w) as [[a|e|] w']; auto.
Qed.

Lemma triple_pre {A} (P P' : world R -> Prop) (m : M R A) Q E :
  triple P m Q E -> (forall w, P' w -> P w) -> triple P' m Q E.
Proof. intros Hm HP. eapply triple_conseq; eauto. Qed.

Lemma triple_post {A} (P : world R -> Prop) (m : M R A) (Q Q' : A -> world R -> Prop) E :
  triple P m Q E -> (forall a w, Q a w -> Q' a w) -> triple P m Q' E.
Proof. intros Hm HQ. eapply triple_conseq; eauto. Qed.

(** A pure fact of the precondition may be used to choose the proof. *)
Lemma triple_pure {A} (phi : Prop) (P : world R -> Prop) (m : M R A) Q E :
  (phi -> triple P m Q E) -> triple (fun w => phi /\ P w) m Q E.
Proof. intros Hm w [Hphi HP]. apply Hm; assumption. Qed.

Lemma triple_try {A} (P : world R -> Prop) (m h : M R A) Q E1 E :
  triple P m Q E1 ->
  triple E1 h Q E ->
  (forall w, E1 w -> E w) ->
  triple P (try_except m h) Q E.
Proof.
  intros Hm Hh HE w HP. unfold try_except. specialize (Hm w HP).
  destruct (m w) as [[a|e|] w']; auto. apply Hh. exact Hm.
Qed.

Lemma triple_mfold {A B} (I : A -> world R -> Prop) (f : A -> B -> M R A) l a0 E :
  (forall a x, x ∈ l -> triple (I a) (f a x) I E) ->
  triple (I a0) (mfold f l a0) I E.
Proof.
  revert a0. induction l as [|x l IH]; intros a0 Hf.
  - apply triple_ret. auto.
  - cbn [mfold]. eapply triple_bind.
    + apply Hf. left.
    + intros a. apply IH. intros a' y Hy. apply Hf. now right.
Qed.

Lemma triple_mmap {A B} (P : world R -> Prop) (Qy : B -> Prop) (f : A -> M R B) l E :
  (forall x, x ∈ l -> triple P (f x) (fun y w => Qy y /\ P w) E) ->
  triple P (mmap f l) (fun ys w => Forall Qy ys /\ P w) E.
Proof.
  induction l as [|x l IH]; intros Hf.
  - apply triple_ret. auto.
  - cbn [mmap]. eapply triple_bind; [apply Hf; left|].
    intros y. cbn beta. apply triple_pure. intros Hy.
    eapply triple_bind; [apply IH; intros; apply Hf; now right|].
    intros ys. cbn beta. apply triple_ret. intros w [Hys HP]. auto.
Qed.

(** A computation that does not write to the heap keeps every property
    of the heap. *)
Lemma triple_heap_same {A} (H : heap -> Prop) (m : M R A) :
  (forall w, w_heap (snd (m w)) = w_heap w) ->
  triple (fun w => H (w_heap w)) m (fun _ w => H (w_heap w)) (fun w => H (w_heap w)).
Proof.
  intros Hsame w HP. specialize (Hsame w).
  destruct (m w) as [[a|e|] w']; simpl in Hsame; now rewrite Hsame.
Qed.
End TripleRules.

(** ** The frame of the operations on fresh objects *)

Section FramePrimitives.
Context {R : Type}.
Variable n : nat.
Variable h0 : heap.

Lemma fr_heap_same {A} (m : M R A) :
  (forall w, w_heap (snd (m w)) = w_heap w) ->
  triple (R:=R) (fr n h0) m (fun _ w => fr n h0 w) (fr n h0).
Proof.
  intros Hsame w HP. specialize (Hsame w). unfold fr in *.
  destruct (m w) as [[a|e|] w']; simpl in Hsame; now rewrite Hsame.
Qed.

Lemma fr_alloc c :
  cell_above n c ->
  triple (R:=R) (fr n h0) (alloc c) (fun l w => (n <= l)%nat /\ fr n h0 w) (fr n h0).
Proof.
  intros Hc w (Hn & Hold & Hcl). unfold alloc, fr, with_heap. cbn [w_heap].
  split; [exact Hn|]. rewrite length_app. cbn [length].
  split; [lia|]. split.
  - intros l Hl. rewrite lookup_app_l by lia. auto.
  - intros l c' Hl Hlk. destruct (decide (l < length (w_heap w))%nat).
    + rewrite lookup_app_l in Hlk by assumption. eauto.
    + rewrite lookup_app_r in Hlk by lia.
      destruct (l - length (w_heap w))%nat; cbn in Hlk; [|discriminate].
      now inversion Hlk; subst.
Qed.

Lemma fr_read l :
  triple (R:=R) (fr n h0) (read l)
    (fun c w => ((n <= l)%nat -> cell_above n c) /\ fr n h0 w) (fr n h0).
Proof.
  intros w Hfr. unfold read. destruct (w_heap w !! l) as [c|] eqn:E; [|exact Hfr].
  split; [|exact Hfr]. intros Hl. destruct Hfr as (_ & _ & Hcl). eauto.
Qed.

Lemma fr_write l c :
  (n <= l)%nat -> cell_above n c ->
  triple (R:=R) (fr n h0) (write l c) (fun _ w => fr n h0 w) (fr n h0).
Proof.
  intros Hl Hc w (Hn & Hold & Hcl). unfold write, fr, with_heap. cbn [w_heap].
  rewrite length_insert. split; [exact Hn|]. split.
  - intros l' Hl'. rewrite list_lookup_insert_ne by lia. auto.
  - intros l' c' Hl' Hlk. destruct (decide (l = l')) as [<-|Hne].
    + destruct (decide (l < length (w_heap w))%nat).
      * rewrite list_lookup_insert_eq in Hlk by assumption. now inversion Hlk; subst.
      * rewrite list_insert_ge in Hlk by lia. eauto.
    + rewrite list_lookup_insert_ne in Hlk by assumption. eauto.
Qed.

Lemma fr_type_of v :
  triple (R:=R) (fr n h0) (type_of v) (fun _ w => fr n h0 w) (fr n h0).
Proof.
  destruct v; try (apply triple_ret; auto).
  cbn [type_of]. eapply triple_bind; [apply fr_read|].
  intros c. cbn beta. destruct c; apply triple_ret; tauto.
Qed.

Lemma val_above_dict_get (fields : list (string * value)) name v :
  Forall (fun f => val_above n (snd f)) fields ->
  dict_get fields name = Some v -> val_above n v.
Proof.
  induction fields as [|[k x] fields IH]; intros Hall Hg; [discriminate|].
  simpl in Hg. inversion Hall; subst. destruct (decide (name = k)).
  - now inversion Hg; subst.
  - auto.
Qed.

Lemma val_above_dict_set (fields : list (string * value)) name v :
  Forall (fun f => val_above n (snd f)) fields ->
  val_above n v ->
  Forall (fun f => val_above n (snd f)) (dict_set fields name v).
Proof.
  induction fields as [|[k x] fields IH]; intros Hall Hv; simpl.
  - repeat constructor. exact Hv.
  - inversion Hall; subst. destruct (decide (name = k)); constructor; auto.
Qed.

Lemma fr_getattr o name :
  val_above n o ->
  triple (R:=R) (fr n h0) (getattr o name) (fun v w => val_above n v /\ fr n h0 w) (fr n h0).
Proof.
  intros Ho. destruct o; try (apply triple_raise; auto).
  cbn [getattr]. eapply triple_bind; [apply fr_read|].
  intros c. cbn beta. destruct c as [cls fields lab|items]; [|apply triple_raise; tauto].
  destruct (dict_get fields name) as [v|] eqn:E; [|apply triple_raise; tauto].
  apply triple_ret. intros w [Hc Hfr]. split; [|exact Hfr].
  eapply val_above_dict_get; [apply Hc; exact Ho|exact E].
Qed.

Lemma fr_setattr o name v :
  (n <= o)%nat -> val_above n v ->
  triple (R:=R) (fr n h0) (setattr o name v) (fun _ w => fr n h0 w) (fr n h0).
Proof.
  intros Ho Hv. unfold setattr. eapply triple_bind; [apply fr_read|].
  intros c. cbn beta. destruct c as [cls fields lab|items]; [|apply triple_raise; tauto].
  apply triple_pure. intros Hc. apply fr_write; [exact Ho|].
  apply val_above_dict_set; auto. exact (Hc Ho).
Qed.

Lemma fr_get_label o :
  triple (R:=R) (fr n h0) (get_label o) (fun _ w => fr n h0 w) (fr n h0).
Proof.
  destruct o; try (apply triple_ret; auto).
  cbn [get_label]. eapply triple_bind; [apply fr_read|].
  intros c. cbn beta. destruct c; apply triple_ret; tauto.
Qed.

Lemma fr_the_label o :
  triple (R:=R) (fr n h0) (the_label o) (fun _ w => fr n h0 w) (fr n h0).
Proof.
  unfold the_label. eapply triple_bind; [apply fr_get_label|].
  intros [lb|]; [apply triple_ret|apply triple_raise]; auto.
Qed.

Lemma fr_set_label l lb :
  (n <= l)%nat ->
  triple (R:=R) (fr n h0) (set_label l lb) (fun _ w => fr n h0 w) (fr n h0).
Proof.
  intros Hl. unfold set_label. eapply triple_bind; [apply fr_read|].
  intros c. cbn beta. destruct c as [cls fields lab|items]; [|apply triple_raise; tauto].
  apply triple_pure. intros Hc. apply fr_write; [exact Hl|]. exact (Hc Hl).
Qed.
End FramePrimitives.

Section FrameSynthesis.
Context {R : Type} `{Source R}.
Variable CT : class_table.
Variable generate :
  metahandler -> Grammar -> Z -> ty -> string -> list (string * ty) -> R -> outcome scalar * R.
Variable n : nat.
Variable h0 : heap.

Lemma randint_heap a b (w : world R) : w_heap (snd (randint a b w)) = w_heap w.
Proof.
  unfold randint. destruct (b <? a); [reflexivity|].
  destruct (draw_int (w_rng w) a b). reflexivity.
Qed.

Lemma random_float_between_heap a b (w : world R) :
  w_heap (snd (random_float_between a b w)) = w_heap w.
Proof. unfold random_float_between. destruct (draw_float (w_rng w) a b). reflexivity. Qed.

Lemma fr_randint a b :
  triple (R:=R) (fr n h0) (randint a b) (fun _ w => fr n h0 w) (fr n h0).
Proof. apply fr_heap_same. apply randint_heap. Qed.

Lemma fr_choice {A} (l : list A) :
  triple (R:=R) (fr n h0) (choice l) (fun x w => x ∈ l /\ fr n h0 w) (fr n h0).
Proof.
  unfold choice. eapply triple_bind; [apply fr_randint|].
  intros i. cbn beta. destruct (l !! Z.to_nat i) as [x|] eqn:E.
  - apply triple_ret. intros w Hw. split; [|exact Hw]. eapply list_elem_of_lookup_2. exact E.
  - apply triple_raise. auto.
Qed.

Lemma pick_weighted_in {A} (l : list A) ws acc x a :
  pick_weighted l ws acc x = Some a -> a ∈ l.
Proof.
  revert ws acc. induction l as [|y l IH]; intros ws acc Hp; [discriminate|].
  destruct ws as [|w ws]; [discriminate|]. cbn [pick_weighted] in Hp.
  destruct (Qle_bool (acc + w) x).
  - right. eapply IH. exact Hp.
  - inversion Hp; subst. left.
Qed.

Lemma fr_choice_weighted {A} (l : list A) ws :
  triple (R:=R) (fr n h0) (choice_weighted l ws) (fun x w => x ∈ l /\ fr n h0 w) (fr n h0).
Proof.
  unfold choice_weighted. eapply triple_bind.
  - apply fr_heap_same. apply random_float_between_heap.
  - intros x. cbn beta. destruct (pick_weighted l ws 0%Q x) as [a|] eqn:E.
    + apply triple_ret. intros w Hw. split; [|exact Hw]. eapply pick_weighted_in. exact E.
    + destruct l as [|a l]; [apply triple_raise; auto|].
      apply triple_ret. intros w Hw. split; [left|exact Hw].
Qed.

Lemma fr_random_int :
  triple (R:=R) (fr n h0) random_int (fun v w => val_above n v /\ fr n h0 w) (fr n h0).
Proof.
  unfold random_int. eapply triple_bind; [apply fr_randint|].
  intros z. apply triple_ret. intros w Hw. split; [exact I|exact Hw].
Qed.

Lemma fr_random_float :
  triple (R:=R) (fr n h0) random_float (fun v w => val_above n v /\ fr n h0 w) (fr n h0).
Proof.
  unfold random_float. eapply triple_bind.
  - apply fr_heap_same. apply random_float_between_heap.
  - intros q. apply triple_ret. intros w Hw. split; [exact I|exact Hw].
Qed.

Lemma fr_random_list (rec : Z -> ty -> M R value) d t :
  (forall d' t', triple (fr n h0) (rec d' t')
                   (fun v w => val_above n v /\ fr n h0 w) (fr n h0)) ->
  triple (fr n h0) (random_list rec d t)
    (fun v w => val_above n v /\ fr n h0 w) (fr n h0).
Proof.
  intros Hrec. unfold random_list. eapply triple_bind; [apply fr_randint|].
  intros size. cbn beta. eapply triple_bind.
  - apply (triple_mmap (fr n h0) (val_above n)). intros x _. apply Hrec.
  - intros items. cbn beta. apply triple_pure. intros Hitems.
    eapply triple_bind; [apply fr_alloc; exact Hitems|].
    intros l. cbn beta. apply triple_ret. intros w [Hl Hw]. split; [exact Hl|exact Hw].
Qed.

Lemma fr_apply_metahandler g d t argn ctx :
  triple (R:=R) (fr n h0) (apply_metahandler generate g d t argn ctx)
    (fun v w => val_above n v /\ fr n h0 w) (fr n h0).
Proof.
  destruct t; try (apply triple_raise; auto).
  intros w Hw. cbn [apply_metahandler].
  destruct (generate m g d _ argn ctx (w_rng w)) as [[s| |] r]; try exact Hw.
  split; [destruct s; exact I|exact Hw].
Qed.

Lemma fr_instantiate t args :
  triple (R:=R) (fr n h0) (instantiate t args)
    (fun v w => val_above n v /\ fr n h0 w) (fr n h0).
Proof.
  assert (Hobj : triple (R:=R) (fr n h0)
            (mbind (alloc (CObj t (map (fun a : string * ty => (fst a, VNone)) args) None))
                   (fun l => mret (VRef l)))
            (fun v w => val_above n v /\ fr n h0 w) (fr n h0)).
  { eapply triple_bind.
    - apply fr_alloc. cbn. apply Forall_forall. intros f Hf.
      apply list_elem_of_In, in_map_iff in Hf. destruct Hf as (a & <- & _). exact I.
    - intros l. apply triple_ret. auto. }
  assert (Hlist : triple (R:=R) (fr n h0)
            (mbind (alloc (CList [])) (fun l => mret (VRef l)))
            (fun v w => val_above n v /\ fr n h0 w) (fr n h0)).
  { eapply triple_bind.
    - apply fr_alloc. cbn. constructor.
    - intros l. apply triple_ret. auto. }
  destruct t; cbn [instantiate]; try exact Hobj; try exact Hlist;
    try (apply triple_raise; auto); apply triple_ret; intros w Hw; (split; [exact I|exact Hw]).
Qed.

Lemma fr_choose_rule valid :
  triple (R:=R) (fr n h0) (choose_rule valid) (fun x w => x ∈ valid /\ fr n h0 w) (fr n h0).
Proof.
  intros w Hw. unfold choose_rule. destruct (existsb _ _).
  - exact (fr_choice_weighted valid _ w Hw).
  - exact (fr_choice valid w Hw).
Qed.

Lemma fr_expand_production d sym :
  triple (R:=R) (fr n h0) (expand_production CT d sym)
    (fun v w => val_above n v /\ fr n h0 w) (fr n h0).
Proof.
  unfold expand_production. cbn zeta. eapply triple_bind; [apply fr_instantiate|].
  intros obj. cbn beta. apply triple_pure. intros Hobj.
  destruct obj; try (apply triple_ret; auto).
  eapply triple_bind.
  - apply (triple_mfold (fun _ w => fr n h0 w)). intros _ a _.
    apply fr_setattr; [exact Hobj|exact Hobj].
  - intros u. apply triple_ret. intros w Hw. split; [exact Hobj|exact Hw].
Qed.

Lemma fr_expand_symbol (rec : Z -> ty -> M R value) g d sym argn ctx :
  (forall d' t', triple (fr n h0) (rec d' t')
                   (fun v w => val_above n v /\ fr n h0 w) (fr n h0)) ->
  triple (fr n h0) (expand_symbol CT generate rec g d sym argn ctx)
    (fun v w => val_above n v /\ fr n h0 w) (fr n h0).
Proof.
  intros Hrec.
  assert (Hnormal : triple (R:=R) (fr n h0)
    (if negb (set_mem sym (all_nodes g))
     then mraise (GeneticEngineError (SymbolNotInGrammar sym))
     else
       match dict_get (alternatives g) sym with
       | Some compatible_productions =>
           mbind (mlift (filter_choices g compatible_productions d))
             (fun valid_productions =>
                match valid_productions with
                | [] => mraise (GeneticEngineError (NoProductions sym d))
                | _ => mbind (choose_rule valid_productions) (fun rule => rec d rule)
                end)
       | None => expand_production CT d sym
       end)
    (fun v w => val_above n v /\ fr n h0 w) (fr n h0)).
  { destruct (negb _); [apply triple_raise; auto|].
    destruct (dict_get (alternatives g) sym) as [prods|]; [|apply fr_expand_production].
    eapply triple_bind; [apply triple_lift with (Q := fun _ w => fr n h0 w); auto|].
    intros valid. cbn beta. destruct valid as [|v0 valid]; [apply triple_raise; auto|].
    eapply triple_bind; [apply fr_choose_rule|].
    intros rule. cbn beta. apply triple_pure. intros _. apply Hrec. }
  destruct sym; try exact Hnormal.
  - apply fr_random_int.
  - apply fr_random_float.
  - apply fr_random_list. exact Hrec.
  - apply fr_apply_metahandler.
Qed.

Lemma fr_expand_node fuel g d sym argn ctx :
  triple (R:=R) (fr n h0) (expand_node CT generate fuel g d sym argn ctx)
    (fun v w => val_above n v /\ fr n h0 w) (fr n h0).
Proof.
  revert d sym argn ctx. induction fuel as [|fuel IH]; intros d sym argn ctx;
    cbn [expand_node]; (destruct (d <? 0); [apply triple_raise; auto|]);
    (eapply triple_bind; [apply triple_lift with (Q := fun _ w => fr n h0 w); auto|]);
    intros dd; cbn beta; (destruct (d <? dd); [apply triple_raise; auto|]).
  - apply triple_diverge; auto.
  - apply fr_expand_symbol. intros d' t'. apply IH.
Qed.

Lemma fr_extract_futures fuel obj :
  val_above n obj ->
  triple (R:=R) (fr n h0) (extract_futures CT fuel obj)
    (fun fs w => Forall (val_above n) fs /\ fr n h0 w) (fr n h0).
Proof.
  revert obj. induction fuel as [|fuel IH]; intros obj Hobj; [apply triple_diverge; auto|].
  cbn [extract_futures]. unfold extract_futures_body.
  destruct obj; try solve [apply triple_ret; intros w Hw; split; [constructor|exact Hw]].
  eapply triple_bind; [apply fr_read|].
  intros c. cbn beta. apply triple_pure. intros Hc. specialize (Hc Hobj).
  destruct c as [cls fields lab|items].
  - eapply triple_pre.
    + apply (triple_mfold (fun fs w => Forall (val_above n) fs /\ fr n h0 w)).
      intros fs a _. cbn beta. apply triple_pure. intros Hfs.
      eapply triple_bind; [apply fr_getattr; exact Hobj|].
      intros v. cbn beta. apply triple_pure. intros Hv.
      destruct v; apply triple_ret; intros w Hw; (split; [|exact Hw]); auto.
      apply Forall_app. split; [exact Hfs|]. repeat constructor. exact Hv.
    + intros w Hw. split; [constructor|exact Hw].
  - eapply triple_pre.
    + apply (triple_mfold (fun fs w => Forall (val_above n) fs /\ fr n h0 w)).
      intros fs el Hel. cbn beta. apply triple_pure. intros Hfs.
      assert (Hel' : val_above n el).
      { cbn in Hc. rewrite Forall_forall in Hc. apply Hc. exact Hel. }
      assert (Hrec : triple (R:=R) (fr n h0)
                (mbind (extract_futures CT fuel el) (fun fs0 => mret (fs ++ fs0)))
                (fun fs w => Forall (val_above n) fs /\ fr n h0 w) (fr n h0)).
      { eapply triple_bind; [apply IH; exact Hel'|].
        intros fs0. cbn beta. apply triple_ret. intros w [Hfs0 Hw].
        split; [|exact Hw]. apply Forall_app. auto. }
      destruct el; try exact Hrec.
      apply triple_ret. intros w Hw. split; [|exact Hw].
      apply Forall_app. split; [exact Hfs|]. repeat constructor. exact Hel'.
    + intros w Hw. split; [constructor|exact Hw].
Qed.

Lemma fr_store_label i lb :
  val_above n i ->
  triple (R:=R) (fr n h0) (store_label i lb) (fun _ w => fr n h0 w) (fr n h0).
Proof.
  intros Hi. destruct i; try (apply triple_ret; auto).
  cbn [store_label]. eapply triple_bind; [apply fr_read|].
  intros c. cbn beta. apply triple_pure. intros _.
  destruct c; [apply fr_set_label; exact Hi|apply triple_ret; auto].
Qed.

Lemma fr_mmap_getattr o names :
  val_above n o ->
  triple (R:=R) (fr n h0) (mmap (getattr o) names)
    (fun vs w => Forall (val_above n) vs /\ fr n h0 w) (fr n h0).
Proof.
  intros Ho. apply (triple_mmap (fr n h0) (val_above n)).
  intros x _. apply fr_getattr. exact Ho.
Qed.

Lemma fr_children_of i :
  val_above n i ->
  triple (R:=R) (fr n h0) (children_of CT i)
    (fun vs w => Forall (val_above n) vs /\ fr n h0 w) (fr n h0).
Proof.
  intros Hi. destruct i; try solve [apply triple_ret; intros w Hw; split; [constructor|exact Hw]].
  cbn [children_of]. eapply triple_bind; [apply fr_read|].
  intros c. cbn beta. apply triple_pure. intros Hc. specialize (Hc Hi).
  destruct c as [cls fields lab|items].
  - apply fr_mmap_getattr. exact Hi.
  - apply triple_ret. intros w Hw. split; [exact Hc|exact Hw].
Qed.

Lemma fr_mmap_above {A B} (f : A -> M R B) (l : list A) (Pre : A -> Prop) :
  Forall Pre l ->
  (forall x, Pre x -> triple (fr n h0) (f x) (fun _ w => fr n h0 w) (fr n h0)) ->
  triple (fr n h0) (mmap f l) (fun _ w => fr n h0 w) (fr n h0).
Proof.
  intros Hl Hf. eapply triple_post.
  - apply (triple_mmap (fr n h0) (fun _ => True)). intros x Hx.
    eapply triple_post; [apply Hf|cbn beta; auto].
    rewrite Forall_forall in Hl. auto.
  - cbn beta. tauto.
Qed.

Lemma fr_relabel_nodes fuel nts i d :
  val_above n i ->
  triple (R:=R) (fr n h0) (relabel_nodes CT fuel nts i d) (fun _ w => fr n h0 w) (fr n h0).
Proof.
  revert i d. induction fuel as [|fuel IH]; intros i d Hi; [apply triple_diverge; auto|].
  cbn [relabel_nodes]. unfold relabel_body.
  eapply triple_bind; [apply fr_type_of|].
  intros t. cbn beta. destruct (is_terminal CT t nts).
  - eapply triple_bind.
    + destruct (negb (is_builtin t)); [apply fr_store_label; exact Hi|apply triple_ret; auto].
    + intros u. apply triple_ret. auto.
  - eapply triple_bind; [apply fr_children_of; exact Hi|].
    intros children. cbn beta. apply triple_pure. intros Hch.
    destruct children as [|c0 children]; [apply triple_raise; auto|].
    eapply triple_bind.
    + apply (fr_mmap_above _ _ (val_above n) Hch). intros x Hx. apply IH. exact Hx.
    + intros props. cbn beta. eapply triple_bind; [apply fr_store_label; exact Hi|].
      intros u. apply triple_ret. auto.
Qed.

Lemma fr_relabel_nodes_of_trees fuel i nts :
  val_above n i ->
  triple (R:=R) (fr n h0) (relabel_nodes_of_trees CT fuel i nts)
    (fun v w => val_above n v /\ fr n h0 w) (fr n h0).
Proof.
  intros Hi. unfold relabel_nodes_of_trees.
  eapply triple_bind; [apply fr_relabel_nodes; exact Hi|].
  intros u. apply triple_ret. auto.
Qed.

Lemma fr_PI_Grow_step fuel g queue :
  Forall (val_above n) queue ->
  triple (R:=R) (fr n h0) (PI_Grow_step CT generate fuel g queue)
    (fun q w => Forall (val_above n) q /\ fr n h0 w) (fr n h0).
Proof.
  intros Hq. unfold PI_Grow_step. eapply triple_bind; [apply fr_randint|].
  intros index. cbn beta.
  destruct (queue !! Z.to_nat index) as [future|] eqn:E; [|apply triple_raise; auto].
  assert (Hfut : val_above n future).
  { rewrite Forall_forall in Hq. apply Hq. eapply list_elem_of_lookup_2. exact E. }
  cbn zeta. eapply triple_bind with (Q1 := fun v w => val_above n v /\ fr n h0 w).
  - destruct future; try (apply triple_ret; auto).
    eapply triple_bind; [apply fr_expand_node|].
    intros obj. cbn beta. apply triple_pure. intros Hobj.
    eapply triple_bind; [apply fr_setattr; [exact Hfut|exact Hobj]|].
    intros u. apply triple_ret. auto.
  - intros obj. cbn beta. apply triple_pure. intros Hobj.
    eapply triple_bind; [apply fr_extract_futures; exact Hobj|].
    intros fs. cbn beta. apply triple_ret. intros w [Hfs Hw]. split; [|exact Hw].
    apply Forall_app. split; [|exact Hfs]. apply Forall_delete. exact Hq.
Qed.

Lemma fr_PI_Grow_loop steps fuel g queue :
  Forall (val_above n) queue ->
  triple (R:=R) (fr n h0) (PI_Grow_loop CT generate steps fuel g queue)
    (fun _ w => fr n h0 w) (fr n h0).
Proof.
  revert queue. induction steps as [|steps IH]; intros queue Hq;
    destruct queue as [|q0 queue]; cbn [PI_Grow_loop];
    try (apply triple_ret; auto); [apply triple_diverge; auto|].
  eapply triple_bind; [apply fr_PI_Grow_step; exact Hq|].
  intros q. cbn beta. apply triple_pure. apply IH.
Qed.

Lemma fr_PI_Grow fuel g d sym :
  triple (R:=R) (fr n h0) (PI_Grow CT generate fuel g d sym)
    (fun v w => val_above n v /\ fr n h0 w) (fr n h0).
Proof.
  unfold PI_Grow. eapply triple_bind; [apply fr_expand_node|].
  intros root. cbn beta. apply triple_pure. intros Hroot.
  eapply triple_bind; [apply fr_PI_Grow_loop; repeat constructor; exact Hroot|].
  intros u. cbn beta. apply fr_relabel_nodes_of_trees. exact Hroot.
Qed.
End FrameSynthesis.

Section FrameVariation.
Context {R : Type} `{Source R}.
Variable CT : class_table.
Variable generate :
  metahandler -> Grammar -> Z -> ty -> string -> list (string * ty) -> R -> outcome scalar * R.
Variable n : nat.
Variable h0 : heap.

Lemma memo_above_get memo l l' :
  memo_above n memo -> dict_get memo l = Some l' -> (n <= l')%nat.
Proof.
  unfold memo_above. induction memo as [|[k v] memo IH]; intros Hall Hg; [discriminate|].
  simpl in Hg. inversion Hall; subst. destruct (decide (l = k)).
  - inversion Hg; subst. assumption.
  - auto.
Qed.

Lemma fr_deepcopy_cell rec memo l :
  (forall memo v, memo_above n memo ->
     triple (fr n h0) (rec memo v)
       (fun r w => (memo_above n (fst r) /\ val_above n (snd r)) /\ fr n h0 w) (fr n h0)) ->
  memo_above n memo ->
  triple (R:=R) (fr n h0) (deepcopy_cell rec memo l)
    (fun r w => (memo_above n (fst r) /\ val_above n (snd r)) /\ fr n h0 w) (fr n h0).
Proof.
  intros Hrec Hmemo. unfold deepcopy_cell. eapply triple_bind; [apply fr_read|].
  intros c. cbn beta. apply triple_pure. intros _. destruct c as [cls fields lab|items].
  - eapply triple_bind; [apply fr_alloc; constructor|].
    intros l'. cbn beta. apply triple_pure. intros Hl'.
    eapply triple_bind.
    + eapply triple_pre.
      * apply (triple_mfold (fun (acc : list (nat * nat) * list (string * value)) w =>
                 (memo_above n (fst acc) /\ Forall (fun f => val_above n (snd f)) (snd acc))
                 /\ fr n h0 w)).
        intros acc f _. cbn beta. apply triple_pure. intros [Hm Hacc].
        eapply triple_bind; [apply Hrec; exact Hm|].
        intros r. cbn beta. apply triple_pure. intros [Hm' Hv].
        apply triple_ret. intros w Hw. split; [|exact Hw]. split; [exact Hm'|].
        apply Forall_app. split; [exact Hacc|]. repeat constructor. exact Hv.
      * intros w Hw. split; [|exact Hw]. split; [|constructor].
        constructor; [exact Hl'|exact Hmemo].
    + intros r. cbn beta. apply triple_pure. intros [Hm Hfs].
      eapply triple_bind; [apply fr_write; [exact Hl'|exact Hfs]|].
      intros u. apply triple_ret. intros w Hw. split; [|exact Hw]. split; [exact Hm|exact Hl'].
  - eapply triple_bind; [apply fr_alloc; constructor|].
    intros l'. cbn beta. apply triple_pure. intros Hl'.
    eapply triple_bind.
    + eapply triple_pre.
      * apply (triple_mfold (fun (acc : list (nat * nat) * list value) w =>
                 (memo_above n (fst acc) /\ Forall (val_above n) (snd acc)) /\ fr n h0 w)).
        intros acc x _. cbn beta. apply triple_pure. intros [Hm Hacc].
        eapply triple_bind; [apply Hrec; exact Hm|].
        intros r. cbn beta. apply triple_pure. intros [Hm' Hv].
        apply triple_ret. intros w Hw. split; [|exact Hw]. split; [exact Hm'|].
        apply Forall_app. split; [exact Hacc|]. repeat constructor. exact Hv.
      * intros w Hw. split; [|exact Hw]. split; [|constructor].
        constructor; [exact Hl'|exact Hmemo].
    + intros r. cbn beta. apply triple_pure. intros [Hm Hfs].
      eapply triple_bind; [apply fr_write; [exact Hl'|exact Hfs]|].
      intros u. apply triple_ret. intros w Hw. split; [|exact Hw]. split; [exact Hm|exact Hl'].
Qed.

Lemma fr_deepcopy fuel memo v :
  memo_above n memo ->
  triple (R:=R) (fr n h0) (deepcopy fuel memo v)
    (fun r w => (memo_above n (fst r) /\ val_above n (snd r)) /\ fr n h0 w) (fr n h0).
Proof.
  revert memo v. induction fuel as [|fuel IH]; intros memo v Hmemo.
  - destruct v; cbn [deepcopy];
      try (apply triple_ret; intros w Hw; split; [split; [exact Hmemo|exact I]|exact Hw]).
    + destruct (dict_get memo l) as [l'|] eqn:E; [|apply triple_diverge; auto].
      apply triple_ret. intros w Hw. split; [|exact Hw]. split; [exact Hmemo|].
      eapply memo_above_get; eauto.
    + apply triple_diverge; auto.
  - destruct v; cbn [deepcopy];
      try (apply triple_ret; intros w Hw; split; [split; [exact Hmemo|exact I]|exact Hw]).
    + destruct (dict_get memo l) as [l'|] eqn:E.
      * apply triple_ret. intros w Hw. split; [|exact Hw]. split; [exact Hmemo|].
        eapply memo_above_get; eauto.
      * apply fr_deepcopy_cell; [|exact Hmemo]. intros memo' v' Hm'. apply IH. exact Hm'.
    + eapply triple_bind; [apply IH; exact Hmemo|].
      intros r. cbn beta. apply triple_pure. intros [Hm Hv].
      destruct (snd r) eqn:Er; try (apply triple_raise; auto).
      apply triple_ret. intros w Hw. split; [|exact Hw]. split; [exact Hm|exact Hv].
Qed.

Lemma fr_first_base i :
  triple (R:=R) (fr n h0) (first_base CT i) (fun _ w => fr n h0 w) (fr n h0).
Proof.
  unfold first_base. eapply triple_bind; [apply fr_type_of|].
  intros t. cbn beta. destruct (bases CT t); [apply triple_raise|apply triple_ret]; auto.
Qed.

Lemma fr_annotations i :
  triple (R:=R) (fr n h0) (annotations CT i) (fun _ w => fr n h0 w) (fr n h0).
Proof.
  unfold annotations. eapply triple_bind; [apply fr_type_of|].
  intros t. cbn beta. destruct (get_arguments CT t); [apply triple_raise|apply triple_ret]; auto.
Qed.

Lemma fr_descend (rec : value -> M R value) i fields c :
  val_above n i ->
  (forall child, val_above n child ->
     triple (fr n h0) (rec child) (fun v w => val_above n v /\ fr n h0 w) (fr n h0)) ->
  triple (fr n h0) (descend rec i fields c)
    (fun v w => val_above n v /\ fr n h0 w) (fr n h0).
Proof.
  intros Hi Hrec. revert c. induction fields as [|field rest IH]; intros c.
  - apply triple_ret. auto.
  - cbn [descend]. eapply triple_bind; [apply fr_getattr; exact Hi|].
    intros child. cbn beta. apply triple_pure. intros Hchild.
    eapply triple_bind; [apply fr_get_label|].
    intros lab. cbn beta. destruct lab as [lb|]; [|apply IH].
    cbn zeta. destruct (c <=? nodes lb); [|apply IH].
    eapply triple_bind; [apply Hrec; exact Hchild|].
    intros v. cbn beta. apply triple_pure. intros Hv.
    eapply triple_bind.
    + destruct i; try (apply triple_raise; auto). apply fr_setattr; [exact Hi|exact Hv].
    + intros u. apply triple_ret. auto.
Qed.

Lemma fr_vary_body replace (rec : value -> M R value) i :
  val_above n i ->
  (forall lb t, triple (fr n h0) (replace lb t)
                  (fun v w => val_above n v /\ fr n h0 w) (fr n h0)) ->
  (forall child, val_above n child ->
     triple (fr n h0) (rec child) (fun v w => val_above n v /\ fr n h0 w) (fr n h0)) ->
  triple (fr n h0) (vary_body CT replace rec i)
    (fun v w => val_above n v /\ fr n h0 w) (fr n h0).
Proof.
  intros Hi Hrep Hrec. unfold vary_body. eapply triple_bind; [apply fr_the_label|].
  intros lb. cbn beta. destruct (0 <? nodes lb); [|apply triple_ret; auto].
  eapply triple_bind; [apply fr_randint|].
  intros c. cbn beta. destruct (c =? 0).
  - eapply triple_bind; [apply fr_first_base|]. intros t. apply Hrep.
  - eapply triple_bind; [apply fr_annotations|]. intros fields.
    apply fr_descend; assumption.
Qed.

Lemma fr_try_random_node fuel g d t i :
  val_above n i ->
  triple (R:=R) (fr n h0) (try_except (random_node CT generate fuel g d t) (mret i))
    (fun v w => val_above n v /\ fr n h0 w) (fr n h0).
Proof.
  intros Hi. eapply triple_try; [apply fr_PI_Grow|apply triple_ret; auto|auto].
Qed.

Lemma fr_mutate_inner fuel g i max_depth :
  val_above n i ->
  triple (R:=R) (fr n h0) (mutate_inner CT generate fuel g i max_depth)
    (fun v w => val_above n v /\ fr n h0 w) (fr n h0).
Proof.
  revert i. induction fuel as [|fuel IH]; intros i Hi; [apply triple_diverge; auto|].
  cbn [mutate_inner]. apply fr_vary_body; [exact Hi| |].
  - intros lb t. apply fr_try_random_node. exact Hi.
  - intros child Hchild. apply IH. exact Hchild.
Qed.

Lemma fr_mutate fuel g i max_depth :
  triple (R:=R) (fr n h0) (mutate CT generate fuel g i max_depth)
    (fun v w => val_above n v /\ fr n h0 w) (fr n h0).
Proof.
  unfold mutate. eapply triple_bind; [apply fr_deepcopy; constructor|].
  intros cp. cbn beta. apply triple_pure. intros [_ Hcp].
  eapply triple_bind; [apply fr_mutate_inner; exact Hcp|].
  intros t. cbn beta. apply triple_pure. intros Ht.
  apply fr_relabel_nodes_of_trees. exact Ht.
Qed.

Lemma fr_annotated_children o :
  val_above n o ->
  triple (R:=R) (fr n h0) (annotated_children CT o)
    (fun vs w => Forall (val_above n) vs /\ fr n h0 w) (fr n h0).
Proof.
  intros Ho. destruct o; try solve [apply triple_ret; intros w Hw; split; [constructor|exact Hw]].
  - cbn [annotated_children]. eapply triple_bind; [apply fr_read|].
    intros c. cbn beta. apply triple_pure. intros _. destruct c as [cls fields lab|items].
    + apply fr_mmap_getattr. exact Ho.
    + apply triple_ret. intros w Hw. split; [constructor|exact Hw].
  - apply triple_ret. intros w Hw. split; [|exact Hw]. repeat constructor. exact Ho.
Qed.

Lemma fr_find_here t o d :
  val_above n o ->
  triple (R:=R) (fr n h0) (find_here CT t o d)
    (fun vs w => Forall (val_above n) vs /\ fr n h0 w) (fr n h0).
Proof.
  intros Ho. unfold find_here. eapply triple_bind; [apply fr_type_of|].
  intros cls. cbn beta. destruct (set_mem t (bases CT cls)).
  - eapply triple_bind; [apply fr_the_label|].
    intros lb. apply triple_ret. intros w Hw. split; [|exact Hw].
    destruct (_ <=? _); repeat constructor. exact Ho.
  - apply triple_ret. intros w Hw. split; [constructor|exact Hw].
Qed.

Lemma fr_find_in_tree fuel t o d :
  val_above n o ->
  triple (R:=R) (fr n h0) (find_in_tree CT fuel t o d)
    (fun vs w => Forall (val_above n) vs /\ fr n h0 w) (fr n h0).
Proof.
  revert o. induction fuel as [|fuel IH]; intros o Ho; [apply triple_diverge; auto|].
  cbn [find_in_tree]. eapply triple_bind; [apply fr_find_here; exact Ho|].
  intros here. cbn beta. apply triple_pure. intros Hhere.
  eapply triple_bind; [apply fr_annotated_children; exact Ho|].
  intros children. cbn beta. apply triple_pure. intros Hch.
  eapply triple_pre.
  - apply (triple_mfold (fun vs w => Forall (val_above n) vs /\ fr n h0 w)).
    intros found child Hin. cbn beta. apply triple_pure. intros Hfound.
    eapply triple_bind; [apply IH; rewrite Forall_forall in Hch; auto|].
    intros more. cbn beta. apply triple_ret. intros w [Hmore Hw]. split; [|exact Hw].
    apply Forall_app. auto.
  - intros w Hw. cbn beta. split; [exact Hhere|exact Hw].
Qed.

Lemma fr_crossover_replacement fuel g i o max_depth lb t :
  val_above n i -> val_above n o ->
  triple (R:=R) (fr n h0) (crossover_replacement CT generate fuel g i o max_depth lb t)
    (fun v w => val_above n v /\ fr n h0 w) (fr n h0).
Proof.
  intros Hi Ho. unfold crossover_replacement.
  eapply triple_bind; [apply fr_find_in_tree; exact Ho|].
  intros options. cbn beta. apply triple_pure. intros Hopts.
  destruct options as [|o1 options]; [apply fr_try_random_node; exact Hi|].
  eapply triple_post; [apply fr_choice|].
  cbn beta. intros x w [Hx Hw]. split; [|exact Hw].
  rewrite Forall_forall in Hopts. auto.
Qed.

Lemma fr_tree_crossover_inner fuel g i o max_depth :
  val_above n i -> val_above n o ->
  triple (R:=R) (fr n h0) (tree_crossover_inner CT generate fuel g i o max_depth)
    (fun v w => val_above n v /\ fr n h0 w) (fr n h0).
Proof.
  intros Hi Ho. revert i Hi. induction fuel as [|fuel IH]; intros i Hi;
    [apply triple_diverge; auto|].
  cbn [tree_crossover_inner]. apply fr_vary_body; [exact Hi| |].
  - intros lb t. apply fr_crossover_replacement; assumption.
  - intros child Hchild. apply IH. exact Hchild.
Qed.

Lemma fr_crossover_once fuel g p1 p2 max_depth :
  triple (R:=R) (fr n h0)
    (mbind (deepcopy fuel [] p1) (fun c1 =>
     mbind (deepcopy fuel [] p2) (fun c2 =>
     mbind (tree_crossover_inner CT generate fuel g (snd c1) (snd c2) max_depth) (fun t =>
     relabel_nodes_of_trees CT fuel t (non_terminals g)))))
    (fun v w => val_above n v /\ fr n h0 w) (fr n h0).
Proof.
  eapply triple_bind; [apply fr_deepcopy; constructor|].
  intros c1. cbn beta. apply triple_pure. intros [_ Hc1].
  eapply triple_bind; [apply fr_deepcopy; constructor|].
  intros c2. cbn beta. apply triple_pure. intros [_ Hc2].
  eapply triple_bind; [apply fr_tree_crossover_inner; assumption|].
  intros t. cbn beta. apply triple_pure. intros Ht.
  apply fr_relabel_nodes_of_trees. exact Ht.
Qed.

Lemma fr_tree_crossover fuel g p1 p2 max_depth :
  triple (R:=R) (fr n h0) (tree_crossover CT generate fuel g p1 p2 max_depth)
    (fun _ w => fr n h0 w) (fr n h0).
Proof.
  pose proof (fr_crossover_once fuel g p1 p2 max_depth) as H1.
  pose proof (fr_crossover_once fuel g p2 p1 max_depth) as H2.
  unfold tree_crossover. intros w Hw. specialize (H1 w Hw). unfold mbind in *.
  destruct (deepcopy fuel [] p1 w) as [[c1|e|] w1]; try exact H1.
  destruct (deepcopy fuel [] p2 w1) as [[c2|e|] w2]; try exact H1.
  destruct (tree_crossover_inner CT generate fuel g (snd c1) (snd c2) max_depth w2)
    as [[t1|e|] w3]; try exact H1.
  destruct (relabel_nodes_of_trees CT fuel t1 (non_terminals g) w3) as [[r1|e|] w4];
    try exact H1.
  destruct H1 as [_ H1]. specialize (H2 w4 H1). cbv beta in H2.
  destruct (deepcopy fuel [] p2 w4) as [[d2|e|] w5]; try exact H2.
  destruct (deepcopy fuel [] p1 w5) as [[d1|e|] w6]; try exact H2.
  destruct (tree_crossover_inner CT generate fuel g (snd d2) (snd d1) max_depth w6)
    as [[t2|e|] w7]; try exact H2.
  destruct (relabel_nodes_of_trees CT fuel t2 (non_terminals g) w7) as [[r2|e|] w8];
    try exact H2.
  exact (proj2 H2).
Qed.
End FrameVariation.

(** ** Originals are never written to *)

Lemma extends_refl h : extends h h.
Proof. split; auto. Qed.

Lemma extends_trans h1 h2 h3 : extends h1 h2 -> extends h2 h3 -> extends h1 h3.
Proof.
  intros [Hl1 He1] [Hl2 He2]. split; [lia|].
  intros l Hl. rewrite He2 by lia. auto.
Qed.

Lemma fr_start {R : Type} (w : world R) : fr (length (w_heap w)) (w_heap w) w.
Proof.
  split; [lia|]. split; [auto|].
  intros l c Hl Hlk. apply lookup_lt_Some in Hlk. lia.
Qed.

Lemma fr_extends {R : Type} (h0 : heap) (w : world R) :
  fr (length h0) h0 w -> extends h0 (w_heap w).
Proof. intros (Hn & Hold & _). split; assumption. Qed.

Lemma triple_fr_end {R A : Type} n h0 (m : M R A) (Q : A -> world R -> Prop) (w : world R) :
  triple (fr n h0) m Q (fr n h0) ->
  (forall a w', Q a w' -> fr n h0 w') ->
  fr n h0 w -> fr n h0 (snd (m w)).
Proof.
  intros Hm HQ Hw. specialize (Hm w Hw). destruct (m w) as [[a|e|] w']; cbn; eauto.
Qed.

Lemma omap_list_ext {A B : Type} (f g : A -> option B) (l : list A) ys :
  (forall x y, x ∈ l -> f x = Some y -> g x = Some y) ->
  omap_list f l = Some ys -> omap_list g l = Some ys.
Proof.
  revert ys. induction l as [|x l IH]; intros ys Hfg Hf; [exact Hf|].
  cbn [omap_list] in *. destruct (f x) as [y|] eqn:Ex; [|discriminate].
  destruct (omap_list f l) as [ys'|] eqn:El; [|discriminate].
  rewrite (Hfg x y); [|left|exact Ex].
  rewrite (IH ys'); [exact Hf| |reflexivity].
  intros x' y' Hin. apply Hfg. now right.
Qed.

(** A tree read off a heap is read off every extension of that heap. *)
Lemma tree_of_extends k h h' v t :
  extends h h' -> tree_of k h v = Some t -> tree_of k h' v = Some t.
Proof.
  intros [Hlen Hext]. revert v t. induction k as [|k IH]; intros v t Ht.
  - destruct v; exact Ht.
  - destruct v; try exact Ht. cbn [tree_of] in *.
    destruct (h !! l) as [c|] eqn:E; [|discriminate].
    rewrite Hext by (eapply lookup_lt_Some; exact E). rewrite E.
    destruct c as [cls fields lab|items].
    + destruct (omap_list _ fields) as [fs|] eqn:Ef; [|discriminate].
      erewrite omap_list_ext; [exact Ht| |exact Ef].
      intros f y _ Hy. cbn beta in *.
      destruct (tree_of k h (snd f)) as [t'|] eqn:Et; [|discriminate].
      now rewrite (IH _ _ Et).
    + destruct (omap_list _ items) as [ts|] eqn:Ei; [|discriminate].
      erewrite omap_list_ext; [exact Ht| |exact Ei].
      intros x y _ Hy. now apply IH.
Qed.

Section Originals.
Context {R : Type} `{Source R}.
Variable CT : class_table.
Variable generate :
  metahandler -> Grammar -> Z -> ty -> string -> list (string * ty) -> R -> outcome scalar * R.

Lemma run_variation_extends (w : world R) op :
  extends (w_heap w) (w_heap (run_variation CT generate w op)).
Proof.
  apply fr_extends. destruct op as [fuel g i d|fuel g p1 p2 d]; cbn [run_variation].
  - eapply triple_fr_end; [apply fr_mutate| |apply fr_start]. cbn beta. tauto.
  - eapply triple_fr_end; [apply fr_tree_crossover| |apply fr_start]. cbn beta. tauto.
Qed.

Lemma run_variations_extends ops (w : world R) :
  extends (w_heap w) (w_heap (run_variations CT generate ops w)).
Proof.
  revert w. induction ops as [|op ops IH]; intros w; [apply extends_refl|].
  cbn [run_variations fold_left]. eapply extends_trans; [apply run_variation_extends|].
  apply IH.
Qed.

End Originals.

(** ** Relocation of the synthesizer *)

Section LiftRules.
Context {R : Type}.
Variable h : heap.

Lemma lifts_ret {A} (sh : A -> A) (a : A) : lifts (R:=R) sh h (mret a) (mret (sh a)).
Proof. intros w0. reflexivity. Qed.

Lemma lifts_raise {A} (sh : A -> A) e : lifts (R:=R) sh h (mraise e) (mraise e).
Proof. intros w0. reflexivity. Qed.

Lemma lifts_diverge {A} (sh : A -> A) : lifts (R:=R) sh h mdiverge mdiverge.
Proof. intros w0. reflexivity. Qed.

Lemma lifts_lift {A} (o : outcome A) : lifts (R:=R) id h (mlift o) (mlift o).
Proof. intros w0. unfold mlift. cbn. destruct o; reflexivity. Qed.

Lemma lifts_bind {A B} (sha : A -> A) (shb : B -> B) (m0 m : M R A) (k0 k : A -> M R B) :
  lifts sha h m0 m ->
  (forall a, lifts shb h (k0 a) (k (sha a))) ->
  lifts shb h (mbind m0 k0) (mbind m k).
Proof.
  intros Hm Hk w0. unfold mbind. rewrite (Hm w0).
  destruct (m0 w0) as [[a|e|] w0']; cbn [fst snd map_outcome]; try reflexivity.
  apply Hk.
Qed.

Lemma lifts_try {A} (sh : A -> A) (m0 m h0 h1 : M R A) :
  lifts sh h m0 m -> lifts sh h h0 h1 -> lifts sh h (try_except m0 h0) (try_except m h1).
Proof.
  intros Hm Hh w0. unfold try_except. rewrite (Hm w0).
  destruct (m0 w0) as [[a|e|] w0']; cbn [fst snd map_outcome]; try reflexivity.
  apply Hh.
Qed.

Lemma lifts_mfold {A B} (sha : A -> A) (shb : B -> B) (f0 f : A -> B -> M R A) l a :
  (forall a x, lifts sha h (f0 a x) (f (sha a) (shb x))) ->
  lifts sha h (mfold f0 l a) (mfold f (map shb l) (sha a)).
Proof.
  intros Hf. revert a. induction l as [|x l IH]; intros a.
  - apply lifts_ret.
  - cbn [mfold map]. eapply lifts_bind; [apply Hf|]. intros a'. apply IH.
Qed.

Lemma lifts_mmap {A B} (sha : A -> A) (shb : B -> B) (f0 f : A -> M R B) l :
  (forall x, lifts shb h (f0 x) (f (sha x))) ->
  lifts (map shb) h (mmap f0 l) (mmap f (map sha l)).
Proof.
  intros Hf. induction l as [|x l IH].
  - apply (lifts_ret (map shb)).
  - cbn [mmap map]. eapply lifts_bind; [apply Hf|]. intros y.
    eapply lifts_bind; [apply IH|]. intros ys. apply (lifts_ret (map shb)).
Qed.

Lemma lifts_mfold_same {A B} (sha : A -> A) (f0 f : A -> B -> M R A) (l : list B) a :
  (forall a x, lifts sha h (f0 a x) (f (sha a) x)) ->
  lifts sha h (mfold f0 l a) (mfold f l (sha a)).
Proof.
  intros Hf. pose proof (lifts_mfold sha id f0 f l a Hf) as Hl.
  rewrite map_id in Hl. exact Hl.
Qed.

Lemma lifts_mmap_same {A B} (shb : B -> B) (f0 f : A -> M R B) (l : list A) :
  (forall x, lifts shb h (f0 x) (f x)) ->
  lifts (map shb) h (mmap f0 l) (mmap f l).
Proof.
  intros Hf. pose proof (lifts_mmap id shb f0 f l Hf) as Hl.
  rewrite map_id in Hl. exact Hl.
Qed.

(** A computation that neither reads nor writes the heap. *)
Lemma lifts_heapless {A} (m : M R A) (f : R -> gengy_state -> outcome A * R) :
  (forall w, m w = (fst (f (w_rng w) (w_gengy w)), with_rng w (snd (f (w_rng w) (w_gengy w))))) ->
  lifts id h m m.
Proof.
  intros Hm w0. rewrite (Hm (lift_world h w0)), (Hm w0). cbn.
  destruct (f (w_rng w0) (w_gengy w0)) as [[a|e|] r]; reflexivity.
Qed.
End LiftRules.

Section LiftHeap.
Context {R : Type}.
Variable h : heap.
Let n := length h.

Lemma lift_world_heap (w0 : world R) (hf : heap) :
  with_heap (lift_world h w0) (h ++ map (shift_cell n) hf) = lift_world h (with_heap w0 hf).
Proof. reflexivity. Qed.

Lemma lifts_alloc c0 :
  lifts (R:=R) (fun l => (n + l)%nat) h (alloc c0) (alloc (shift_cell n c0)).
Proof.
  intros w0. unfold alloc. cbn [fst snd map_outcome].
  rewrite <- lift_world_heap. f_equal.
  - f_equal. cbn [lift_world w_heap]. rewrite length_app, length_map. reflexivity.
  - cbn [lift_world w_heap]. rewrite map_app, app_assoc. reflexivity.
Qed.

Lemma lift_lookup (hf : heap) l0 :
  (h ++ map (shift_cell n) hf) !! (n + l0)%nat = shift_cell n <$> hf !! l0.
Proof.
  rewrite lookup_app_r by (unfold n; lia).
  replace (n + l0 - length h)%nat with l0 by (unfold n; lia).
  apply list_lookup_fmap.
Qed.

Lemma lifts_read l0 :
  lifts (R:=R) (shift_cell n) h (read l0) (read (n + l0)).
Proof.
  intros w0. unfold read. cbn [lift_world w_heap]. rewrite lift_lookup.
  destruct (w_heap w0 !! l0); reflexivity.
Qed.

Lemma lifts_write l0 c0 :
  lifts (R:=R) id h (write l0 c0) (write (n + l0) (shift_cell n c0)).
Proof.
  intros w0. unfold write. cbn [fst snd map_outcome].
  rewrite <- lift_world_heap. f_equal. f_equal. cbn [lift_world w_heap].
  rewrite insert_app_r_alt by (unfold n; lia).
  replace (n + l0 - length h)%nat with l0 by (unfold n; lia).
  rewrite list_fmap_insert. reflexivity.
Qed.

Lemma lifts_type_of v : lifts (R:=R) id h (type_of v) (type_of (shift_val n v)).
Proof.
  destruct v; try apply (lifts_ret h id).
  cbn [type_of shift_val]. eapply lifts_bind; [apply lifts_read|].
  intros c. destruct c; apply (lifts_ret h id).
Qed.

Lemma dict_get_shift (fields : list (string * value)) name :
  dict_get (map (fun f => (fst f, shift_val n (snd f))) fields) name =
  shift_val n <$> dict_get fields name.
Proof.
  induction fields as [|[k v] fields IH]; [reflexivity|].
  cbn [map dict_get fst snd]. destruct (decide (name = k)); [reflexivity|exact IH].
Qed.

Lemma dict_set_shift (fields : list (string * value)) name v :
  dict_set (map (fun f => (fst f, shift_val n (snd f))) fields) name (shift_val n v) =
  map (fun f => (fst f, shift_val n (snd f))) (dict_set fields name v).
Proof.
  induction fields as [|[k x] fields IH]; [reflexivity|].
  cbn [map dict_set fst snd]. destruct (decide (name = k)); [reflexivity|].
  cbn [map fst snd]. now rewrite IH.
Qed.

Lemma lifts_getattr o name :
  lifts (R:=R) (shift_val n) h (getattr o name) (getattr (shift_val n o) name).
Proof.
  destruct o; try apply lifts_raise.
  cbn [getattr shift_val]. eapply lifts_bind; [apply lifts_read|].
  intros c. destruct c as [cls fields lab|items]; cbn [shift_cell]; [|apply lifts_raise].
  rewrite dict_get_shift. destruct (dict_get fields name); cbn [fmap option_fmap option_map];
    [apply lifts_ret|apply lifts_raise].
Qed.

Lemma lifts_setattr o name v :
  lifts (R:=R) id h (setattr o name v) (setattr (n + o) name (shift_val n v)).
Proof.
  unfold setattr. eapply lifts_bind; [apply lifts_read|].
  intros c. destruct c as [cls fields lab|items]; cbn [shift_cell]; [|apply lifts_raise].
  rewrite dict_set_shift. apply (lifts_write o (CObj cls (dict_set fields name v) lab)).
Qed.

Lemma lifts_get_label o : lifts (R:=R) id h (get_label o) (get_label (shift_val n o)).
Proof.
  destruct o; try apply (lifts_ret h id).
  cbn [get_label shift_val]. eapply lifts_bind; [apply lifts_read|].
  intros c. destruct c; apply (lifts_ret h id).
Qed.

Lemma lifts_set_label l lb : lifts (R:=R) id h (set_label l lb) (set_label (n + l) lb).
Proof.
  unfold set_label. eapply lifts_bind; [apply lifts_read|].
  intros c. destruct c as [cls fields lab|items]; cbn [shift_cell]; [|apply lifts_raise].
  apply (lifts_write l (CObj cls fields (Some lb))).
Qed.

Lemma lifts_store_label i lb :
  lifts (R:=R) id h (store_label i lb) (store_label (shift_val n i) lb).
Proof.
  destruct i; try apply (lifts_ret h id).
  cbn [store_label shift_val]. eapply lifts_bind; [apply lifts_read|].
  intros c. destruct c as [cls fields lab|items]; cbn [shift_cell];
    [apply lifts_set_label|apply (lifts_ret h id)].
Qed.
End LiftHeap.

Section LiftSynthesis.
Context {R : Type} `{Source R}.
Variable CT : class_table.
Variable generate :
  metahandler -> Grammar -> Z -> ty -> string -> list (string * ty) -> R -> outcome scalar * R.
Variable h : heap.
Let n := length h.

Lemma lifts_ret_eq {A} (sh : A -> A) (a a' : A) :
  sh a = a' -> lifts (R:=R) sh h (mret a) (mret a').
Proof. intros <-. apply lifts_ret. Qed.

Lemma lifts_randint a b : lifts (R:=R) id h (randint a b) (randint a b).
Proof.
  intros w0. unfold randint. cbn [lift_world w_rng].
  destruct (b <? a); [reflexivity|]. destruct (draw_int (w_rng w0) a b). reflexivity.
Qed.

Lemma lifts_random_float_between a b :
  lifts (R:=R) id h (random_float_between a b) (random_float_between a b).
Proof.
  intros w0. unfold random_float_between. cbn [lift_world w_rng].
  destruct (draw_float (w_rng w0) a b). reflexivity.
Qed.

Lemma lifts_choice (l : list ty) : lifts (R:=R) id h (choice l) (choice l).
Proof.
  unfold choice. eapply lifts_bind; [apply lifts_randint|].
  intros i. unfold id. destruct (l !! Z.to_nat i); [apply (lifts_ret h id)|apply lifts_raise].
Qed.

Lemma lifts_choice_weighted (l : list ty) ws :
  lifts (R:=R) id h (choice_weighted l ws) (choice_weighted l ws).
Proof.
  unfold choice_weighted. eapply lifts_bind; [apply lifts_random_float_between|].
  intros x. unfold id. destruct (pick_weighted l ws 0%Q x); [apply (lifts_ret h id)|].
  destruct l; [apply lifts_raise|apply (lifts_ret h id)].
Qed.

Lemma lifts_choose_rule valid : lifts (R:=R) id h (choose_rule valid) (choose_rule valid).
Proof.
  intros w0. unfold choose_rule. cbn [lift_world w_gengy].
  destruct (existsb _ valid); [apply lifts_choice_weighted|apply lifts_choice].
Qed.

Lemma lifts_random_int : lifts (R:=R) (shift_val n) h random_int random_int.
Proof.
  unfold random_int. eapply lifts_bind; [apply lifts_randint|].
  intros z. apply (lifts_ret h (shift_val n) (VInt z)).
Qed.

Lemma lifts_random_float : lifts (R:=R) (shift_val n) h random_float random_float.
Proof.
  unfold random_float. eapply lifts_bind; [apply lifts_random_float_between|].
  intros q. apply (lifts_ret h (shift_val n) (VFloat q)).
Qed.

Lemma lifts_random_list (rec0 rec : Z -> ty -> M R value) d t :
  (forall d' t', lifts (shift_val n) h (rec0 d' t') (rec d' t')) ->
  lifts (shift_val n) h (random_list rec0 d t) (random_list rec d t).
Proof.
  intros Hrec. unfold random_list. eapply lifts_bind; [apply lifts_randint|].
  intros size. unfold id. eapply lifts_bind.
  - apply (lifts_mmap_same h (shift_val n)). intros x. apply Hrec.
  - intros items. eapply lifts_bind; [apply (lifts_alloc h (CList items))|].
    intros l. apply (lifts_ret h (shift_val n) (VRef l)).
Qed.

Lemma lifts_apply_metahandler g d t argn ctx :
  lifts (R:=R) (shift_val n) h (apply_metahandler generate g d t argn ctx)
    (apply_metahandler generate g d t argn ctx).
Proof.
  destruct t; try apply lifts_raise.
  intros w0. cbn [apply_metahandler lift_world w_rng].
  destruct (generate m g d _ argn ctx (w_rng w0)) as [[s| |] r]; try reflexivity.
  destruct s; reflexivity.
Qed.

Lemma lifts_instantiate t args :
  lifts (R:=R) (shift_val n) h (instantiate t args) (instantiate t args).
Proof.
  assert (Hobj : lifts (R:=R) (shift_val n) h
            (mbind (alloc (CObj t (map (fun a : string * ty => (fst a, VNone)) args) None))
                   (fun l => mret (VRef l)))
            (mbind (alloc (CObj t (map (fun a : string * ty => (fst a, VNone)) args) None))
                   (fun l => mret (VRef l)))).
  { eapply lifts_bind.
    - pose proof (lifts_alloc (R:=R) h
        (CObj t (map (fun a : string * ty => (fst a, VNone)) args) None)) as Ha.
      cbn [shift_cell] in Ha. rewrite map_map in Ha. exact Ha.
    - intros l. apply (lifts_ret h (shift_val n) (VRef l)). }
  assert (Hlist : lifts (R:=R) (shift_val n) h
            (mbind (alloc (CList [])) (fun l => mret (VRef l)))
            (mbind (alloc (CList [])) (fun l => mret (VRef l)))).
  { eapply lifts_bind; [apply (lifts_alloc h (CList []))|].
    intros l. apply (lifts_ret h (shift_val n) (VRef l)). }
  destruct t; cbn [instantiate]; try exact Hobj; try exact Hlist; try apply lifts_raise.
  - apply (lifts_ret h (shift_val n) (VInt 0)).
  - apply (lifts_ret h (shift_val n) (VFloat 0%Q)).
  - apply (lifts_ret h (shift_val n) (VStr "")).
  - apply (lifts_ret h (shift_val n) VNone).
Qed.

Lemma lifts_expand_production d sym :
  lifts (R:=R) (shift_val n) h (expand_production CT d sym) (expand_production CT d sym).
Proof.
  unfold expand_production. cbn zeta. eapply lifts_bind; [apply lifts_instantiate|].
  intros obj. destruct obj; try apply (lifts_ret h (shift_val n)).
  cbn [shift_val]. eapply lifts_bind.
  - apply (lifts_mfold_same h id). intros u a. apply (lifts_setattr h l).
  - intros u. apply (lifts_ret h (shift_val n) (VRef l)).
Qed.

Lemma lifts_expand_symbol (rec0 rec : Z -> ty -> M R value) g d sym argn ctx :
  (forall d' t', lifts (shift_val n) h (rec0 d' t') (rec d' t')) ->
  lifts (shift_val n) h (expand_symbol CT generate rec0 g d sym argn ctx)
    (expand_symbol CT generate rec g d sym argn ctx).
Proof.
  intros Hrec.
  assert (Hnormal : lifts (R:=R) (shift_val n) h
    (if negb (set_mem sym (all_nodes g))
     then mraise (GeneticEngineError (SymbolNotInGrammar sym))
     else
       match dict_get (alternatives g) sym with
       | Some compatible_productions =>
           mbind (mlift (filter_choices g compatible_productions d))
             (fun valid_productions =>
                match valid_productions with
                | [] => mraise (GeneticEngineError (NoProductions sym d))
                | _ => mbind (choose_rule valid_productions) (fun rule => rec0 d rule)
                end)
       | None => expand_production CT d sym
       end)
    (if negb (set_mem sym (all_nodes g))
     then mraise (GeneticEngineError (SymbolNotInGrammar sym))
     else
       match dict_get (alternatives g) sym with
       | Some compatible_productions =>
           mbind (mlift (filter_choices g compatible_productions d))
             (fun valid_productions =>
                match valid_productions with
                | [] => mraise (GeneticEngineError (NoProductions sym d))
                | _ => mbind (choose_rule valid_productions) (fun rule => rec d rule)
                end)
       | None => expand_production CT d sym
       end)).
  { destruct (negb _); [apply lifts_raise|].
    destruct (dict_get (alternatives g) sym) as [prods|]; [|apply lifts_expand_production].
    eapply lifts_bind; [apply lifts_lift|].
    intros valid. unfold id. destruct valid as [|v0 valid]; [apply lifts_raise|].
    eapply lifts_bind; [apply lifts_choose_rule|]. intros rule. apply Hrec. }
  destruct sym; try exact Hnormal.
  - apply lifts_random_int.
  - apply lifts_random_float.
  - apply lifts_random_list. exact Hrec.
  - apply lifts_apply_metahandler.
Qed.

Lemma lifts_expand_node fuel g d sym argn ctx :
  lifts (R:=R) (shift_val n) h (expand_node CT generate fuel g d sym argn ctx)
    (expand_node CT generate fuel g d sym argn ctx).
Proof.
  revert d sym argn ctx. induction fuel as [|fuel IH]; intros d sym argn ctx;
    cbn [expand_node]; (destruct (d <? 0); [apply lifts_raise|]);
    (eapply lifts_bind; [apply lifts_lift|]);
    intros dd; unfold id; (destruct (d <? dd); [apply lifts_raise|]).
  - apply lifts_diverge.
  - apply lifts_expand_symbol. intros d' t'. apply IH.
Qed.

Lemma lifts_extract_futures fuel obj :
  lifts (R:=R) (map (shift_val n)) h (extract_futures CT fuel obj)
    (extract_futures CT fuel (shift_val n obj)).
Proof.
  revert obj. induction fuel as [|fuel IH]; intros obj; [apply lifts_diverge|].
  cbn [extract_futures]. unfold extract_futures_body.
  destruct obj; try apply (lifts_ret h (map (shift_val n)) []).
  cbn [shift_val]. eapply lifts_bind; [apply lifts_read|].
  intros c. destruct c as [cls fields lab|items]; cbn [shift_cell].
  - apply (lifts_mfold_same h (map (shift_val n)) _ _ _ []). intros fs a.
    eapply lifts_bind; [apply (lifts_getattr h (VRef l))|].
    intros v. destruct v; cbn [shift_val]; try apply lifts_ret.
    apply lifts_ret_eq. now rewrite map_app.
  - apply (lifts_mfold h (map (shift_val n)) (shift_val n) _ _ _ []). intros fs el.
    assert (Hrec : lifts (R:=R) (map (shift_val n)) h
              (mbind (extract_futures CT fuel el) (fun fs0 => mret (fs ++ fs0)))
              (mbind (extract_futures CT fuel (shift_val n el))
                     (fun fs0 => mret (map (shift_val n) fs ++ fs0)))).
    { eapply lifts_bind; [apply IH|]. intros fs0. apply lifts_ret_eq. now rewrite map_app. }
    destruct el; try exact Hrec.
    cbn [shift_val]. apply lifts_ret_eq. now rewrite map_app.
Qed.

Lemma lifts_children_of i :
  lifts (R:=R) (map (shift_val n)) h (children_of CT i) (children_of CT (shift_val n i)).
Proof.
  destruct i; try apply (lifts_ret h (map (shift_val n)) []).
  cbn [children_of shift_val]. eapply lifts_bind; [apply lifts_read|].
  intros c. destruct c as [cls fields lab|items]; cbn [shift_cell].
  - apply (lifts_mmap_same h (shift_val n)). intros x. apply (lifts_getattr h (VRef l)).
  - apply lifts_ret.
Qed.

Lemma lifts_relabel_nodes fuel nts i d :
  lifts (R:=R) id h (relabel_nodes CT fuel nts i d) (relabel_nodes CT fuel nts (shift_val n i) d).
Proof.
  revert i d. induction fuel as [|fuel IH]; intros i d; [apply lifts_diverge|].
  cbn [relabel_nodes]. unfold relabel_body.
  eapply lifts_bind; [apply lifts_type_of|].
  intros t. change (id t) with t. destruct (is_terminal CT t nts).
  - eapply lifts_bind.
    + destruct (negb (is_builtin t)); [apply lifts_store_label|apply (lifts_ret h id)].
    + intros u. apply (lifts_ret h id).
  - eapply lifts_bind; [apply lifts_children_of|].
    intros children. destruct children as [|c0 children]; [apply lifts_raise|].
    cbn [map]. eapply lifts_bind.
    + apply (lifts_mmap h (shift_val n) id _ _ (c0 :: children)). intros x. apply IH.
    + intros props. rewrite map_id. eapply lifts_bind; [apply lifts_store_label|].
      intros u. apply (lifts_ret h id).
Qed.

Lemma lifts_relabel_nodes_of_trees fuel i nts :
  lifts (R:=R) (shift_val n) h (relabel_nodes_of_trees CT fuel i nts)
    (relabel_nodes_of_trees CT fuel (shift_val n i) nts).
Proof.
  unfold relabel_nodes_of_trees. eapply lifts_bind; [apply lifts_relabel_nodes|].
  intros u. apply lifts_ret.
Qed.

Lemma lifts_PI_Grow_step fuel g queue :
  lifts (R:=R) (map (shift_val n)) h (PI_Grow_step CT generate fuel g queue)
    (PI_Grow_step CT generate fuel g (map (shift_val n) queue)).
Proof.
  unfold PI_Grow_step. rewrite length_map.
  eapply lifts_bind; [apply lifts_randint|].
  intros index. unfold id. rewrite list_lookup_fmap.
  destruct (queue !! Z.to_nat index) as [future|]; cbn [fmap option_fmap option_map];
    [|apply lifts_raise].
  cbn zeta. eapply lifts_bind with (sha := shift_val n).
  - destruct future; try apply lifts_ret. cbn [shift_val].
    eapply lifts_bind; [apply lifts_expand_node|].
    intros obj. eapply lifts_bind; [apply lifts_setattr|].
    intros u. apply lifts_ret.
  - intros obj. eapply lifts_bind; [apply lifts_extract_futures|].
    intros fs. apply lifts_ret_eq. rewrite map_app. f_equal.
    apply (list_fmap_delete (shift_val n)).
Qed.

Lemma lifts_PI_Grow_loop steps fuel g queue :
  lifts (R:=R) id h (PI_Grow_loop CT generate steps fuel g queue)
    (PI_Grow_loop CT generate steps fuel g (map (shift_val n) queue)).
Proof.
  revert queue. induction steps as [|steps IH]; intros queue;
    destruct queue as [|q0 queue]; cbn [PI_Grow_loop map];
    try apply (lifts_ret h id); [apply lifts_diverge|].
  eapply lifts_bind; [apply (lifts_PI_Grow_step fuel g (q0 :: queue))|].
  intros q. apply IH.
Qed.

Lemma lifts_PI_Grow fuel g d sym :
  lifts (R:=R) (shift_val n) h (PI_Grow CT generate fuel g d sym)
    (PI_Grow CT generate fuel g d sym).
Proof.
  unfold PI_Grow. eapply lifts_bind; [apply lifts_expand_node|].
  intros root. eapply lifts_bind; [apply (lifts_PI_Grow_loop fuel fuel g [root])|].
  intros u. apply lifts_relabel_nodes_of_trees.
Qed.
End LiftSynthesis.

Lemma omap_list_map {A B C : Type} (f : B -> option C) (g : A -> B) (l : list A) :
  omap_list f (map g l) = omap_list (fun x => f (g x)) l.
Proof.
  induction l as [|x l IH]; [reflexivity|]. cbn [map omap_list]. now rewrite IH.
Qed.

Lemma omap_list_eq {A B : Type} (f g : A -> option B) (l : list A) :
  (forall x, f x = g x) -> omap_list f l = omap_list g l.
Proof.
  intros Hfg. induction l as [|x l IH]; [reflexivity|].
  cbn [omap_list]. now rewrite Hfg, IH.
Qed.

(** Reading a relocated value in the relocated heap gives the tree read
    from the heap of the run that started empty. *)
Lemma tree_of_lift (h hf : heap) k v :
  tree_of k (h ++ map (shift_cell (length h)) hf) (shift_val (length h) v) = tree_of k hf v.
Proof.
  revert v. induction k as [|k IH]; intros v; destruct v; try reflexivity.
  cbn [shift_val tree_of]. rewrite lift_lookup.
  destruct (hf !! l) as [[cls fields lab|items]|]; cbn [fmap option_fmap option_map shift_cell];
    [| |reflexivity].
  - rewrite omap_list_map. cbn [fst snd].
    rewrite (omap_list_eq _ (fun f : string * value =>
               match tree_of k hf (snd f) with
               | Some t => Some (fst f, t)
               | None => None
               end)); [reflexivity|].
    intros f. now rewrite IH.
  - rewrite omap_list_map. now rewrite (omap_list_eq _ (tree_of k hf)).
Qed.

Section Determinism.
Context {R : Type} `{Source R}.
Variable CT : class_table.
Variable generate :
  metahandler -> Grammar -> Z -> ty -> string -> list (string * ty) -> R -> outcome scalar * R.

(** The run of the synthesizer from any world is the relocation of its run
    from the empty heap with the same random source and class weights. *)
Lemma PI_Grow_from_empty fuel g d sym (w : world R) :
  let w0 := {| w_heap := []; w_rng := w_rng w; w_gengy := w_gengy w |} in
  PI_Grow CT generate fuel g d sym w =
  (map_outcome (shift_val (length (w_heap w))) (fst (PI_Grow CT generate fuel g d sym w0)),
   lift_world (w_heap w) (snd (PI_Grow CT generate fuel g d sym w0))).
Proof.
  intros w0. rewrite <- (lifts_PI_Grow CT generate (w_heap w) fuel g d sym w0).
  f_equal. unfold lift_world, w0. cbn [w_heap w_rng w_gengy map].
  rewrite app_nil_r. now destruct w.
Qed.

End Determinism.


(** * [deepcopy] returns an isomorphic copy *)

Lemma memo_grows_refl m : memo_grows m m.
Proof. intros l l' Hl. exact Hl. Qed.

Lemma memo_grows_trans m1 m2 m3 : memo_grows m1 m2 -> memo_grows m2 m3 -> memo_grows m1 m3.
Proof. intros H12 H23 l l' Hl. apply H23, H12, Hl. Qed.

Lemma memo_grows_cons (m : list (nat * nat)) l l' :
  dict_get m l = None -> memo_grows m ((l, l') :: m).
Proof.
  intros Hnone a a' Ha. cbn [dict_get]. destruct (decide (a = l)) as [->|]; [congruence|exact Ha].
Qed.

Lemma memo_new_refl n m : memo_new n m m.
Proof. intros l l' Hl. now left. Qed.

Lemma memo_new_trans n1 n2 m1 m2 m3 :
  (n1 <= n2)%nat -> memo_new n1 m1 m2 -> memo_new n2 m2 m3 -> memo_new n1 m1 m3.
Proof.
  intros Hn H12 H23 l l' Hl. destruct (H23 l l' Hl) as [H2|H2]; [apply H12, H2|right; lia].
Qed.

Lemma val_known_grows m m' v : memo_grows m m' -> val_known m v -> val_known m' v.
Proof.
  intros Hg. destruct v; cbn [val_known]; try exact (fun x => x).
  intros [l' Hl]. exists l'. apply Hg, Hl.
Qed.

Lemma copy_val_grows m m' v : memo_grows m m' -> val_known m v -> copy_val m' v = copy_val m v.
Proof.
  intros Hg. destruct v; cbn [val_known copy_val]; try reflexivity; [|intros []].
  intros [l' Hl]. now rewrite Hl, (Hg _ _ Hl).
Qed.

Lemma cell_known_grows m m' c : memo_grows m m' -> cell_known m c -> cell_known m' c.
Proof.
  intros Hg. destruct c; cbn [cell_known]; intros Hk; eapply Forall_impl; try exact Hk;
    intros x; apply val_known_grows, Hg.
Qed.

Lemma copy_cell_grows m m' c : memo_grows m m' -> cell_known m c -> copy_cell m' c = copy_cell m c.
Proof.
  intros Hg. destruct c as [cls fields lab|items]; cbn [cell_known copy_cell]; intros Hk; f_equal.
  - induction Hk as [|f fields Hf Hk IH]; [reflexivity|]. cbn [map].
    now rewrite IH, (copy_val_grows m m' (snd f) Hg Hf).
  - induction Hk as [|x items Hx Hk IH]; [reflexivity|]. cbn [map].
    now rewrite IH, (copy_val_grows m m' x Hg Hx).
Qed.

Lemma omap_list_Forall2 {A B : Type} (f : A -> option B) (l : list A) ys :
  omap_list f l = Some ys -> Forall2 (fun x y => f x = Some y) l ys.
Proof.
  revert ys. induction l as [|x l IH]; intros ys Hl; cbn [omap_list] in Hl.
  - injection Hl as <-. constructor.
  - destruct (f x) as [y|] eqn:Ex; [|discriminate].
    destruct (omap_list f l) as [ys'|]; [|discriminate].
    injection Hl as <-. constructor; [exact Ex|now apply IH].
Qed.

Section CopyInvariant.
Context {R : Type}.
Variable h0 : heap.

Lemma copy_inv_alloc P m (w : world R) l c0 :
  copy_inv h0 P m w -> dict_get m l = None ->
  copy_inv h0 (fun a => a = l \/ P a) ((l, length (w_heap w)) :: m)
    (with_heap w (w_heap w ++ [c0])).
Proof.
  intros ([Hlen Hext] & Hrange & Hdone) Hnone. unfold copy_inv. cbn [with_heap w_heap].
  split; [|split].
  - split; [rewrite length_app; lia|].
    intros a Ha. rewrite lookup_app_l by lia. now apply Hext.
  - intros a a'. cbn [dict_get]. rewrite length_app. cbn [length].
    destruct (decide (a = l)) as [->|Hne].
    + intros [= <-]. lia.
    + intros Ha. specialize (Hrange a a' Ha). lia.
  - intros a a'. cbn [dict_get]. destruct (decide (a = l)) as [->|Hne].
    + intros _ HP. exfalso. apply HP. now left.
    + intros Ha HP. destruct (Hdone a a' Ha) as (c & Hc & Hk & Hcopy).
      { intros HPa. apply HP. now right. }
      exists c. split; [exact Hc|].
      pose proof (memo_grows_cons m l (length (w_heap w)) Hnone) as Hg. split.
      * eapply cell_known_grows; eassumption.
      * rewrite (copy_cell_grows _ _ _ Hg Hk).
        rewrite lookup_app_l by (specialize (Hrange a a' Ha); lia). exact Hcopy.
Qed.

Lemma copy_inv_fill P m0 m' (w0 w' : world R) l c :
  copy_inv h0 P m0 w0 ->
  dict_get m0 l = None ->
  copy_inv h0 (fun a => a = l \/ P a) m' w' ->
  memo_grows ((l, length (w_heap w0)) :: m0) m' ->
  memo_new (S (length (w_heap w0))) ((l, length (w_heap w0)) :: m0) m' ->
  h0 !! l = Some c -> cell_known m' c ->
  copy_inv h0 P m' (with_heap w' (<[length (w_heap w0) := copy_cell m' c]> (w_heap w'))).
Proof.
  intros ([Hlen0 Hext0] & Hrange0 & Hdone0) Hnone ([Hlen Hext] & Hrange & Hdone) Hg Hnew Hc Hk.
  assert (Hl : dict_get m' l = Some (length (w_heap w0))).
  { apply Hg. cbn [dict_get]. now rewrite decide_True. }
  unfold copy_inv, extends. cbn [with_heap w_heap]. rewrite length_insert. split; [|split].
  - split; [exact Hlen|]. intros a Ha.
    rewrite list_lookup_insert_ne by lia. now apply Hext.
  - exact Hrange.
  - intros a a' Ha HP. destruct (decide (a = l)) as [->|Hne].
    + rewrite Hl in Ha. injection Ha as <-. exists c. split; [exact Hc|]. split; [exact Hk|].
      apply list_lookup_insert_eq. apply (Hrange l _ Hl).
    + destruct (Hdone a a' Ha) as (ca & Hca & Hka & Hcopy).
      { intros [->|HPa]; [now apply Hne|now apply HP]. }
      exists ca. split; [exact Hca|]. split; [exact Hka|].
      rewrite list_lookup_insert_ne; [exact Hcopy|].
      destruct (Hnew a a' Ha) as [Hold|Hfresh]; [|lia].
      cbn [dict_get] in Hold. rewrite decide_False in Hold by exact Hne.
      specialize (Hrange0 a a' Hold). lia.
Qed.
End CopyInvariant.

Section CopySpec.
Context {R : Type} `{Source R}.
Variable CT : class_table.
Variable h0 : heap.

(** The loop of [deepcopy_cell] over the fields of an object, or over the
    items of a list: [get] projects the value to copy and [put] stores the
    copy. *)
Lemma copy_fold {A B : Type} (get : A -> value) (put : A -> value -> B) P
    (rec : list (nat * nat) -> value -> M R (list (nat * nat) * value)) (xs : list A) :
  (forall x m (w : world R), x ∈ xs -> copy_inv h0 P m w ->
     copy_post h0 P m (get x) w (rec m (get x) w)) ->
  forall m acc (w : world R), copy_inv h0 P m w ->
    match mfold (fun (a : list (nat * nat) * list B) (x : A) =>
                   mbind (rec (fst a) (get x))
                     (fun r => mret (fst r, snd a ++ [put x (snd r)])))
            xs (m, acc) w with
    | (Ret (m', out), w') =>
        copy_inv h0 P m' w' /\ memo_grows m m' /\ memo_new (length (w_heap w)) m m' /\
        Forall (fun x => val_known m' (get x)) xs /\
        out = acc ++ map (fun x => put x (copy_val m' (get x))) xs /\
        w_rng w' = w_rng w /\ w_gengy w' = w_gengy w /\
        (length (w_heap w) <= length (w_heap w'))%nat
    | _ => False
    end.
Proof.
  induction xs as [|x xs IH]; intros Hrec m acc w Hinv.
  - cbn [mfold mret map]. rewrite app_nil_r.
    split; [exact Hinv|]. split; [apply memo_grows_refl|]. split; [apply memo_new_refl|].
    split; [constructor|]. repeat split; lia.
  - cbn [mfold]. unfold mbind at 1. unfold mbind at 1.
    pose proof (Hrec x m w (list_elem_of_here _ _) Hinv) as Hx. cbn [fst].
    unfold copy_post in Hx.
    destruct (rec m (get x) w) as [[[m1 v1]|e|] w1]; try exact Hx.
    destruct Hx as (Hinv1 & Hg1 & Hn1 & Hk1 & -> & Hr1 & Hgs1 & Hlen1).
    cbn [mret fst snd].
    specialize (IH (fun y m w Hy => Hrec y m w (list_elem_of_further _ _ _ Hy)) m1
                  (acc ++ [put x (copy_val m1 (get x))]) w1 Hinv1).
    destruct (mfold _ xs _ w1) as [[[m' out]|e|] w']; try exact IH.
    destruct IH as (Hinv' & Hg' & Hn' & Hk' & -> & Hr' & Hgs' & Hlen').
    split; [exact Hinv'|]. split; [eapply memo_grows_trans; eassumption|].
    split; [eapply memo_new_trans; eassumption|].
    split; [constructor; [eapply val_known_grows; eassumption|exact Hk']|].
    split; [|repeat split; [congruence|congruence|lia]].
    cbn [map]. rewrite <- app_assoc. cbn [app].
    now rewrite (copy_val_grows m1 m' (get x) Hg' Hk1).
Qed.

Lemma wf_tree_fields cls fields lab :
  wf_tree CT (TrNode cls fields lab) = true ->
  map fst fields = get_property_names CT cls /\
  Forall (fun f => wf_tree CT (snd f) = true) fields.
Proof.
  cbn [wf_tree]. rewrite andb_true_iff, bool_decide_eq_true, forallb_forall.
  intros [Hn Hf]. split; [exact Hn|]. apply List.Forall_forall. exact Hf.
Qed.

Lemma wf_tree_items items :
  wf_tree CT (TrSeq items) = true -> Forall (fun t => wf_tree CT t = true) items.
Proof.
  cbn [wf_tree]. rewrite forallb_forall. intros Hf. apply List.Forall_forall. exact Hf.
Qed.

(** The trees of the fields of a readable object. *)
Lemma tree_of_fields k (h : heap) (fields : list (string * value)) fs :
  omap_list (fun f : string * value =>
               match tree_of k h (snd f) with
               | Some t => Some (fst f, t)
               | None => None
               end) fields = Some fs ->
  Forall2 (fun (f : string * value) (ft : string * tree) =>
             fst ft = fst f /\ tree_of k h (snd f) = Some (snd ft)) fields fs.
Proof.
  intros Hf. apply omap_list_Forall2 in Hf.
  eapply Forall2_impl; [exact Hf|]. intros f ft. cbn beta.
  destruct (tree_of k h (snd f)) as [t|]; [|discriminate]. now intros [= <-].
Qed.

Lemma deepcopy_cell_post P m (w : world R) l c c0 m' (w' : world R) :
  copy_inv h0 P m w -> dict_get m l = None -> h0 !! l = Some c ->
  copy_inv h0 (fun a => a = l \/ P a) m' w' ->
  memo_grows ((l, length (w_heap w)) :: m) m' ->
  memo_new (length (w_heap (with_heap w (w_heap w ++ [c0])))) ((l, length (w_heap w)) :: m) m' ->
  cell_known m' c ->
  w_rng w' = w_rng (with_heap w (w_heap w ++ [c0])) ->
  w_gengy w' = w_gengy (with_heap w (w_heap w ++ [c0])) ->
  (length (w_heap (with_heap w (w_heap w ++ [c0]))) <= length (w_heap w'))%nat ->
  copy_post h0 P m (VRef l) w
    (Ret (m', VRef (length (w_heap w))),
     with_heap w' (<[length (w_heap w) := copy_cell m' c]> (w_heap w'))).
Proof.
  cbn [with_heap w_heap w_rng w_gengy]. rewrite length_app. cbn [length].
  rewrite Nat.add_1_r. intros Hinv Hm Hc Hinv' Hg Hn Hk Hr Hgs Hlen.
  assert (Hl : dict_get m' l = Some (length (w_heap w))).
  { apply Hg. cbn [dict_get]. now rewrite decide_True. }
  cbn [copy_post]. split; [|split; [|split; [|split; [|split]]]].
  - eapply copy_inv_fill; eassumption.
  - eapply memo_grows_trans; [apply memo_grows_cons, Hm|exact Hg].
  - intros a a' Ha. destruct (Hn a a' Ha) as [Hold|Hnew]; [|right; lia].
    cbn [dict_get] in Hold. destruct (decide (a = l)) as [->|Hne]; [|now left].
    injection Hold as <-. right. lia.
  - cbn [val_known]. now exists (length (w_heap w)).
  - cbn [copy_val]. now rewrite Hl.
  - cbn [with_heap w_heap w_rng w_gengy]. rewrite length_insert.
    repeat split; [exact Hr|exact Hgs|lia].
Qed.

(** [deepcopy] of a readable, complete tree [v] returns, establishes the
    invariant for the originals it met and draws nothing. *)
Lemma deepcopy_spec k :
  forall fuel P m v t (w : world R),
    (k <= fuel)%nat -> tree_of k h0 v = Some t -> wf_tree CT t = true ->
    copy_inv h0 P m w -> copy_post h0 P m v w (deepcopy fuel m v w).
Proof.
  assert (Hscalar : forall fuel P m v (w : world R),
            copy_inv h0 P m w -> val_known m v -> copy_val m v = v ->
            deepcopy (R:=R) fuel m v = mret (m, v) ->
            copy_post h0 P m v w (deepcopy fuel m v w)).
  { intros fuel P m v w Hinv Hk Hc ->. cbn [copy_post mret].
    split; [exact Hinv|]. split; [apply memo_grows_refl|]. split; [apply memo_new_refl|].
    split; [exact Hk|]. split; [now rewrite Hc|]. repeat split; lia. }
  induction k as [|k IH]; intros fuel P m v t w Hfuel Ht Hwf Hinv.
  - destruct v; try discriminate; cbn [tree_of] in Ht;
      try (apply Hscalar; [exact Hinv|exact I|reflexivity|now destruct fuel]).
    injection Ht as <-. discriminate.
  - destruct v; cbn [tree_of] in Ht;
      try (apply Hscalar; [exact Hinv|exact I|reflexivity|now destruct fuel]);
      [|injection Ht as <-; discriminate].
    destruct (dict_get m l) as [l'|] eqn:Hm.
    + assert (Hd : deepcopy (R:=R) fuel m (VRef l) = mret (m, VRef l')).
      { destruct fuel; cbn [deepcopy]; now rewrite Hm. }
      rewrite Hd. cbn [copy_post mret copy_val val_known]. rewrite Hm. cbn [default].
      split; [exact Hinv|]. split; [apply memo_grows_refl|]. split; [apply memo_new_refl|].
      split; [now exists l'|]. repeat split; lia.
    + destruct fuel as [|fuel]; [lia|]. cbn [deepcopy]. rewrite Hm.
      destruct (h0 !! l) as [c|] eqn:Hc; [|discriminate].
      pose proof Hinv as ([Hlen Hext] & Hrange & Hdone).
      assert (Hl : (l < length h0)%nat) by (eapply lookup_lt_Some; exact Hc).
      unfold deepcopy_cell, mbind at 1, read. rewrite (Hext l Hl), Hc.
      pose proof (copy_inv_alloc h0 P m w l) as Halloc.
      destruct c as [cls fields lab|items].
      * destruct (omap_list _ fields) as [fs|] eqn:Hfs; [|discriminate].
        injection Ht as <-. apply wf_tree_fields in Hwf as [_ Hwf].
        apply tree_of_fields in Hfs.
        unfold mbind at 1, alloc.
        specialize (Halloc (CObj cls [] None) Hinv Hm).
        unfold mbind at 1.
        assert (Hrec : forall (x : string * value) m1 (w1 : world R), x ∈ fields ->
                  copy_inv h0 (fun a => a = l \/ P a) m1 w1 ->
                  copy_post h0 (fun a => a = l \/ P a) m1 (snd x) w1
                    (deepcopy fuel m1 (snd x) w1)).
        { intros x m1 w1 Hx Hinv1. apply list_elem_of_lookup in Hx as [i Hi].
          destruct (Forall2_lookup_l _ _ _ _ _ Hfs Hi) as (ft & Hft & _ & Htx).
          apply (IH fuel _ m1 (snd x) (snd ft) w1); [lia|exact Htx| |exact Hinv1].
          rewrite Forall_lookup in Hwf. exact (Hwf i ft Hft). }
        pose proof (copy_fold snd (fun f v => (fst f, v)) (fun a => a = l \/ P a)
                      (deepcopy fuel) fields Hrec _ [] _ Halloc) as Hfold.
        cbn beta in Hfold.
        destruct (mfold _ fields _ _) as [[[m' out]|e|] w']; try exact Hfold.
        destruct Hfold as (Hinv' & Hg' & Hn' & Hk' & -> & Hr' & Hgs' & Hlen').
        unfold mbind, write, mret. cbn [fst snd app].
        apply (deepcopy_cell_post P m w l (CObj cls fields lab) (CObj cls [] None) m' w');
          assumption.
      * destruct (omap_list _ items) as [ts|] eqn:Hts; [|discriminate].
        injection Ht as <-. apply wf_tree_items in Hwf.
        apply omap_list_Forall2 in Hts.
        unfold mbind at 1, alloc.
        specialize (Halloc (CList []) Hinv Hm).
        unfold mbind at 1.
        assert (Hrec : forall (x : value) m1 (w1 : world R), x ∈ items ->
                  copy_inv h0 (fun a => a = l \/ P a) m1 w1 ->
                  copy_post h0 (fun a => a = l \/ P a) m1 x w1 (deepcopy fuel m1 x w1)).
        { intros x m1 w1 Hx Hinv1. apply list_elem_of_lookup in Hx as [i Hi].
          destruct (Forall2_lookup_l _ _ _ _ _ Hts Hi) as (tx & Htx & Hx).
          apply (IH fuel _ m1 x tx w1); [lia|exact Hx| |exact Hinv1].
          rewrite Forall_lookup in Hwf. exact (Hwf i tx Htx). }
        pose proof (copy_fold (fun x : value => x) (fun (_ : value) v => v)
                      (fun a => a = l \/ P a) (deepcopy fuel) items Hrec _ [] _ Halloc)
          as Hfold.
        cbn beta in Hfold.
        destruct (mfold _ items _ _) as [[[m' out]|e|] w']; try exact Hfold.
        destruct Hfold as (Hinv' & Hg' & Hn' & Hk' & -> & Hr' & Hgs' & Hlen').
        unfold mbind, write, mret. cbn [fst snd app].
        apply (deepcopy_cell_post P m w l (CList items) (CList []) m' w'); assumption.
Qed.

Lemma omap_list_eq_in {A B : Type} (f g : A -> option B) (l : list A) :
  Forall (fun x => f x = g x) l -> omap_list f l = omap_list g l.
Proof.
  induction 1 as [|x l Hx Hl IH]; [reflexivity|]. cbn [omap_list]. now rewrite Hx, IH.
Qed.

(** Once no copy is left unfilled, a copy reads as its original. *)
Lemma copy_reads_as_original m (w : world R) j v :
  copy_inv h0 (fun _ => False) m w -> val_known m v ->
  tree_of j (w_heap w) (copy_val m v) = tree_of j h0 v.
Proof.
  intros (_ & _ & Hdone). revert v. induction j as [|j IH]; intros v Hk.
  - destruct v; reflexivity.
  - destruct v; try reflexivity.
    destruct Hk as [l' Hl]. cbn [copy_val]. rewrite Hl. cbn [default tree_of]. unfold id.
    destruct (Hdone l l' Hl) as (c & Hc & Hkc & Hcopy); [tauto|].
    rewrite Hc, Hcopy. destruct c as [cls fields lab|items]; cbn [copy_cell cell_known] in *.
    + rewrite omap_list_map. cbn [fst snd].
      rewrite (omap_list_eq_in _ (fun f : string * value =>
                 match tree_of j h0 (snd f) with
                 | Some t => Some (fst f, t)
                 | None => None
                 end) fields); [reflexivity|].
      eapply Forall_impl; [exact Hkc|]. intros f Hf. cbn beta. now rewrite IH.
    + rewrite omap_list_map.
      rewrite (omap_list_eq_in _ (tree_of j h0) items); [reflexivity|].
      eapply Forall_impl; [exact Hkc|]. intros x Hx. cbn beta. now apply IH.
Qed.

Lemma copy_inv_start (w : world R) :
  h0 = w_heap w -> copy_inv h0 (fun _ => False) [] w.
Proof.
  intros ->. split; [apply extends_refl|]. split; intros l l' Hl; discriminate.
Qed.

(** [deepcopy] from an empty memo: the copy reads as the original did, the
    original still reads the same, and no random number is drawn. *)
Lemma deepcopy_top k fuel v t (w : world R) :
  h0 = w_heap w -> (k <= fuel)%nat -> tree_of k h0 v = Some t -> wf_tree CT t = true ->
  exists m' v' w',
    deepcopy fuel [] v w = (Ret (m', v'), w') /\
    extends h0 (w_heap w') /\
    (forall j, tree_of j (w_heap w') v' = tree_of j h0 v) /\
    w_rng w' = w_rng w /\ w_gengy w' = w_gengy w.
Proof.
  intros Hh Hfuel Ht Hwf.
  pose proof (deepcopy_spec k fuel (fun _ => False) [] v t w Hfuel Ht Hwf (copy_inv_start w Hh))
    as Hpost.
  unfold copy_post in Hpost.
  destruct (deepcopy fuel [] v w) as [[[m' v']|e|] w']; try contradiction.
  destruct Hpost as (Hinv & _ & _ & Hk & -> & Hr & Hgs & _).
  exists m', (copy_val m' v), w'. split; [reflexivity|]. split; [apply Hinv|].
  split; [|split; assumption].
  intros j. now apply copy_reads_as_original.
Qed.
End CopySpec.

(** * [relabel_nodes_of_trees] changes metadata only *)

Lemma dict_get_elem {K V : Type} `{EqDecision K} (d : list (K * V)) k v :
  dict_get d k = Some v -> (k, v) ∈ d.
Proof.
  induction d as [|[k0 v0] d IH]; cbn [dict_get]; [discriminate|].
  destruct (decide (k = k0)) as [->|Hne].
  - intros [= ->]. left.
  - intros Hd. right. now apply IH.
Qed.

Lemma dict_get_key {K V : Type} `{EqDecision K} (d : list (K * V)) k :
  k ∈ map fst d -> is_Some (dict_get d k).
Proof.
  induction d as [|[k0 v0] d IH]; cbn [map dict_get fst].
  - intros Hk. now apply elem_of_nil in Hk.
  - intros Hk. destruct (decide (k = k0)) as [->|Hne]; [now eexists|].
    apply elem_of_cons in Hk as [Hk|Hk]; [contradiction|now apply IH].
Qed.

Lemma same_shape_refl h : same_shape h h.
Proof. reflexivity. Qed.

Lemma same_shape_trans h1 h2 h3 : same_shape h1 h2 -> same_shape h2 h3 -> same_shape h1 h3.
Proof. unfold same_shape. congruence. Qed.

Lemma same_shape_lookup h h' l c :
  same_shape h h' -> h !! l = Some c -> exists c', h' !! l = Some c' /\ unlabel c' = unlabel c.
Proof.
  unfold same_shape. intros Hs Hl.
  assert (Hm : map unlabel h' !! l = Some (unlabel c)).
  { rewrite <- Hs. rewrite list_lookup_fmap, Hl. reflexivity. }
  rewrite list_lookup_fmap in Hm. destruct (h' !! l) as [c'|]; [|discriminate].
  exists c'. split; [reflexivity|]. now injection Hm.
Qed.

Lemma same_shape_insert h h' l c c' :
  same_shape h h' -> h' !! l = Some c -> unlabel c' = unlabel c ->
  same_shape h (<[l := c']> h').
Proof.
  unfold same_shape. intros Hs Hl Hu. rewrite Hs.
  change (map unlabel (<[l:=c']> h')) with (unlabel <$> <[l:=c']> h').
  rewrite list_fmap_insert, Hu. symmetry. apply list_insert_id.
  now rewrite list_lookup_fmap, Hl.
Qed.

Lemma option_map_omap_list {A B C : Type} (g : B -> C) (f1 f2 : A -> option B) (l : list A) :
  (forall x, option_map g (f1 x) = option_map g (f2 x)) ->
  option_map (map g) (omap_list f1 l) = option_map (map g) (omap_list f2 l).
Proof.
  intros Hf. induction l as [|x l IH]; [reflexivity|]. cbn [omap_list].
  specialize (Hf x). destruct (f1 x) as [y1|], (f2 x) as [y2|]; try discriminate;
    destruct (omap_list f1 l) as [ys1|], (omap_list f2 l) as [ys2|]; try discriminate;
    try reflexivity.
  cbn [option_map map] in *. congruence.
Qed.

(** Heaps that differ in metadata only hold the same trees, up to
    metadata. *)
Lemma tree_of_same_shape h h' k v :
  same_shape h h' -> option_map erase (tree_of k h v) = option_map erase (tree_of k h' v).
Proof.
  intros Hs. revert v. induction k as [|k IH]; intros v; destruct v; try reflexivity.
  cbn [tree_of]. destruct (h !! l) as [c|] eqn:Hl.
  - destruct (same_shape_lookup h h' l c Hs Hl) as (c' & -> & Hu).
    destruct c as [cls fields lab|items], c' as [cls' fields' lab'|items']; try discriminate;
      cbn [unlabel] in Hu.
    + injection Hu as -> ->.
      pose proof (option_map_omap_list
        (fun f : string * tree => (fst f, erase (snd f)))
        (fun f : string * value =>
           match tree_of k h (snd f) with Some t => Some (fst f, t) | None => None end)
        (fun f : string * value =>
           match tree_of k h' (snd f) with Some t => Some (fst f, t) | None => None end)
        fields) as Hf.
      assert (Hx : forall x : string * value,
                option_map (fun f : string * tree => (fst f, erase (snd f)))
                  match tree_of k h (snd x) with Some t => Some (fst x, t) | None => None end =
                option_map (fun f : string * tree => (fst f, erase (snd f)))
                  match tree_of k h' (snd x) with Some t => Some (fst x, t) | None => None end).
      { intros x. specialize (IH (snd x)).
        destruct (tree_of k h (snd x)), (tree_of k h' (snd x)); cbn [option_map fst snd] in *;
          congruence. }
      specialize (Hf Hx).
      destruct (omap_list _ fields) as [fs|], (omap_list _ fields) as [fs'|];
        cbn [option_map erase] in *; congruence.
    + injection Hu as ->.
      pose proof (option_map_omap_list erase (tree_of k h) (tree_of k h') items IH) as Hf.
      destruct (omap_list _ items) as [ts|], (omap_list _ items) as [ts'|];
        cbn [option_map erase] in *; congruence.
  - destruct (h' !! l) as [c'|] eqn:Hl'; [|reflexivity].
    assert (Hs' : same_shape h' h) by (unfold same_shape in *; congruence).
    destruct (same_shape_lookup h' h l c' Hs' Hl') as (c & Hc & _). congruence.
Qed.

Section WellFormedFacts.
Variable CT : class_table.

Lemma wf_tree_erase t : wf_tree CT (erase t) = wf_tree CT t.
Proof.
  revert t. fix IH 1. intros t. destruct t as [| | | | |cls fields lab|items]; try reflexivity.
  - cbn [erase wf_tree]. rewrite map_map. cbn [fst]. f_equal.
    induction fields as [|f fields IHf]; [reflexivity|]. cbn [map forallb snd].
    now rewrite IH, IHf.
  - cbn [erase wf_tree]. induction items as [|x items IHi]; [reflexivity|].
    cbn [map forallb]. now rewrite IH, IHi.
Qed.

Lemma wf_tree_same_erase t t' :
  erase t' = erase t -> wf_tree CT t = true -> wf_tree CT t' = true.
Proof. intros He Hwf. now rewrite <- wf_tree_erase, He, wf_tree_erase. Qed.
End WellFormedFacts.

Lemma mmap_length {R A B : Type} (f : A -> M R B) (l : list A) (w w' : world R) ys :
  mmap f l w = (Ret ys, w') -> length ys = length l.
Proof.
  revert w w' ys. induction l as [|x l IH]; intros w w' ys; cbn [mmap].
  - intros [= <- _]. reflexivity.
  - unfold mbind at 1. destruct (f x w) as [[y|e|] w1]; try discriminate.
    unfold mbind at 1. destruct (mmap f l w1) as [[ys1|e|] w2] eqn:Hl; try discriminate.
    intros [= <- _]. cbn [length]. f_equal. eapply IH. exact Hl.
Qed.

Section RelabelTotal.
Context {R : Type} `{Source R}.
Variable CT : class_table.
Variable nts : list ty.
Variable hI : heap.
Variable r : R.
Variable gs : gengy_state.

(** The worlds that a relabelling of the heap [hI] goes through. *)
Let S : world R -> Prop :=
  fun w => same_shape hI (w_heap w) /\ w_rng w = r /\ w_gengy w = gs.
Let never : world R -> Prop := fun _ => False.

Lemma shape_type_of l c :
  hI !! l = Some c ->
  triple S (type_of (VRef l))
    (fun t w => t = match c with CObj cls _ _ => cls | CList _ => TListCls end /\ S w) never.
Proof.
  intros Hc w [Hs Hrest]. destruct (same_shape_lookup _ _ _ _ Hs Hc) as (c' & Hc' & Hu).
  unfold type_of, mbind, read. rewrite Hc'.
  destruct c, c'; try discriminate; cbn [unlabel] in Hu; cbn [mret].
  - injection Hu as -> _. split; [reflexivity|]. split; assumption.
  - split; [reflexivity|]. split; assumption.
Qed.

Lemma shape_getattr l cls fields lab name v :
  hI !! l = Some (CObj cls fields lab) -> dict_get fields name = Some v ->
  triple S (getattr (VRef l) name) (fun v' w => v' = v /\ S w) never.
Proof.
  intros Hc Hv w [Hs Hrest]. destruct (same_shape_lookup _ _ _ _ Hs Hc) as (c' & Hc' & Hu).
  unfold getattr, mbind, read. rewrite Hc'.
  destruct c'; try discriminate; cbn [unlabel] in Hu. injection Hu as -> ->.
  rewrite Hv. cbn [mret]. split; [reflexivity|]. split; assumption.
Qed.

Lemma shape_store_label l c lb :
  hI !! l = Some c -> triple S (store_label (VRef l) lb) (fun _ => S) never.
Proof.
  intros Hc w [Hs Hrest]. destruct (same_shape_lookup _ _ _ _ Hs Hc) as (c' & Hc' & Hu).
  unfold store_label, mbind, read. rewrite Hc'. destruct c' as [cls fields lab|items].
  - unfold set_label, mbind, read. rewrite Hc'. unfold write. cbn [with_heap w_heap w_rng w_gengy].
    split; [|exact Hrest]. eapply same_shape_insert; [exact Hs|exact Hc'|reflexivity].
  - cbn [mret]. split; assumption.
Qed.

Lemma shape_children_of (Qy : value -> Prop) l cls fields lab :
  hI !! l = Some (CObj cls fields lab) ->
  map fst fields = get_property_names CT cls ->
  get_property_names CT cls <> [] ->
  Forall (fun f => Qy (snd f)) fields ->
  triple S (children_of CT (VRef l)) (fun vs w => (vs <> [] /\ Forall Qy vs) /\ S w) never.
Proof.
  intros Hc Hnames Hne Hq w HS. pose proof HS as [Hs Hrest].
  destruct (same_shape_lookup _ _ _ _ Hs Hc) as (c' & Hc' & Hu).
  unfold children_of, mbind, read. rewrite Hc'.
  destruct c' as [cls' fields' lab'|]; try discriminate. cbn [unlabel] in Hu.
  injection Hu as -> ->.
  assert (Hx : forall x, x ∈ get_property_names CT cls ->
            triple S (getattr (VRef l) x) (fun y w => Qy y /\ S w) never).
  { intros x Hx. rewrite <- Hnames in Hx. destruct (dict_get_key fields x Hx) as [v Hv].
    eapply triple_post; [eapply shape_getattr; eassumption|].
    intros v' w' [-> HS']. split; [|exact HS'].
    rewrite Forall_forall in Hq. exact (Hq _ (dict_get_elem _ _ _ Hv)). }
  pose proof (triple_mmap S Qy (getattr (VRef l)) (get_property_names CT cls) never Hx w HS)
    as Hm.
  destruct (mmap _ _ w) as [[vs|e|] w'] eqn:Hmm; try exact Hm.
  destruct Hm as [Hvs HS']. split; [|exact HS']. split; [|exact Hvs].
  apply mmap_length in Hmm. intros ->. cbn [length] in Hmm.
  destruct (get_property_names CT cls); [now apply Hne|discriminate].
Qed.

(** [relabel_nodes] on a readable, complete tree returns, and changes
    nothing but metadata. *)
Lemma relabel_nodes_total k :
  forall fuel i d t,
    (k < fuel)%nat -> tree_of k hI i = Some t -> wf_tree CT t = true ->
    triple S (relabel_nodes CT fuel nts i d) (fun _ => S) never.
Proof.
  assert (Hleaf : forall (rec : value -> Z -> M R (Z * Z)) v d T,
            triple S (type_of v) (fun t w => t = T /\ S w) never ->
            get_arguments CT T = [] -> is_builtin T = true ->
            triple S (relabel_body CT rec nts v d) (fun _ => S) never).
  { intros rec v d T Hty Hargs Hb. unfold relabel_body.
    eapply triple_bind; [exact Hty|]. intros t. cbn beta. apply triple_pure. intros ->.
    unfold is_terminal. rewrite Hargs, Hb. cbn [negb].
    eapply (triple_bind S _ _ (fun _ => S)); [apply triple_ret; intros w Hw; exact Hw|].
    intros u. apply triple_ret. auto. }
  assert (Hscalar : forall (v : value) T,
            type_of (R:=R) v = mret T -> triple S (type_of v) (fun t w => t = T /\ S w) never).
  { intros v T ->. apply triple_ret. auto. }
  induction k as [|k IH]; intros fuel i d t Hfuel Ht Hwf;
    (destruct fuel as [|fuel]; [lia|]); cbn [relabel_nodes].
  - destruct i; cbn [tree_of] in Ht; try discriminate;
      try (injection Ht as <-; discriminate Hwf);
      (eapply Hleaf; [apply Hscalar; reflexivity| |]); reflexivity.
  - destruct i; cbn [tree_of] in Ht;
      try (injection Ht as <-; discriminate Hwf);
      try (eapply Hleaf; [apply Hscalar; reflexivity| |]; reflexivity).
    destruct (hI !! l) as [c|] eqn:Hc; [|discriminate].
    destruct c as [cls fields lab|items].
    + destruct (omap_list _ fields) as [fs|] eqn:Hfs; [|discriminate].
      injection Ht as <-. apply wf_tree_fields in Hwf as [Hnames Hwf'].
      apply tree_of_fields in Hfs. unfold relabel_body.
      eapply triple_bind; [apply (shape_type_of l _ Hc)|].
      intros ty. cbn beta. apply triple_pure. intros ->.
      destruct (is_terminal CT cls nts) eqn:Hterm.
      * eapply (triple_bind S _ _ (fun _ => S)).
        -- destruct (negb (is_builtin cls));
             [apply (shape_store_label l _ _ Hc)|apply triple_ret; auto].
        -- intros u. apply triple_ret. auto.
      * assert (Hne : get_property_names CT cls <> []).
        { unfold is_terminal in Hterm. unfold get_property_names.
          destruct (get_arguments CT cls); discriminate. }
        assert (Hfn : map fst fields = get_property_names CT cls).
        { rewrite <- Hnames. clear -Hfs.
          induction Hfs as [|f ft fields fs [Hf _] _ IHf]; [reflexivity|].
          cbn [map]. now rewrite Hf, IHf. }
        assert (HQ : Forall (fun f : string * value =>
                   exists tv, tree_of k hI (snd f) = Some tv /\ wf_tree CT tv = true) fields).
        { clear -Hfs Hwf'. induction Hfs as [|f ft fields fs [_ Hf] _ IHf]; [constructor|].
          apply Forall_cons in Hwf' as [Hft Hwf']. constructor; [|now apply IHf].
          now exists (snd ft). }
        eapply triple_bind;
          [apply (shape_children_of
                    (fun v => exists tv, tree_of k hI v = Some tv /\ wf_tree CT tv = true)
                    l cls fields lab Hc Hfn Hne HQ)|].
        intros vs. cbn beta. apply triple_pure. intros [Hvs Hkids].
        destruct vs as [|v0 vs]; [contradiction|].
        eapply (triple_bind S _ _ (fun _ => S)).
        -- eapply triple_post; [apply (triple_mmap S (fun _ => True))|].
           ++ intros x Hx. rewrite Forall_forall in Hkids.
              destruct (Hkids x Hx) as (tv & Htv & Hwtv).
              eapply triple_post; [apply (IH fuel x (d + 1) tv); [lia|exact Htv|exact Hwtv]|].
              intros a w Hw. split; [exact I|exact Hw].
           ++ intros ys w [_ Hw]. exact Hw.
        -- intros props. cbn zeta.
           eapply (triple_bind S _ _ (fun _ => S)); [apply (shape_store_label l _ _ Hc)|].
           intros u. apply triple_ret. auto.
    + eapply Hleaf; [apply (shape_type_of l _ Hc)|reflexivity|reflexivity].
Qed.
End RelabelTotal.

(** * [mutate] on a tree whose root counts no nodes *)

Lemma the_label_of_tree {R : Type} k (w : world R) v cls fs lb :
  tree_of k (w_heap w) v = Some (TrNode cls fs (Some lb)) -> the_label v w = (Ret lb, w).
Proof.
  destruct k as [|k]; destruct v; cbn [tree_of]; try discriminate.
  destruct (w_heap w !! l) as [c|] eqn:Hl; [|discriminate].
  unfold the_label, get_label, mbind, read. rewrite Hl.
  destruct c as [cls' fields lab|items].
  - destruct (omap_list _ fields); [|discriminate]. intros [= _ _ ->]. reflexivity.
  - destruct (omap_list _ items); discriminate.
Qed.

Section MutateWithoutNodes.
Context {R : Type} `{Source R}.
Variable CT : class_table.
Variable generate :
  metahandler -> Grammar -> Z -> ty -> string -> list (string * ty) -> R -> outcome scalar * R.

(** C10: when the root of a complete tree carries the size [nodes <= 0]
    (the guard [i.nodes > 0] of [mutate_inner] fails), [mutate] returns a
    new object that reads as the input does up to the recomputed metadata,
    leaves the input as it was and draws nothing from the random source. *)
Theorem mutate_without_nodes_is_copy fuel k g i max_depth (w : world R) cls fs lb :
  tree_of k (w_heap w) i = Some (TrNode cls fs (Some lb)) ->
  wf_tree CT (TrNode cls fs (Some lb)) = true ->
  nodes lb <= 0 ->
  (k < fuel)%nat ->
  exists l' w',
    mutate CT generate fuel g i max_depth w = (Ret (VRef l'), w') /\
    (length (w_heap w) <= l')%nat /\
    w_rng w' = w_rng w /\
    option_map erase (tree_of k (w_heap w') (VRef l')) =
      Some (erase (TrNode cls fs (Some lb))) /\
    tree_of k (w_heap w') i = Some (TrNode cls fs (Some lb)).
Proof.
  intros Ht Hwf Hnodes Hfuel.
  pose proof (fr_mutate CT generate (length (w_heap w)) (w_heap w) fuel g i max_depth w
                (fr_start w)) as Hfr.
  destruct (deepcopy_top CT (w_heap w) k fuel i _ w eq_refl ltac:(lia) Ht Hwf)
    as (m' & v' & w1 & Hd & Hext & Hiso & Hr & Hgs).
  unfold mutate in *. unfold mbind at 1 in Hfr. unfold mbind at 1. rewrite Hd in *. cbn [snd] in *.
  destruct fuel as [|fuel]; [lia|]. cbn [mutate_inner] in *. unfold vary_body in *.
  assert (Ht1 : tree_of k (w_heap w1) v' = Some (TrNode cls fs (Some lb))) by now rewrite Hiso.
  unfold mbind at 1 in Hfr. unfold mbind at 1 in Hfr. unfold mbind at 1. unfold mbind at 1.
  rewrite (the_label_of_tree k w1 v' cls fs lb Ht1) in *.
  replace (0 <? nodes lb) with false in * by (symmetry; apply Z.ltb_ge; lia).
  cbn [mret] in *. unfold relabel_nodes_of_trees, mbind in *.
  pose proof (relabel_nodes_total CT (non_terminals g) (w_heap w1) (w_rng w1) (w_gengy w1) k
                (S fuel) v' 1 _ Hfuel Ht1 Hwf w1) as Hrel.
  cbv zeta in Hrel. specialize (Hrel (conj (same_shape_refl _) (conj eq_refl eq_refl))).
  destruct (relabel_nodes CT (S fuel) (non_terminals g) v' 1 w1) as [[p|e|] w2];
    try contradiction.
  destruct Hrel as (Hshape & Hr2 & _). cbn [mret] in *. destruct Hfr as [Habove Hfr].
  assert (Hv' : exists l', v' = VRef l').
  { destruct k; destruct v'; cbn [tree_of] in Ht1; try discriminate; now eexists. }
  destruct Hv' as [l' ->]. cbn [val_above] in Habove.
  exists l', w2. split; [reflexivity|]. split; [exact Habove|]. split; [congruence|]. split.
  - rewrite <- (tree_of_same_shape (w_heap w1) (w_heap w2) k (VRef l') Hshape).
    now rewrite Ht1.
  - eapply tree_of_extends; [apply fr_extends; exact Hfr|exact Ht].
Qed.
End MutateWithoutNodes.

(** A single terminal [One], as [relabel_nodes_of_trees] labels it. *)
Lemma mutate_without_nodes_is_copy_witness :
  let w := {| w_heap := [CObj Example.One []
                           (Some {| depth := 1; distance_to_term := 1; nodes := 0 |})];
              w_rng := [5; 7]; w_gengy := [] |} in
  exists l' w',
    mutate Example.CT Example.no_generate 3 Weighted.grammar (VRef 0) 4 w = (Ret (VRef l'), w') /\
    (length (w_heap w) <= l')%nat /\
    w_rng w' = w_rng w /\
    option_map erase (tree_of 1 (w_heap w') (VRef l')) =
      Some (erase (TrNode Example.One []
                     (Some {| depth := 1; distance_to_term := 1; nodes := 0 |}))) /\
    tree_of 1 (w_heap w') (VRef 0) =
      Some (TrNode Example.One [] (Some {| depth := 1; distance_to_term := 1; nodes := 0 |})).
Proof.
  cbv zeta.
  apply (mutate_without_nodes_is_copy Example.CT Example.no_generate 3 1 Weighted.grammar
           (VRef 0) 4 _ Example.One []
           {| depth := 1; distance_to_term := 1; nodes := 0 |});
    [reflexivity|reflexivity|cbn; lia|lia].
Defined.

(** * What the synthesizer builds *)

(** ** Runs that return *)

Lemma mbind_ret {R A B : Type} (m : M R A) (k : A -> M R B) (w w' : world R) b :
  mbind m k w = (Ret b, w') -> exists a w1, m w = (Ret a, w1) /\ k a w1 = (Ret b, w').
Proof.
  unfold mbind. destruct (m w) as [[a|e|] w1]; try discriminate. intros Hk. now exists a, w1.
Qed.

Lemma mmap_ret {R A B : Type} (f : A -> M R B) (I : list B -> world R -> Prop) (l : list A) :
  (forall x ys0 w0 y w1, x ∈ l -> I ys0 w0 -> f x w0 = (Ret y, w1) -> I (ys0 ++ [y]) w1) ->
  forall pre (w w' : world R) ys,
    I pre w -> mmap f l w = (Ret ys, w') -> I (pre ++ ys) w'.
Proof.
  induction l as [|x l IH]; intros Hf pre w w' ys Hpre Hm; cbn [mmap] in Hm.
  - injection Hm as <- <-. now rewrite app_nil_r.
  - apply mbind_ret in Hm as (y & w1 & Hy & Hm). apply mbind_ret in Hm as (ys1 & w2 & Hys & Hm).
    injection Hm as <- <-.
    replace (pre ++ y :: ys1) with ((pre ++ [y]) ++ ys1) by now rewrite <- app_assoc.
    apply (IH (fun x0 ys0 w0 y0 w3 Hx0 => Hf x0 ys0 w0 y0 w3 (list_elem_of_further _ _ _ Hx0))
             (pre ++ [y]) w1 w2 ys1); [|exact Hys].
    eapply Hf; [left|exact Hpre|exact Hy].
Qed.

Lemma mfold_ret {R A B : Type} (f : A -> B -> M R A) (I : A -> world R -> Prop) (l : list B) :
  (forall a x w0 a' w1, x ∈ l -> I a w0 -> f a x w0 = (Ret a', w1) -> I a' w1) ->
  forall a (w w' : world R) a',
    I a w -> mfold f l a w = (Ret a', w') -> I a' w'.
Proof.
  induction l as [|x l IH]; intros Hf a w w' a' Ha Hm; cbn [mfold] in Hm.
  - injection Hm as <- <-. exact Ha.
  - apply mbind_ret in Hm as (a1 & w1 & Ha1 & Hm).
    apply (IH (fun a0 x0 w0 a2 w2 Hx0 => Hf a0 x0 w0 a2 w2 (list_elem_of_further _ _ _ Hx0))
             a1 w1 w' a'); [|exact Hm].
    eapply Hf; [left|exact Ha|exact Ha1].
Qed.

(** ** Computations that leave the heap alone *)

Section HeapSame.
Context {R : Type} `{Source R}.

Lemma randint_ret a b (w w' : world R) z :
  randint a b w = (Ret z, w') -> w_heap w' = w_heap w /\ w_gengy w' = w_gengy w.
Proof.
  unfold randint. destruct (b <? a); [discriminate|].
  destruct (draw_int (w_rng w) a b). intros [= _ <-]. split; reflexivity.
Qed.

Lemma random_float_between_ret a b (w w' : world R) q :
  random_float_between a b w = (Ret q, w') -> w_heap w' = w_heap w /\ w_gengy w' = w_gengy w.
Proof.
  unfold random_float_between. destruct (draw_float (w_rng w) a b).
  intros [= _ <-]. split; reflexivity.
Qed.

Lemma choice_ret {A} (l : list A) (w w' : world R) x :
  choice l w = (Ret x, w') -> x ∈ l /\ w_heap w' = w_heap w.
Proof.
  unfold choice. intros Hc. apply mbind_ret in Hc as (i & w1 & Hi & Hc).
  apply randint_ret in Hi as [Hh _].
  destruct (l !! Z.to_nat i) as [y|] eqn:Hl; [|discriminate].
  injection Hc as <- <-. split; [eapply list_elem_of_lookup_2; exact Hl|exact Hh].
Qed.

Lemma choice_weighted_ret {A} (l : list A) ws (w w' : world R) x :
  choice_weighted l ws w = (Ret x, w') -> x ∈ l /\ w_heap w' = w_heap w.
Proof.
  unfold choice_weighted. intros Hc. apply mbind_ret in Hc as (q & w1 & Hq & Hc).
  apply random_float_between_ret in Hq as [Hh _].
  destruct (pick_weighted l ws 0%Q q) as [a|] eqn:Hp.
  - injection Hc as <- <-. split; [eapply pick_weighted_in; exact Hp|exact Hh].
  - destruct l as [|a l]; [discriminate|]. injection Hc as <- <-. split; [left|exact Hh].
Qed.

Lemma choose_rule_ret (l : list ty) (w w' : world R) x :
  choose_rule l w = (Ret x, w') -> x ∈ l /\ w_heap w' = w_heap w.
Proof.
  unfold choose_rule. destruct (existsb _ l); [apply choice_weighted_ret|apply choice_ret].
Qed.
End HeapSame.

(** ** The invariant under allocation and stores *)

Lemma field_ok_mono len len' (bud bud' : nat -> Z) p f :
  (len <= len')%nat -> (forall q, (q < len)%nat -> bud' q = bud q) -> (p < len)%nat ->
  field_ok len bud p f -> field_ok len' bud' p f.
Proof.
  intros Hlen Hbud Hp. unfold field_ok. destruct (snd f); try exact (fun x => x).
  - intros [Hl Hb]. split; [lia|]. now rewrite (Hbud l Hl), (Hbud p Hp).
  - intros (-> & -> & ->). now rewrite (Hbud p Hp).
Qed.

Lemma item_ok_mono len len' (bud bud' : nat -> Z) p v :
  (len <= len')%nat -> (forall q, (q < len)%nat -> bud' q = bud q) -> (p < len)%nat ->
  item_ok len bud p v -> item_ok len' bud' p v.
Proof.
  intros Hlen Hbud Hp. unfold item_ok. destruct v; try exact (fun x => x).
  intros [Hl Hb]. split; [lia|]. now rewrite (Hbud l Hl), (Hbud p Hp).
Qed.

Section BuiltFacts.
Variable CT : class_table.
Variable lo : Z.

Lemma cell_ok_mono len len' (bud bud' : nat -> Z) p c :
  (len <= len')%nat -> (forall q, (q < len)%nat -> bud' q = bud q) -> (p < len)%nat ->
  cell_ok CT lo len bud p c -> cell_ok CT lo len' bud' p c.
Proof.
  intros Hlen Hbud Hp. destruct c as [cls fields lab|items]; cbn [cell_ok]; rewrite (Hbud p Hp).
  - intros (H1 & H2 & H3 & H4 & H5 & H6). repeat (split; [assumption|]).
    eapply Forall_impl; [exact H6|]. intros f. now apply field_ok_mono.
  - intros (H1 & H2). split; [assumption|].
    eapply Forall_impl; [exact H2|]. intros v. now apply item_ok_mono.
Qed.

Lemma heap_ok_alloc (bud bud' : nat -> Z) h c :
  heap_ok CT lo bud h -> (forall q, (q < length h)%nat -> bud' q = bud q) ->
  cell_ok CT lo (S (length h)) bud' (length h) c ->
  heap_ok CT lo bud' (h ++ [c]).
Proof.
  intros Hok Hbud Hc p c0 Hp. rewrite length_app. cbn [length]. rewrite Nat.add_1_r.
  destruct (decide (p < length h)%nat) as [Hlt|Hge].
  - rewrite lookup_app_l in Hp by exact Hlt.
    eapply cell_ok_mono; [| |exact Hlt|apply Hok, Hp]; [lia|exact Hbud].
  - assert (Hlen := lookup_lt_Some _ _ _ Hp). rewrite length_app in Hlen. cbn [length] in Hlen.
    assert (p = length h) as -> by lia.
    rewrite lookup_app_r, Nat.sub_diag in Hp by lia. injection Hp as <-. exact Hc.
Qed.

Lemma heap_ok_ref (bud : nat -> Z) h p c x :
  heap_ok CT lo bud h -> h !! p = Some c -> VRef x ∈ cell_vals c ->
  (x < length h)%nat /\ bud x = bud p - 1.
Proof.
  intros Hok Hp Hx. specialize (Hok p c Hp). destruct c as [cls fields lab|items];
    cbn [cell_ok cell_vals] in *.
  - destruct Hok as (_ & _ & _ & _ & _ & Hf). apply list_elem_of_fmap in Hx as (f & Hfx & Hin).
    rewrite Forall_forall in Hf. specialize (Hf f Hin). unfold field_ok in Hf.
    rewrite <- Hfx in Hf. exact Hf.
  - destruct Hok as (_ & Hi). rewrite Forall_forall in Hi. exact (Hi _ Hx).
Qed.

Lemma heap_ok_bud_nonneg (bud : nat -> Z) h p c :
  heap_ok CT lo bud h -> h !! p = Some c -> 0 <= bud p.
Proof.
  intros Hok Hp. specialize (Hok p c Hp). destruct c; cbn [cell_ok] in Hok; tauto.
Qed.
End BuiltFacts.

Lemma uniq_alloc h c :
  uniq h ->
  (forall i x, cell_vals c !! i = Some (VRef x) ->
     unref h x /\ forall j, cell_vals c !! j = Some (VRef x) -> i = j) ->
  uniq (h ++ [c]).
Proof.
  intros Hu Hc p q cp cq i j x Hp Hq Hi Hj.
  assert (Hcase : forall p cp, (h ++ [c]) !! p = Some cp ->
            h !! p = Some cp \/ (p = length h /\ cp = c)).
  { intros p0 cp0 Hp0. destruct (decide (p0 < length h)%nat) as [Hlt|Hge].
    - left. now rewrite lookup_app_l in Hp0.
    - right. assert (Hlen := lookup_lt_Some _ _ _ Hp0). rewrite length_app in Hlen.
      cbn [length] in Hlen. assert (p0 = length h) as -> by lia.
      rewrite lookup_app_r, Nat.sub_diag in Hp0 by lia. now injection Hp0 as <-. }
  destruct (Hcase p cp Hp) as [Hp'|[-> ->]], (Hcase q cq Hq) as [Hq'|[-> ->]].
  - eapply Hu; eassumption.
  - exfalso. destruct (Hc j x Hj) as [Hun _]. apply (Hun p cp Hp').
    eapply list_elem_of_lookup_2. exact Hi.
  - exfalso. destruct (Hc i x Hi) as [Hun _]. apply (Hun q cq Hq').
    eapply list_elem_of_lookup_2. exact Hj.
  - split; [reflexivity|]. destruct (Hc i x Hi) as [_ Hd]. now apply Hd.
Qed.

Lemma uniq_insert h p cp cp' :
  uniq h -> h !! p = Some cp ->
  (forall i x, cell_vals cp' !! i = Some (VRef x) ->
     cell_vals cp !! i = Some (VRef x) \/
     (unref h x /\ forall j, cell_vals cp' !! j = Some (VRef x) -> j = i)) ->
  uniq (<[p := cp']> h).
Proof.
  intros Hu Hp Hnew p1 p2 c1 c2 i j x H1 H2 Hi Hj.
  assert (Hlt := lookup_lt_Some _ _ _ Hp).
  assert (Hcase : forall q cq, <[p := cp']> h !! q = Some cq ->
            (q = p /\ cq = cp') \/ (q <> p /\ h !! q = Some cq)).
  { intros q cq Hq. destruct (decide (q = p)) as [->|Hne].
    - left. rewrite list_lookup_insert_eq in Hq by exact Hlt. now injection Hq as <-.
    - right. now rewrite list_lookup_insert_ne in Hq by congruence. }
  destruct (Hcase p1 c1 H1) as [[-> ->]|[Hn1 H1']], (Hcase p2 c2 H2) as [[-> ->]|[Hn2 H2']].
  - split; [reflexivity|].
    destruct (Hnew i x Hi) as [Hoi|[Hun Hd]]; [|symmetry; now apply Hd].
    destruct (Hnew j x Hj) as [Hoj|[Hun Hd]].
    + now destruct (Hu p p cp cp i j x Hp Hp Hoi Hoj).
    + exfalso. apply (Hun p cp Hp). eapply list_elem_of_lookup_2. exact Hoi.
  - exfalso. destruct (Hnew i x Hi) as [Hoi|[Hun _]].
    + destruct (Hu p p2 cp c2 i j x Hp H2' Hoi Hj) as [-> _]. now apply Hn2.
    + apply (Hun p2 c2 H2'). eapply list_elem_of_lookup_2. exact Hj.
  - exfalso. destruct (Hnew j x Hj) as [Hoj|[Hun _]].
    + destruct (Hu p1 p c1 cp i j x H1' Hp Hi Hoj) as [-> _]. now apply Hn1.
    + apply (Hun p1 c1 H1'). eapply list_elem_of_lookup_2. exact Hi.
  - eapply Hu; eassumption.
Qed.

(** ** Stores into a dictionary of fields *)

Lemma dict_set_keys {V : Type} (d : list (string * V)) k v :
  k ∈ map fst d -> map fst (dict_set d k v) = map fst d.
Proof.
  induction d as [|[k0 v0] d IH]; cbn [map dict_set fst].
  - intros Hk. now apply elem_of_nil in Hk.
  - intros Hk. destruct (decide (k = k0)) as [->|Hne]; [reflexivity|].
    cbn [map fst]. f_equal. apply IH. apply elem_of_cons in Hk as [Hk|Hk]; [contradiction|exact Hk].
Qed.

Lemma dict_set_Forall {V : Type} (P : string * V -> Prop) (d : list (string * V)) k v :
  Forall P d -> P (k, v) -> Forall P (dict_set d k v).
Proof.
  intros Hd Hkv. induction Hd as [|[k0 v0] d H0 Hd IH]; cbn [dict_set].
  - now constructor.
  - destruct (decide (k = k0)) as [->|Hne]; constructor; assumption.
Qed.

(** A store to an existing field changes one position of the values. *)
Lemma dict_set_vals {V : Type} (d : list (string * V)) k v :
  k ∈ map fst d -> exists i, (i < length d)%nat /\ map snd (dict_set d k v) = <[i := v]> (map snd d).
Proof.
  induction d as [|[k0 v0] d IH]; cbn [map dict_set fst snd].
  - intros Hk. now apply elem_of_nil in Hk.
  - intros Hk. destruct (decide (k = k0)) as [->|Hne].
    + exists 0%nat. cbn [length]. split; [lia|reflexivity].
    + apply elem_of_cons in Hk as [Hk|Hk]; [contradiction|].
      destruct (IH Hk) as (i & Hi & Hs). exists (S i). cbn [length map snd]. split; [lia|].
      now rewrite Hs.
Qed.

(** ** [expand_node] *)

Section ExpandBuilt.
Context {R : Type} `{Source R}.
Variable CT : class_table.
Variable generate :
  metahandler -> Grammar -> Z -> ty -> string -> list (string * ty) -> R -> outcome scalar * R.
Variable lo : Z.
Variable g : Grammar.

(** Every budget that passes the entry checks of [expand_node] for a
    symbol that is instantiated as an object is at least [lo]. *)
Hypothesis Hlo : forall t dd d,
  get_distance_to_terminal g t = Ret dd -> is_builtin t = false -> 0 <= d -> dd <= d -> lo <= d.

Lemma with_heap_same (w : world R) : with_heap w (w_heap w) = w.
Proof. now destruct w. Qed.

Lemma setattr_fold (F : string * ty -> value) (args : list (string * ty)) :
  forall fs (w : world R) h cls lab,
    w_heap w = h ++ [CObj cls fs lab] ->
    mfold (fun _ a => setattr (length h) (fst a) (F a)) args tt w =
    (Ret tt,
     with_heap w (h ++ [CObj cls (fold_left (fun fs a => dict_set fs (fst a) (F a)) args fs) lab])).
Proof.
  induction args as [|a args IH]; intros fs w h cls lab Hw.
  - cbn [mfold fold_left mret]. now rewrite <- Hw, with_heap_same.
  - cbn [mfold fold_left]. unfold mbind at 1, setattr, mbind, read.
    rewrite Hw, lookup_app_r, Nat.sub_diag by lia. cbn [lookup list_lookup]. unfold write.
    rewrite Hw, insert_app_r_alt, Nat.sub_diag by lia. cbn [insert list_insert].
    rewrite (IH (dict_set fs (fst a) (F a)) _ h cls lab); [reflexivity|reflexivity].
Qed.

Lemma built_same h (bud : nat -> Z) d v :
  heap_ok CT lo bud h -> uniq h ->
  match v with VRef _ | VFuture _ _ _ _ _ _ => False | _ => True end ->
  built CT lo h bud d v h.
Proof.
  intros Hok Hu Hv. exists bud. split; [reflexivity|]. split; [apply extends_refl|].
  split; [exact Hok|]. split; [exact Hu|]. split; [|split; [intros p; lia|]].
  - intros p c x Hp Hc. apply lookup_lt_Some in Hc. lia.
  - destruct v; try exact I; destruct Hv.
Qed.

Lemma built_alloc h (bud : nat -> Z) d c :
  heap_ok CT lo bud h -> uniq h ->
  (forall x, VRef x ∉ cell_vals c) ->
  cell_ok CT lo (S (length h)) (fun p => if decide (p = length h) then d else bud p)
    (length h) c ->
  built CT lo h bud d (VRef (length h)) (h ++ [c]).
Proof.
  intros Hok Hu Hc Hcell. exists (fun p => if decide (p = length h) then d else bud p).
  assert (Hlen : length (h ++ [c]) = S (length h)) by (rewrite length_app; cbn [length]; lia).
  split; [intros p Hp; rewrite decide_False by lia; reflexivity|].
  split; [split; [lia|intros l Hl; now rewrite lookup_app_l]|].
  split; [apply (heap_ok_alloc CT lo bud);
            [exact Hok|intros q Hq; rewrite decide_False by lia; reflexivity|exact Hcell]|].
  split; [apply uniq_alloc; [exact Hu|]; intros i x Hi; exfalso; apply (Hc x);
          eapply list_elem_of_lookup_2; exact Hi|].
  split; [|split].
  - intros p c0 x Hp Hc0 Hx. exfalso. assert (Hp' := lookup_lt_Some _ _ _ Hc0).
    assert (p = length h) as -> by lia.
    rewrite lookup_app_r, Nat.sub_diag in Hc0 by lia. injection Hc0 as <-. now apply (Hc x).
  - intros p Hp. rewrite decide_True by lia. lia.
  - split; [lia|]. split; [now rewrite decide_True|].
    intros p cp Hp Hx. destruct (decide (p < length h)%nat) as [Hlt|Hge].
    + rewrite lookup_app_l in Hp by exact Hlt.
      destruct (heap_ok_ref CT lo bud h p cp _ Hok Hp Hx) as [Hr _]. lia.
    + assert (Hp' := lookup_lt_Some _ _ _ Hp). assert (p = length h) as -> by lia.
      rewrite lookup_app_r, Nat.sub_diag in Hp by lia. injection Hp as <-. exact (Hc _ Hx).
Qed.

Lemma alloc_ret (c : cell) (w w' : world R) l :
  alloc c w = (Ret l, w') -> l = length (w_heap w) /\ w' = with_heap w (w_heap w ++ [c]).
Proof. unfold alloc. intros [= <- <-]. split; reflexivity. Qed.

Lemma expand_production_built d sym (bud : nat -> Z) (w w' : world R) v :
  heap_ok CT lo bud (w_heap w) -> uniq (w_heap w) -> 0 <= d ->
  (is_builtin sym = false -> lo <= d) ->
  expand_production CT d sym w = (Ret v, w') ->
  built CT lo (w_heap w) bud d v (w_heap w').
Proof.
  intros Hok Hu Hd Hlod. unfold expand_production. cbn zeta. intros Hrun.
  apply mbind_ret in Hrun as (obj & w1 & Hinst & Hrun).
  assert (Hobj : forall cls, sym = cls -> is_builtin cls = false ->
            instantiate cls (get_arguments CT cls) w =
              mbind (alloc (CObj cls (map (fun a : string * ty => (fst a, VNone))
                                        (get_arguments CT cls)) None))
                (fun l => mret (VRef l)) w ->
            built CT lo (w_heap w) bud d v (w_heap w')).
  { intros cls -> Hb Heq. rewrite Heq in Hinst. clear Heq.
    apply mbind_ret in Hinst as (l & w2 & Hal & Hret). apply alloc_ret in Hal as [-> ->].
    injection Hret as <- <-. apply mbind_ret in Hrun as ([] & w3 & Hfold & Hret).
    injection Hret as <- <-.
    pose (F := fun a : string * ty =>
                VFuture (length (w_heap w)) (fst a) (d - 1)
                  (snd (List.last (get_arguments CT cls) ("", TNoneType)))
                  (fst (List.last (get_arguments CT cls) ("", TNoneType)))
                  (get_arguments CT cls)).
    pose proof (setattr_fold F (get_arguments CT cls)
                  (map (fun a : string * ty => (fst a, VNone)) (get_arguments CT cls))
                  (with_heap w (w_heap w ++
                     [CObj cls (map (fun a : string * ty => (fst a, VNone))
                                  (get_arguments CT cls)) None]))
                  (w_heap w) cls None eq_refl) as Hsf.
    unfold F at 1 in Hsf. cbn beta in Hsf. rewrite Hsf in Hfold. clear Hsf.
    injection Hfold as <-. cbn [with_heap w_heap].
    assert (Hgen : forall (args : list (string * ty)) fs,
              (forall a, a ∈ args -> fst a ∈ map fst fs) ->
              Forall (fun f : string * value => snd f = VNone \/ exists a, snd f = F a /\ fst a = fst f)
                fs ->
              map fst (fold_left (fun fs a => dict_set fs (fst a) (F a)) args fs) = map fst fs /\
              Forall (fun f : string * value => snd f = VNone \/ exists a, snd f = F a /\ fst a = fst f)
                (fold_left (fun fs a => dict_set fs (fst a) (F a)) args fs)).
    { induction args as [|a args IHa]; intros fs Hin Hfs; [now split|]. cbn [fold_left].
      assert (Ha : fst a ∈ map fst fs) by (apply Hin; left).
      destruct (IHa (dict_set fs (fst a) (F a))) as [Hk Hv].
      - intros a' Ha'. rewrite dict_set_keys by exact Ha. apply Hin. now right.
      - apply dict_set_Forall; [exact Hfs|]. right. now exists a.
      - split; [now rewrite Hk, dict_set_keys|exact Hv]. }
    destruct (Hgen (get_arguments CT cls)
                (map (fun a : string * ty => (fst a, VNone)) (get_arguments CT cls)))
      as [Hkeys Hvals].
    { intros a Ha. rewrite map_map. cbn [fst]. now apply list_elem_of_fmap_2. }
    { apply Forall_forall. intros f Hf. apply list_elem_of_fmap in Hf as (a & -> & _). now left. }
    apply built_alloc; [exact Hok|exact Hu| |].
    - intros x Hx. cbn [cell_vals] in Hx. apply list_elem_of_fmap in Hx as (f & Hfx & Hf).
      rewrite Forall_forall in Hvals. destruct (Hvals f Hf) as [Hn|(a & Ha & _)];
        rewrite <- Hfx in *; discriminate.
    - cbn [cell_ok]. rewrite decide_True by reflexivity.
      split; [now apply Hlod|]. split; [exact Hd|]. split; [reflexivity|]. split; [exact Hb|].
      split; [rewrite Hkeys, map_map; reflexivity|].
      eapply Forall_impl; [exact Hvals|]. intros f [Hn|(a & Ha & Hfa)]; unfold field_ok.
      + now rewrite Hn.
      + rewrite Ha. unfold F. rewrite decide_True by reflexivity. now rewrite Hfa. }
  assert (Hlist : forall cls, sym = cls -> get_arguments CT cls = [] ->
            instantiate cls (get_arguments CT cls) w =
              mbind (alloc (CList [])) (fun l => mret (VRef l)) w ->
            built CT lo (w_heap w) bud d v (w_heap w')).
  { intros cls -> Hargs Heq. rewrite Heq in Hinst. clear Heq.
    apply mbind_ret in Hinst as (l & w2 & Hal & Hret). apply alloc_ret in Hal as [-> ->].
    injection Hret as <- <-. rewrite Hargs in Hrun. cbn [mfold] in Hrun.
    apply mbind_ret in Hrun as ([] & w3 & Hfold & Hret). injection Hfold as <-.
    injection Hret as <- <-. cbn [with_heap w_heap].
    apply built_alloc; [exact Hok|exact Hu| |].
    - intros x Hx. cbn [cell_vals] in Hx. now apply elem_of_nil in Hx.
    - cbn [cell_ok]. rewrite decide_True by reflexivity. split; [exact Hd|constructor]. }
  destruct sym; try (eapply Hobj; [reflexivity|reflexivity|reflexivity]);
    try (eapply Hlist; [reflexivity|reflexivity|reflexivity]);
    cbn [instantiate] in Hinst; try discriminate;
    injection Hinst as <- <-; injection Hrun as <- <-; now apply built_same.
Qed.

Lemma built_items_nil h (bud : nat -> Z) d :
  heap_ok CT lo bud h -> uniq h -> built_items CT lo h bud d [] h.
Proof.
  intros Hok Hu. exists bud. split; [reflexivity|]. split; [apply extends_refl|].
  split; [exact Hok|]. split; [exact Hu|]. split; [|split; [intros p; lia|]].
  - intros p c x Hp Hc. apply lookup_lt_Some in Hc. lia.
  - split; [constructor|]. intros i j x Hi. discriminate.
Qed.

Lemma built_items_snoc h (bud : nat -> Z) d its h0 y h1 :
  built_items CT lo h bud d its h0 ->
  (forall bud0, heap_ok CT lo bud0 h0 -> uniq h0 -> built CT lo h0 bud0 d y h1) ->
  built_items CT lo h bud d (its ++ [y]) h1.
Proof.
  intros (bud0 & Hag0 & [Hl0 He0] & Hok0 & Hu0 & Hnew0 & Hb0 & Hr0 & Hd0) Hy.
  destruct (Hy bud0 Hok0 Hu0) as (bud1 & Hag1 & [Hl1 He1] & Hok1 & Hu1 & Hnew1 & Hb1 & Hr1).
  exists bud1. split; [intros p Hp; rewrite Hag1 by lia; now apply Hag0|].
  split; [split; [lia|intros l Hl; rewrite He1 by lia; now apply He0]|].
  split; [exact Hok1|]. split; [exact Hu1|].
  assert (Hnew : forall p c x, (length h <= p)%nat -> h1 !! p = Some c ->
            VRef x ∈ cell_vals c -> (length h <= x)%nat).
  { intros p c x Hp Hc Hx. destruct (decide (p < length h0)%nat) as [Hlt|Hge].
    - rewrite He1 in Hc by exact Hlt. eapply Hnew0; eassumption.
    - assert (length h0 <= x)%nat by (eapply Hnew1; [|exact Hc|exact Hx]; lia). lia. }
  split; [exact Hnew|]. split.
  { intros p Hp. destruct (decide (p < length h0)%nat) as [Hlt|Hge].
    - rewrite Hag1 by exact Hlt. apply Hb0. lia.
    - apply Hb1. lia. }
  assert (Hold : forall v, root_ok h h0 bud0 d v -> root_ok h h1 bud1 d v).
  { intros v. destruct v; cbn [root_ok]; try exact (fun x => x).
    intros (Hl & Hbl & Hun). split; [lia|]. split; [rewrite Hag1 by lia; exact Hbl|].
    intros p cp Hp Hx. destruct (decide (p < length h0)%nat) as [Hlt|Hge].
    - rewrite He1 in Hp by exact Hlt. exact (Hun p cp Hp Hx).
    - assert (length h0 <= l)%nat by (eapply Hnew1; [|exact Hp|exact Hx]; lia). lia. }
  split.
  - apply Forall_app. split; [eapply Forall_impl; [exact Hr0|exact Hold]|].
    constructor; [|constructor]. destruct y; cbn [root_ok] in *; try exact Hr1.
    destruct Hr1 as (Hl & Hbl & Hun). split; [lia|]. split; assumption.
  - intros i j x Hi Hj.
    assert (Hcase : forall i, (its ++ [y]) !! i = Some (VRef x) ->
              (its !! i = Some (VRef x) /\ (x < length h0)%nat) \/
              (i = length its /\ y = VRef x /\ (length h0 <= x)%nat)).
    { intros k Hk. destruct (decide (k < length its)%nat) as [Hlt|Hge].
      - left. rewrite lookup_app_l in Hk by exact Hlt. split; [exact Hk|].
        rewrite Forall_forall in Hr0. specialize (Hr0 _ (list_elem_of_lookup_2 _ _ _ Hk)).
        cbn [root_ok] in Hr0. lia.
      - right. assert (Hlen := lookup_lt_Some _ _ _ Hk). rewrite length_app in Hlen.
        cbn [length] in Hlen. assert (k = length its) as -> by lia.
        rewrite lookup_app_r, Nat.sub_diag in Hk by lia. injection Hk as ->.
        split; [reflexivity|]. split; [reflexivity|]. cbn [root_ok] in Hr1. lia. }
    destruct (Hcase i Hi) as [[Hi' Hxi]|(-> & _ & Hxi)],
             (Hcase j Hj) as [[Hj' Hxj]|(-> & _ & Hxj)]; try lia.
    eapply Hd0; eassumption.
Qed.

Lemma built_of_items h (bud : nat -> Z) d its h' :
  built_items CT lo h bud (d - 1) its h' -> 0 <= d ->
  built CT lo h bud d (VRef (length h')) (h' ++ [CList its]).
Proof.
  intros (bud0 & Hag0 & [Hl0 He0] & Hok0 & Hu0 & Hnew0 & Hb0 & Hr0 & Hd0) Hd.
  assert (Hlen : length (h' ++ [CList its]) = S (length h'))
    by (rewrite length_app; cbn [length]; lia).
  exists (fun p => if decide (p = length h') then d else bud0 p).
  split; [intros p Hp; rewrite decide_False by lia; now apply Hag0|].
  split; [split; [lia|intros l Hl; rewrite lookup_app_l by lia; now apply He0]|].
  split.
  { apply (heap_ok_alloc CT lo bud0); [exact Hok0| |].
    - intros q Hq. now rewrite decide_False by lia.
    - cbn [cell_ok]. rewrite decide_True by reflexivity. split; [exact Hd|].
      eapply Forall_impl; [exact Hr0|]. intros v. destruct v; cbn [root_ok item_ok]; try tauto.
      intros (Hl & Hbl & _). split; [lia|]. rewrite decide_False by lia.
      rewrite decide_True by reflexivity. lia. }
  split.
  { apply uniq_alloc; [exact Hu0|]. cbn [cell_vals]. intros i x Hi. split.
    - rewrite Forall_forall in Hr0. specialize (Hr0 _ (list_elem_of_lookup_2 _ _ _ Hi)).
      cbn [root_ok] in Hr0. tauto.
    - intros j Hj. eapply Hd0; eassumption. }
  assert (Hits : forall x, VRef x ∈ its -> (length h <= x < length h')%nat).
  { intros x Hx. rewrite Forall_forall in Hr0. specialize (Hr0 _ Hx). cbn [root_ok] in Hr0. tauto. }
  assert (Hcase : forall p cp, (h' ++ [CList its]) !! p = Some cp ->
            h' !! p = Some cp \/ (p = length h' /\ cp = CList its)).
  { intros p0 cp0 Hp0. destruct (decide (p0 < length h')%nat) as [Hlt|Hge].
    - left. now rewrite lookup_app_l in Hp0.
    - right. assert (Hlen' := lookup_lt_Some _ _ _ Hp0). rewrite Hlen in Hlen'.
      assert (p0 = length h') as -> by lia.
      rewrite lookup_app_r, Nat.sub_diag in Hp0 by lia. now injection Hp0 as <-. }
  split; [|split].
  - intros p c x Hp Hc Hx. destruct (Hcase p c Hc) as [Hc'|[-> ->]].
    + eapply Hnew0; eassumption.
    + cbn [cell_vals] in Hx. specialize (Hits x Hx). lia.
  - intros p Hp. destruct (decide (p = length h')) as [->|Hne]; [lia|].
    assert (bud0 p <= d - 1) by (apply Hb0; lia). lia.
  - cbn [root_ok]. split; [lia|]. split; [now rewrite decide_True|].
    intros p cp Hp Hx. destruct (Hcase p cp Hp) as [Hp'|[-> ->]].
    + destruct (heap_ok_ref CT lo bud0 h' p cp _ Hok0 Hp' Hx) as [Hr _]. lia.
    + cbn [cell_vals] in Hx. specialize (Hits _ Hx). lia.
Qed.

Lemma random_list_built (rec : Z -> ty -> M R value) d t (bud : nat -> Z) (w w' : world R) v :
  (forall d' t' bud0 (w0 w1 : world R) y,
     heap_ok CT lo bud0 (w_heap w0) -> uniq (w_heap w0) -> rec d' t' w0 = (Ret y, w1) ->
     built CT lo (w_heap w0) bud0 d' y (w_heap w1)) ->
  heap_ok CT lo bud (w_heap w) -> uniq (w_heap w) -> 0 <= d ->
  random_list rec d t w = (Ret v, w') ->
  built CT lo (w_heap w) bud d v (w_heap w').
Proof.
  intros Hrec Hok Hu Hd. unfold random_list. cbn zeta. intros Hrun.
  apply mbind_ret in Hrun as (size & w1 & Hsize & Hrun). apply randint_ret in Hsize as [Hh1 _].
  apply mbind_ret in Hrun as (items & w2 & Hitems & Hrun).
  apply mbind_ret in Hrun as (l & w3 & Hal & Hret). apply alloc_ret in Hal as [-> ->].
  injection Hret as <- <-. cbn [with_heap w_heap].
  apply built_of_items; [|exact Hd].
  eapply (mmap_ret _ (fun its w0 => built_items CT lo (w_heap w) bud (d - 1) its (w_heap w0)))
    with (pre := []); [| |exact Hitems].
  - intros x its0 w0 y w4 _ Hits Hy. cbn beta in *.
    eapply built_items_snoc; [exact Hits|].
    intros bud0 Hok0 Hu0. eapply Hrec; eassumption.
  - cbn beta. rewrite Hh1. now apply built_items_nil.
Qed.

(** [expand_node] extends the heap by a structure whose root nothing
    refers to, however the random draws fall. *)
Lemma expand_node_built fuel :
  forall d sym argn ctx (bud : nat -> Z) (w w' : world R) v,
    heap_ok CT lo bud (w_heap w) -> uniq (w_heap w) ->
    expand_node CT generate fuel g d sym argn ctx w = (Ret v, w') ->
    built CT lo (w_heap w) bud d v (w_heap w').
Proof.
  induction fuel as [|fuel IH]; intros d sym argn ctx bud w w' v Hok Hu; cbn [expand_node];
    (destruct (d <? 0) eqn:Hd0; [discriminate|]); apply Z.ltb_ge in Hd0;
    intros Hrun; apply mbind_ret in Hrun as (dd & w1 & Hdd & Hrun);
    unfold mlift in Hdd; injection Hdd as Hdd <-;
    (destruct (d <? dd) eqn:Hdd0; [discriminate|]); apply Z.ltb_ge in Hdd0;
    [discriminate|].
  assert (Hnormal :
    (if negb (set_mem sym (all_nodes g))
     then mraise (GeneticEngineError (SymbolNotInGrammar sym))
     else
       match dict_get (alternatives g) sym with
       | Some compatible_productions =>
           mbind (mlift (filter_choices g compatible_productions d))
             (fun valid_productions =>
                match valid_productions with
                | [] => mraise (GeneticEngineError (NoProductions sym d))
                | _ => mbind (choose_rule valid_productions)
                         (fun rule => expand_node CT generate fuel g d rule "" [])
                end)
       | None => expand_production CT d sym
       end) w = (Ret v, w') ->
    built CT lo (w_heap w) bud d v (w_heap w')).
  { destruct (negb _); [discriminate|].
    destruct (dict_get (alternatives g) sym) as [prods|].
    - intros Hr. apply mbind_ret in Hr as (valid & w2 & Hvalid & Hr).
      unfold mlift in Hvalid. injection Hvalid as Hvalid <-.
      destruct valid as [|v0 valid]; [discriminate|].
      apply mbind_ret in Hr as (rule & w3 & Hrule & Hr).
      apply choose_rule_ret in Hrule as [_ Hh3].
      rewrite <- Hh3. apply (IH d rule "" [] bud w3 w' v); [now rewrite Hh3|now rewrite Hh3|exact Hr].
    - apply expand_production_built; [exact Hok|exact Hu|exact Hd0|].
      intros Hb. eapply Hlo; eassumption. }
  destruct sym; try exact (Hnormal Hrun); cbn [expand_symbol] in Hrun.
  - unfold random_int in Hrun. apply mbind_ret in Hrun as (z & w2 & Hz & Hret).
    apply randint_ret in Hz as [Hh _]. injection Hret as <- <-. rewrite Hh.
    now apply built_same.
  - unfold random_float in Hrun. apply mbind_ret in Hrun as (q & w2 & Hq & Hret).
    apply random_float_between_ret in Hq as [Hh _]. injection Hret as <- <-. rewrite Hh.
    now apply built_same.
  - eapply random_list_built; [|exact Hok|exact Hu|exact Hd0|exact Hrun].
    intros d' t' bud0 w0 w2 y Hok0 Hu0 Hy. exact (IH d' t' "" [] bud0 w0 w2 y Hok0 Hu0 Hy).
  - unfold apply_metahandler in Hrun.
    destruct (generate m g d _ argn ctx (w_rng w)) as [[s| |] r]; try discriminate.
    injection Hrun as <- <-. cbn [with_rng w_heap]. apply built_same; [exact Hok|exact Hu|].
    now destruct s.
Qed.
End ExpandBuilt.

(** ** The loop of [PI_Grow] *)

Lemma read_ret {R : Type} l (w w' : world R) c :
  read l w = (Ret c, w') -> w' = w /\ w_heap w !! l = Some c.
Proof. unfold read. destruct (w_heap w !! l); [|discriminate]. intros [= <- <-]. now split. Qed.

Lemma getattr_ret {R : Type} l name (w w' : world R) v :
  getattr (VRef l) name w = (Ret v, w') ->
  w' = w /\ exists cls fields lab,
    w_heap w !! l = Some (CObj cls fields lab) /\ dict_get fields name = Some v.
Proof.
  unfold getattr. intros Hg. apply mbind_ret in Hg as (c & w1 & Hc & Hg).
  apply read_ret in Hc as [-> Hc]. destruct c as [cls fields lab|items]; [|discriminate].
  destruct (dict_get fields name) as [v0|] eqn:Hv; [|discriminate].
  injection Hg as <- <-. split; [reflexivity|]. now exists cls, fields, lab.
Qed.

Lemma setattr_ret {R : Type} l name v (w w' : world R) :
  setattr l name v w = (Ret tt, w') ->
  exists cls fields lab,
    w_heap w !! l = Some (CObj cls fields lab) /\
    w' = with_heap w (<[l := CObj cls (dict_set fields name v) lab]> (w_heap w)).
Proof.
  unfold setattr. intros Hs. apply mbind_ret in Hs as (c & w1 & Hc & Hs).
  apply read_ret in Hc as [-> Hc]. destruct c as [cls fields lab|items]; [|discriminate].
  unfold write in Hs. injection Hs as <-. now exists cls, fields, lab.
Qed.

Section LoopBuilt.
Context {R : Type} `{Source R}.
Variable CT : class_table.
Variable generate :
  metahandler -> Grammar -> Z -> ty -> string -> list (string * ty) -> R -> outcome scalar * R.
Variable lo : Z.
Variable g : Grammar.
Hypothesis Hlo : forall t dd d,
  get_distance_to_terminal g t = Ret dd -> is_builtin t = false -> 0 <= d -> dd <= d -> lo <= d.

Lemma heap_ok_insert (bud : nat -> Z) h p cp' :
  heap_ok CT lo bud h -> (p < length h)%nat -> cell_ok CT lo (length h) bud p cp' ->
  heap_ok CT lo bud (<[p := cp']> h).
Proof.
  intros Hok Hp Hc q c Hq. rewrite length_insert. destruct (decide (q = p)) as [->|Hne].
  - rewrite list_lookup_insert_eq in Hq by exact Hp. now injection Hq as <-.
  - rewrite list_lookup_insert_ne in Hq by congruence. now apply Hok.
Qed.

Lemma fut_ok_preserved (bud bud' : nat -> Z) h h' f :
  (forall p cls fields lab, h !! p = Some (CObj cls fields lab) ->
     bud' p = bud p /\
     exists fields' lab', h' !! p = Some (CObj cls fields' lab') /\
                          map fst fields' = map fst fields) ->
  fut_ok bud h f -> fut_ok bud' h' f.
Proof.
  intros Hh. destruct f; cbn [fut_ok]; try exact (fun x => x).
  intros (cls & fields & lab & Hp & Hn & ->).
  destruct (Hh _ _ _ _ Hp) as (Hb & fields' & lab' & Hp' & Hk).
  exists cls, fields', lab'. split; [exact Hp'|]. split; [now rewrite Hk|now rewrite Hb].
Qed.

(** The futures that [extract_futures] returns belong to objects of the
    heap. *)
Lemma extract_futures_ok (bud : nat -> Z) fuel :
  forall v (w w' : world R) fs,
    heap_ok CT lo bud (w_heap w) ->
    extract_futures CT fuel v w = (Ret fs, w') ->
    w' = w /\ Forall (fut_ok bud (w_heap w)) fs.
Proof.
  induction fuel as [|fuel IH]; intros v w w' fs Hok; cbn [extract_futures]; [discriminate|].
  unfold extract_futures_body. destruct v; try (intros [= <- <-]; now split).
  intros Hrun. apply mbind_ret in Hrun as (c & w1 & Hc & Hrun). apply read_ret in Hc as [-> Hc].
  pose proof (Hok l c Hc) as Hcell. destruct c as [cls fields lab|items]; cbn [cell_ok] in Hcell.
  - eapply (mfold_ret _ (fun acc w0 => w0 = w /\ Forall (fut_ok bud (w_heap w)) acc));
      [|split; [reflexivity|constructor]|exact Hrun].
    intros acc a w0 acc' w2 _ [-> Hacc] Hstep.
    apply mbind_ret in Hstep as (v & w3 & Hv & Hstep).
    apply getattr_ret in Hv as (-> & cls' & fields' & lab' & Hl & Hv).
    rewrite Hc in Hl. injection Hl as <- <- <-.
    destruct v; injection Hstep as <- <-; (split; [reflexivity|]); try exact Hacc.
    apply Forall_app. split; [exact Hacc|]. constructor; [|constructor].
    destruct Hcell as (_ & _ & _ & _ & _ & Hf). rewrite Forall_forall in Hf.
    pose proof (dict_get_elem _ _ _ Hv) as Hin. specialize (Hf _ Hin).
    unfold field_ok in Hf. cbn [snd fst] in Hf. destruct Hf as (-> & -> & ->).
    cbn [fut_ok]. exists cls, fields, lab. split; [exact Hc|]. split; [|reflexivity].
    apply list_elem_of_fmap. now exists (fst a, VFuture l (fst a) (bud l - 1) argt argn context).
  - eapply (mfold_ret _ (fun acc w0 => w0 = w /\ Forall (fut_ok bud (w_heap w)) acc));
      [|split; [reflexivity|constructor]|exact Hrun].
    intros acc el w0 acc' w2 Hel [-> Hacc] Hstep.
    destruct Hcell as [_ Hi]. rewrite Forall_forall in Hi. specialize (Hi el Hel).
    destruct el; cbn [item_ok] in Hi; try contradiction;
      apply mbind_ret in Hstep as (fs0 & w3 & Hfs0 & Hstep);
      destruct (IH _ _ _ _ Hok Hfs0) as [-> Hfs0'];
      injection Hstep as <- <-; (split; [reflexivity|]); apply Forall_app; now split.
Qed.

(** One round of the loop keeps the invariant. *)
Lemma PI_Grow_step_built fuel (bud : nat -> Z) queue (w w' : world R) queue' :
  heap_ok CT lo bud (w_heap w) -> uniq (w_heap w) ->
  Forall (fut_ok bud (w_heap w)) queue ->
  PI_Grow_step CT generate fuel g queue w = (Ret queue', w') ->
  exists bud',
    (forall p, (p < length (w_heap w))%nat -> bud' p = bud p) /\
    (length (w_heap w) <= length (w_heap w'))%nat /\
    heap_ok CT lo bud' (w_heap w') /\ uniq (w_heap w') /\
    Forall (fut_ok bud' (w_heap w')) queue'.
Proof.
  intros Hok Hu Hq. unfold PI_Grow_step. intros Hrun.
  apply mbind_ret in Hrun as (index & w1 & Hidx & Hrun). apply randint_ret in Hidx as [Hh1 _].
  destruct (queue !! Z.to_nat index) as [future|] eqn:Hfut; [|discriminate]. cbn zeta in Hrun.
  apply mbind_ret in Hrun as (obj & w2 & Hobj & Hrun).
  apply mbind_ret in Hrun as (futures & w3 & Hfs & Hrun). injection Hrun as <- <-.
  assert (Hrest : Forall (fut_ok bud (w_heap w)) (delete (Z.to_nat index) queue)).
  { now apply Forall_delete. }
  assert (Hfuture : fut_ok bud (w_heap w) future).
  { rewrite Forall_forall in Hq. apply Hq. eapply list_elem_of_lookup_2. exact Hfut. }
  assert (Hplain : (obj, w2) = (future, w1) ->
            exists bud', (forall p, (p < length (w_heap w))%nat -> bud' p = bud p) /\
              (length (w_heap w) <= length (w_heap w3))%nat /\
              heap_ok CT lo bud' (w_heap w3) /\ uniq (w_heap w3) /\
              Forall (fut_ok bud' (w_heap w3)) (delete (Z.to_nat index) queue ++ futures)).
  { intros [= -> ->]. rewrite <- Hh1 in Hok, Hu, Hrest.
    destruct (extract_futures_ok bud fuel _ _ _ _ Hok Hfs) as [-> Hfs'].
    exists bud. rewrite Hh1. split; [reflexivity|]. split; [lia|]. rewrite <- Hh1.
    split; [exact Hok|]. split; [exact Hu|]. apply Forall_app. now split. }
  destruct future as [| | | |l|parent name d argt argn ctx];
    try (apply Hplain; injection Hobj as <- <-; reflexivity).
  clear Hplain. apply mbind_ret in Hobj as (obj' & w4 & Hexp & Hobj).
  apply mbind_ret in Hobj as ([] & w5 & Hset & Hobj). injection Hobj as <- <-.
  rewrite <- Hh1 in Hok, Hu, Hrest, Hfuture.
  destruct (expand_node_built CT generate lo g Hlo fuel d argt argn ctx bud w1 w4 obj' Hok Hu Hexp)
    as (bud1 & Hag & [Hlen He] & Hok1 & Hu1 & Hnew & Hb & Hroot).
  cbn [fut_ok] in Hfuture. destruct Hfuture as (cls & fields & lab & Hpar & Hname & ->).
  assert (Hplt := lookup_lt_Some _ _ _ Hpar).
  apply setattr_ret in Hset as (cls' & fields' & lab' & Hpar' & ->).
  rewrite He, Hpar in Hpar' by exact Hplt. injection Hpar' as <- <- <-.
  assert (Hcell := Hok1 parent _ (eq_trans (He parent Hplt) Hpar)). cbn [cell_ok] in Hcell.
  destruct Hcell as (Hc1 & Hc2 & Hc3 & Hc4 & Hc5 & Hc6).
  assert (Hok2 : heap_ok CT lo bud1 (<[parent := CObj cls (dict_set fields name obj') lab]> (w_heap w4))).
  { apply heap_ok_insert; [exact Hok1|lia|]. cbn [cell_ok].
    repeat (split; [assumption|]). split; [now rewrite dict_set_keys|].
    apply dict_set_Forall; [exact Hc6|]. unfold field_ok. cbn [snd fst].
    destruct obj'; cbn [root_ok] in Hroot; try exact I; [|contradiction].
    destruct Hroot as (Hl & Hbl & _). split; [lia|]. rewrite Hbl, (Hag parent Hplt). reflexivity. }
  assert (Hu2 : uniq (<[parent := CObj cls (dict_set fields name obj') lab]> (w_heap w4))).
  { eapply uniq_insert; [exact Hu1|rewrite He by exact Hplt; exact Hpar|].
    cbn [cell_vals]. destruct (dict_set_vals fields name obj' Hname) as (i0 & Hi0 & ->).
    intros i x Hi. destruct (decide (i = i0)) as [->|Hne].
    - right. rewrite list_lookup_insert_eq in Hi by (rewrite length_map; exact Hi0).
      injection Hi as ->. cbn [root_ok] in Hroot. destruct Hroot as (_ & _ & Hun).
      split; [exact Hun|]. intros j Hj. destruct (decide (j = i0)) as [->|Hnj]; [reflexivity|].
      exfalso. rewrite list_lookup_insert_ne in Hj by congruence.
      apply (Hun parent (CObj cls fields lab)); [rewrite He by exact Hplt; exact Hpar|].
      cbn [cell_vals]. eapply list_elem_of_lookup_2. exact Hj.
    - left. now rewrite list_lookup_insert_ne in Hi by congruence. }
  cbn [with_heap w_heap] in *.
  set (w5 := {| w_heap := <[parent := CObj cls (dict_set fields name obj') lab]> (w_heap w4);
                w_rng := w_rng w4; w_gengy := w_gengy w4 |}) in *.
  destruct (extract_futures_ok bud1 fuel _ w5 _ _ Hok2 Hfs) as [-> Hfs'].
  exists bud1. rewrite <- Hh1. split; [exact Hag|]. unfold w5. cbn [w_heap].
  rewrite length_insert. split; [exact Hlen|]. split; [exact Hok2|]. split; [exact Hu2|].
  apply Forall_app. split; [|exact Hfs'].
  eapply Forall_impl; [exact Hrest|]. intros f. apply fut_ok_preserved.
  intros p cls0 fields0 lab0 Hp0. assert (Hp0lt := lookup_lt_Some _ _ _ Hp0).
  split; [now apply Hag|]. destruct (decide (p = parent)) as [->|Hne].
  - rewrite Hpar in Hp0. injection Hp0 as <- <- <-.
    exists (dict_set fields name obj'), lab.
    rewrite list_lookup_insert_eq by lia. split; [reflexivity|now apply dict_set_keys].
  - exists fields0, lab0. rewrite list_lookup_insert_ne by congruence.
    rewrite He by exact Hp0lt. now split.
Qed.

Lemma PI_Grow_loop_built steps fuel :
  forall (bud : nat -> Z) queue (w w' : world R),
    heap_ok CT lo bud (w_heap w) -> uniq (w_heap w) ->
    Forall (fut_ok bud (w_heap w)) queue ->
    PI_Grow_loop CT generate steps fuel g queue w = (Ret tt, w') ->
    exists bud',
      (forall p, (p < length (w_heap w))%nat -> bud' p = bud p) /\
      (length (w_heap w) <= length (w_heap w'))%nat /\
      heap_ok CT lo bud' (w_heap w') /\ uniq (w_heap w').
Proof.
  assert (Hdone : forall (bud : nat -> Z) (w w' : world R),
            heap_ok CT lo bud (w_heap w) -> uniq (w_heap w) ->
            mret (R:=R) tt w = (Ret tt, w') ->
            exists bud',
              (forall p, (p < length (w_heap w))%nat -> bud' p = bud p) /\
              (length (w_heap w) <= length (w_heap w'))%nat /\
              heap_ok CT lo bud' (w_heap w') /\ uniq (w_heap w')).
  { intros bud w w' Hok Hu [= <-]. exists bud. split; [reflexivity|]. split; [lia|]. now split. }
  induction steps as [|steps IH]; intros bud queue w w' Hok Hu Hq Hrun;
    destruct queue as [|q0 queue]; cbn [PI_Grow_loop] in Hrun; try discriminate;
    try (eapply Hdone; eassumption).
  apply mbind_ret in Hrun as (queue' & w1 & Hstep & Hrun).
  destruct (PI_Grow_step_built fuel bud _ _ _ _ Hok Hu Hq Hstep)
    as (bud1 & Hag1 & Hlen1 & Hok1 & Hu1 & Hq1).
  destruct (IH bud1 queue' w1 w' Hok1 Hu1 Hq1 Hrun) as (bud2 & Hag2 & Hlen2 & Hok2 & Hu2).
  exists bud2. split; [intros p Hp; rewrite Hag2 by lia; now apply Hag1|].
  split; [lia|]. now split.
Qed.
End LoopBuilt.

(** ** Following references *)

Lemma reach_ref h v x : reach h v x -> exists l, v = VRef l.
Proof. induction 1 as [l|v y c x _ IH _ _]; [now exists l|exact IH]. Qed.

Lemma reach_child h l c u x :
  h !! l = Some c -> u ∈ cell_vals c -> reach h u x -> reach h (VRef l) x.
Proof.
  intros Hl Hu Hr. induction Hr as [l0|v y cy x _ IH Hy Hx].
  - eapply reach_step; [apply reach_here|exact Hl|exact Hu].
  - eapply reach_step; [apply IH; exact Hu|exact Hy|exact Hx].
Qed.

Lemma cell_vals_unlabel c : cell_vals (unlabel c) = cell_vals c.
Proof. now destruct c. Qed.

Lemma reach_same_shape h h' v x : same_shape h h' -> reach h v x -> reach h' v x.
Proof.
  intros Hs Hr. induction Hr as [l|v y c x _ IH Hy Hx]; [apply reach_here|].
  destruct (same_shape_lookup h h' y c Hs Hy) as (c' & Hc' & Hun).
  eapply reach_step; [exact IH|exact Hc'|].
  now rewrite <- cell_vals_unlabel, Hun, cell_vals_unlabel.
Qed.

(** A tree read from a heap depends on the cells met from its root
    only. *)
Lemma tree_of_agree h h' k v :
  (forall x, reach h v x -> h' !! x = h !! x) -> tree_of k h' v = tree_of k h v.
Proof.
  revert v. induction k as [|k IH]; intros v Hag; destruct v; try reflexivity.
  cbn [tree_of]. rewrite (Hag l (reach_here h l)).
  destruct (h !! l) as [c|] eqn:Hl; [|reflexivity].
  assert (Hkids : Forall (fun u => tree_of k h' u = tree_of k h u) (cell_vals c)).
  { apply Forall_forall. intros u Hu. apply IH. intros x Hx. apply Hag.
    eapply reach_child; eassumption. }
  destruct c as [cls fields lab|items]; cbn [cell_vals] in Hkids.
  - rewrite (omap_list_eq_in _ (fun f : string * value =>
               match tree_of k h (snd f) with
               | Some t => Some (fst f, t)
               | None => None
               end) fields); [reflexivity|].
    rewrite Forall_fmap in Hkids. eapply Forall_impl; [exact Hkids|].
    intros f Hf. cbn in Hf. now rewrite Hf.
  - now rewrite (omap_list_eq_in _ (tree_of k h) items).
Qed.

Section ReachBuilt.
Variable CT : class_table.
Variable lo : Z.
Variable bud : nat -> Z.
Variable h : heap.
Hypothesis Hok : heap_ok CT lo bud h.
Hypothesis Hu : uniq h.

Lemma reach_bud l x : reach h (VRef l) x -> x = l \/ bud x < bud l.
Proof.
  intros Hr. remember (VRef l) as v eqn:Hv. induction Hr as [l0|v y c x _ IH Hy Hx].
  - injection Hv as ->. now left.
  - destruct (heap_ok_ref CT lo bud h y c x Hok Hy Hx) as [_ Hb].
    destruct (IH Hv) as [->|Hlt]; right; lia.
Qed.

(** No object is met again below one of its fields. *)
Lemma reach_below l c u x :
  h !! l = Some c -> u ∈ cell_vals c -> reach h u x -> x <> l.
Proof.
  intros Hl Hin Hr. destruct (reach_ref _ _ _ Hr) as [l0 ->].
  destruct (heap_ok_ref CT lo bud h l c l0 Hok Hl Hin) as [_ Hb].
  destruct (reach_bud l0 x Hr) as [->|Hlt]; intros ->; lia.
Qed.

(** What is met from two different places of a cell is different. *)
Lemma apart_slots l c i j u1 u2 :
  h !! l = Some c -> cell_vals c !! i = Some u1 -> cell_vals c !! j = Some u2 -> i <> j ->
  apart h u1 u2.
Proof.
  intros Hl Hi Hj Hne x H1 H2. revert j u2 Hj Hne H2.
  induction H1 as [l1|u1 y1 c1 x H1 IH Hy1 Hx1]; intros j u2 Hj Hne H2.
  - inversion H2 as [l2|v2 y2 c2 x2 H2' Hy2 Hx2]; subst.
    + now destruct (Hu l l c c i j l1 Hl Hl Hi Hj).
    + apply list_elem_of_lookup in Hx2 as [j2 Hj2].
      destruct (Hu l y2 c c2 i j2 l1 Hl Hy2 Hi Hj2) as [<- _].
      eapply (reach_below l c u2 l); [exact Hl| |exact H2'|reflexivity].
      eapply list_elem_of_lookup_2. exact Hj.
  - apply list_elem_of_lookup in Hx1 as [i1 Hi1].
    inversion H2 as [l2|v2 y2 c2 x2 H2' Hy2 Hx2]; subst.
    + destruct (Hu l y1 c c1 j i1 x Hl Hy1 Hj Hi1) as [<- _].
      eapply (reach_below l c u1 l); [exact Hl| |exact H1|reflexivity].
      eapply list_elem_of_lookup_2. exact Hi.
    + apply list_elem_of_lookup in Hx2 as [j2 Hj2].
      destruct (Hu y1 y2 c1 c2 i1 j2 x Hy1 Hy2 Hi1 Hj2) as [<- _].
      eapply (IH Hi j u2); eassumption.
Qed.

Lemma omap_list_some {A B : Type} (f : A -> option B) (l : list A) :
  Forall (fun x => is_Some (f x)) l -> is_Some (omap_list f l).
Proof.
  induction 1 as [|x l [y Hy] _ [ys Hys]]; [now eexists|].
  cbn [omap_list]. rewrite Hy, Hys. now eexists.
Qed.

(** Every structure of the heap can be read: the budgets decrease along
    the references. *)
Lemma built_readable n :
  forall v, (forall c, v = VRef c -> (c < length h)%nat /\ bud c < Z.of_nat n) ->
            is_Some (tree_of n h v).
Proof.
  induction n as [|n IH]; intros v Hv; destruct v; try (now eexists).
  - destruct (Hv l eq_refl) as [Hl Hb].
    destruct (lookup_lt_is_Some_2 h l Hl) as [c Hc].
    pose proof (heap_ok_bud_nonneg CT lo bud h l c Hok Hc). lia.
  - destruct (Hv l eq_refl) as [Hl Hb]. cbn [tree_of].
    destruct (lookup_lt_is_Some_2 h l Hl) as [c Hc]. rewrite Hc.
    assert (Hkids : Forall (fun u => is_Some (tree_of n h u)) (cell_vals c)).
    { apply Forall_forall. intros u Hin. apply IH. intros c0 ->.
      destruct (heap_ok_ref CT lo bud h l c c0 Hok Hc Hin) as [Hc0 Hb0]. split; [exact Hc0|lia]. }
    destruct c as [cls fields lab|items]; cbn [cell_vals] in Hkids.
    + rewrite Forall_fmap in Hkids.
      destruct (omap_list_some (fun f : string * value =>
                  match tree_of n h (snd f) with
                  | Some t => Some (fst f, t)
                  | None => None
                  end) fields) as [fs Hfs].
      { eapply Forall_impl; [exact Hkids|]. intros f [t Ht]. cbn in Ht. rewrite Ht. now eexists. }
      rewrite Hfs. now eexists.
    + destruct (omap_list_some (tree_of n h) items Hkids) as [ts Hts]. rewrite Hts. now eexists.
Qed.
End ReachBuilt.

(** * The metadata that [relabel_nodes_of_trees] records *)

Lemma type_of_ret {R : Type} l (w w' : world R) t :
  type_of (VRef l) w = (Ret t, w') ->
  w' = w /\ exists c, w_heap w !! l = Some c /\
                      t = match c with CObj cls _ _ => cls | CList _ => TListCls end.
Proof.
  unfold type_of. intros Ht. apply mbind_ret in Ht as (c & w1 & Hc & Ht).
  apply read_ret in Hc as [-> Hc]. split; [destruct c; now injection Ht|].
  exists c. split; [exact Hc|]. destruct c; now injection Ht.
Qed.

Lemma store_label_ret {R : Type} l lb (w w' : world R) :
  store_label (VRef l) lb w = (Ret tt, w') ->
  exists c, w_heap w !! l = Some c /\
    w' = match c with
         | CList _ => w
         | CObj cls fields _ => with_heap w (<[l := CObj cls fields (Some lb)]> (w_heap w))
         end.
Proof.
  unfold store_label. intros Hs. apply mbind_ret in Hs as (c & w1 & Hc & Hs).
  apply read_ret in Hc as [-> Hc]. exists c. split; [exact Hc|].
  destruct c as [cls fields lab|items]; [|now injection Hs].
  unfold set_label in Hs. apply mbind_ret in Hs as (c' & w1 & Hc' & Hs).
  apply read_ret in Hc' as [-> Hc']. rewrite Hc in Hc'. injection Hc' as <-.
  unfold write in Hs. now injection Hs.
Qed.

Lemma dict_get_nodup {V : Type} (d : list (string * V)) k v :
  NoDup (map fst d) -> (k, v) ∈ d -> dict_get d k = Some v.
Proof.
  induction d as [|[k0 v0] d IH]; cbn [map fst dict_get]; intros Hnd Hin.
  - now apply elem_of_nil in Hin.
  - apply NoDup_cons in Hnd as [Hk0 Hnd]. apply elem_of_cons in Hin as [[= -> ->]|Hin].
    + now rewrite decide_True.
    + destruct (decide (k = k0)) as [->|Hne]; [|now apply IH].
      exfalso. apply Hk0. apply list_elem_of_fmap. now exists (k0, v).
Qed.

Lemma getattr_run {R : Type} l cls fields lab k v (w : world R) :
  w_heap w !! l = Some (CObj cls fields lab) -> dict_get fields k = Some v ->
  getattr (VRef l) k w = (Ret v, w).
Proof. intros Hl Hk. unfold getattr, mbind, read. now rewrite Hl, Hk. Qed.

Lemma mmap_getattr_fields {R : Type} l cls fields lab (w : world R) :
  w_heap w !! l = Some (CObj cls fields lab) -> NoDup (map fst fields) ->
  mmap (getattr (VRef l)) (map fst fields) w = (Ret (map snd fields), w).
Proof.
  intros Hl Hnd.
  assert (Hgen : forall fs, Forall (fun f => dict_get fields (fst f) = Some (snd f)) fs ->
            mmap (getattr (VRef l)) (map fst fs) w = (Ret (map snd fs), w)).
  { induction 1 as [|f fs Hf _ IH]; [reflexivity|]. cbn [map mmap].
    unfold mbind at 1. rewrite (getattr_run l cls fields lab _ _ w Hl Hf).
    unfold mbind at 1. now rewrite IH. }
  apply Hgen. apply Forall_forall. intros [k v] Hin. now apply dict_get_nodup.
Qed.

Lemma same_shape_obj h h' l cls fields lab :
  same_shape h h' -> h !! l = Some (CObj cls fields lab) ->
  exists lab', h' !! l = Some (CObj cls fields lab').
Proof.
  intros Hs Hl. destruct (same_shape_lookup h h' l _ Hs Hl) as (c' & Hc' & Hu).
  destruct c' as [cls' fields' lab'|]; [|discriminate]. cbn [unlabel] in Hu.
  injection Hu as -> ->. now exists lab'.
Qed.

Lemma same_shape_sym h h' : same_shape h h' -> same_shape h' h.
Proof. unfold same_shape. congruence. Qed.

Lemma labels_bounded_insert b h l cls fields lb :
  labels_bounded b h -> depth lb <= b ->
  labels_bounded b (<[l := CObj cls fields (Some lb)]> h).
Proof.
  intros Hb Hd x cls0 fields0 lb0 Hx. destruct (decide (x = l)) as [->|Hne].
  - assert (Hlt := lookup_lt_Some _ _ _ Hx). rewrite length_insert in Hlt.
    rewrite list_lookup_insert_eq in Hx by exact Hlt. now injection Hx as <- <- <-.
  - rewrite list_lookup_insert_ne in Hx by congruence. eapply Hb. exact Hx.
Qed.

(** The depths that a tree shows are those of the heap. *)
Lemma depth_le_of_bounded b h k v t :
  labels_bounded b h -> tree_of k h v = Some t -> depth_le b t = true.
Proof.
  intros Hb. revert v t. induction k as [|k IH]; intros v t Ht;
    destruct v; cbn [tree_of] in Ht; try discriminate; try (injection Ht as <-; reflexivity).
  destruct (h !! l) as [[cls fields lab|items]|] eqn:Hl; [| |discriminate].
  - destruct (omap_list _ fields) as [fs|] eqn:Hfs; [|discriminate]. injection Ht as <-.
    cbn [depth_le]. apply andb_true_intro. split.
    + destruct lab as [lb|]; [|reflexivity]. apply Z.leb_le. eapply Hb. exact Hl.
    + apply forallb_forall. intros ft Hft. apply tree_of_fields in Hfs.
      apply list_elem_of_In, list_elem_of_lookup in Hft as [i Hi].
      destruct (Forall2_lookup_r _ _ _ _ _ Hfs Hi) as (f & _ & _ & Htf). eapply IH. exact Htf.
  - destruct (omap_list _ items) as [ts|] eqn:Hts; [|discriminate]. injection Ht as <-.
    cbn [depth_le]. apply forallb_forall. intros tx Htx. apply omap_list_Forall2 in Hts.
    apply list_elem_of_In, list_elem_of_lookup in Htx as [i Hi].
    destruct (Forall2_lookup_r _ _ _ _ _ Hts Hi) as (x & _ & Hx). eapply IH. exact Hx.
Qed.

Section RelabelLabels.
Context {R : Type} `{Source R}.
Variable CT : class_table.
Variable nts : list ty.
Variable bud : nat -> Z.
Variable hI : heap.
Variable B : Z.
Hypothesis Hok : heap_ok CT 1 bud hI.
Hypothesis Hu : uniq hI.
Hypothesis Hdf : distinct_fields CT.

(** What a call of [relabel_nodes] on [i] at depth [d] that returns
    [(sz, dt)] has done between the worlds [w] and [w']. *)
Let good (i : value) (d sz dt : Z) (w w' : world R) : Prop :=
  same_shape hI (w_heap w') /\ labels_bounded B (w_heap w') /\
  (forall x, ~ reach hI i x -> w_heap w' !! x = w_heap w !! x) /\
  (forall k t, tree_of k (w_heap w') i = Some t ->
     check_labels CT nts d t = true /\ size_of t = sz /\ dist_of t = dt).

Lemma relabel_children (rec : value -> Z -> M R (Z * Z)) d vs :
  (forall v (w w' : world R) sz dt, v ∈ vs ->
     same_shape hI (w_heap w) -> labels_bounded B (w_heap w) ->
     rec v d w = (Ret (sz, dt), w') -> good v d sz dt w w') ->
  (forall i j u1 u2, i <> j -> vs !! i = Some u1 -> vs !! j = Some u2 -> apart hI u1 u2) ->
  forall (w w' : world R) ps,
    same_shape hI (w_heap w) -> labels_bounded B (w_heap w) ->
    mmap (fun c => rec c d) vs w = (Ret ps, w') ->
    same_shape hI (w_heap w') /\ labels_bounded B (w_heap w') /\
    (forall x, (forall v, v ∈ vs -> ~ reach hI v x) -> w_heap w' !! x = w_heap w !! x) /\
    Forall2 (fun v p => forall k t, tree_of k (w_heap w') v = Some t ->
               check_labels CT nts d t = true /\ size_of t = fst p /\ dist_of t = snd p) vs ps.
Proof.
  induction vs as [|v vs IH]; intros Hrec Hapart w w' ps Hs Hb Hrun; cbn [mmap] in Hrun.
  - injection Hrun as <- <-. split; [exact Hs|]. split; [exact Hb|].
    split; [reflexivity|constructor].
  - apply mbind_ret in Hrun as ([sz dt] & w1 & Hv & Hrun).
    apply mbind_ret in Hrun as (ps' & w2 & Hvs & Hrun). injection Hrun as <- <-.
    destruct (Hrec v w w1 sz dt (list_elem_of_here _ _) Hs Hb Hv) as (Hs1 & Hb1 & Hf1 & Ht1).
    destruct (IH (fun v0 w0 w0' sz0 dt0 Hin => Hrec v0 w0 w0' sz0 dt0 (list_elem_of_further _ _ _ Hin))
                 (fun i j u1 u2 Hne Hi Hj => Hapart (S i) (S j) u1 u2 ltac:(lia) Hi Hj)
                 w1 w2 ps' Hs1 Hb1 Hvs) as (Hs2 & Hb2 & Hf2 & Ht2).
    split; [exact Hs2|]. split; [exact Hb2|]. split.
    + intros x Hx. rewrite Hf2, Hf1; [reflexivity| |].
      * apply Hx. left.
      * intros v0 Hv0. apply Hx. now right.
    + constructor; [|exact Ht2]. cbn [fst snd]. intros k t Ht. apply (Ht1 k).
      rewrite <- Ht. symmetry. apply tree_of_agree. intros x Hx. apply Hf2.
      intros v0 Hv0 Hx0. apply list_elem_of_lookup in Hv0 as [j Hj].
      apply (Hapart 0%nat (S j) v v0 ltac:(lia) eq_refl Hj x); [|exact Hx0].
      eapply reach_same_shape; [apply same_shape_sym; exact Hs1|exact Hx].
Qed.

Lemma relabel_nodes_good fuel :
  forall i d (w w' : world R) sz dt,
    same_shape hI (w_heap w) -> labels_bounded B (w_heap w) ->
    (forall l cls fields lab, i = VRef l -> hI !! l = Some (CObj cls fields lab) ->
       d = B + 1 - bud l) ->
    relabel_nodes CT fuel nts i d w = (Ret (sz, dt), w') -> good i d sz dt w w'.
Proof.
  assert (Hleaf : forall i d (w : world R),
            same_shape hI (w_heap w) -> labels_bounded B (w_heap w) ->
            (forall k t, tree_of k (w_heap w) i = Some t ->
               check_labels CT nts d t = true /\ size_of t = 0 /\ dist_of t = 1) ->
            good i d 0 1 w w).
  { intros i d w Hs Hb Ht. split; [exact Hs|]. split; [exact Hb|]. split; [reflexivity|exact Ht]. }
  induction fuel as [|fuel IH]; intros i d w w' sz dt Hs Hb Hd; cbn [relabel_nodes];
    [discriminate|].
  unfold relabel_body. intros Hrun. apply mbind_ret in Hrun as (t & w1 & Hty & Hrun).
  destruct i as [| | | |l|parent name fd argt argn ctx].
  1-4,6: injection Hty as <- <-; unfold is_terminal in Hrun; cbn [get_arguments is_builtin negb] in Hrun;
    apply mbind_ret in Hrun as ([] & w2 & Hu2 & Hrun); injection Hu2 as <-;
    injection Hrun as <- <- <-; apply Hleaf; [exact Hs|exact Hb|];
    intros k t Ht; destruct k; cbn [tree_of] in Ht; injection Ht as <-; now split.
  apply type_of_ret in Hty as (-> & c & Hc & ->).
  destruct (same_shape_lookup _ _ l c (same_shape_sym _ _ Hs) Hc) as (c0 & Hc0 & Hun).
  destruct c as [cls fields lab|items].
  2:{ unfold is_terminal in Hrun. cbn [get_arguments is_builtin negb] in Hrun.
      apply mbind_ret in Hrun as ([] & w2 & Hu2 & Hrun). injection Hu2 as <-.
      injection Hrun as <- <- <-. apply Hleaf; [exact Hs|exact Hb|].
      intros k t Ht. destruct k; cbn [tree_of] in Ht; [discriminate|]. rewrite Hc in Ht.
      destruct (omap_list _ items); [|discriminate]. injection Ht as <-. now split. }
  destruct c0 as [cls0 fields0 lab0|]; [|discriminate]. cbn [unlabel] in Hun.
  injection Hun as -> ->.
  pose proof (Hok l _ Hc0) as Hcell. cbn [cell_ok] in Hcell.
  destruct Hcell as (Hb1 & _ & -> & Hbi & Hnames & Hfields).
  specialize (Hd l cls fields None eq_refl Hc0).
  destruct (is_terminal CT cls nts) eqn:Hterm.
  - rewrite Hbi in Hrun. cbn [negb] in Hrun.
    apply mbind_ret in Hrun as ([] & w2 & Hst & Hrun). injection Hrun as <- <- <-.
    apply store_label_ret in Hst as (c & Hc' & ->). rewrite Hc in Hc'. injection Hc' as <-.
    unfold good. cbn [with_heap w_heap]. split; [|split; [|split]].
    + eapply same_shape_insert; [exact Hs|exact Hc|reflexivity].
    + apply labels_bounded_insert; [exact Hb|]. cbn [depth]. lia.
    + intros x Hx. rewrite list_lookup_insert_ne; [reflexivity|].
      intros <-. apply Hx. apply reach_here.
    + intros k t Ht. destruct k; cbn [tree_of] in Ht; [discriminate|].
      rewrite list_lookup_insert_eq in Ht by (eapply lookup_lt_Some; exact Hc).
      destruct (omap_list _ fields); [|discriminate]. injection Ht as <-.
      cbn [check_labels size_of dist_of nodes distance_to_term]. rewrite Hterm.
      cbn [label_is depth distance_to_term nodes]. rewrite !Z.eqb_refl. now split.
  - apply mbind_ret in Hrun as (vs & w2 & Hkids & Hrun).
    unfold children_of in Hkids. apply mbind_ret in Hkids as (c & w3 & Hc' & Hkids).
    apply read_ret in Hc' as [-> Hc']. rewrite Hc in Hc'. injection Hc' as <-.
    rewrite <- Hnames in Hkids.
    rewrite (mmap_getattr_fields l cls fields lab w Hc) in Hkids
      by (rewrite Hnames; apply Hdf).
    injection Hkids as <- <-.
    destruct (map snd fields) as [|v0 vs0] eqn:Hvs; [discriminate|]. rewrite <- Hvs in *.
    apply mbind_ret in Hrun as (ps & w2 & Hps & Hrun). cbn zeta in Hrun.
    apply mbind_ret in Hrun as ([] & w3 & Hst & Hrun). injection Hrun as <- <- <-.
    destruct (relabel_children (relabel_nodes CT fuel nts) (d + 1) (map snd fields))
      with (w := w) (w' := w2) (ps := ps) as (Hs2 & Hb2 & Hf2 & Ht2);
      [| |exact Hs|exact Hb|exact Hps|].
    { intros v w0 w0' sz0 dt0 Hv Hs0 Hb0 Hv0. apply (IH v (d + 1) w0 w0' sz0 dt0 Hs0 Hb0); [|exact Hv0].
      intros l' cls' fields' lab' -> Hl'.
      destruct (heap_ok_ref CT 1 bud hI l _ l' Hok Hc0 Hv) as [_ Hbl]. lia. }
    { intros i j u1 u2 Hne Hi Hj. eapply (apart_slots CT 1 bud hI Hok Hu l _ i j); eassumption. }
    apply store_label_ret in Hst as (c & Hc2 & ->).
    destruct (same_shape_obj _ _ l cls fields None Hs2 Hc0) as [lab2 Hl2].
    rewrite Hl2 in Hc2. injection Hc2 as <-. unfold good. cbn [with_heap w_heap].
    split; [|split; [|split]].
    + eapply same_shape_insert; [exact Hs2|exact Hl2|reflexivity].
    + apply labels_bounded_insert; [exact Hb2|]. cbn [depth]. lia.
    + intros x Hx. rewrite list_lookup_insert_ne by (intros <-; apply Hx; apply reach_here).
      apply Hf2. intros v Hv Hr. apply Hx. eapply reach_child; [exact Hc0|exact Hv|exact Hr].
    + intros k t Ht. destruct k; cbn [tree_of] in Ht; [discriminate|].
      rewrite list_lookup_insert_eq in Ht by (eapply lookup_lt_Some; exact Hl2).
      destruct (omap_list _ fields) as [fs|] eqn:Hfs; [|discriminate]. injection Ht as <-.
      apply tree_of_fields in Hfs.
      assert (Hall : Forall2 (fun (ft : string * tree) (p : Z * Z) =>
                check_labels CT nts (d + 1) (snd ft) = true /\
                size_of (snd ft) = fst p /\ dist_of (snd ft) = snd p) fs ps).
      { apply Forall2_same_length_lookup. split.
        - rewrite <- (Forall2_length _ _ _ Hfs), <- (Forall2_length _ _ _ Ht2).
          now rewrite length_map.
        - intros i ft p Hft Hp.
          destruct (Forall2_lookup_r _ _ _ _ _ Hfs Hft) as (f & Hf & _ & Htf).
          assert (Hv : map snd fields !! i = Some (snd f)) by now rewrite list_lookup_fmap, Hf.
          destruct (Forall2_lookup_l _ _ _ _ _ Ht2 Hv) as (p' & Hp' & Hgood).
          rewrite Hp in Hp'. injection Hp' as <-. apply (Hgood k).
          rewrite <- Htf. symmetry. apply tree_of_agree. intros x Hx.
          apply list_lookup_insert_ne. intros <-.
          eapply (reach_below CT 1 bud hI Hok l _ (snd f) l); [exact Hc0| | |reflexivity].
          + cbn [cell_vals]. eapply list_elem_of_lookup_2. exact Hv.
          + eapply reach_same_shape; [apply same_shape_sym; exact Hs2|exact Hx]. }
      assert (Hsz : map (fun f : string * tree => size_of (snd f)) fs = map fst ps).
      { clear -Hall. induction Hall as [|ft p fs ps (_ & Hp & _) _ IHa]; [reflexivity|].
        cbn [map]. now rewrite Hp, IHa. }
      assert (Hdt : map (fun f : string * tree => dist_of (snd f)) fs = map snd ps).
      { clear -Hall. induction Hall as [|ft p fs ps (_ & _ & Hp) _ IHa]; [reflexivity|].
        cbn [map]. now rewrite Hp, IHa. }
      cbn [check_labels size_of dist_of nodes distance_to_term]. rewrite Hterm, Hsz, Hdt.
      cbn [label_is depth distance_to_term nodes]. rewrite !Z.eqb_refl. cbn [andb].
      split; [|split; reflexivity].
      apply forallb_forall. intros ft Hft. apply list_elem_of_In, list_elem_of_lookup in Hft as [i Hi].
      destruct (Forall2_lookup_l _ _ _ _ _ Hall Hi) as (p & _ & Hp & _). exact Hp.
Qed.
End RelabelLabels.

(** * The metadata of synthesized trees *)

Lemma positive_distances_lo g :
  positive_distances g ->
  forall t dd d, get_distance_to_terminal g t = Ret dd -> is_builtin t = false ->
                 0 <= d -> dd <= d -> 1 <= d.
Proof.
  intros Hpos t dd d Hdd Hb Hd Hle.
  assert (dict_get (distanceToTerminal g) t = Some dd) as Hget.
  { destruct t; cbn [is_builtin] in Hb; try discriminate; cbn [get_distance_to_terminal] in Hdd;
      destruct (dict_get (distanceToTerminal g) _); now inversion Hdd. }
  specialize (Hpos t dd Hget Hb). lia.
Qed.

Section SynthesizedMetadata.
Context {R : Type} `{Source R}.
Variable CT : class_table.
Variable generate :
  metahandler -> Grammar -> Z -> ty -> string -> list (string * ty) -> R -> outcome scalar * R.

Lemma PI_Grow_empty_metadata fuel g d sym (w0 w' : world R) v :
  w_heap w0 = [] -> distinct_fields CT -> positive_distances g ->
  PI_Grow CT generate fuel g d sym w0 = (Ret v, w') ->
  exists k t,
    tree_of k (w_heap w') v = Some t /\
    check_labels CT (non_terminals g) 1 t = true /\
    depth_le d t = true.
Proof.
  intros Hempty Hdf Hpos. unfold PI_Grow. intros Hrun.
  apply mbind_ret in Hrun as (root & w1 & Hroot & Hrun).
  apply mbind_ret in Hrun as ([] & w2 & Hloop & Hrun).
  unfold relabel_nodes_of_trees in Hrun.
  apply mbind_ret in Hrun as ([sz dt] & w3 & Hrel & Hrun). injection Hrun as <- <-.
  pose proof (positive_distances_lo g Hpos) as Hlo.
  assert (Hok0 : heap_ok CT 1 (fun _ => 0) (w_heap w0)).
  { rewrite Hempty. intros p c Hp. discriminate. }
  assert (Hu0 : uniq (w_heap w0)).
  { rewrite Hempty. intros p q cp cq i j c Hp. discriminate. }
  destruct (expand_node_built CT generate 1 g Hlo fuel d sym "" [] _ w0 w1 root Hok0 Hu0 Hroot)
    as (bud1 & _ & _ & Hok1 & Hu1 & _ & _ & Hr1).
  destruct (PI_Grow_loop_built CT generate 1 g Hlo fuel fuel bud1 [root] w1 w2 Hok1 Hu1)
    as (bud2 & Hag2 & Hlen2 & Hok2 & Hu2); [|exact Hloop|].
  { constructor; [|constructor]. destruct root; cbn [fut_ok root_ok] in *; tauto. }
  assert (Hnone : labels_bounded d (w_heap w2)).
  { intros x cls fields lb Hx. specialize (Hok2 x _ Hx). cbn [cell_ok] in Hok2.
    destruct Hok2 as (_ & _ & Hl & _). discriminate. }
  destruct (relabel_nodes_good CT (non_terminals g) bud2 (w_heap w2) d Hok2 Hu2 Hdf fuel
              root 1 w2 w3 sz dt (same_shape_refl _) Hnone) as (Hs3 & Hb3 & _ & Ht3);
    [|exact Hrel|].
  { intros l cls fields lab -> Hl. cbn [root_ok] in Hr1. destruct Hr1 as (Hlt & Hbl & _).
    rewrite Hag2 by lia. lia. }
  assert (Hread : exists k, is_Some (tree_of k (w_heap w2) root)).
  { destruct root as [| | | |l|]; try (exists 0%nat; now eexists).
    cbn [root_ok] in Hr1. destruct Hr1 as (Hlt & Hbl & _).
    exists (S (Z.to_nat (bud2 l))).
    apply (built_readable CT 1 bud2 (w_heap w2) Hok2). intros c [= <-]. split; [lia|].
    destruct (lookup_lt_is_Some_2 (w_heap w2) l ltac:(lia)) as [c Hc].
    pose proof (heap_ok_bud_nonneg CT 1 bud2 _ l c Hok2 Hc). lia. }
  destruct Hread as (k & t2 & Ht2).
  pose proof (tree_of_same_shape _ _ k root Hs3) as Hsame. rewrite Ht2 in Hsame.
  destruct (tree_of k (w_heap w3) root) as [t|] eqn:Ht; [|discriminate].
  exists k, t. split; [exact Ht|]. split; [apply (Ht3 k t Ht)|].
  eapply depth_le_of_bounded; eassumption.
Qed.

End SynthesizedMetadata.

Lemma example_distinct_fields : distinct_fields Example.CT.
Proof.
  intros t. unfold get_property_names, get_arguments. destruct t; try constructor.
  cbn [Example.CT dict_get].
  repeat (destruct (decide _); [cbn [c_args map fst]|]); try constructor.
  - intros Hin. apply list_elem_of_singleton in Hin. discriminate.
  - apply NoDup_singleton.
Qed.

Lemma weighted_positive_distances : positive_distances Weighted.grammar.
Proof.
  intros t dd. cbn [Weighted.grammar distanceToTerminal dict_get].
  repeat (destruct (decide _) as [->|_]; [intros [= <-]; cbn [is_builtin]; first [discriminate|lia]|]).
  discriminate.
Qed.



(** * No future is left behind *)

Section ExtractPure.
Context {R : Type}.
Variable CT : class_table.

(** [extract_futures] only reads. *)
Lemma extract_futures_pure fuel :
  forall v (w w' : world R) fs, extract_futures CT fuel v w = (Ret fs, w') -> w' = w.
Proof.
  induction fuel as [|fuel IH]; intros v w w' fs; cbn [extract_futures]; [discriminate|].
  unfold extract_futures_body. destruct v; try (now intros [= _ <-]).
  intros Hrun. apply mbind_ret in Hrun as (c & w1 & Hc & Hrun). apply read_ret in Hc as [-> Hc].
  destruct c as [cls fields lab|items].
  - eapply (mfold_ret _ (fun _ w0 => w0 = w)); [|reflexivity|exact Hrun].
    intros acc a w0 acc' w2 _ -> Hstep. apply mbind_ret in Hstep as (v & w3 & Hv & Hstep).
    apply getattr_ret in Hv as [-> _]. destruct v; now injection Hstep as _ <-.
  - eapply (mfold_ret _ (fun _ w0 => w0 = w)); [|reflexivity|exact Hrun].
    intros acc el w0 acc' w2 _ -> Hstep.
    destruct el; try (apply mbind_ret in Hstep as (fs0 & w3 & Hfs0 & Hstep);
                      apply IH in Hfs0 as ->; now injection Hstep as _ <-).
    now injection Hstep as _ <-.
Qed.

(** The loop of [extract_futures] over the fields of an object. *)
Lemma extract_fields_found l cls fields lab (args : list (string * ty)) :
  forall acc (w w' : world R) fs,
    w_heap w !! l = Some (CObj cls fields lab) ->
    mfold (fun futures (a : string * ty) =>
             mbind (getattr (VRef l) (fst a))
               (fun v => match v with
                         | VFuture _ _ _ _ _ _ => mret (futures ++ [v])
                         | _ => mret futures
                         end)) args acc w = (Ret fs, w') ->
    (forall fv, fv ∈ acc -> fv ∈ fs) /\
    (forall a fv, a ∈ args -> dict_get fields (fst a) = Some fv -> is_future fv = true ->
       fv ∈ fs).
Proof.
  induction args as [|a args IH]; intros acc w w' fs Hl Hrun; cbn [mfold] in Hrun.
  - injection Hrun as <- <-. split; [auto|]. intros a fv Ha. now apply elem_of_nil in Ha.
  - apply mbind_ret in Hrun as (acc1 & w1 & Hstep & Hrun).
    apply mbind_ret in Hstep as (v & w2 & Hv & Hstep).
    apply getattr_ret in Hv as (-> & cls' & fields' & lab' & Hl' & Hv).
    rewrite Hl in Hl'. injection Hl' as <- <- <-.
    assert (Hacc1 : w1 = w /\ (forall fv, fv ∈ acc -> fv ∈ acc1) /\
                    (is_future v = true -> v ∈ acc1)).
    { destruct v; injection Hstep as <- <-; (split; [reflexivity|]);
        (split; [intros fv Hfv; try exact Hfv; apply elem_of_app; now left|]);
        try discriminate. intros _. apply elem_of_app. right. left. }
    destruct Hacc1 as (-> & Hsub & Hnew).
    destruct (IH acc1 w w' fs Hl Hrun) as [Hsub' Hfound]. split; [auto|].
    intros a' fv Ha' Hget Hfut. apply elem_of_cons in Ha' as [->|Ha'].
    + rewrite Hv in Hget. injection Hget as ->. auto.
    + eapply Hfound; eassumption.
Qed.

(** The loop of [extract_futures] over the items of a list. *)
Lemma extract_items_found fuel (items : list value) :
  forall acc (w w' : world R) fs,
    mfold (fun futures el =>
             match el with
             | VFuture _ _ _ _ _ _ => mret (futures ++ [el])
             | _ => mbind (extract_futures CT fuel el) (fun fs => mret (futures ++ fs))
             end) items acc w = (Ret fs, w') ->
    (forall fv, fv ∈ acc -> fv ∈ fs) /\
    (forall el, el ∈ items -> is_future el = false ->
       exists fs_el, extract_futures CT fuel el w = (Ret fs_el, w) /\
                     forall fv, fv ∈ fs_el -> fv ∈ fs).
Proof.
  induction items as [|x items IH]; intros acc w w' fs Hrun; cbn [mfold] in Hrun.
  - injection Hrun as <- <-. split; [auto|]. intros el Hel. now apply elem_of_nil in Hel.
  - apply mbind_ret in Hrun as (acc1 & w1 & Hstep & Hrun).
    assert (Hx : w1 = w /\ (forall fv, fv ∈ acc -> fv ∈ acc1) /\
                 (is_future x = false ->
                  exists fs_x, extract_futures CT fuel x w = (Ret fs_x, w) /\
                               forall fv, fv ∈ fs_x -> fv ∈ acc1)).
    { destruct x;
        try (apply mbind_ret in Hstep as (fs0 & w2 & Hfs0 & Hstep);
             pose proof (extract_futures_pure fuel _ _ _ _ Hfs0) as ->;
             injection Hstep as <- <-; split; [reflexivity|];
             split; [intros fv Hfv; apply elem_of_app; now left|];
             intros _; exists fs0; split; [exact Hfs0|];
             intros fv Hfv; apply elem_of_app; now right).
      injection Hstep as <- <-. split; [reflexivity|].
      split; [intros fv Hfv; apply elem_of_app; now left|discriminate]. }
    destruct Hx as (-> & Hsub & Hxf). destruct (IH acc1 w w' fs Hrun) as [Hsub' Hfound].
    split; [auto|]. intros el Hel Hnf. apply elem_of_cons in Hel as [->|Hel].
    + destruct (Hxf Hnf) as (fs_x & Hrunx & Hin). exists fs_x. split; [exact Hrunx|auto].
    + now apply Hfound.
Qed.
End ExtractPure.

Lemma fold_dict_set_keys {V : Type} (F : string * ty -> V) (args : list (string * ty)) :
  forall fs : list (string * V),
    (forall a, a ∈ args -> fst a ∈ map fst fs) ->
    map fst (fold_left (fun fs a => dict_set fs (fst a) (F a)) args fs) = map fst fs.
Proof.
  induction args as [|a args IH]; intros fs Hin; [reflexivity|]. cbn [fold_left].
  assert (Ha : fst a ∈ map fst fs) by (apply Hin; left).
  rewrite IH; [now apply dict_set_keys|].
  intros a' Ha'. rewrite dict_set_keys by exact Ha. apply Hin. now right.
Qed.

Section Covers.
Context {R : Type} `{Source R}.
Variable CT : class_table.
Variable generate :
  metahandler -> Grammar -> Z -> ty -> string -> list (string * ty) -> R -> outcome scalar * R.
Variable g : Grammar.
Hypothesis Hdf : distinct_fields CT.

Lemma covers_nil L v : covers (R:=R) CT L [] v.
Proof. intros fuel W W' fs _ _ i c fv Hi. discriminate. Qed.

(** What [expand_production] does to the heap. *)
Lemma expand_production_run d sym (w w' : world R) v :
  expand_production CT d sym w = (Ret v, w') ->
  (w' = w /\ match v with VRef _ | VFuture _ _ _ _ _ _ => False | _ => True end) \/
  (exists c, v = VRef (length (w_heap w)) /\ w' = with_heap w (w_heap w ++ [c]) /\
     (c = CList [] \/
      exists fields, c = CObj sym fields None /\
                     map fst fields = get_property_names CT sym)).
Proof.
  unfold expand_production. cbn zeta. intros Hrun.
  apply mbind_ret in Hrun as (obj & w1 & Hinst & Hrun).
  assert (Hobj : forall cls, sym = cls ->
            instantiate cls (get_arguments CT cls) w =
              mbind (alloc (CObj cls (map (fun a : string * ty => (fst a, VNone))
                                        (get_arguments CT cls)) None))
                (fun l => mret (VRef l)) w ->
            exists c, v = VRef (length (w_heap w)) /\ w' = with_heap w (w_heap w ++ [c]) /\
              (c = CList [] \/
               exists fields, c = CObj cls fields None /\
                              map fst fields = get_property_names CT cls)).
  { intros cls -> Heq. rewrite Heq in Hinst. clear Heq.
    apply mbind_ret in Hinst as (l & w2 & Hal & Hret). apply alloc_ret in Hal as [-> ->].
    injection Hret as <- <-. apply mbind_ret in Hrun as ([] & w3 & Hfold & Hret).
    injection Hret as <- <-.
    pose (F := fun a : string * ty =>
                VFuture (length (w_heap w)) (fst a) (d - 1)
                  (snd (List.last (get_arguments CT cls) ("", TNoneType)))
                  (fst (List.last (get_arguments CT cls) ("", TNoneType)))
                  (get_arguments CT cls)).
    pose proof (setattr_fold F (get_arguments CT cls)
                  (map (fun a : string * ty => (fst a, VNone)) (get_arguments CT cls))
                  (with_heap w (w_heap w ++
                     [CObj cls (map (fun a : string * ty => (fst a, VNone))
                                  (get_arguments CT cls)) None]))
                  (w_heap w) cls None eq_refl) as Hsf.
    unfold F at 1 in Hsf. cbn beta in Hsf. rewrite Hsf in Hfold. clear Hsf.
    injection Hfold as <-. eexists. split; [reflexivity|]. split; [reflexivity|].
    right. eexists. split; [reflexivity|].
    rewrite fold_dict_set_keys; [now rewrite map_map|].
    intros a Ha. rewrite map_map. cbn [fst]. now apply list_elem_of_fmap_2. }
  assert (Hlist : forall cls, sym = cls -> get_arguments CT cls = [] ->
            instantiate cls (get_arguments CT cls) w =
              mbind (alloc (CList [])) (fun l => mret (VRef l)) w ->
            exists c, v = VRef (length (w_heap w)) /\ w' = with_heap w (w_heap w ++ [c]) /\
              (c = CList [] \/
               exists fields, c = CObj cls fields None /\
                              map fst fields = get_property_names CT cls)).
  { intros cls -> Hargs Heq. rewrite Heq in Hinst. clear Heq.
    apply mbind_ret in Hinst as (l & w2 & Hal & Hret). apply alloc_ret in Hal as [-> ->].
    injection Hret as <- <-. rewrite Hargs in Hrun. cbn [mfold] in Hrun.
    apply mbind_ret in Hrun as ([] & w3 & Hfold & Hret). injection Hfold as <-.
    injection Hret as <- <-. eexists. split; [reflexivity|]. split; [reflexivity|]. now left. }
  destruct sym; try (right; eapply Hobj; reflexivity); try (right; eapply Hlist; reflexivity);
    cbn [instantiate] in Hinst; try discriminate;
    injection Hinst as <- <-; injection Hrun as <- <-; left; now split.
Qed.

Lemma lookup_singleton_inv {A : Type} (x c : A) i : [x] !! i = Some c -> i = 0%nat /\ c = x.
Proof. destruct i as [|i]; [now intros [= <-]|destruct i; discriminate]. Qed.

Lemma expand_production_covers d sym (w w' : world R) v :
  expand_production CT d sym w = (Ret v, w') ->
  exists hnew, w_heap w' = w_heap w ++ hnew /\ is_future v = false /\
               covers (R:=R) CT (length (w_heap w)) hnew v.
Proof.
  intros Hrun. apply expand_production_run in Hrun as [[-> Hv]|(c & -> & -> & Hc)].
  - exists []. split; [now rewrite app_nil_r|]. split; [now destruct v|apply covers_nil].
  - exists [c]. split; [reflexivity|]. split; [reflexivity|].
    intros fuel W W' fs Hag Hrun i c0 fv Hi Hfv Hfut.
    apply lookup_singleton_inv in Hi as [-> ->].
    specialize (Hag 0%nat c eq_refl). rewrite Nat.add_0_r in Hag.
    destruct Hc as [->|(fields & -> & Hnames)]; [now apply elem_of_nil in Hfv|].
    destruct fuel as [|fuel]; [discriminate|]. cbn [extract_futures] in Hrun.
    unfold extract_futures_body in Hrun. apply mbind_ret in Hrun as (c & w1 & Hc & Hrun).
    apply read_ret in Hc as [-> Hc]. rewrite Hag in Hc. injection Hc as <-.
    destruct (extract_fields_found _ _ _ _ _ _ _ _ _ Hag Hrun) as [_ Hfound].
    cbn [cell_vals] in Hfv. apply list_elem_of_fmap in Hfv as ([nm fv'] & -> & Hin).
    assert (Hnm : nm ∈ map fst (get_arguments CT sym)).
    { change (map fst (get_arguments CT sym)) with (get_property_names CT sym).
      rewrite <- Hnames. apply list_elem_of_fmap. now exists (nm, fv'). }
    apply list_elem_of_fmap in Hnm as (a & Ha & Hain).
    apply (Hfound a fv' Hain); [|exact Hfut].
    rewrite <- Ha. apply dict_get_nodup; [rewrite Hnames; apply Hdf|exact Hin].
Qed.

Lemma agrees_at_app_l h L hn hn' : agrees_at h L (hn ++ hn') -> agrees_at h L hn.
Proof. intros Hag i c Hi. apply Hag. now apply lookup_app_l_Some. Qed.

Lemma agrees_at_app_r h L hn hn' :
  agrees_at h L (hn ++ hn') -> agrees_at h (L + length hn) hn'.
Proof.
  intros Hag i c Hi. rewrite <- Nat.add_assoc. apply Hag.
  rewrite lookup_app_r by lia. now replace (length hn + i - length hn)%nat with i by lia.
Qed.

Lemma random_list_covers (rec : Z -> ty -> M R value) d t (w w' : world R) v :
  (forall d' t' (w0 w1 : world R) y,
     rec d' t' w0 = (Ret y, w1) ->
     exists hnew, w_heap w1 = w_heap w0 ++ hnew /\ is_future y = false /\
                  covers (R:=R) CT (length (w_heap w0)) hnew y) ->
  random_list rec d t w = (Ret v, w') ->
  exists hnew, w_heap w' = w_heap w ++ hnew /\ is_future v = false /\
               covers (R:=R) CT (length (w_heap w)) hnew v.
Proof.
  intros Hrec. unfold random_list. cbn zeta. intros Hrun.
  apply mbind_ret in Hrun as (size & w1 & Hsize & Hrun). apply randint_ret in Hsize as [Hh1 _].
  apply mbind_ret in Hrun as (items & w2 & Hitems & Hrun).
  apply mbind_ret in Hrun as (l & w3 & Hal & Hret). apply alloc_ret in Hal as [-> ->].
  injection Hret as <- <-. cbn [with_heap w_heap].
  assert (Hinv : exists hn, w_heap w2 = w_heap w ++ hn /\
                   Forall (fun y => is_future y = false) ([] ++ items) /\
                   covers_any (R:=R) CT (length (w_heap w)) hn ([] ++ items)).
  { eapply (mmap_ret _ (fun its w0 =>
              exists hn, w_heap w0 = w_heap w ++ hn /\
                Forall (fun y => is_future y = false) its /\
                covers_any (R:=R) CT (length (w_heap w)) hn its));
      [| |exact Hitems].
    - intros x its0 w0 y w4 _ (hn & Hh0 & Hnf & Hcov) Hy. cbn beta in *.
      destruct (Hrec _ _ _ _ _ Hy) as (hnew & Hh4 & Hfy & Hcy).
      exists (hn ++ hnew). split; [rewrite Hh4, Hh0; now rewrite app_assoc|].
      split; [apply Forall_app; split; [exact Hnf|now constructor]|].
      intros fuel W Hag i c fv Hi Hfv Hfut.
      destruct (decide (i < length hn)%nat) as [Hlt|Hge].
      + rewrite lookup_app_l in Hi by exact Hlt.
        destruct (Hcov fuel W (agrees_at_app_l _ _ _ _ Hag) i c fv Hi Hfv Hfut)
          as (el & Hel & Hfound).
        exists el. split; [apply elem_of_app; now left|exact Hfound].
      + rewrite lookup_app_r in Hi by lia.
        exists y. split; [apply elem_of_app; right; left|].
        intros fs W' Hfs. apply agrees_at_app_r in Hag.
        rewrite Hh0, length_app in Hcy.
        exact (Hcy fuel W W' fs Hag Hfs _ c fv Hi Hfv Hfut).
    - exists []. rewrite Hh1, app_nil_r. split; [reflexivity|]. split; [constructor|].
      intros fuel W _ i c fv Hi. discriminate. }
  cbn [app] in Hinv. destruct Hinv as (hn & Hh2 & Hnf & Hcov).
  exists (hn ++ [CList items]). split; [rewrite Hh2; now rewrite app_assoc|].
  split; [reflexivity|].
  intros fuel W W' fs Hag Hrun i c fv Hi Hfv Hfut.
  assert (Hl : w_heap W !! length (w_heap w2) = Some (CList items)).
  { rewrite Hh2, length_app. apply Hag. rewrite lookup_app_r by lia.
    now rewrite Nat.sub_diag. }
  destruct (decide (i < length hn)%nat) as [Hlt|Hge].
  - rewrite lookup_app_l in Hi by exact Hlt.
    destruct fuel as [|fuel]; [discriminate|]. cbn [extract_futures] in Hrun.
    unfold extract_futures_body in Hrun. apply mbind_ret in Hrun as (c0 & w4 & Hc0 & Hrun).
    apply read_ret in Hc0 as [-> Hc0]. rewrite Hl in Hc0. injection Hc0 as <-.
    destruct (extract_items_found CT fuel items _ _ _ _ Hrun) as [_ Hfound].
    destruct (Hcov fuel W (agrees_at_app_l _ _ _ _ Hag) i c fv Hi Hfv Hfut)
      as (el & Hel & Hel').
    rewrite Forall_forall in Hnf.
    destruct (Hfound el Hel (Hnf el Hel)) as (fs_el & Hfs_el & Hsub).
    apply Hsub. eapply Hel'. exact Hfs_el.
  - rewrite lookup_app_r in Hi by lia. apply lookup_singleton_inv in Hi as [_ ->].
    cbn [cell_vals] in Hfv. rewrite Forall_forall in Hnf. rewrite (Hnf fv Hfv) in Hfut.
    discriminate.
Qed.

Lemma covers_same (w w' : world R) v :
  w_heap w' = w_heap w -> is_future v = false ->
  exists hnew, w_heap w' = w_heap w ++ hnew /\ is_future v = false /\
               covers (R:=R) CT (length (w_heap w)) hnew v.
Proof.
  intros Hh Hv. exists []. split; [now rewrite app_nil_r|]. split; [exact Hv|apply covers_nil].
Qed.

Lemma expand_node_covers fuel :
  forall d sym argn ctx (w w' : world R) v,
    expand_node CT generate fuel g d sym argn ctx w = (Ret v, w') ->
    exists hnew, w_heap w' = w_heap w ++ hnew /\ is_future v = false /\
                 covers (R:=R) CT (length (w_heap w)) hnew v.
Proof.
  induction fuel as [|fuel IH]; intros d sym argn ctx w w' v; cbn [expand_node];
    (destruct (d <? 0) eqn:Hd0; [discriminate|]);
    intros Hrun; apply mbind_ret in Hrun as (dd & w1 & Hdd & Hrun);
    unfold mlift in Hdd; injection Hdd as Hdd <-;
    (destruct (d <? dd) eqn:Hdd0; [discriminate|]);
    [discriminate|].
  assert (Hnormal :
    (if negb (set_mem sym (all_nodes g))
     then mraise (GeneticEngineError (SymbolNotInGrammar sym))
     else
       match dict_get (alternatives g) sym with
       | Some compatible_productions =>
           mbind (mlift (filter_choices g compatible_productions d))
             (fun valid_productions =>
                match valid_productions with
                | [] => mraise (GeneticEngineError (NoProductions sym d))
                | _ => mbind (choose_rule valid_productions)
                         (fun rule => expand_node CT generate fuel g d rule "" [])
                end)
       | None => expand_production CT d sym
       end) w = (Ret v, w') ->
    exists hnew, w_heap w' = w_heap w ++ hnew /\ is_future v = false /\
                 covers (R:=R) CT (length (w_heap w)) hnew v).
  { destruct (negb _); [discriminate|].
    destruct (dict_get (alternatives g) sym) as [prods|].
    - intros Hr. apply mbind_ret in Hr as (valid & w2 & Hvalid & Hr).
      unfold mlift in Hvalid. injection Hvalid as Hvalid <-.
      destruct valid as [|v0 valid]; [discriminate|].
      apply mbind_ret in Hr as (rule & w3 & Hrule & Hr).
      apply choose_rule_ret in Hrule as [_ Hh3].
      rewrite <- Hh3. exact (IH d rule "" [] w3 w' v Hr).
    - apply expand_production_covers. }
  destruct sym; try exact (Hnormal Hrun); cbn [expand_symbol] in Hrun.
  - unfold random_int in Hrun. apply mbind_ret in Hrun as (z & w2 & Hz & Hret).
    apply randint_ret in Hz as [Hh _]. injection Hret as <- <-. now apply covers_same.
  - unfold random_float in Hrun. apply mbind_ret in Hrun as (q & w2 & Hq & Hret).
    apply random_float_between_ret in Hq as [Hh _]. injection Hret as <- <-.
    now apply covers_same.
  - eapply random_list_covers; [|exact Hrun].
    intros d' t' w0 w2 y Hy. exact (IH d' t' "" [] w0 w2 y Hy).
  - unfold apply_metahandler in Hrun.
    destruct (generate m g d _ argn ctx (w_rng w)) as [[s| |] r]; try discriminate.
    injection Hrun as <- <-. apply covers_same; [reflexivity|now destruct s].
Qed.
End Covers.

Lemma dict_set_elem {V : Type} (d : list (string * V)) k v k' x :
  NoDup (map fst d) -> (k', x) ∈ dict_set d k v ->
  (k' = k /\ x = v) \/ ((k', x) ∈ d /\ k' <> k).
Proof.
  induction d as [|[k0 v0] d IH]; cbn [map dict_set fst]; intros Hnd Hin.
  - apply list_elem_of_singleton in Hin. injection Hin as -> ->. now left.
  - apply NoDup_cons in Hnd as [Hk0 Hnd]. destruct (decide (k = k0)) as [->|Hne].
    + apply elem_of_cons in Hin as [Hin|Hin]; [injection Hin as -> ->; now left|].
      right. split; [now right|]. intros ->. apply Hk0. apply list_elem_of_fmap.
      now exists (k0, x).
    + apply elem_of_cons in Hin as [Hin|Hin].
      * injection Hin as -> ->. right. split; [left|congruence].
      * destruct (IH Hnd Hin) as [Hl|[Hr Hr']]; [now left|]. right. split; [now right|exact Hr'].
Qed.

Lemma elem_of_delete_ne {A : Type} (l : list A) i x y :
  l !! i = Some y -> x ∈ l -> x <> y -> x ∈ delete i l.
Proof.
  revert i. induction l as [|a l IH]; intros i Hi Hx Hne; [now apply elem_of_nil in Hx|].
  destruct i as [|i]; cbn in *.
  - injection Hi as ->. apply elem_of_cons in Hx as [->|Hx]; [contradiction|exact Hx].
  - apply elem_of_cons in Hx as [->|Hx]; [left|right; now apply IH].
Qed.

Section Queued.
Context {R : Type} `{Source R}.
Variable CT : class_table.
Variable generate :
  metahandler -> Grammar -> Z -> ty -> string -> list (string * ty) -> R -> outcome scalar * R.
Variable g : Grammar.
Hypothesis Hdf : distinct_fields CT.

Lemma nonneg_lo : forall (t : ty) (dd d : Z),
  get_distance_to_terminal g t = Ret dd -> is_builtin t = false -> 0 <= d -> dd <= d -> 0 <= d.
Proof. intros. assumption. Qed.

(** [extract_futures] returns futures only. *)
Lemma extract_futures_futures fuel :
  forall v (w w' : world R) fs,
    extract_futures CT fuel v w = (Ret fs, w') -> Forall (fun f => is_future f = true) fs.
Proof.
  induction fuel as [|fuel IH]; intros v w w' fs; cbn [extract_futures]; [discriminate|].
  unfold extract_futures_body. destruct v; try (intros [= <- <-]; constructor).
  intros Hrun. apply mbind_ret in Hrun as (c & w1 & Hc & Hrun).
  destruct c as [cls fields lab|items].
  - eapply (mfold_ret _ (fun acc _ => Forall (fun f => is_future f = true) acc));
      [|constructor|exact Hrun].
    intros acc a w0 acc' w2 _ Hacc Hstep. cbn beta in *.
    apply mbind_ret in Hstep as (v & w3 & Hv & Hstep).
    destruct v; injection Hstep as <- <-; try exact Hacc.
    apply Forall_app. split; [exact Hacc|]. now constructor.
  - eapply (mfold_ret _ (fun acc _ => Forall (fun f => is_future f = true) acc));
      [|constructor|exact Hrun].
    intros acc el w0 acc' w2 _ Hacc Hstep. cbn beta in *.
    destruct el;
      try (apply mbind_ret in Hstep as (fs0 & w3 & Hfs0 & Hstep); apply IH in Hfs0;
           injection Hstep as <- <-; apply Forall_app; now split).
    injection Hstep as <- <-. apply Forall_app. split; [exact Hacc|]. now constructor.
Qed.

(** A future held by the heap names its owner and its field. *)
Lemma held_future (bud : nat -> Z) h p c fv :
  heap_ok CT 0 bud h -> h !! p = Some c -> fv ∈ cell_vals c -> is_future fv = true ->
  exists cls fields lab nm d argt argn ctx,
    c = CObj cls fields lab /\ fv = VFuture p nm d argt argn ctx /\ (nm, fv) ∈ fields.
Proof.
  intros Hok Hp Hfv Hfut. specialize (Hok p c Hp). destruct c as [cls fields lab|items];
    cbn [cell_ok cell_vals] in *.
  - destruct Hok as (_ & _ & _ & _ & _ & Hf). rewrite Forall_forall in Hf.
    apply list_elem_of_fmap in Hfv as ([nm fv'] & -> & Hin). specialize (Hf _ Hin).
    unfold field_ok in Hf. cbn [snd fst] in *. destruct fv'; try discriminate.
    destruct Hf as (-> & -> & ->). now exists cls, fields, lab, nm, (bud p - 1), argt, argn, context.
  - destruct Hok as [_ Hi]. rewrite Forall_forall in Hi. specialize (Hi fv Hfv).
    destruct fv; try discriminate. contradiction.
Qed.

(** One round of the loop keeps every future of the heap in the queue. *)
Lemma PI_Grow_step_queued fuel (bud : nat -> Z) queue (w w' : world R) queue' :
  heap_ok CT 0 bud (w_heap w) -> uniq (w_heap w) ->
  Forall (fut_ok bud (w_heap w)) queue ->
  Forall (fun f => is_future f = true) queue ->
  all_queued (w_heap w) queue ->
  PI_Grow_step CT generate fuel g queue w = (Ret queue', w') ->
  Forall (fun f => is_future f = true) queue' /\ all_queued (w_heap w') queue'.
Proof.
  intros Hok Hu Hq Hqf Hall. unfold PI_Grow_step. intros Hrun.
  apply mbind_ret in Hrun as (index & w1 & Hidx & Hrun). apply randint_ret in Hidx as [Hh1 _].
  destruct (queue !! Z.to_nat index) as [future|] eqn:Hfut; [|discriminate]. cbn zeta in Hrun.
  apply mbind_ret in Hrun as (obj & w2 & Hobj & Hrun).
  apply mbind_ret in Hrun as (futures & w3 & Hfs & Hrun). injection Hrun as <- <-.
  assert (Hfuture : fut_ok bud (w_heap w) future).
  { rewrite Forall_forall in Hq. apply Hq. eapply list_elem_of_lookup_2. exact Hfut. }
  assert (Hisf : is_future future = true).
  { rewrite Forall_forall in Hqf. apply Hqf. eapply list_elem_of_lookup_2. exact Hfut. }
  split.
  { apply Forall_app. split; [now apply Forall_delete|].
    eapply extract_futures_futures. exact Hfs. }
  destruct future as [| | | |l|parent name d argt argn ctx]; try discriminate.
  apply mbind_ret in Hobj as (obj' & w4 & Hexp & Hobj).
  apply mbind_ret in Hobj as ([] & w5 & Hset & Hobj). injection Hobj as <- <-.
  rewrite <- Hh1 in Hok, Hu, Hfuture, Hall.
  destruct (expand_node_built CT generate 0 g nonneg_lo fuel d argt argn ctx bud w1 w4 obj'
              Hok Hu Hexp) as (bud1 & Hag & [Hlen He] & Hok1 & Hu1 & Hnew & Hb & Hroot).
  destruct (expand_node_covers CT generate g Hdf fuel d argt argn ctx w1 w4 obj' Hexp)
    as (hnew & Hh4 & Hnf & Hcov).
  cbn [fut_ok] in Hfuture. destruct Hfuture as (cls & fields & lab & Hpar & Hname & ->).
  assert (Hplt := lookup_lt_Some _ _ _ Hpar).
  apply setattr_ret in Hset as (cls' & fields' & lab' & Hpar' & ->).
  rewrite He, Hpar in Hpar' by exact Hplt. injection Hpar' as <- <- <-.
  pose proof (extract_futures_pure CT fuel _ _ _ _ Hfs) as ->.
  cbn [with_heap w_heap] in *.
  intros p c fv Hp Hfv Hisfv.
  assert (Hnd : NoDup (map fst fields)).
  { specialize (Hok parent _ Hpar). cbn [cell_ok] in Hok.
    destruct Hok as (_ & _ & _ & _ & -> & _). apply Hdf. }
  destruct (decide (p = parent)) as [->|Hne].
  - rewrite list_lookup_insert_eq in Hp by lia. injection Hp as <-.
    cbn [cell_vals] in Hfv. apply list_elem_of_fmap in Hfv as ([nm fv'] & -> & Hin).
    cbn [snd] in *. apply (dict_set_elem _ _ _ _ _ Hnd) in Hin as [[-> ->]|[Hin Hnm]].
    { rewrite Hnf in Hisfv. discriminate. }
    apply elem_of_app. left.
    assert (Hfv : fv' ∈ cell_vals (CObj cls fields lab)).
    { cbn [cell_vals]. apply list_elem_of_fmap. now exists (nm, fv'). }
    apply (elem_of_delete_ne _ _ _ _ Hfut); [exact (Hall _ _ _ Hpar Hfv Hisfv)|].
    destruct (held_future bud _ _ _ _ Hok Hpar Hfv Hisfv)
      as (cls0 & fields0 & lab0 & nm0 & d0 & argt0 & argn0 & ctx0 & Hc0 & -> & Hin0).
    injection Hc0 as <- <- <-. intros Heq. assert (Hnm0 : nm0 = name) by congruence.
    specialize (Hok parent _ Hpar). cbn [cell_ok] in Hok.
    destruct Hok as (_ & _ & _ & _ & _ & Hf). rewrite Forall_forall in Hf.
    specialize (Hf _ Hin). unfold field_ok in Hf. cbn [snd fst] in Hf.
    destruct Hf as (_ & Hnm1 & _). congruence.
  - rewrite list_lookup_insert_ne in Hp by congruence.
    destruct (decide (p < length (w_heap w1))%nat) as [Hlt|Hge].
    + rewrite He in Hp by exact Hlt. apply elem_of_app. left.
      apply (elem_of_delete_ne _ _ _ _ Hfut); [exact (Hall _ _ _ Hp Hfv Hisfv)|].
      destruct (held_future bud _ _ _ _ Hok Hp Hfv Hisfv)
        as (cls0 & fields0 & lab0 & nm0 & d0 & argt0 & argn0 & ctx0 & _ & -> & _).
      congruence.
    + apply elem_of_app. right. rewrite Hh4 in Hp. rewrite lookup_app_r in Hp by lia.
      refine (Hcov fuel _ _ futures _ Hfs _ _ _ Hp Hfv Hisfv).
      intros i c0 Hi. cbn [with_heap w_heap]. rewrite list_lookup_insert_ne by lia.
      rewrite Hh4. rewrite lookup_app_r by lia.
      now replace (length (w_heap w1) + i - length (w_heap w1))%nat with i by lia.
Qed.

Lemma PI_Grow_loop_queued steps fuel :
  forall (bud : nat -> Z) queue (w w' : world R),
    heap_ok CT 0 bud (w_heap w) -> uniq (w_heap w) ->
    Forall (fut_ok bud (w_heap w)) queue ->
    Forall (fun f => is_future f = true) queue ->
    all_queued (w_heap w) queue ->
    PI_Grow_loop CT generate steps fuel g queue w = (Ret tt, w') ->
    all_queued (w_heap w') [].
Proof.
  induction steps as [|steps IH]; intros bud queue w w' Hok Hu Hq Hqf Hall Hrun;
    destruct queue as [|q0 queue]; cbn [PI_Grow_loop] in Hrun; try discriminate;
    try (injection Hrun as <-; exact Hall).
  apply mbind_ret in Hrun as (queue' & w1 & Hstep & Hrun).
  destruct (PI_Grow_step_built CT generate 0 g nonneg_lo fuel bud _ _ _ _ Hok Hu Hq Hstep)
    as (bud1 & Hag1 & Hlen1 & Hok1 & Hu1 & Hq1).
  destruct (PI_Grow_step_queued fuel bud _ _ _ _ Hok Hu Hq Hqf Hall Hstep) as [Hqf1 Hall1].
  exact (IH bud1 queue' w1 w' Hok1 Hu1 Hq1 Hqf1 Hall1 Hrun).
Qed.
End Queued.

(** * Complete trees under edits *)

Lemma tree_of_mono h k : forall k' v t,
  tree_of k h v = Some t -> (k <= k')%nat -> tree_of k' h v = Some t.
Proof.
  induction k as [|k IH]; intros k' v t Ht Hle.
  - destruct v; try discriminate; destruct k'; exact Ht.
  - destruct k' as [|k']; [lia|]. destruct v; try exact Ht. cbn [tree_of] in *.
    destruct (h !! l) as [[cls fields lab|items]|]; [| |discriminate].
    + destruct (omap_list _ fields) as [fs|] eqn:Ef; [|discriminate].
      erewrite omap_list_ext; [exact Ht| |exact Ef].
      intros f y _ Hy. cbn beta in *.
      destruct (tree_of k h (snd f)) as [t'|] eqn:Et; [|discriminate].
      now rewrite (IH k' _ _ Et) by lia.
    + destruct (omap_list _ items) as [ts|] eqn:Ei; [|discriminate].
      erewrite omap_list_ext; [exact Ht| |exact Ei].
      intros x y _ Hy. apply (IH k'); [exact Hy|lia].
Qed.

Section SoundFacts.
Variable CT : class_table.

(** Reading one cell. *)
Lemma tree_of_cell k h l t :
  tree_of (S k) h (VRef l) = Some t -> wf_tree CT t = true ->
  exists c, h !! l = Some c /\ names_ok CT c /\
    forall u, u ∈ cell_vals c -> exists tu, tree_of k h u = Some tu /\ wf_tree CT tu = true.
Proof.
  cbn [tree_of]. destruct (h !! l) as [[cls fields lab|items]|]; [| |discriminate].
  - destruct (omap_list _ fields) as [fs|] eqn:Ef; [|discriminate]. intros [= <-] Hwf.
    apply wf_tree_fields in Hwf as [Hn Hwf]. apply tree_of_fields in Ef.
    eexists. split; [reflexivity|]. split.
    + cbn [names_ok]. rewrite <- Hn. clear -Ef.
      induction Ef as [|f ft fields fs [Hf _] _ IH]; [reflexivity|]. cbn [map]. now rewrite Hf, IH.
    + intros u Hu. cbn [cell_vals] in Hu. apply list_elem_of_fmap in Hu as (f & -> & Hin).
      apply list_elem_of_lookup in Hin as [i Hi].
      destruct (Forall2_lookup_l _ _ _ _ _ Ef Hi) as (ft & Hft & _ & Ht).
      exists (snd ft). split; [exact Ht|]. rewrite Forall_forall in Hwf. apply Hwf.
      eapply list_elem_of_lookup_2. exact Hft.
  - destruct (omap_list _ items) as [ts|] eqn:Ei; [|discriminate]. intros [= <-] Hwf.
    apply wf_tree_items in Hwf. apply omap_list_Forall2 in Ei.
    eexists. split; [reflexivity|]. split; [exact I|].
    intros u Hu. cbn [cell_vals] in Hu. apply list_elem_of_lookup in Hu as [i Hi].
    destruct (Forall2_lookup_l _ _ _ _ _ Ei Hi) as (tu & Htu & Ht).
    exists tu. split; [exact Ht|]. rewrite Forall_forall in Hwf. apply Hwf.
    eapply list_elem_of_lookup_2. exact Htu.
Qed.

Lemma omap_list_build {A B : Type} (f : A -> option B) (P : B -> Prop) (l : list A) :
  (forall x, x ∈ l -> exists y, f x = Some y /\ P y) ->
  exists ys, omap_list f l = Some ys /\ Forall P ys.
Proof.
  induction l as [|x l IH]; intros Hl; [exists []; split; [reflexivity|constructor]|].
  destruct (Hl x) as (y & Hy & Py); [left|].
  destruct IH as (ys & Hys & Pys); [intros x' Hx'; apply Hl; now right|].
  exists (y :: ys). cbn [omap_list]. rewrite Hy, Hys. split; [reflexivity|now constructor].
Qed.

(** Building the tree of one cell from the trees of its values. *)
Lemma tree_of_build k h l c :
  h !! l = Some c -> names_ok CT c ->
  (forall u, u ∈ cell_vals c -> exists tu, tree_of k h u = Some tu /\ wf_tree CT tu = true) ->
  exists t, tree_of (S k) h (VRef l) = Some t /\ wf_tree CT t = true.
Proof.
  intros Hl Hn Hkids. cbn [tree_of]. rewrite Hl. destruct c as [cls fields lab|items].
  - destruct (omap_list_build
                (fun f : string * value =>
                   match tree_of k h (snd f) with
                   | Some t => Some (fst f, t)
                   | None => None
                   end)
                (fun ft : string * tree => wf_tree CT (snd ft) = true) fields)
      as (fs & Hfs & Hwf).
    { intros f Hf. destruct (Hkids (snd f)) as (tu & Htu & Hw).
      { cbn [cell_vals]. apply list_elem_of_fmap. now exists f. }
      exists (fst f, tu). rewrite Htu. now split. }
    rewrite Hfs. eexists. split; [reflexivity|]. cbn [wf_tree].
    apply andb_true_iff. split.
    + apply bool_decide_eq_true. cbn [names_ok] in Hn. rewrite <- Hn.
      apply tree_of_fields in Hfs. clear -Hfs.
      induction Hfs as [|f ft fields fs [Hf _] _ IH]; [reflexivity|]. cbn [map]. now rewrite Hf, IH.
    + apply forallb_forall. apply List.Forall_forall. exact Hwf.
  - destruct (omap_list_build (tree_of k h) (fun t => wf_tree CT t = true) items)
      as (ts & Hts & Hwf).
    { intros u Hu. exact (Hkids u Hu). }
    rewrite Hts. eexists. split; [reflexivity|]. cbn [wf_tree].
    apply forallb_forall. apply List.Forall_forall. exact Hwf.
Qed.

Lemma sound_lookup h l : sound CT h (VRef l) -> exists c, h !! l = Some c /\ names_ok CT c.
Proof.
  intros (k & t & Ht & Hwf). destruct k as [|k]; [discriminate|].
  destruct (tree_of_cell k h l t Ht Hwf) as (c & Hc & Hn & _). now exists c.
Qed.

Lemma sound_child h l c u :
  sound CT h (VRef l) -> h !! l = Some c -> u ∈ cell_vals c -> sound CT h u.
Proof.
  intros (k & t & Ht & Hwf) Hl Hu. destruct k as [|k]; [discriminate|].
  destruct (tree_of_cell k h l t Ht Hwf) as (c' & Hc' & _ & Hkids).
  rewrite Hl in Hc'. injection Hc' as <-. destruct (Hkids u Hu) as (tu & Htu & Hw).
  now exists k, tu.
Qed.

Lemma sound_not_future h v : sound CT h v -> is_future v = false.
Proof.
  intros (k & t & Ht & Hwf). destruct v; try reflexivity.
  destruct k; cbn [tree_of] in Ht; injection Ht as <-; discriminate.
Qed.

Lemma sound_reach h v x : sound CT h v -> reach h v x -> sound CT h (VRef x).
Proof.
  intros Hs Hr. induction Hr as [l|v y c x _ IH Hy Hx]; [exact Hs|].
  eapply sound_child; [apply IH; exact Hs|exact Hy|exact Hx].
Qed.

Lemma sound_reach_lt h v x : sound CT h v -> reach h v x -> (x < length h)%nat.
Proof.
  intros Hs Hr. destruct (sound_lookup h x (sound_reach h v x Hs Hr)) as (c & Hc & _).
  eapply lookup_lt_Some. exact Hc.
Qed.

Lemma readable_reach h k v x :
  is_Some (tree_of k h v) -> reach h v x -> is_Some (tree_of k h (VRef x)).
Proof.
  intros Hs Hr. induction Hr as [l|v y c x _ IH Hy Hx]; [exact Hs|].
  specialize (IH Hs). destruct IH as [t Ht]. destruct k as [|k]; [discriminate|].
  cbn [tree_of] in Ht. rewrite Hy in Ht.
  assert (Hx' : is_Some (tree_of k h (VRef x))).
  { destruct c as [cls fields lab|items]; cbn [cell_vals] in Hx.
    - destruct (omap_list _ fields) as [fs|] eqn:Ef; [|discriminate].
      apply tree_of_fields in Ef. apply list_elem_of_fmap in Hx as (f & Hf & Hin).
      apply list_elem_of_lookup in Hin as [i Hi].
      destruct (Forall2_lookup_l _ _ _ _ _ Ef Hi) as (ft & _ & _ & Hft).
      rewrite <- Hf in Hft. eexists. exact Hft.
    - destruct (omap_list _ items) as [ts|] eqn:Ei; [|discriminate].
      apply omap_list_Forall2 in Ei. apply list_elem_of_lookup in Hx as [i Hi].
      destruct (Forall2_lookup_l _ _ _ _ _ Ei Hi) as (tu & _ & Htu). eexists. exact Htu. }
  destruct Hx' as [tx Htx]. exists tx. apply (tree_of_mono h k); [exact Htx|lia].
Qed.

(** A readable structure has no cycle. *)
Lemma readable_acyclic h k : forall l c u,
  is_Some (tree_of k h (VRef l)) -> h !! l = Some c -> u ∈ cell_vals c -> reach h u l -> False.
Proof.
  induction k as [|k IH]; intros l c u [t Ht] Hl Hu Hr; [discriminate|].
  assert (Hk : is_Some (tree_of k h u)).
  { cbn [tree_of] in Ht. rewrite Hl in Ht.
    destruct c as [cls fields lab|items]; cbn [cell_vals] in Hu.
    - destruct (omap_list _ fields) as [fs|] eqn:Ef; [|discriminate].
      apply tree_of_fields in Ef. apply list_elem_of_fmap in Hu as (f & Hf & Hin).
      apply list_elem_of_lookup in Hin as [i Hi].
      destruct (Forall2_lookup_l _ _ _ _ _ Ef Hi) as (ft & _ & _ & Hft).
      rewrite <- Hf in Hft. eexists. exact Hft.
    - destruct (omap_list _ items) as [ts|] eqn:Ei; [|discriminate].
      apply omap_list_Forall2 in Ei. apply list_elem_of_lookup in Hu as [i Hi].
      destruct (Forall2_lookup_l _ _ _ _ _ Ei Hi) as (tu & _ & Htu). eexists. exact Htu. }
  exact (IH l c u (readable_reach h k u l Hk Hr) Hl Hu Hr).
Qed.

Lemma sound_acyclic h l c u :
  sound CT h (VRef l) -> h !! l = Some c -> u ∈ cell_vals c -> ~ reach h u l.
Proof.
  intros (k & t & Ht & _) Hl Hu Hr. eapply (readable_acyclic h k); [|exact Hl|exact Hu|exact Hr].
  eexists. exact Ht.
Qed.

Lemma keeps_refl h : keeps CT h h.
Proof. intros u Hu. exact Hu. Qed.

Lemma keeps_trans h1 h2 h3 : keeps CT h1 h2 -> keeps CT h2 h3 -> keeps CT h1 h3.
Proof. intros H1 H2 u Hu. apply H2, H1, Hu. Qed.

Lemma keeps_extends h h' : extends h h' -> keeps CT h h'.
Proof.
  intros He u (k & t & Ht & Hwf). exists k, t. split; [|exact Hwf].
  eapply tree_of_extends; eassumption.
Qed.

Lemma reach_extends h h' u a :
  extends h h' -> sound CT h u -> reach h' u a -> reach h u a.
Proof.
  intros [_ He] Hs Hr. induction Hr as [l|v y c x _ IH Hy Hx]; [apply reach_here|].
  specialize (IH Hs). pose proof (sound_reach_lt h v y Hs IH) as Hlt.
  rewrite He in Hy by exact Hlt. eapply reach_step; eassumption.
Qed.

Lemma sound_same_shape h h' v : same_shape h h' -> sound CT h v -> sound CT h' v.
Proof.
  intros Hs (k & t & Ht & Hwf). pose proof (tree_of_same_shape h h' k v Hs) as He.
  rewrite Ht in He. destruct (tree_of k h' v) as [t'|] eqn:Ht'; [|discriminate].
  exists k, t'. split; [exact Ht'|]. cbn [option_map] in He. injection He as He.
  eapply wf_tree_same_erase; [symmetry; exact He|exact Hwf].
Qed.

Lemma dict_set_elem_weak {V : Type} (d : list (string * V)) k v k' x :
  (k', x) ∈ dict_set d k v -> (k' = k /\ x = v) \/ (k', x) ∈ d.
Proof.
  induction d as [|[k0 v0] d IH]; cbn [dict_set]; intros Hin.
  - apply list_elem_of_singleton in Hin. injection Hin as -> ->. now left.
  - destruct (decide (k = k0)) as [->|Hne].
    + apply elem_of_cons in Hin as [Hin|Hin]; [injection Hin as -> ->; now left|].
      right. now right.
    + apply elem_of_cons in Hin as [Hin|Hin]; [right; rewrite Hin; left|].
      destruct (IH Hin) as [Hl|Hr]; [now left|right; now right].
Qed.

(** Met locations after one cell has been replaced. *)
Lemma reach_insert h l c1 c2 n u a :
  h !! l = Some c1 ->
  (forall x, VRef x ∈ cell_vals c2 -> VRef x ∈ cell_vals c1 \/ VRef x = n) ->
  reach (<[l := c2]> h) u a -> reach h u a \/ reach h n a.
Proof.
  intros Hl Hc Hr. induction Hr as [l0|v y c x _ IH Hy Hx]; [left; apply reach_here|].
  destruct (decide (y = l)) as [->|Hne].
  - rewrite list_lookup_insert_eq in Hy by (eapply lookup_lt_Some; exact Hl).
    injection Hy as <-. destruct (Hc x Hx) as [Hold|Hnew].
    + destruct IH as [IH|IH]; [left|right]; eapply reach_step; eassumption.
    + right. rewrite <- Hnew. apply reach_here.
  - rewrite list_lookup_insert_ne in Hy by congruence.
    destruct IH as [IH|IH]; [left|right]; eapply reach_step; eassumption.
Qed.

(** A store of a complete tree [n] in a field of [l] keeps every complete
    tree complete, as long as [l] is not met from [n]. *)
Lemma setattr_sound h l cls fields lab name n :
  h !! l = Some (CObj cls fields lab) -> name ∈ map fst fields ->
  sound CT h n -> ~ reach h n l ->
  keeps CT h (<[l := CObj cls (dict_set fields name n) lab]> h).
Proof.
  intros Hl Hname (kn & tn & Htn & Hwn) Hnr.
  set (h2 := <[l := CObj cls (dict_set fields name n) lab]> h).
  assert (Hn2 : tree_of kn h2 n = Some tn).
  { rewrite <- Htn. apply tree_of_agree. intros x Hx. unfold h2.
    apply list_lookup_insert_ne. intros ->. contradiction. }
  assert (Hall : forall ku u tu, tree_of ku h u = Some tu -> wf_tree CT tu = true ->
            exists t', tree_of (ku + kn) h2 u = Some t' /\ wf_tree CT t' = true).
  { induction ku as [|ku IH]; intros u tu Hu Hwu.
    - destruct u; try discriminate; exists tu; (split; [|exact Hwu]);
        destruct (0 + kn)%nat; exact Hu.
    - destruct u; try (exists tu; split; [exact Hu|exact Hwu]).
      destruct (tree_of_cell ku h l0 tu Hu Hwu) as (c & Hc & Hnm & Hkids).
      change (S ku + kn)%nat with (S (ku + kn)).
      destruct (decide (l0 = l)) as [->|Hne].
      + rewrite Hl in Hc. injection Hc as <-.
        apply (tree_of_build (ku + kn) h2 l (CObj cls (dict_set fields name n) lab)).
        * unfold h2. apply list_lookup_insert_eq. eapply lookup_lt_Some. exact Hl.
        * cbn [names_ok] in *. now rewrite dict_set_keys.
        * intros u Hu'. cbn [cell_vals] in Hu'.
          apply list_elem_of_fmap in Hu' as ([k' x] & -> & Hin). cbn [snd].
          apply dict_set_elem_weak in Hin as [[_ ->]|Hin].
          -- exists tn. split; [|exact Hwn]. apply (tree_of_mono h2 kn); [exact Hn2|lia].
          -- destruct (Hkids x) as (tx & Htx & Hwx).
             { cbn [cell_vals]. apply list_elem_of_fmap. now exists (k', x). }
             exact (IH x tx Htx Hwx).
      + apply (tree_of_build (ku + kn) h2 l0 c).
        * unfold h2. rewrite list_lookup_insert_ne by congruence. exact Hc.
        * exact Hnm.
        * intros u Hu'. destruct (Hkids u Hu') as (tx & Htx & Hwx). exact (IH u tx Htx Hwx). }
  intros u (ku & tu & Hu & Hwu). destruct (Hall ku u tu Hu Hwu) as (t' & Ht' & Hw').
  now exists (ku + kn)%nat, t'.
Qed.

Lemma reach_above n h v x : closed_above n h -> val_above n v -> reach h v x -> (n <= x)%nat.
Proof.
  intros Hc Hv Hr. induction Hr as [l|v y c x _ IH Hy Hx]; [exact Hv|].
  specialize (IH Hv). specialize (Hc y c IH Hy).
  destruct c as [cls fields lab|items]; cbn [cell_above cell_vals] in *.
  - apply list_elem_of_fmap in Hx as (f & Hf & Hin). rewrite Forall_forall in Hc.
    specialize (Hc f Hin). rewrite <- Hf in Hc. exact Hc.
  - rewrite Forall_forall in Hc. exact (Hc _ Hx).
Qed.
End SoundFacts.

(** * What the variation operators return *)

(** ** [relabel_nodes] changes metadata only *)

Section RelabelShape.
Context {R : Type} `{Source R}.
Variable CT : class_table.
Variable nts : list ty.

Lemma type_of_pure v (w w' : world R) t : type_of v w = (Ret t, w') -> w' = w.
Proof.
  destruct v; cbn [type_of]; try (now intros [= _ <-]).
  intros Ht. now apply type_of_ret in Ht as [-> _].
Qed.

Lemma children_of_pure i (w w' : world R) cs : children_of CT i w = (Ret cs, w') -> w' = w.
Proof.
  destruct i; cbn [children_of]; try (now intros [= _ <-]).
  intros Hc. apply mbind_ret in Hc as (c & w1 & Hr & Hc). apply read_ret in Hr as [-> _].
  destruct c as [cls fields lab|items]; [|now injection Hc as _ <-].
  eapply (mmap_ret _ (fun _ w0 => w0 = w)) with (pre := []); [|reflexivity|exact Hc].
  intros x ys0 w0 y w1 _ -> Hy. now apply getattr_ret in Hy as [-> _].
Qed.

Lemma store_label_shape i lb (w w' : world R) :
  store_label i lb w = (Ret tt, w') -> same_shape (w_heap w) (w_heap w').
Proof.
  destruct i; try (intros [= <-]; apply same_shape_refl).
  intros Hs. apply store_label_ret in Hs as (c & Hc & ->).
  destruct c as [cls fields lab|items]; [|apply same_shape_refl]. cbn [with_heap w_heap].
  eapply same_shape_insert; [apply same_shape_refl|exact Hc|reflexivity].
Qed.

Lemma relabel_nodes_shape fuel :
  forall i d (w w' : world R) r,
    relabel_nodes CT fuel nts i d w = (Ret r, w') -> same_shape (w_heap w) (w_heap w').
Proof.
  induction fuel as [|fuel IH]; intros i d w w' r; cbn [relabel_nodes]; [discriminate|].
  unfold relabel_body. intros Hrun. apply mbind_ret in Hrun as (t & w1 & Ht & Hrun).
  apply type_of_pure in Ht as ->. destruct (is_terminal CT t nts).
  - apply mbind_ret in Hrun as ([] & w2 & Hst & Hrun). injection Hrun as _ <-.
    destruct (negb (is_builtin t)); [now apply store_label_shape in Hst|].
    injection Hst as <-. apply same_shape_refl.
  - apply mbind_ret in Hrun as (cs & w2 & Hcs & Hrun). apply children_of_pure in Hcs as ->.
    destruct cs as [|c0 cs]; [discriminate|].
    apply mbind_ret in Hrun as (props & w3 & Hprops & Hrun). cbn zeta in Hrun.
    apply mbind_ret in Hrun as ([] & w4 & Hst & Hrun). injection Hrun as _ <-.
    eapply same_shape_trans; [|eapply store_label_shape; exact Hst].
    eapply (mmap_ret _ (fun _ w0 => same_shape (w_heap w) (w_heap w0))) with (pre := []);
      [|apply same_shape_refl|exact Hprops].
    intros x ys0 w0 y w5 _ Hs0 Hy. cbn beta in *.
    eapply same_shape_trans; [exact Hs0|]. eapply IH. exact Hy.
Qed.

Lemma relabel_nodes_of_trees_shape fuel i (w w' : world R) v :
  relabel_nodes_of_trees CT fuel i nts w = (Ret v, w') ->
  v = i /\ same_shape (w_heap w) (w_heap w').
Proof.
  unfold relabel_nodes_of_trees. intros Hrun. apply mbind_ret in Hrun as (r & w1 & Hr & Hrun).
  injection Hrun as <- <-. split; [reflexivity|]. eapply relabel_nodes_shape. exact Hr.
Qed.
End RelabelShape.

(** ** [PI_Grow] returns complete trees *)

Section SynthesisSound.
Context {R : Type} `{Source R}.
Variable CT : class_table.
Variable generate :
  metahandler -> Grammar -> Z -> ty -> string -> list (string * ty) -> R -> outcome scalar * R.
Hypothesis Hdf : distinct_fields CT.

(** In a heap without pending futures whose objects have the fields of
    their classes, whatever can be read is complete. *)
Lemma readable_wf h :
  (forall p c, h !! p = Some c -> names_ok CT c) -> all_queued h [] ->
  forall k v t, is_future v = false -> tree_of k h v = Some t -> wf_tree CT t = true.
Proof.
  intros Hn Hall. induction k as [|k IH]; intros v t Hv Ht.
  - destruct v; try discriminate; injection Ht as <-; reflexivity.
  - destruct v; try discriminate; try (injection Ht as <-; reflexivity).
    cbn [tree_of] in Ht. destruct (h !! l) as [c|] eqn:Hl; [|discriminate].
    assert (Hnf : forall u, u ∈ cell_vals c -> is_future u = false).
    { intros u Hu. destruct (is_future u) eqn:Hf; [|reflexivity].
      now apply (Hall l c u Hl Hu), elem_of_nil in Hf. }
    specialize (Hn l c Hl). destruct c as [cls fields lab|items]; cbn [cell_vals names_ok] in *.
    + destruct (omap_list _ fields) as [fs|] eqn:Ef; [|discriminate]. injection Ht as <-.
      apply tree_of_fields in Ef. cbn [wf_tree]. apply andb_true_iff. split.
      * apply bool_decide_eq_true. rewrite <- Hn. clear -Ef.
        induction Ef as [|f ft fields fs [Hf _] _ IHf]; [reflexivity|]. cbn [map].
        now rewrite Hf, IHf.
      * apply forallb_forall. intros ft Hft. apply list_elem_of_In in Hft.
        apply list_elem_of_lookup in Hft as [i Hi].
        destruct (Forall2_lookup_r _ _ _ _ _ Ef Hi) as (f & Hf & _ & Htf).
        apply (IH (snd f)); [|exact Htf]. apply Hnf. apply list_elem_of_fmap.
        exists f. split; [reflexivity|]. eapply list_elem_of_lookup_2. exact Hf.
    + destruct (omap_list _ items) as [ts|] eqn:Ei; [|discriminate]. injection Ht as <-.
      apply omap_list_Forall2 in Ei. cbn [wf_tree]. apply forallb_forall. intros tu Htu.
      apply list_elem_of_In in Htu. apply list_elem_of_lookup in Htu as [i Hi].
      destruct (Forall2_lookup_r _ _ _ _ _ Ei Hi) as (u & Hu & Htu).
      apply (IH u); [|exact Htu]. apply Hnf. eapply list_elem_of_lookup_2. exact Hu.
Qed.

Lemma heap_ok_names lo (bud : nat -> Z) h :
  heap_ok CT lo bud h -> forall p c, h !! p = Some c -> names_ok CT c.
Proof.
  intros Hok p c Hp. specialize (Hok p c Hp). destruct c as [cls fields lab|items]; [|exact I].
  cbn [cell_ok names_ok] in *. tauto.
Qed.

Lemma PI_Grow_empty_sound fuel g d sym (w0 w' : world R) v :
  w_heap w0 = [] ->
  PI_Grow CT generate fuel g d sym w0 = (Ret v, w') -> sound CT (w_heap w') v.
Proof.
  intros Hempty. unfold PI_Grow. intros Hrun.
  apply mbind_ret in Hrun as (root & w1 & Hroot & Hrun).
  apply mbind_ret in Hrun as ([] & w2 & Hloop & Hrun).
  apply relabel_nodes_of_trees_shape in Hrun as [-> Hs3].
  assert (Hok0 : heap_ok CT 0 (fun _ => 0) (w_heap w0)).
  { rewrite Hempty. intros p c Hp. discriminate. }
  assert (Hu0 : uniq (w_heap w0)).
  { rewrite Hempty. intros p q cp cq i j c Hp. discriminate. }
  destruct (expand_node_built CT generate 0 g (nonneg_lo g) fuel d sym "" [] _ w0 w1 root
              Hok0 Hu0 Hroot) as (bud1 & _ & _ & Hok1 & Hu1 & _ & _ & Hr1).
  destruct (expand_node_covers CT generate g Hdf fuel d sym "" [] w0 w1 root Hroot)
    as (hnew & Hh1 & Hnf & Hcov).
  rewrite Hempty in Hh1, Hcov. cbn [app length] in Hh1, Hcov.
  assert (Hq1 : Forall (fut_ok bud1 (w_heap w1)) [root]).
  { constructor; [|constructor]. destruct root; cbn [fut_ok root_ok] in *; tauto. }
  destruct (PI_Grow_loop_built CT generate 0 g (nonneg_lo g) fuel fuel bud1 [root] w1 w2
              Hok1 Hu1 Hq1 Hloop) as (bud2 & Hag2 & Hlen2 & Hok2 & Hu2).
  assert (Hall2 : all_queued (w_heap w2) []).
  { destruct fuel as [|steps]; [discriminate|]. cbn [PI_Grow_loop] in Hloop.
    apply mbind_ret in Hloop as (queue & w3 & Hstep & Hloop).
    destruct (PI_Grow_step_built CT generate 0 g (nonneg_lo g) (S steps) bud1 _ _ _ _
                Hok1 Hu1 Hq1 Hstep) as (bud3 & Hag3 & Hlen3 & Hok3 & Hu3 & Hq3).
    assert (Hfirst : Forall (fun f => is_future f = true) queue /\
                     all_queued (w_heap w3) queue).
    { unfold PI_Grow_step in Hstep.
      apply mbind_ret in Hstep as (index & w4 & Hidx & Hstep).
      apply randint_ret in Hidx as [Hh4 _].
      destruct ([root] !! Z.to_nat index) as [future|] eqn:Hfut; [|discriminate].
      cbn zeta in Hstep. apply lookup_singleton_inv in Hfut as [Hi0 ->].
      rewrite Hi0 in Hstep. cbn [delete] in Hstep.
      apply mbind_ret in Hstep as (obj & w5 & Hobj & Hstep).
      apply mbind_ret in Hstep as (futures & w6 & Hfs & Hstep). injection Hstep as <- <-.
      assert (Hobj' : obj = root /\ w5 = w4).
      { destruct root; try discriminate; now injection Hobj as <- <-. }
      destruct Hobj' as [-> ->].
      pose proof (extract_futures_pure CT (S steps) _ _ _ _ Hfs) as ->.
      split; [eapply extract_futures_futures; exact Hfs|].
      intros p c fv Hp Hfv Hisf. rewrite Hh4, Hh1 in Hp.
      refine (Hcov (S steps) _ _ futures _ Hfs p c fv Hp Hfv Hisf).
      intros i c0 Hi. rewrite Hh4, Hh1. exact Hi. }
    destruct Hfirst as [Hqf Hall].
    exact (PI_Grow_loop_queued CT generate g Hdf steps (S steps) bud3 queue w3 w2
             Hok3 Hu3 Hq3 Hqf Hall Hloop). }
  assert (Hread : exists k, is_Some (tree_of k (w_heap w2) root)).
  { destruct root as [| | | |l|]; try (exists 0%nat; now eexists).
    cbn [root_ok] in Hr1. destruct Hr1 as (Hlt & Hbl & _).
    exists (S (Z.to_nat (bud2 l))).
    apply (built_readable CT 0 bud2 (w_heap w2) Hok2). intros c [= <-]. split; [lia|].
    destruct (lookup_lt_is_Some_2 (w_heap w2) l ltac:(lia)) as [c Hc].
    pose proof (heap_ok_bud_nonneg CT 0 bud2 _ l c Hok2 Hc). lia. }
  destruct Hread as (k & t2 & Ht2).
  apply (sound_same_shape CT _ _ root Hs3). exists k, t2. split; [exact Ht2|].
  eapply readable_wf; [eapply heap_ok_names; exact Hok2|exact Hall2|exact Hnf|exact Ht2].
Qed.

(** Whatever [PI_Grow] returns is a complete tree. *)
Lemma PI_Grow_sound fuel g d sym (w w' : world R) v :
  PI_Grow CT generate fuel g d sym w = (Ret v, w') -> sound CT (w_heap w') v.
Proof.
  intros Hrun. rewrite (PI_Grow_from_empty CT generate fuel g d sym w) in Hrun.
  cbv zeta in Hrun.
  destruct (PI_Grow CT generate fuel g d sym
              {| w_heap := []; w_rng := w_rng w; w_gengy := w_gengy w |})
    as [[v0|e|] w0'] eqn:Hrun0; cbn [fst snd map_outcome] in Hrun; try discriminate.
  injection Hrun as <- <-.
  destruct (PI_Grow_empty_sound fuel g d sym
              {| w_heap := []; w_rng := w_rng w; w_gengy := w_gengy w |} w0' v0 eq_refl Hrun0)
    as (k & t & Ht & Hwf).
  exists k, t. split; [|exact Hwf]. cbn [lift_world w_heap]. now rewrite tree_of_lift.
Qed.
End SynthesisSound.

(** * More fuel changes no result *)

Section Grows.
Context {R : Type}.

Lemma grows_refl {A} (m : M R A) : grows m m.
Proof. intros w _. reflexivity. Qed.

Lemma grows_bind {A B} (m m' : M R A) (k k' : A -> M R B) :
  grows m m' -> (forall a, grows (k a) (k' a)) -> grows (mbind m k) (mbind m' k').
Proof.
  intros Hm Hk w Hnd. unfold mbind in *. destruct (m w) as [[a|e|] w1] eqn:E.
  - rewrite (Hm w) by (rewrite E; discriminate). rewrite E. now apply Hk.
  - rewrite (Hm w) by (rewrite E; discriminate). now rewrite E.
  - now contradiction Hnd.
Qed.

Lemma grows_try {A} (m m' h h' : M R A) :
  grows m m' -> grows h h' -> grows (try_except m h) (try_except m' h').
Proof.
  intros Hm Hh w Hnd. unfold try_except in *. destruct (m w) as [[a|e|] w1] eqn:E.
  - rewrite (Hm w) by (rewrite E; discriminate). now rewrite E.
  - rewrite (Hm w) by (rewrite E; discriminate). rewrite E. now apply Hh.
  - now contradiction Hnd.
Qed.

Lemma grows_mfold {A B} (f f' : A -> B -> M R A) (l : list B) :
  (forall a x, grows (f a x) (f' a x)) -> forall a, grows (mfold f l a) (mfold f' l a).
Proof.
  intros Hf. induction l as [|x l IH]; intros a; cbn [mfold]; [apply grows_refl|].
  apply grows_bind; [apply Hf|exact IH].
Qed.

Lemma grows_mmap {A B} (f f' : A -> M R B) (l : list A) :
  (forall x, grows (f x) (f' x)) -> grows (mmap f l) (mmap f' l).
Proof.
  intros Hf. induction l as [|x l IH]; cbn [mmap]; [apply grows_refl|].
  apply grows_bind; [apply Hf|]. intros y. apply grows_bind; [exact IH|].
  intros ys. apply grows_refl.
Qed.

Lemma grows_run {A} (m m' : M R A) (w w' : world R) a :
  grows m m' -> m w = (Ret a, w') -> m' w = (Ret a, w').
Proof. intros Hg Hm. rewrite (Hg w); [exact Hm|]. rewrite Hm. discriminate. Qed.
End Grows.

Ltac grows_auto :=
  repeat first
    [ assumption
    | apply grows_refl
    | apply grows_bind; [|intros ?]
    | apply grows_try
    | apply grows_mfold; intros ? ?
    | apply grows_mmap; intros ?
    | match goal with
      | |- grows (match ?x with _ => _ end) _ => destruct x
      | |- grows (if ?b then _ else _) _ => destruct b
      end ].

Section FuelSynthesis.
Context {R : Type} `{Source R}.
Variable CT : class_table.
Variable generate :
  metahandler -> Grammar -> Z -> ty -> string -> list (string * ty) -> R -> outcome scalar * R.

Lemma expand_symbol_grows (rec rec' : Z -> ty -> M R value) g d sym argn ctx :
  (forall d' t', grows (rec d' t') (rec' d' t')) ->
  grows (expand_symbol CT generate rec g d sym argn ctx)
        (expand_symbol CT generate rec' g d sym argn ctx).
Proof.
  intros Hrec. unfold expand_symbol, random_list. cbn zeta.
  destruct sym; grows_auto; apply Hrec.
Qed.

Lemma expand_node_grows fuel : forall fuel' g d sym argn ctx,
  (fuel <= fuel')%nat ->
  grows (expand_node CT generate fuel g d sym argn ctx)
        (expand_node CT generate fuel' g d sym argn ctx).
Proof.
  induction fuel as [|fuel IH]; intros fuel' g d sym argn ctx Hle;
    destruct fuel' as [|fuel']; try lia; cbn [expand_node];
    (destruct (d <? 0); [apply grows_refl|]);
    (apply grows_bind; [apply grows_refl|]); intros dd;
    (destruct (d <? dd); [apply grows_refl|]).
  - apply grows_refl.
  - intros w Hnd. now contradiction Hnd.
  - apply expand_symbol_grows. intros d' t'. apply IH. lia.
Qed.

Lemma extract_futures_grows fuel : forall fuel' obj,
  (fuel <= fuel')%nat ->
  grows (extract_futures (R:=R) CT fuel obj) (extract_futures CT fuel' obj).
Proof.
  induction fuel as [|fuel IH]; intros fuel' obj Hle;
    destruct fuel' as [|fuel']; try lia; cbn [extract_futures].
  - apply grows_refl.
  - intros w Hnd. now contradiction Hnd.
  - unfold extract_futures_body. grows_auto; apply IH; lia.
Qed.

Lemma relabel_nodes_grows fuel : forall fuel' nts i d,
  (fuel <= fuel')%nat ->
  grows (relabel_nodes (R:=R) CT fuel nts i d) (relabel_nodes CT fuel' nts i d).
Proof.
  induction fuel as [|fuel IH]; intros fuel' nts i d Hle;
    destruct fuel' as [|fuel']; try lia; cbn [relabel_nodes].
  - apply grows_refl.
  - intros w Hnd. now contradiction Hnd.
  - unfold relabel_body. grows_auto; apply IH; lia.
Qed.

Lemma relabel_nodes_of_trees_grows fuel fuel' i nts :
  (fuel <= fuel')%nat ->
  grows (relabel_nodes_of_trees (R:=R) CT fuel i nts) (relabel_nodes_of_trees CT fuel' i nts).
Proof.
  intros Hle. unfold relabel_nodes_of_trees. apply grows_bind; [|intros; apply grows_refl].
  now apply relabel_nodes_grows.
Qed.

Lemma PI_Grow_step_grows fuel fuel' g queue :
  (fuel <= fuel')%nat ->
  grows (PI_Grow_step CT generate fuel g queue) (PI_Grow_step CT generate fuel' g queue).
Proof.
  intros Hle. unfold PI_Grow_step. apply grows_bind; [apply grows_refl|]. intros index.
  destruct (queue !! Z.to_nat index) as [future|]; [|apply grows_refl]. cbn zeta.
  apply grows_bind.
  - destruct future; try apply grows_refl.
    apply grows_bind; [now apply expand_node_grows|]. intros; apply grows_refl.
  - intros obj. apply grows_bind; [now apply extract_futures_grows|].
    intros; apply grows_refl.
Qed.

Lemma PI_Grow_loop_grows steps : forall steps' fuel fuel' g queue,
  (steps <= steps')%nat -> (fuel <= fuel')%nat ->
  grows (PI_Grow_loop CT generate steps fuel g queue)
        (PI_Grow_loop CT generate steps' fuel' g queue).
Proof.
  induction steps as [|steps IH]; intros steps' fuel fuel' g queue Hs Hf;
    destruct steps' as [|steps']; try lia; destruct queue as [|q0 queue]; cbn [PI_Grow_loop];
    try apply grows_refl.
  - intros w Hnd. now contradiction Hnd.
  - apply grows_bind; [now apply PI_Grow_step_grows|]. intros q. apply IH; lia.
Qed.

Lemma PI_Grow_grows fuel fuel' g d sym :
  (fuel <= fuel')%nat ->
  grows (PI_Grow CT generate fuel g d sym) (PI_Grow CT generate fuel' g d sym).
Proof.
  intros Hle. unfold PI_Grow. apply grows_bind; [now apply expand_node_grows|]. intros root.
  apply grows_bind; [now apply PI_Grow_loop_grows|]. intros u.
  now apply relabel_nodes_of_trees_grows.
Qed.
End FuelSynthesis.

Section FuelVariation.
Context {R : Type} `{Source R}.
Variable CT : class_table.
Variable generate :
  metahandler -> Grammar -> Z -> ty -> string -> list (string * ty) -> R -> outcome scalar * R.

Lemma deepcopy_cell_grows
    (rec rec' : list (nat * nat) -> value -> M R (list (nat * nat) * value)) memo l :
  (forall m v, grows (rec m v) (rec' m v)) ->
  grows (deepcopy_cell rec memo l) (deepcopy_cell rec' memo l).
Proof. intros Hrec. unfold deepcopy_cell. grows_auto; apply Hrec. Qed.

Lemma deepcopy_grows fuel : forall fuel' memo v,
  (fuel <= fuel')%nat -> grows (deepcopy (R:=R) fuel memo v) (deepcopy fuel' memo v).
Proof.
  induction fuel as [|fuel IH]; intros fuel' memo v Hle;
    destruct fuel' as [|fuel']; try lia; destruct v; cbn [deepcopy]; try apply grows_refl.
  - destruct (dict_get memo l); [apply grows_refl|]. intros w Hnd. now contradiction Hnd.
  - intros w Hnd. now contradiction Hnd.
  - destruct (dict_get memo l); [apply grows_refl|].
    apply deepcopy_cell_grows. intros m v. apply IH. lia.
  - apply grows_bind; [apply IH; lia|]. intros; apply grows_refl.
Qed.

Lemma descend_grows (rec rec' : value -> M R value) i fields :
  (forall c, grows (rec c) (rec' c)) ->
  forall c, grows (descend rec i fields c) (descend rec' i fields c).
Proof.
  intros Hrec. induction fields as [|field rest IH]; intros c; cbn [descend];
    [apply grows_refl|].
  apply grows_bind; [apply grows_refl|]. intros child.
  apply grows_bind; [apply grows_refl|]. intros lab. destruct lab as [lb|]; [|apply IH].
  cbn zeta. destruct (c <=? nodes lb); [|apply IH].
  apply grows_bind; [apply Hrec|]. intros; apply grows_refl.
Qed.

Lemma vary_body_grows (replace replace' : label -> ty -> M R value)
    (rec rec' : value -> M R value) i :
  (forall lb t, grows (replace lb t) (replace' lb t)) ->
  (forall c, grows (rec c) (rec' c)) ->
  grows (vary_body CT replace rec i) (vary_body CT replace' rec' i).
Proof.
  intros Hrep Hrec. unfold vary_body. apply grows_bind; [apply grows_refl|]. intros lb.
  destruct (0 <? nodes lb); [|apply grows_refl].
  apply grows_bind; [apply grows_refl|]. intros c. destruct (c =? 0).
  - apply grows_bind; [apply grows_refl|]. intros t. apply Hrep.
  - apply grows_bind; [apply grows_refl|]. intros fields. now apply descend_grows.
Qed.

Lemma mutate_inner_grows fuel : forall fuel' g i max_depth,
  (fuel <= fuel')%nat ->
  grows (mutate_inner CT generate fuel g i max_depth)
        (mutate_inner CT generate fuel' g i max_depth).
Proof.
  induction fuel as [|fuel IH]; intros fuel' g i max_depth Hle;
    destruct fuel' as [|fuel']; try lia; cbn [mutate_inner].
  - apply grows_refl.
  - intros w Hnd. now contradiction Hnd.
  - apply vary_body_grows.
    + intros lb t. apply grows_try; [|apply grows_refl].
      unfold random_node. apply PI_Grow_grows. lia.
    + intros c. apply IH. lia.
Qed.

Lemma mutate_grows fuel fuel' g i max_depth :
  (fuel <= fuel')%nat ->
  grows (mutate CT generate fuel g i max_depth) (mutate CT generate fuel' g i max_depth).
Proof.
  intros Hle. unfold mutate. apply grows_bind; [now apply deepcopy_grows|]. intros cp.
  apply grows_bind; [now apply mutate_inner_grows|]. intros t.
  now apply relabel_nodes_of_trees_grows.
Qed.

Lemma find_in_tree_grows fuel : forall fuel' t o max_depth,
  (fuel <= fuel')%nat ->
  grows (find_in_tree (R:=R) CT fuel t o max_depth) (find_in_tree CT fuel' t o max_depth).
Proof.
  induction fuel as [|fuel IH]; intros fuel' t o max_depth Hle;
    destruct fuel' as [|fuel']; try lia; cbn [find_in_tree].
  - apply grows_refl.
  - intros w Hnd. now contradiction Hnd.
  - apply grows_bind; [apply grows_refl|]. intros here.
    apply grows_bind; [apply grows_refl|]. intros children.
    apply grows_mfold. intros found child. apply grows_bind; [apply IH; lia|].
    intros; apply grows_refl.
Qed.

Lemma crossover_replacement_grows fuel fuel' g i o max_depth lb t :
  (fuel <= fuel')%nat ->
  grows (crossover_replacement CT generate fuel g i o max_depth lb t)
        (crossover_replacement CT generate fuel' g i o max_depth lb t).
Proof.
  intros Hle. unfold crossover_replacement. apply grows_bind; [now apply find_in_tree_grows|].
  intros options. destruct options; [|apply grows_refl].
  apply grows_try; [|apply grows_refl]. unfold random_node. now apply PI_Grow_grows.
Qed.

Lemma tree_crossover_inner_grows fuel : forall fuel' g i o max_depth,
  (fuel <= fuel')%nat ->
  grows (tree_crossover_inner CT generate fuel g i o max_depth)
        (tree_crossover_inner CT generate fuel' g i o max_depth).
Proof.
  induction fuel as [|fuel IH]; intros fuel' g i o max_depth Hle;
    destruct fuel' as [|fuel']; try lia; cbn [tree_crossover_inner].
  - apply grows_refl.
  - intros w Hnd. now contradiction Hnd.
  - apply vary_body_grows.
    + intros lb t. apply crossover_replacement_grows. lia.
    + intros c. apply IH. lia.
Qed.
End FuelVariation.

(** * The search of the donor *)

Section Search.
Context {R : Type} `{Source R}.
Variable CT : class_table.

Lemma type_of_at o (w w' : world R) t :
  type_of o w = (Ret t, w') -> w' = w /\ type_at (w_heap w) o = Some t.
Proof.
  destruct o; cbn [type_of type_at]; try (intros [= <- <-]; now split).
  intros Ht. apply type_of_ret in Ht as (-> & c & Hc & ->). rewrite Hc.
  split; [reflexivity|now destruct c].
Qed.

Lemma get_label_ret o (w w' : world R) lab :
  get_label o w = (Ret lab, w') -> w' = w /\ lab = label_at (w_heap w) o.
Proof.
  destruct o; cbn [get_label label_at]; try (intros [= <- <-]; now split).
  intros Hg. apply mbind_ret in Hg as (c & w1 & Hc & Hg). apply read_ret in Hc as [-> Hc].
  rewrite Hc. destruct c; injection Hg as <- <-; now split.
Qed.

Lemma the_label_ret o (w w' : world R) lb :
  the_label o w = (Ret lb, w') -> w' = w /\ label_at (w_heap w) o = Some lb.
Proof.
  unfold the_label. intros Hl. apply mbind_ret in Hl as (lab & w1 & Hg & Hl).
  apply get_label_ret in Hg as [-> ->]. destruct (label_at (w_heap w) o); [|discriminate].
  injection Hl as <- <-. now split.
Qed.

Lemma mmap_pure {A B} (f : A -> M R B) (Q : A -> B -> Prop) (w : world R) (l : list A) :
  (forall x y w1, x ∈ l -> f x w = (Ret y, w1) -> w1 = w /\ Q x y) ->
  forall w' ys, mmap f l w = (Ret ys, w') -> w' = w /\ Forall2 Q l ys.
Proof.
  induction l as [|x l IH]; intros Hf w' ys Hm; cbn [mmap] in Hm.
  - injection Hm as <- <-. split; [reflexivity|constructor].
  - apply mbind_ret in Hm as (y & w1 & Hy & Hm). apply mbind_ret in Hm as (ys1 & w2 & Hys & Hm).
    injection Hm as <- <-. destruct (Hf x y w1 ltac:(left) Hy) as [-> Hq].
    destruct (IH (fun x0 y0 w3 Hx0 => Hf x0 y0 w3 (list_elem_of_further _ _ _ Hx0)) w2 ys1 Hys)
      as [-> Hqs].
    split; [reflexivity|now constructor].
Qed.

(** The test of [find_in_tree] on the node itself. *)
Lemma find_here_ret t o max_depth (w w' : world R) here :
  find_here CT t o max_depth w = (Ret here, w') ->
  w' = w /\ forall x, x ∈ here <-> x = o /\ qualifies CT (w_heap w) t max_depth o.
Proof.
  unfold find_here. intros Hf. apply mbind_ret in Hf as (cls & w1 & Hcls & Hf).
  apply type_of_at in Hcls as [-> Hcls]. unfold set_mem in Hf.
  destruct (bool_decide (t ∈ bases CT cls)) eqn:Hb.
  - apply bool_decide_eq_true in Hb. apply mbind_ret in Hf as (lb & w1 & Hlb & Hf).
    apply the_label_ret in Hlb as [-> Hlb]. injection Hf as <- <-. split; [reflexivity|].
    intros x. destruct (distance_to_term lb <=? max_depth) eqn:Hd.
    + apply Z.leb_le in Hd. rewrite list_elem_of_singleton. split.
      * intros ->. split; [reflexivity|]. now exists cls, lb.
      * tauto.
    + apply Z.leb_gt in Hd. split; [intros Hx; now apply elem_of_nil in Hx|].
      intros [_ (cls' & lb' & Hc' & _ & Hl' & Hd')]. rewrite Hlb in Hl'.
      injection Hl' as <-. lia.
  - apply bool_decide_eq_false in Hb. injection Hf as <- <-. split; [reflexivity|].
    intros x. split; [intros Hx; now apply elem_of_nil in Hx|].
    intros [_ (cls' & lb' & Hc' & Hin & _)]. rewrite Hcls in Hc'. injection Hc' as <-.
    contradiction.
Qed.

(** The children that [find_in_tree] visits. *)
Lemma annotated_children_ret o (w w' : world R) children :
  annotated_children CT o w = (Ret children, w') ->
  w' = w /\ forall y, y ∈ children <-> field_child CT (w_heap w) o y.
Proof.
  destruct o; cbn [annotated_children field_child];
    try (intros [= <- <-]; split; [reflexivity|]; intros y; split;
         [intros Hy; now apply elem_of_nil in Hy|tauto]).
  - intros Ha. apply mbind_ret in Ha as (c & w1 & Hc & Ha). apply read_ret in Hc as [-> Hc].
    destruct c as [cls fields lab|items].
    + apply (mmap_pure _ (fun nm y => dict_get fields nm = Some y)) in Ha as [-> Hys].
      * split; [reflexivity|]. intros y. split.
        -- intros Hy. apply list_elem_of_lookup in Hy as [i Hi].
           destruct (Forall2_lookup_r _ _ _ _ _ Hys Hi) as (nm & Hnm & Hget).
           exists cls, fields, lab, nm. split; [exact Hc|]. split; [|exact Hget].
           eapply list_elem_of_lookup_2. exact Hnm.
        -- intros (cls' & fields' & lab' & nm & Hc' & Hnm & Hget).
           rewrite Hc in Hc'. injection Hc' as <- <- <-.
           apply list_elem_of_lookup in Hnm as [i Hi].
           destruct (Forall2_lookup_l _ _ _ _ _ Hys Hi) as (y' & Hy' & Hget').
           rewrite Hget in Hget'. injection Hget' as <-.
           eapply list_elem_of_lookup_2. exact Hy'.
      * intros nm y w1 _ Hg. apply getattr_ret in Hg as (-> & cls' & fields' & lab' & Hc' & Hg).
        rewrite Hc in Hc'. injection Hc' as <- <- <-. now split.
    + injection Ha as <- <-. split; [reflexivity|]. intros y. split.
      * intros Hy. now apply elem_of_nil in Hy.
      * intros (cls' & fields' & lab' & nm & Hc' & _). rewrite Hc in Hc'. discriminate.
  - intros [= <- <-]. split; [reflexivity|]. tauto.
Qed.

(** [find_in_tree] reads only, and returns the qualifying subtrees of the
    donor: the donor itself and the nodes met from it along declared
    fields. *)
Lemma find_in_tree_ret fuel :
  forall t o max_depth (w w' : world R) options,
    find_in_tree CT fuel t o max_depth w = (Ret options, w') ->
    w' = w /\
    forall x, x ∈ options <->
              field_subtree CT (w_heap w) o x /\ qualifies CT (w_heap w) t max_depth x.
Proof.
  induction fuel as [|fuel IH]; intros t o max_depth w w' options; cbn [find_in_tree];
    [discriminate|].
  intros Hf. apply mbind_ret in Hf as (here & w1 & Hhere & Hf).
  apply find_here_ret in Hhere as [-> Hhere].
  apply mbind_ret in Hf as (children & w1 & Hch & Hf).
  apply annotated_children_ret in Hch as [-> Hch].
  assert (Hfold : forall cs acc (w2 : world R) res,
            mfold (fun found child =>
                     mbind (find_in_tree CT fuel t child max_depth)
                       (fun more => mret (found ++ more))) cs acc w = (Ret res, w2) ->
            w2 = w /\
            forall x, x ∈ res <->
              x ∈ acc \/ exists y, y ∈ cs /\ field_subtree CT (w_heap w) y x /\
                                   qualifies CT (w_heap w) t max_depth x).
  { induction cs as [|c cs IHcs]; intros acc w2 res Hm; cbn [mfold] in Hm.
    - injection Hm as <- <-. split; [reflexivity|]. intros x. split; [now left|].
      intros [Hx|(y & Hy & _)]; [exact Hx|now apply elem_of_nil in Hy].
    - apply mbind_ret in Hm as (acc1 & w3 & Hstep & Hm).
      apply mbind_ret in Hstep as (more & w4 & Hmore & Hstep). injection Hstep as <- <-.
      apply IH in Hmore as [-> Hmore]. apply IHcs in Hm as [-> Hres].
      split; [reflexivity|]. intros x. rewrite Hres, elem_of_app, Hmore. split.
      + intros [[Hx|[Hs Hq]]|(y & Hy & Hs & Hq)]; [now left| |].
        * right. exists c. split; [left|now split].
        * right. exists y. split; [now right|now split].
      + intros [Hx|(y & Hy & Hs & Hq)]; [now left; left|].
        apply elem_of_cons in Hy as [->|Hy]; [left; right; now split|].
        right. exists y. now split. }
  apply Hfold in Hf as [-> Hres]. split; [reflexivity|]. intros x. rewrite Hres, Hhere. split.
  - intros [[-> Hq]|(y & Hy & Hs & Hq)]; [split; [apply field_subtree_here|exact Hq]|].
    split; [|exact Hq]. eapply field_subtree_step; [apply Hch; exact Hy|exact Hs].
  - intros [Hs Hq]. inversion Hs as [o'|o' y x' Hc Hs']; subst.
    + left. now split.
    + right. exists y. split; [now apply Hch|now split].
Qed.

(** The subtrees of a complete tree are complete trees, and what is met
    from them is met from the tree. *)
Lemma field_subtree_sound h o x :
  sound CT h o -> field_subtree CT h o x ->
  sound CT h x /\ forall a, reach h x a -> reach h o a.
Proof.
  intros Hs Hsub. induction Hsub as [o|o y x Hc Hsub IH]; [now split|].
  destruct o; cbn [field_child] in Hc; try contradiction.
  - destruct Hc as (cls & fields & lab & nm & Hl & _ & Hget).
    assert (Hy : y ∈ cell_vals (CObj cls fields lab)).
    { cbn [cell_vals]. apply list_elem_of_fmap. exists (nm, y). split; [reflexivity|].
      now apply dict_get_elem. }
    destruct (IH (sound_child CT h l _ y Hs Hl Hy)) as [Hx Hr]. split; [exact Hx|].
    intros a Ha. eapply reach_child; [exact Hl|exact Hy|now apply Hr].
  - apply sound_not_future in Hs. discriminate.
Qed.
End Search.

(** * Edits keep trees complete *)

Section Edits.
Context {R : Type} `{Source R}.
Variable CT : class_table.
Variable generate :
  metahandler -> Grammar -> Z -> ty -> string -> list (string * ty) -> R -> outcome scalar * R.
Hypothesis Hdf : distinct_fields CT.

Lemma edited_stay P h i h' : extends h h' -> sound CT h i -> edited CT P h i h' i.
Proof.
  intros He Hs. split; [now apply keeps_extends|]. split; [now apply (keeps_extends CT h h')|].
  split; [apply He|]. intros a Ha Hr _. split; [now apply He|]. split.
  - intros Hr'. apply Hr. eapply reach_extends; eassumption.
  - intros u Hu Hr'. eapply reach_extends; eassumption.
Qed.

Lemma edited_fresh P h i h' v :
  extends h h' -> closed_above (length h) h' -> val_above (length h) v -> sound CT h' v ->
  edited CT P h i h' v.
Proof.
  intros He Hc Hv Hs. split; [now apply keeps_extends|]. split; [exact Hs|].
  split; [apply He|]. intros a Ha _ _. split; [now apply He|]. split.
  - intros Hr'. pose proof (reach_above _ _ _ _ Hc Hv Hr'). lia.
  - intros u Hu Hr'. eapply reach_extends; eassumption.
Qed.

Lemma edited_donor (P : nat -> Prop) h i v :
  sound CT h v -> (forall a, P a -> ~ reach h v a) -> edited CT P h i h v.
Proof.
  intros Hs Hp. split; [apply keeps_refl|]. split; [exact Hs|]. split; [lia|].
  intros a _ _ Pa. split; [reflexivity|]. split; [now apply Hp|]. auto.
Qed.

(** The store [setattr(i, field, n)] that ends a descent. *)
Lemma edited_store (P : nat -> Prop) h l cls fields lab name child h2 n cls' fields' lab' :
  h !! l = Some (CObj cls fields lab) -> dict_get fields name = Some child ->
  sound CT h (VRef l) -> (forall x, reach h (VRef l) x -> P x) ->
  edited CT P h child h2 n ->
  h2 !! l = Some (CObj cls' fields' lab') ->
  edited CT P h (VRef l) (<[l := CObj cls' (dict_set fields' name n) lab']> h2) (VRef l).
Proof.
  intros Hl Hget Hs HP (Hk & Hn & Hlen & Hfr) Hl2.
  assert (Hchild : child ∈ cell_vals (CObj cls fields lab)).
  { cbn [cell_vals]. apply list_elem_of_fmap. exists (name, child). split; [reflexivity|].
    now apply dict_get_elem. }
  assert (Hllt : (l < length h)%nat) by (eapply lookup_lt_Some; exact Hl).
  destruct (Hfr l Hllt (sound_acyclic CT h l _ child Hs Hl Hchild) (HP l (reach_here h l)))
    as (Hsame & Hnl & _).
  rewrite Hl2, Hl in Hsame. injection Hsame as -> -> ->.
  assert (Hname : name ∈ map fst fields).
  { apply list_elem_of_fmap. exists (name, child). split; [reflexivity|].
    now apply dict_get_elem. }
  pose proof (setattr_sound CT h2 l cls fields lab name n Hl2 Hname Hn Hnl) as Hk2.
  set (h3 := <[l := CObj cls (dict_set fields name n) lab]> h2) in *.
  assert (Hvals : forall x, VRef x ∈ cell_vals (CObj cls (dict_set fields name n) lab) ->
            VRef x ∈ cell_vals (CObj cls fields lab) \/ VRef x = n).
  { intros x Hx. cbn [cell_vals] in *. apply list_elem_of_fmap in Hx as ([k' y] & Hy & Hin).
    cbn [snd] in Hy. subst y. apply dict_set_elem_weak in Hin as [[_ ->]|Hin]; [now right|].
    left. apply list_elem_of_fmap. now exists (k', VRef x). }
  split; [eapply keeps_trans; eassumption|]. split; [apply Hk2, Hk, Hs|].
  split; [unfold h3; rewrite length_insert; exact Hlen|].
  intros a Ha Hra Pa.
  assert (Hca : ~ reach h child a).
  { intros Hr. apply Hra. eapply reach_child; eassumption. }
  destruct (Hfr a Ha Hca Pa) as (Hsa & Hna & Hua).
  assert (Hal : a <> l) by (intros ->; apply Hra, reach_here).
  split; [unfold h3; rewrite list_lookup_insert_ne by congruence; exact Hsa|].
  split.
  - intros Hr. destruct (reach_insert h2 l _ _ n _ a Hl2 Hvals Hr) as [Hr2|Hr2].
    + apply Hra. now apply Hua.
    + now apply Hna.
  - intros u Hu Hr. destruct (reach_insert h2 l _ _ n _ a Hl2 Hvals Hr) as [Hr2|Hr2].
    + now apply Hua.
    + contradiction.
Qed.

Lemma descend_edited (P : nat -> Prop) (rec : value -> M R value) i h fields :
  sound CT h i -> (forall x, reach h i x -> P x) ->
  (forall child (w1 w2 : world R) v,
     w_heap w1 = h -> sound CT h child -> (forall x, reach h child x -> P x) ->
     rec child w1 = (Ret v, w2) -> edited CT P h child (w_heap w2) v) ->
  forall c (w w' : world R) v,
    w_heap w = h -> descend rec i fields c w = (Ret v, w') -> edited CT P h i (w_heap w') v.
Proof.
  intros Hs HP Hrec. induction fields as [|field rest IH]; intros c w w' v Hh Hrun;
    cbn [descend] in Hrun.
  - injection Hrun as <- <-. rewrite Hh. apply edited_stay; [apply extends_refl|exact Hs].
  - apply mbind_ret in Hrun as (child & w1 & Hchild & Hrun).
    destruct i as [| | | |l|]; try discriminate.
    apply getattr_ret in Hchild as (-> & cls & fields & lab & Hl & Hget).
    apply mbind_ret in Hrun as (lb' & w1 & Hlab & Hrun).
    apply get_label_ret in Hlab as [-> ->].
    destruct (label_at (w_heap w) child) as [lb|]; [|exact (IH c w w' v Hh Hrun)].
    cbn zeta in Hrun. destruct (c <=? nodes lb); [|exact (IH _ w w' v Hh Hrun)].
    apply mbind_ret in Hrun as (n & w2 & Hn & Hrun).
    apply mbind_ret in Hrun as ([] & w3 & Hset & Hrun). injection Hrun as <- <-.
    apply setattr_ret in Hset as (cls' & fields' & lab' & Hl2 & ->). cbn [with_heap w_heap].
    rewrite Hh in Hl.
    assert (Hcv : child ∈ cell_vals (CObj cls fields lab)).
    { cbn [cell_vals]. apply list_elem_of_fmap. exists (field, child). split; [reflexivity|].
      now apply dict_get_elem. }
    eapply edited_store; [exact Hl|exact Hget|exact Hs|exact HP| |exact Hl2].
    apply (Hrec child w w2 n Hh); [eapply sound_child; eassumption| |exact Hn].
    intros x Hx. apply HP. eapply reach_child; eassumption.
Qed.

Lemma first_base_pure i (w w' : world R) t : first_base CT i w = (Ret t, w') -> w' = w.
Proof.
  unfold first_base. intros Hf. apply mbind_ret in Hf as (t0 & w1 & Ht & Hf).
  apply type_of_pure in Ht as ->. destruct (bases CT t0); [discriminate|]. now injection Hf.
Qed.

Lemma annotations_pure i (w w' : world R) fs : annotations CT i w = (Ret fs, w') -> w' = w.
Proof.
  unfold annotations. intros Hf. apply mbind_ret in Hf as (t0 & w1 & Ht & Hf).
  apply type_of_pure in Ht as ->. destruct (get_arguments CT t0); [discriminate|].
  now injection Hf.
Qed.

Lemma vary_body_edited (P : nat -> Prop) replace (rec : value -> M R value) i
    (w w' : world R) v :
  sound CT (w_heap w) i -> (forall x, reach (w_heap w) i x -> P x) ->
  (forall lb t (w1 w2 : world R) v,
     w_heap w1 = w_heap w -> replace lb t w1 = (Ret v, w2) ->
     edited CT P (w_heap w) i (w_heap w2) v) ->
  (forall child (w1 w2 : world R) v,
     w_heap w1 = w_heap w -> sound CT (w_heap w) child ->
     (forall x, reach (w_heap w) child x -> P x) ->
     rec child w1 = (Ret v, w2) -> edited CT P (w_heap w) child (w_heap w2) v) ->
  vary_body CT replace rec i w = (Ret v, w') -> edited CT P (w_heap w) i (w_heap w') v.
Proof.
  intros Hs HP Hrep Hrec. unfold vary_body. intros Hrun.
  apply mbind_ret in Hrun as (lb & w1 & Hlb & Hrun). apply the_label_ret in Hlb as [-> _].
  destruct (0 <? nodes lb).
  - apply mbind_ret in Hrun as (c & w1 & Hc & Hrun). apply randint_ret in Hc as [Hh1 _].
    destruct (c =? 0).
    + apply mbind_ret in Hrun as (t & w2 & Ht & Hrun). apply first_base_pure in Ht as ->.
      exact (Hrep lb t w1 w' v Hh1 Hrun).
    + apply mbind_ret in Hrun as (fs & w2 & Hfs & Hrun). apply annotations_pure in Hfs as ->.
      eapply descend_edited; [exact Hs|exact HP|exact Hrec|exact Hh1|exact Hrun].
  - injection Hrun as <- <-. apply edited_stay; [apply extends_refl|exact Hs].
Qed.

(** The replacement of [mutate_inner]: a fresh tree, or the node itself
    when the synthesis fails. *)
Lemma try_random_node_edited (P : nat -> Prop) fuel g d t i (w w' : world R) v :
  sound CT (w_heap w) i ->
  try_except (random_node CT generate fuel g d t) (mret i) w = (Ret v, w') ->
  edited CT P (w_heap w) i (w_heap w') v.
Proof.
  intros Hs. unfold try_except, random_node.
  pose proof (fr_PI_Grow CT generate (length (w_heap w)) (w_heap w) fuel g d t w (fr_start w))
    as Hfr.
  destruct (PI_Grow CT generate fuel g d t w) as [[v0|e|] w1] eqn:Hrun; [| |discriminate].
  - intros [= <- <-]. destruct Hfr as [Hv Hfr]. apply edited_fresh.
    + now apply fr_extends.
    + apply Hfr.
    + exact Hv.
    + eapply PI_Grow_sound; eassumption.
  - intros [= <- <-]. apply edited_stay; [now apply fr_extends|exact Hs].
Qed.

Lemma mutate_inner_edited fuel : forall g i max_depth (w w' : world R) v,
  sound CT (w_heap w) i ->
  mutate_inner CT generate fuel g i max_depth w = (Ret v, w') ->
  edited CT (fun _ => True) (w_heap w) i (w_heap w') v.
Proof.
  induction fuel as [|fuel IH]; intros g i max_depth w w' v Hs; cbn [mutate_inner];
    [discriminate|].
  apply vary_body_edited; [exact Hs|auto| |].
  - intros lb t w1 w2 v0 Hh Hrun. rewrite <- Hh in *.
    eapply try_random_node_edited; eassumption.
  - intros child w1 w2 v0 Hh Hc _ Hrun. rewrite <- Hh in *. eapply IH; eassumption.
Qed.

(** The replacement of [tree_crossover_inner]: a subtree of the donor, a
    fresh tree, or the node itself. *)
Lemma crossover_replacement_edited fuel g i o max_depth lb t (w w' : world R) v :
  sound CT (w_heap w) i -> sound CT (w_heap w) o ->
  crossover_replacement CT generate fuel g i o max_depth lb t w = (Ret v, w') ->
  edited CT (fun a => ~ reach (w_heap w) o a) (w_heap w) i (w_heap w') v.
Proof.
  intros Hi Ho. unfold crossover_replacement. intros Hrun.
  apply mbind_ret in Hrun as (options & w1 & Hopt & Hrun).
  apply find_in_tree_ret in Hopt as [-> Hopt]. destruct options as [|x options].
  - eapply try_random_node_edited; eassumption.
  - apply choice_ret in Hrun as [Hv Hh]. rewrite Hh. apply Hopt in Hv as [Hsub _].
    destruct (field_subtree_sound CT _ _ _ Ho Hsub) as [Hsv Hr].
    apply edited_donor; [exact Hsv|]. intros a Ha Hra. apply Ha. now apply Hr.
Qed.

Lemma tree_crossover_inner_edited fuel : forall g i o max_depth (w w' : world R) v,
  sound CT (w_heap w) i -> sound CT (w_heap w) o ->
  (forall x, reach (w_heap w) i x -> ~ reach (w_heap w) o x) ->
  tree_crossover_inner CT generate fuel g i o max_depth w = (Ret v, w') ->
  edited CT (fun a => ~ reach (w_heap w) o a) (w_heap w) i (w_heap w') v.
Proof.
  induction fuel as [|fuel IH]; intros g i o max_depth w w' v Hi Ho Hap;
    cbn [tree_crossover_inner]; [discriminate|].
  apply vary_body_edited; [exact Hi|exact Hap| |].
  - intros lb t w1 w2 v0 Hh Hrun. rewrite <- Hh in *.
    eapply crossover_replacement_edited; eassumption.
  - intros child w1 w2 v0 Hh Hc Hapc Hrun. rewrite <- Hh in *. eapply IH; eassumption.
Qed.

(** A copy is a complete tree in the fresh part of the heap. *)
Lemma deepcopy_ret fuel v (w w' : world R) m c :
  sound CT (w_heap w) v ->
  deepcopy fuel [] v w = (Ret (m, c), w') ->
  extends (w_heap w) (w_heap w') /\ sound CT (w_heap w') c /\
  val_above (length (w_heap w)) c /\ closed_above (length (w_heap w)) (w_heap w').
Proof.
  intros (k & t & Ht & Hwf) Hrun.
  destruct (deepcopy_top CT (w_heap w) k (Nat.max fuel k) v t w eq_refl ltac:(lia) Ht Hwf)
    as (m' & v' & w'' & Hrun' & Hext & Hread & _).
  rewrite (grows_run _ _ _ _ _ (deepcopy_grows fuel (Nat.max fuel k) [] v ltac:(lia)) Hrun)
    in Hrun'.
  injection Hrun' as <- <- <-.
  pose proof (fr_deepcopy (length (w_heap w)) (w_heap w) fuel [] v
                ltac:(constructor) w (fr_start w)) as Hfr.
  rewrite Hrun in Hfr. destruct Hfr as [[_ Hv] Hfr].
  split; [exact Hext|]. split; [exists k, t; split; [now rewrite Hread|exact Hwf]|].
  split; [exact Hv|apply Hfr].
Qed.

(** One direction of [tree_crossover]. *)
Lemma crossover_once_sound fuel g p1 p2 max_depth (w w1 w2 w3 w' : world R) c1 c2 t v :
  sound CT (w_heap w) p1 -> sound CT (w_heap w) p2 ->
  deepcopy fuel [] p1 w = (Ret c1, w1) ->
  deepcopy fuel [] p2 w1 = (Ret c2, w2) ->
  tree_crossover_inner CT generate fuel g (snd c1) (snd c2) max_depth w2 = (Ret t, w3) ->
  relabel_nodes_of_trees CT fuel t (non_terminals g) w3 = (Ret v, w') ->
  keeps CT (w_heap w) (w_heap w') /\ sound CT (w_heap w') v.
Proof.
  intros H1 H2 Hc1 Hc2 Hin Hrun. destruct c1 as [m1 c1], c2 as [m2 c2]. cbn [snd] in *.
  apply relabel_nodes_of_trees_shape in Hrun as [-> Hs].
  destruct (deepcopy_ret fuel p1 w w1 m1 c1 H1 Hc1) as (He1 & Hs1 & Hv1 & Hcl1).
  pose proof (keeps_extends CT _ _ He1) as Hk1.
  destruct (deepcopy_ret fuel p2 w1 w2 m2 c2 (Hk1 _ H2) Hc2) as (He2 & Hs2 & Hv2 & Hcl2).
  pose proof (keeps_extends CT _ _ He2) as Hk2.
  assert (Hap : forall x, reach (w_heap w2) c1 x -> ~ reach (w_heap w2) c2 x).
  { intros x Hx1 Hx2. pose proof (reach_extends CT _ _ _ _ He2 Hs1 Hx1) as Hx1'.
    pose proof (sound_reach_lt CT _ _ _ Hs1 Hx1').
    pose proof (reach_above _ _ _ _ Hcl2 Hv2 Hx2). lia. }
  destruct (tree_crossover_inner_edited fuel g c1 c2 max_depth w2 w3 t (Hk2 _ Hs1) Hs2 Hap Hin)
    as (Hk3 & Hs3 & _).
  split.
  - intros u Hu. eapply sound_same_shape; [exact Hs|]. apply Hk3, Hk2, Hk1, Hu.
  - eapply sound_same_shape; eassumption.
Qed.

(** At a node for which position 0 is drawn, [tree_crossover_inner]
    searches the donor and takes one of the subtrees found, or falls back
    on a fresh tree. *)
Lemma tree_crossover_inner_slot fuel g i o max_depth (ws ws' : world R) v lb (w1 : world R) :
  tree_crossover_inner CT generate (S fuel) g i o max_depth ws = (Ret v, ws') ->
  the_label i ws = (Ret lb, ws) -> 0 < nodes lb ->
  randint 0 (nodes lb - 1) ws = (Ret 0, w1) ->
  exists t options,
    first_base CT i w1 = (Ret t, w1) /\
    find_in_tree CT (S fuel) t o (max_depth - depth lb + 1) w1 = (Ret options, w1) /\
    (forall x, x ∈ options <->
       field_subtree CT (w_heap ws) o x /\
       qualifies CT (w_heap ws) t (max_depth - depth lb + 1) x) /\
    match options with
    | [] => try_except (random_node CT generate (S fuel) g (max_depth - depth lb + 1) t)
              (mret i) w1 = (Ret v, ws')
    | _ => choice options w1 = (Ret v, ws') /\ v ∈ options
    end.
Proof.
  cbn [tree_crossover_inner]. unfold vary_body. intros Hrun Hlb Hn Hc.
  unfold mbind at 1 in Hrun. rewrite Hlb in Hrun.
  apply Z.ltb_lt in Hn. rewrite Hn in Hrun.
  unfold mbind at 1 in Hrun. rewrite Hc in Hrun. cbn [Z.eqb] in Hrun.
  apply mbind_ret in Hrun as (t & w2 & Ht & Hrun).
  pose proof (first_base_pure _ _ _ _ Ht) as ->.
  unfold crossover_replacement in Hrun.
  apply mbind_ret in Hrun as (options & w2 & Hopt & Hrun).
  destruct (find_in_tree_ret CT _ _ _ _ _ _ _ Hopt) as [-> Hchar].
  apply randint_ret in Hc as [Hh _]. rewrite Hh in Hchar.
  exists t, options. split; [exact Ht|]. split; [exact Hopt|]. split; [exact Hchar|].
  destruct options as [|x options]; [exact Hrun|]. split; [exact Hrun|].
  now apply choice_ret in Hrun as [Hv _].
Qed.

Lemma descend_returns (rec : value -> M R value) i fields :
  forall c (w w' : world R) v, descend rec i fields c w = (Ret v, w') -> v = i.
Proof.
  induction fields as [|field rest IH]; intros c w w' v Hrun; cbn [descend] in Hrun.
  - now injection Hrun as <- _.
  - apply mbind_ret in Hrun as (child & w1 & _ & Hrun).
    apply mbind_ret in Hrun as (lab & w2 & _ & Hrun).
    destruct lab as [lb|]; [|exact (IH _ _ _ _ Hrun)]. cbn zeta in Hrun.
    destruct (c <=? nodes lb); [|exact (IH _ _ _ _ Hrun)].
    apply mbind_ret in Hrun as (n & w3 & _ & Hrun).
    apply mbind_ret in Hrun as (u & w4 & _ & Hrun). now injection Hrun as <- _.
Qed.
End Edits.

(** * Further properties of the tree-based representation *)

Section TreeProperties.
Context {R : Type} `{Source R}.
Variable CT : class_table.
Variable generate :
  metahandler -> Grammar -> Z -> ty -> string -> list (string * ty) -> R -> outcome scalar * R.









End TreeProperties.










(** * Further properties of the synthesizer *)

Lemma dict_set_app_notin {V : Type} (d1 d2 : list (string * V)) k v0 v :
  k ∉ map fst d1 -> dict_set (d1 ++ (k, v0) :: d2) k v = d1 ++ (k, v) :: d2.
Proof.
  induction d1 as [|[k1 v1] d1 IH]; intros Hk; cbn [app dict_set].
  - now rewrite decide_True.
  - cbn [map fst] in Hk. apply not_elem_of_cons in Hk as [Hne Hk].
    rewrite decide_False by exact Hne. now rewrite IH.
Qed.

Lemma fold_dict_set_map {V : Type} (F I : string * ty -> V) (post : list (string * ty)) :
  forall pre,
    NoDup (map fst (pre ++ post)) ->
    fold_left (fun fs a => dict_set fs (fst a) (F a)) post
      (map (fun a => (fst a, F a)) pre ++ map (fun a => (fst a, I a)) post) =
    map (fun a => (fst a, F a)) (pre ++ post).
Proof.
  induction post as [|a post IH]; intros pre Hnd; cbn [fold_left map].
  - now rewrite !app_nil_r.
  - rewrite dict_set_app_notin.
    + replace (map (fun a0 => (fst a0, F a0)) pre ++
               (fst a, F a) :: map (fun a0 => (fst a0, I a0)) post)
        with (map (fun a0 => (fst a0, F a0)) (pre ++ [a]) ++
              map (fun a0 => (fst a0, I a0)) post)
        by (rewrite map_app, <- app_assoc; reflexivity).
      rewrite IH; [now rewrite <- app_assoc|]. now rewrite <- app_assoc.
    + rewrite map_map. cbn [fst]. rewrite map_app in Hnd. apply NoDup_app in Hnd as (_ & Hd & _).
      intros Hin. apply (Hd (fst a) Hin). cbn [map]. left.
Qed.

Section SynthesisProperties.
Context {R : Type} `{Source R}.
Variable CT : class_table.
Variable generate :
  metahandler -> Grammar -> Z -> ty -> string -> list (string * ty) -> R -> outcome scalar * R.

(** The loop of [extract_futures] over the fields of an object,
    exactly. *)
Lemma extract_fields_exact l cls fields lab (args : list (string * ty)) :
  forall acc (w w' : world R) fs,
    w_heap w !! l = Some (CObj cls fields lab) ->
    mfold (fun futures (a : string * ty) =>
             mbind (getattr (VRef l) (fst a))
               (fun v => match v with
                         | VFuture _ _ _ _ _ _ => mret (futures ++ [v])
                         | _ => mret futures
                         end)) args acc w = (Ret fs, w') ->
    exists vals, Forall2 (fun a x => dict_get fields (fst a) = Some x) args vals /\
                 fs = acc ++ List.filter is_future vals.
Proof.
  induction args as [|a args IH]; intros acc w w' fs Hl Hrun; cbn [mfold] in Hrun.
  - injection Hrun as <- <-. exists []. split; [constructor|]. now rewrite app_nil_r.
  - apply mbind_ret in Hrun as (acc1 & w1 & Hstep & Hrun).
    apply mbind_ret in Hstep as (v & w2 & Hv & Hstep).
    apply getattr_ret in Hv as (-> & cls' & fields' & lab' & Hl' & Hv).
    rewrite Hl in Hl'. injection Hl' as <- <- <-.
    assert (Hacc1 : w1 = w /\ acc1 = acc ++ List.filter is_future [v]).
    { destruct v; injection Hstep as <- <-; cbn [List.filter is_future];
        now rewrite ?app_nil_r. }
    destruct Hacc1 as [-> ->]. destruct (IH _ w w' fs Hl Hrun) as (vals & Hvals & ->).
    exists (v :: vals). split; [now constructor|].
    rewrite <- app_assoc. f_equal. cbn [List.filter]. now destruct (is_future v).
Qed.

(** The loop of [extract_futures] over the items of a list, exactly. *)
Lemma extract_items_exact fuel (items : list value) :
  forall acc (w w' : world R) fs,
    mfold (fun futures el =>
             match el with
             | VFuture _ _ _ _ _ _ => mret (futures ++ [el])
             | _ => mbind (extract_futures CT fuel el) (fun fs => mret (futures ++ fs))
             end) items acc w = (Ret fs, w') ->
    exists parts,
      Forall2 (fun el p => if is_future el then p = [el]
                           else extract_futures CT fuel el w = (Ret p, w)) items parts /\
      fs = acc ++ concat parts.
Proof.
  induction items as [|x items IH]; intros acc w w' fs Hrun; cbn [mfold] in Hrun.
  - injection Hrun as <- <-. exists []. split; [constructor|]. now rewrite app_nil_r.
  - apply mbind_ret in Hrun as (acc1 & w1 & Hstep & Hrun).
    assert (Hx : exists p, w1 = w /\ acc1 = acc ++ p /\
                   (if is_future x then p = [x]
                    else extract_futures CT fuel x w = (Ret p, w))).
    { destruct x;
        try (apply mbind_ret in Hstep as (fs0 & w2 & Hfs0 & Hstep);
             pose proof (extract_futures_pure CT fuel _ _ _ _ Hfs0) as ->;
             injection Hstep as <- <-; exists fs0; now repeat split).
      injection Hstep as <- <-. eexists. now repeat split. }
    destruct Hx as (p & -> & -> & Hp). destruct (IH _ w w' fs Hrun) as (parts & Hparts & ->).
    exists (p :: parts). split; [now constructor|]. cbn [concat]. now rewrite app_assoc.
Qed.

(** X10. [extract_futures] only reads; it returns [Future]s only; for an
    object these are exactly the [Future]s among its declared fields, in
    the order of declaration (the other fields are not searched), and for
    a list the [Future]s among its items together with what
    [extract_futures] returns for the other items, in order. *)
Theorem extract_futures_exact fuel v (w w' : world R) fs :
  extract_futures CT (S fuel) v w = (Ret fs, w') ->
  w' = w /\ Forall (fun f => is_future f = true) fs /\
  match v with
  | VRef l =>
      match w_heap w !! l with
      | Some (CObj cls fields _) =>
          exists vals,
            Forall2 (fun a x => dict_get fields (fst a) = Some x) (get_arguments CT cls) vals /\
            fs = List.filter is_future vals
      | Some (CList items) =>
          exists parts,
            Forall2 (fun el p => if is_future el then p = [el]
                                 else extract_futures CT fuel el w = (Ret p, w)) items parts /\
            fs = concat parts
      | None => False
      end
  | _ => fs = []
  end.
Proof.
  intros Hrun. pose proof (extract_futures_pure CT _ _ _ _ _ Hrun) as ->.
  split; [reflexivity|]. split; [eapply extract_futures_futures; exact Hrun|].
  cbn [extract_futures] in Hrun. unfold extract_futures_body in Hrun.
  destruct v; try (now injection Hrun as <-).
  apply mbind_ret in Hrun as (c & w1 & Hc & Hrun). apply read_ret in Hc as [-> Hc].
  rewrite Hc. destruct c as [cls fields lab|items].
  - destruct (extract_fields_exact _ _ _ _ _ _ _ _ _ Hc Hrun) as (vals & Hvals & ->).
    now exists vals.
  - destruct (extract_items_exact _ _ _ _ _ _ Hrun) as (parts & Hparts & ->).
    now exists parts.
Qed.

(** The productions that fit a depth. *)
Lemma filter_fold g depth (ps : list ty) :
  forall acc vs,
    ofold_left (fun acc vp =>
       match dict_get (distanceToTerminal g) vp with
       | Some d => Ret (if d <=? depth then acc ++ [vp] else acc)
       | None => Raise KeyError
       end) ps acc = Ret vs ->
    Forall (fun p => is_Some (dict_get (distanceToTerminal g) p)) ps /\
    vs = acc ++ List.filter (fun p => match dict_get (distanceToTerminal g) p with
                                      | Some d => d <=? depth
                                      | None => false
                                      end) ps.
Proof.
  induction ps as [|p ps IH]; intros acc vs Hf; cbn [ofold_left] in Hf.
  - injection Hf as <-. split; [constructor|]. now rewrite app_nil_r.
  - unfold obind in Hf. destruct (dict_get (distanceToTerminal g) p) as [d|] eqn:Hd;
      [|discriminate].
    apply IH in Hf as [Hall ->]. split; [constructor; [rewrite Hd; now eexists|exact Hall]|].
    cbn [List.filter]. rewrite Hd. destruct (d <=? depth); [|reflexivity].
    now rewrite <- app_assoc.
Qed.

(** X11. What [filter_choices] returns: productions among the possible
    choices, each with a distance to a terminal of at most [depth]; either
    all of them recursive or none of them; and nothing exactly when no
    possible choice fits [depth]. *)
Theorem filter_choices_fit g possible_choices depth vs :
  filter_choices g possible_choices depth = Ret vs ->
  (forall p, p ∈ vs ->
     p ∈ possible_choices /\
     exists d, dict_get (distanceToTerminal g) p = Some d /\ d <= depth) /\
  ((forall p, p ∈ vs -> p ∈ recursive_prods g) \/
   (forall p, p ∈ vs -> p ∉ recursive_prods g)) /\
  (vs = [] <->
   forall p d, p ∈ possible_choices -> dict_get (distanceToTerminal g) p = Some d ->
               depth < d).
Proof.
  unfold filter_choices, obind. intros Hf.
  destruct (ofold_left _ possible_choices []) as [valid| |] eqn:Hfold; try discriminate.
  apply filter_fold in Hfold as [Hall ->]. cbn [app] in Hf.
  set (fit := fun p => match dict_get (distanceToTerminal g) p with
                       | Some d => d <=? depth
                       | None => false
                       end) in *.
  assert (Hfit : forall p, p ∈ List.filter fit possible_choices <->
            p ∈ possible_choices /\
            exists d, dict_get (distanceToTerminal g) p = Some d /\ d <= depth).
  { intros p. rewrite list_elem_of_In, filter_In, <- list_elem_of_In. unfold fit.
    split; intros [Hp Hd]; (split; [exact Hp|]).
    - destruct (dict_get (distanceToTerminal g) p) as [d|]; [|discriminate].
      exists d. split; [reflexivity|now apply Z.leb_le].
    - destruct Hd as (d & -> & Hd). now apply Z.leb_le. }
  assert (Hempty : List.filter fit possible_choices = [] <->
            forall p d, p ∈ possible_choices ->
                        dict_get (distanceToTerminal g) p = Some d -> depth < d).
  { split.
    - intros He p d Hp Hd. destruct (Z.lt_ge_cases depth d) as [Hlt|Hge]; [exact Hlt|].
      assert (Hin : p ∈ List.filter fit possible_choices) by (apply Hfit; eauto).
      rewrite He in Hin. now apply elem_of_nil in Hin.
    - intros Hno. destruct (List.filter fit possible_choices) as [|p l] eqn:El; [reflexivity|].
      destruct (proj1 (Hfit p) ltac:(left)) as (Hp & d & Hd & Hle).
      specialize (Hno p d Hp Hd). lia. }
  destruct (existsb _ (List.filter fit possible_choices)) eqn:Hex; injection Hf as <-.
  - split; [|split].
    + intros p Hp. apply list_elem_of_filter in Hp as [_ Hp]. now apply Hfit.
    + left. intros p Hp. apply list_elem_of_filter in Hp as [Hp _].
      unfold set_mem in Hp. now apply bool_decide_unpack in Hp.
    + apply existsb_exists in Hex as (p & Hp & Hrec). split.
      * intros He. exfalso.
        assert (Hin : p ∈ filter (fun vp => set_mem vp (recursive_prods g))
                              (List.filter fit possible_choices)).
        { apply list_elem_of_filter. split; [now apply Is_true_true|now apply list_elem_of_In]. }
        rewrite He in Hin. now apply elem_of_nil in Hin.
      * intros Hno. exfalso. apply list_elem_of_In, Hfit in Hp as (Hp & d & Hd & Hle).
        specialize (Hno p d Hp Hd). lia.
  - split; [|split].
    + intros p Hp. now apply Hfit.
    + right. intros p Hp Hrec. apply Bool.not_true_iff_false in Hex. apply Hex.
      apply existsb_exists. exists p. split; [now apply list_elem_of_In|].
      unfold set_mem. now apply bool_decide_eq_true.
    + exact Hempty.
Qed.

(** X12. For a declared class that is registered without alternatives and
    whose distance fits the budget, [expand_node] returns one new object of
    that class and creates nothing else; every field of the object holds a
    [Future] for that field with the budget [depth - 1], and every one of
    these [Future]s, when forced, expands the type and the name of the
    constructor's last argument: the closure of the loop is evaluated after
    the loop has ended. *)
Theorem expand_node_creates_futures fuel g depth c argname context (w : world R) dd :
  let sym := TClass c in
  let args := get_arguments CT sym in
  let late := List.last args ("", TNoneType) in
  let o := length (w_heap w) in
  0 <= depth -> get_distance_to_terminal g sym = Ret dd -> dd <= depth ->
  sym ∈ all_nodes g -> dict_get (alternatives g) sym = None ->
  NoDup (map fst args) ->
  expand_node CT generate (S fuel) g depth sym argname context w =
    (Ret (VRef o),
     with_heap w
       (w_heap w ++
        [CObj sym
           (map (fun a => (fst a, VFuture o (fst a) (depth - 1) (snd late) (fst late) args))
              args) None])).
Proof.
  cbv zeta. intros Hd Hdd Hle Hin Halt Hnd. cbn [expand_node].
  replace (depth <? 0) with false by (symmetry; apply Z.ltb_ge; lia).
  unfold mbind at 1, mlift. rewrite Hdd.
  replace (depth <? dd) with false by (symmetry; apply Z.ltb_ge; lia).
  cbn [expand_symbol]. unfold set_mem. rewrite bool_decide_eq_true_2 by exact Hin.
  cbn [negb]. rewrite Halt. unfold expand_production. cbn zeta. cbn [instantiate].
  unfold mbind at 1. unfold mbind at 1. unfold alloc. cbn [mret].
  unfold mbind at 1.
  pose (F := fun a : string * ty =>
               VFuture (length (w_heap w)) (fst a) (depth - 1)
                 (snd (List.last (get_arguments CT (TClass c)) ("", TNoneType)))
                 (fst (List.last (get_arguments CT (TClass c)) ("", TNoneType)))
                 (get_arguments CT (TClass c))).
  pose proof (setattr_fold F (get_arguments CT (TClass c))
                (map (fun a : string * ty => (fst a, VNone)) (get_arguments CT (TClass c)))
                (with_heap w (w_heap w ++
                   [CObj (TClass c) (map (fun a : string * ty => (fst a, VNone))
                                       (get_arguments CT (TClass c))) None]))
                (w_heap w) (TClass c) None eq_refl) as Hsf.
  unfold F at 1 in Hsf. cbn beta in Hsf. rewrite Hsf. clear Hsf. cbn [mret with_heap w_heap].
  pose proof (fold_dict_set_map F (fun _ => VNone) (get_arguments CT (TClass c)) [] Hnd) as Hm.
  cbn [map app] in Hm. rewrite Hm. reflexivity.
Qed.
End SynthesisProperties.

Lemma extract_futures_exact_witness :
  exists fs,
    extract_futures (R:=list Z) Example.CT 2 (VRef 2) (Parents.world0 []) =
      (Ret fs, Parents.world0 []) /\
    Forall (fun f => is_future f = true) fs /\
    exists vals,
      Forall2 (fun a x => dict_get [("left", VRef 0); ("right", VRef 1)] (fst a) = Some x)
        (get_arguments Example.CT Example.Plus) vals /\
      fs = List.filter is_future vals.
Proof.
  pose proof (extract_futures_exact Example.CT 1 (VRef 2) (Parents.world0 [])
                (Parents.world0 []) [] eq_refl) as (_ & Hf & Hv).
  exists []. split; [reflexivity|]. split; [exact Hf|exact Hv].
Defined.

Lemma filter_choices_fit_witness :
  exists vs,
    filter_choices Weighted.grammar [Example.Plus; Example.One] 1 = Ret vs /\
    (forall p, p ∈ vs ->
       p ∈ [Example.Plus; Example.One] /\
       exists d, dict_get (distanceToTerminal Weighted.grammar) p = Some d /\ d <= 1) /\
    ((forall p, p ∈ vs -> p ∈ recursive_prods Weighted.grammar) \/
     (forall p, p ∈ vs -> p ∉ recursive_prods Weighted.grammar)) /\
    (vs = [] <->
     forall p d, p ∈ [Example.Plus; Example.One] ->
                 dict_get (distanceToTerminal Weighted.grammar) p = Some d -> 1 < d).
Proof.
  exists [Example.One]. split; [reflexivity|].
  apply (filter_choices_fit Weighted.grammar [Example.Plus; Example.One] 1 [Example.One]).
  reflexivity.
Defined.

Lemma expand_node_creates_futures_witness :
  expand_node Example.CT Example.no_generate 1 Weighted.grammar 2 Example.Plus "" []
    (Example.world0 []) =
  (Ret (VRef 0),
   with_heap (Example.world0 [])
     [CObj Example.Plus
        [("left", VFuture 0 "left" 1 Example.Expr "right"
                    [("left", Example.Expr); ("right", Example.Expr)]);
         ("right", VFuture 0 "right" 1 Example.Expr "right"
                     [("left", Example.Expr); ("right", Example.Expr)])] None]).
Proof.
  apply (expand_node_creates_futures Example.CT Example.no_generate 0 Weighted.grammar 2
           "Plus" "" [] (Example.world0 []) 2).
  - lia.
  - reflexivity.
  - lia.
  - change (Example.Plus ∈ [Example.Expr; Example.Plus; Example.One]). right. left.
  - reflexivity.
  - apply example_distinct_fields.
Defined.

(** * Further properties of the grammar *)

Lemma obind_ret {A B : Type} (o : outcome A) (k : A -> outcome B) b :
  obind o k = Ret b -> exists a, o = Ret a /\ k a = Ret b.
Proof. destruct o as [a| |]; try discriminate. intros Hk. now exists a. Qed.

Lemma ofold_left_ret {A B : Type} (f : A -> B -> outcome A) (J : A -> Prop) (l : list B) :
  (forall a x a', x ∈ l -> J a -> f a x = Ret a' -> J a') ->
  forall a a', J a -> ofold_left f l a = Ret a' -> J a'.
Proof.
  induction l as [|x l IH]; intros Hf a a' Ha Hm; cbn [ofold_left] in Hm.
  - now injection Hm as <-.
  - apply obind_ret in Hm as (a1 & Ha1 & Hm).
    apply (IH (fun a0 x0 a2 Hx0 => Hf a0 x0 a2 (list_elem_of_further _ _ _ Hx0)) a1 a');
      [|exact Hm].
    eapply Hf; [left|exact Ha|exact Ha1].
Qed.

Lemma elem_of_set_add {K : Type} `{EqDecision K} (x t : K) (s : list K) :
  x ∈ set_add t s <-> x = t \/ x ∈ s.
Proof.
  unfold set_add, set_mem. destruct (bool_decide (t ∈ s)) eqn:Hm.
  - apply bool_decide_eq_true in Hm. split; [now right|]. now intros [->|Hx].
  - rewrite elem_of_app, list_elem_of_singleton. tauto.
Qed.

Section GrammarProperties.
Variable CT : class_table.

(** X13. [validate] accepts a grammar exactly when every considered
    subtype is abstract or has a fully annotated constructor; otherwise it
    raises [InvalidGrammarException] for the first subtype that is
    neither. *)
Theorem validate_first_offender g :
  match validate CT g with
  | Ret _ => Forall (accepted CT) (considered_subtypes g)
  | Raise e =>
      exists pre c post,
        considered_subtypes g = pre ++ c :: post /\ Forall (accepted CT) pre /\
        ~ accepted CT c /\ e = InvalidGrammarException c
  | Diverge => False
  end.
Proof.
  unfold validate. generalize (considered_subtypes g). intros l.
  induction l as [|c l IH]; cbn [ofold_left]; [constructor|].
  destruct (is_abstract CT c) eqn:Ha; [|destruct (all_init_arguments_typed CT c) eqn:Ht];
    cbn [obind].
  - destruct (ofold_left _ l tt) as [[]|e|].
    + constructor; [now left|exact IH].
    + destruct IH as (pre & c' & post & -> & Hpre & Hc & ->).
      exists (c :: pre), c', post. split; [reflexivity|].
      split; [constructor; [now left|exact Hpre]|now split].
    + exact IH.
  - destruct (ofold_left _ l tt) as [[]|e|].
    + constructor; [now right|exact IH].
    + destruct IH as (pre & c' & post & -> & Hpre & Hc & ->).
      exists (c :: pre), c', post. split; [reflexivity|].
      split; [constructor; [now right|exact Hpre]|now split].
    + exact IH.
  - exists [], c, l. split; [reflexivity|]. split; [constructor|]. split; [|reflexivity].
    intros [H|H]; congruence.
Qed.

(** X14. [register_alternative] raises for a non-abstract non-terminal
    and changes nothing then; otherwise it appends the node type to the
    alternatives of the non-terminal (a repeated registration is kept
    twice), leaves the alternatives of every other non-terminal alone and
    changes nothing else. *)
Theorem register_alternative_appends g nonterminal nodetype :
  match register_alternative CT g nonterminal nodetype with
  | Ret g' =>
      is_abstract CT nonterminal = true /\
      dict_get (alternatives g') nonterminal =
        Some (default [] (dict_get (alternatives g) nonterminal) ++ [nodetype]) /\
      (forall k, k <> nonterminal ->
         dict_get (alternatives g') k = dict_get (alternatives g) k) /\
      g' = with_alternatives g (alternatives g')
  | Raise e => is_abstract CT nonterminal = false /\ e = PlainException nonterminal nodetype
  | Diverge => False
  end.
Proof.
  unfold register_alternative. destruct (is_abstract CT nonterminal); cbn [negb].
  - split; [reflexivity|]. cbn [with_alternatives alternatives].
    split; [apply dict_get_set_eq|]. split; [|reflexivity].
    intros k Hk. now apply dict_get_set_ne.
  - now split.
Qed.

(** X15. [get_distance_to_terminal] looks through annotations and list
    types: the result is the recorded distance of the underlying type plus
    one per [List] layer when [expansion_depthing] is set, and [KeyError]
    exactly when the underlying type has no recorded distance. *)
Theorem get_distance_to_terminal_closed_form g t :
  get_distance_to_terminal g t =
  match dict_get (distanceToTerminal g) (underlying t) with
  | Some d => Ret (Z.b2z (expansion_depthing g) * list_layers t + d)
  | None => Raise KeyError
  end.
Proof.
  induction t; cbn [get_distance_to_terminal underlying list_layers];
    try (destruct (dict_get (distanceToTerminal g) _); [f_equal; lia|reflexivity]).
  - rewrite IHt. destruct (dict_get (distanceToTerminal g) (underlying t));
      cbn [obind]; [f_equal; lia|reflexivity].
  - exact IHt.
Qed.

Lemma max_fold_spec (ds : list Z) : forall d,
  (forall x, x ∈ d :: ds -> x <= fold_left Z.max ds d) /\ fold_left Z.max ds d ∈ d :: ds.
Proof.
  induction ds as [|y ds IH]; intros d; cbn [fold_left].
  - split; [|left]. intros x Hx. apply list_elem_of_singleton in Hx. lia.
  - destruct (IH (Z.max d y)) as [Hle Hin]. split.
    + intros x Hx. apply elem_of_cons in Hx as [->|Hx].
      * specialize (Hle (Z.max d y) ltac:(left)). lia.
      * apply elem_of_cons in Hx as [->|Hx].
        -- specialize (Hle (Z.max d y) ltac:(left)). lia.
        -- apply Hle. now right.
    + apply elem_of_cons in Hin as [Hm|Hin]; [|right; now right].
      rewrite Hm. destruct (Z.max_spec d y) as [[_ ->]|[_ ->]]; [right; left|left].
Qed.

Lemma distances_fold g (l : list ty) : forall acc ds,
  ofold_left (fun acc x =>
     match dict_get (distanceToTerminal g) x with
     | Some d => Ret (acc ++ [d])
     | None => Raise KeyError
     end) l acc = Ret ds ->
  Forall2 (fun x d => dict_get (distanceToTerminal g) x = Some d) l (drop (length acc) ds) /\
  take (length acc) ds = acc.
Proof.
  induction l as [|x l IH]; intros acc ds Hf; cbn [ofold_left] in Hf.
  - injection Hf as <-. rewrite drop_all, firstn_all. split; [constructor|reflexivity].
  - apply obind_ret in Hf as (acc1 & H1 & Hf).
    destruct (dict_get (distanceToTerminal g) x) as [d|] eqn:Hd; [|discriminate].
    injection H1 as <-. apply IH in Hf as [Hall Htake]. rewrite length_app in *. cbn [length] in *.
    assert (Hds : ds = acc ++ d :: drop (length acc + 1) ds).
    { rewrite <- (take_drop (length acc + 1) ds) at 1. rewrite Htake.
      now rewrite <- app_assoc. }
    split.
    + rewrite Hds at 1. rewrite drop_app_length. now constructor.
    + rewrite Hds. now rewrite take_app_length.
Qed.

(** X16. [get_max_node_depth] returns the largest recorded distance among
    the registered nodes: no node has a larger one and some node has it;
    it raises [ValueError] when no node is registered and [KeyError] when
    a node has no recorded distance. *)
Theorem get_max_node_depth_is_maximum g :
  match get_max_node_depth g with
  | Ret m =>
      (forall x, x ∈ all_nodes g ->
         exists d, dict_get (distanceToTerminal g) x = Some d /\ d <= m) /\
      exists x, x ∈ all_nodes g /\ dict_get (distanceToTerminal g) x = Some m
  | Raise e =>
      (e = ValueError /\ all_nodes g = []) \/
      (e = KeyError /\ exists x, x ∈ all_nodes g /\ dict_get (distanceToTerminal g) x = None)
  | Diverge => False
  end.
Proof.
  unfold get_max_node_depth.
  destruct (ofold_left _ (all_nodes g) []) as [ds|e|] eqn:Hf; cbn [obind].
  - apply distances_fold in Hf as [Hall _]. cbn [length drop] in Hall.
    destruct ds as [|d ds].
    + left. split; [reflexivity|]. now apply Forall2_nil_inv_r in Hall.
    + destruct (max_fold_spec ds d) as [Hle Hin]. split.
      * intros x Hx. apply list_elem_of_lookup in Hx as [i Hi].
        destruct (Forall2_lookup_l _ _ _ _ _ Hall Hi) as (dx & Hdx & Hget).
        exists dx. split; [exact Hget|]. apply Hle. eapply list_elem_of_lookup_2. exact Hdx.
      * apply list_elem_of_lookup in Hin as [i Hi].
        destruct (Forall2_lookup_r _ _ _ _ _ Hall Hi) as (x & Hx & Hget).
        exists x. split; [eapply list_elem_of_lookup_2; exact Hx|exact Hget].
  - right.
    assert (Hgen : forall l acc,
              ofold_left (fun acc x =>
                 match dict_get (distanceToTerminal g) x with
                 | Some d => Ret (acc ++ [d])
                 | None => Raise KeyError
                 end) l acc = Raise e ->
              e = KeyError /\ exists x, x ∈ l /\ dict_get (distanceToTerminal g) x = None).
    { induction l as [|x l IH]; intros acc Hr; cbn [ofold_left] in Hr; [discriminate|].
      destruct (dict_get (distanceToTerminal g) x) as [d|] eqn:Hd; cbn [obind] in Hr.
      - destruct (IH _ Hr) as (-> & y & Hy & Hn). split; [reflexivity|].
        exists y. split; [now right|exact Hn].
      - injection Hr as <-. split; [reflexivity|]. exists x. split; [left|exact Hd]. }
    exact (Hgen _ _ Hf).
  - exfalso.
    assert (Hgen : forall l acc,
              ofold_left (fun acc x =>
                 match dict_get (distanceToTerminal g) x with
                 | Some d => Ret (acc ++ [d])
                 | None => Raise KeyError
                 end) l acc <> Diverge).
    { induction l as [|x l IH]; intros acc; cbn [ofold_left]; [discriminate|].
      destruct (dict_get (distanceToTerminal g) x); cbn [obind]; [apply IH|discriminate]. }
    exact (Hgen _ _ Hf).
Qed.

(** *** What one registration does *)

Lemma calls_trans fuel g1 g2 g3 :
  calls CT fuel g1 g2 -> calls CT fuel g2 g3 -> calls CT fuel g1 g3.
Proof. induction 1; [trivial|]. intros H3. econstructor; [eassumption|auto]. Qed.

Lemma calls_one fuel g x g' : register_type CT fuel g x = Ret g' -> calls CT fuel g g'.
Proof. intros H. econstructor; [exact H|constructor]. Qed.

Lemma calls_inv (J : Grammar -> Prop) fuel :
  (forall g x g', J g -> register_type CT fuel g x = Ret g' -> J g') ->
  forall g g', calls CT fuel g g' -> J g -> J g'.
Proof. intros HJ g g' Hc. induction Hc; [trivial|]. intros Hg. eauto. Qed.

Lemma args_fold_calls fuel (l : list (string * ty)) : forall acc acc',
  ofold_left (fun (acc : Grammar * bool) (a : string * ty) =>
     let argt := snd a in
     (g1 <~ (if is_type_object argt
             then register_type CT fuel (fst acc) argt
             else Ret (fst acc));;
      g2 <~ (match argt with
             | TAnnotated (TList inner) _ => register_type CT fuel g1 inner
             | TAnnotated gen _ => register_type CT fuel g1 gen
             | _ => Ret g1
             end);;
      Ret (g2, false))%out) l acc = Ret acc' ->
  calls CT fuel (fst acc) (fst acc') /\ snd acc' = snd acc && bool_decide (l = []).
Proof.
  induction l as [|a l IH]; intros acc acc' Hf; cbn [ofold_left] in Hf.
  - injection Hf as <-. split; [constructor|]. now rewrite andb_true_r.
  - apply obind_ret in Hf as (acc1 & H1 & Hf). apply IH in Hf as [Hc Hs].
    cbv zeta in H1. apply obind_ret in H1 as (g1 & Hg1 & H1).
    apply obind_ret in H1 as (g2 & Hg2 & H1). injection H1 as <-.
    cbn [fst snd] in *. split; [|rewrite Hs; now rewrite andb_false_r].
    assert (C1 : calls CT fuel (fst acc) g1).
    { destruct (is_type_object (snd a)); [eapply calls_one; exact Hg1|].
      injection Hg1 as <-. constructor. }
    assert (C2 : calls CT fuel g1 g2).
    { destruct (snd a) as [| | | | | | | |u|u m|c];
        try (injection Hg2 as <-; constructor).
      destruct u; eapply calls_one; exact Hg2. }
    exact (calls_trans _ _ _ _ C1 (calls_trans _ _ _ _ C2 Hc)).
Qed.

Lemma subs_fold_calls fuel (c : ty -> bool) (l : list ty) : forall g g',
  ofold_left (fun g0 st => if c st then register_type CT fuel g0 st else Ret g0) l g = Ret g' ->
  calls CT fuel g g'.
Proof.
  induction l as [|x l IH]; intros g g' Hf; cbn [ofold_left] in Hf.
  - injection Hf as <-. constructor.
  - apply obind_ret in Hf as (g1 & H1 & Hf). apply IH in Hf.
    destruct (c x); [econstructor; eassumption|]. now injection H1 as <-.
Qed.

Lemma register_type_unfold fuel g t g' :
  register_type CT (S fuel) g t = Ret g' -> reg_step CT fuel g t g'.
Proof.
  intros Hr. cbn [register_type] in Hr. unfold reg_step.
  unfold set_mem at 1 in Hr. destruct (bool_decide (t ∈ all_nodes g)) eqn:Hm.
  - left. apply bool_decide_eq_true in Hm. split; [exact Hm|now injection Hr].
  - right. apply bool_decide_eq_false in Hm. split; [exact Hm|].
    destruct t as [| | | | | | | |u|u m|c]; cbv beta match zeta in Hr |- *;
      try exact Hr;
      ( apply obind_ret in Hr as (parent & Hp & Hr);
        apply obind_ret in Hr as (g2 & H2 & Hr);
        apply obind_ret in Hr as (gt & Hgt & Hr);
        apply obind_ret in Hr as (g4 & H4 & Hr);
        injection Hr as <-;
        exists parent, g2, (fst gt), g4;
        split; [exact Hp|];
        split; [destruct (set_mem parent _);
                [now injection H2|
                 apply obind_ret in H2 as (gp & Hgp & H2); now exists gp]|];
        split; [|split; [eapply subs_fold_calls; exact H4|]];
        [ destruct (is_abstract CT _);
          [injection Hgt as <-; constructor|
           now apply args_fold_calls in Hgt as [Hc _]]
        | unfold classify; f_equal;
          destruct (is_abstract CT _); cbn [negb andb];
          [now injection Hgt as <-|
           now apply args_fold_calls in Hgt as [_ ->]] ] ).
Qed.

Lemma registers_more_refl g : registers_more g g.
Proof.
  repeat split; auto. intros k old H. exists []. now rewrite app_nil_r.
Qed.

Lemma registers_more_trans g1 g2 g3 :
  registers_more g1 g2 -> registers_more g2 g3 -> registers_more g1 g3.
Proof.
  intros (A1 & T1 & N1 & L1 & S1 & D1 & R1 & B1 & C1 & E1)
         (A2 & T2 & N2 & L2 & S2 & D2 & R2 & B2 & C2 & E2).
  repeat split; try congruence; auto.
  intros k old H. destruct (L1 _ _ H) as [n1 H1]. destruct (L2 _ _ H1) as [n2 H2].
  exists (n1 ++ n2). now rewrite app_assoc.
Qed.

Lemma register_alternative_ret g nt node g' :
  register_alternative CT g nt node = Ret g' ->
  is_abstract CT nt = true /\
  g' = with_alternatives g
         (dict_set (alternatives g) nt (default [] (dict_get (alternatives g) nt) ++ [node])).
Proof.
  unfold register_alternative. destruct (is_abstract CT nt); cbn [negb]; [|discriminate].
  intros [= <-]. now split.
Qed.

Lemma register_alternative_more g nt node g' :
  register_alternative CT g nt node = Ret g' -> registers_more g g'.
Proof.
  intros H. apply register_alternative_ret in H as [_ ->].
  repeat split; auto. cbn [with_alternatives alternatives]. intros k old Hk.
  destruct (decide (k = nt)) as [->|Hne].
  - rewrite dict_get_set_eq, Hk. now exists [node].
  - rewrite dict_get_set_ne by exact Hne. exists []. now rewrite app_nil_r.
Qed.

Lemma add_node_more g t : registers_more g (with_all_nodes g (set_add t (all_nodes g))).
Proof.
  repeat split; auto.
  - intros x Hx. cbn [with_all_nodes all_nodes]. apply elem_of_set_add. now right.
  - intros k old H. exists []. now rewrite app_nil_r.
Qed.

Lemma classify_more t g : registers_more g (classify CT t g).
Proof.
  unfold classify. destruct (_ && _); repeat split; auto;
    cbn [with_terminals with_non_terminals terminals non_terminals alternatives];
    try (intros x Hx; apply elem_of_set_add; now right);
    intros k old H; exists []; now rewrite app_nil_r.
Qed.

Lemma register_type_more fuel : forall g t g',
  register_type CT fuel g t = Ret g' -> registers_more g g'.
Proof.
  induction fuel as [|fuel IH]; intros g t g' Hr; [discriminate|].
  apply register_type_unfold in Hr as [[_ ->]|[Hn Hr]]; [apply registers_more_refl|].
  assert (Hcalls : forall ga gb, calls CT fuel ga gb -> registers_more ga gb).
  { intros ga gb Hc. induction Hc; [apply registers_more_refl|].
    eapply registers_more_trans; [eapply IH; eassumption|assumption]. }
  destruct t as [| | | | | | | |u|u m|c]; try (eapply IH; exact Hr);
    ( destruct Hr as (parent & g2 & g3 & g4 & Hp & H2 & C3 & C4 & ->);
      eapply registers_more_trans; [apply (add_node_more g)|];
      eapply registers_more_trans;
        [|eapply registers_more_trans; [apply (Hcalls _ _ C3)|
          eapply registers_more_trans; [apply (Hcalls _ _ C4)|apply classify_more]]];
      destruct (set_mem parent _);
        [subst g2; apply registers_more_refl|
         destruct H2 as (gp & Hgp & Ha);
         eapply registers_more_trans;
           [eapply IH; exact Hgp|eapply register_alternative_more; exact Ha]] ).
Qed.

Lemma underlying_plain t :
  match underlying t with TList _ | TAnnotated _ _ => False | _ => True end.
Proof. induction t; cbn [underlying]; auto. Qed.

Lemma register_type_adds fuel g t g' :
  register_type CT fuel g t = Ret g' -> underlying t = t -> t ∈ all_nodes g'.
Proof.
  intros Hr Hu. destruct fuel as [|fuel]; [discriminate|].
  pose proof (register_type_more _ _ _ _ Hr) as Hmore.
  apply register_type_unfold in Hr as [[Hin ->]|[Hn Hr]]; [exact Hin|].
  assert (Hcalls : forall ga gb, calls CT fuel ga gb -> registers_more ga gb).
  { intros ga gb Hc. induction Hc; [apply registers_more_refl|].
    eapply registers_more_trans; [eapply register_type_more; eassumption|assumption]. }
  assert (Hadd : t ∈ all_nodes (with_all_nodes g (set_add t (all_nodes g)))).
  { cbn [with_all_nodes all_nodes]. apply elem_of_set_add. now left. }
  destruct t as [| | | | | | | |u|u m|c];
    try (match type of Hu with underlying ?x = _ =>
           pose proof (underlying_plain x) as Hpl; rewrite Hu in Hpl; contradiction end);
    try ( destruct Hr as (parent & g2 & g3 & g4 & Hp & H2 & C3 & C4 & ->);
      apply (proj1 (classify_more _ g4)), (proj1 (Hcalls _ _ C4)),
            (proj1 (Hcalls _ _ C3));
      destruct (set_mem parent _);
        [subst g2; exact Hadd|
         destruct H2 as (gp & Hgp & Ha);
         apply (proj1 (register_alternative_more _ _ _ _ Ha)),
               (proj1 (register_type_more _ _ _ _ Hgp)); exact Hadd] ).
Qed.

Lemma classified_add P g t :
  classified CT P g -> t ∉ all_nodes g ->
  classified CT (t :: P) (with_all_nodes g (set_add t (all_nodes g))).
Proof.
  intros (Hnd & Hall & Hdis & Hpend & Hterm & Hnon) Hn.
  unfold classified. cbn [with_all_nodes all_nodes terminals non_terminals].
  assert (HT : t ∉ terminals g) by (intros H; apply Hn, Hall; now left).
  assert (HN : t ∉ non_terminals g) by (intros H; apply Hn, Hall; right; now left).
  assert (HP : t ∉ P) by (intros H; apply Hn, Hall; right; now right).
  split; [now constructor|]. split; [|split; [exact Hdis|split; [|now split]]].
  - intros x. rewrite elem_of_set_add, elem_of_cons, Hall. tauto.
  - intros x Hx. apply elem_of_cons in Hx as [->|Hx]; [now split|now apply Hpend].
Qed.

Lemma classified_classify P g t :
  classified CT (t :: P) g -> classified CT P (classify CT t g).
Proof.
  intros (Hnd & Hall & Hdis & Hpend & Hterm & Hnon).
  apply NoDup_cons in Hnd as [HtP Hnd].
  destruct (Hpend t ltac:(left)) as [HtT HtN].
  unfold classify, classified.
  destruct (is_abstract CT t) eqn:Ha; cbn [negb andb];
    [|destruct (bool_decide (get_arguments CT t = [])) eqn:Hargs];
    cbn [with_terminals with_non_terminals all_nodes terminals non_terminals];
    (split; [exact Hnd|]).
  - split; [intros x; rewrite elem_of_set_add, Hall, elem_of_cons; tauto|].
    split; [intros x Hx; rewrite elem_of_set_add; intros [->|Hx'];
            [contradiction|exact (Hdis _ Hx Hx')]|].
    split; [intros x Hx; destruct (Hpend x ltac:(now right)) as [H1 H2];
            split; [exact H1|rewrite elem_of_set_add; intros [->|H]; contradiction]|].
    split; [exact Hterm|].
    intros x Hx. apply elem_of_set_add in Hx as [->|Hx]; [now left|now apply Hnon].
  - apply bool_decide_eq_true in Hargs.
    split; [intros x; rewrite elem_of_set_add, Hall, elem_of_cons; tauto|].
    split; [intros x Hx Hx'; apply elem_of_set_add in Hx as [->|Hx];
            [contradiction|exact (Hdis _ Hx Hx')]|].
    split; [intros x Hx; destruct (Hpend x ltac:(now right)) as [H1 H2];
            split; [rewrite elem_of_set_add; intros [->|H]; contradiction|exact H2]|].
    split; [|exact Hnon].
    intros x Hx. apply elem_of_set_add in Hx as [->|Hx]; [now split|now apply Hterm].
  - apply bool_decide_eq_false in Hargs.
    split; [intros x; rewrite elem_of_set_add, Hall, elem_of_cons; tauto|].
    split; [intros x Hx; rewrite elem_of_set_add; intros [->|Hx'];
            [contradiction|exact (Hdis _ Hx Hx')]|].
    split; [intros x Hx; destruct (Hpend x ltac:(now right)) as [H1 H2];
            split; [exact H1|rewrite elem_of_set_add; intros [->|H]; contradiction]|].
    split; [exact Hterm|].
    intros x Hx. apply elem_of_set_add in Hx as [->|Hx]; [now right|now apply Hnon].
Qed.

Lemma register_type_classified fuel : forall P g t g',
  classified CT P g -> register_type CT fuel g t = Ret g' -> classified CT P g'.
Proof.
  induction fuel as [|fuel IH]; intros P g t g' Hcl Hr; [discriminate|].
  apply register_type_unfold in Hr as [[_ ->]|[Hn Hr]]; [exact Hcl|].
  destruct t as [| | | | | | | |u|u m|c]; try (eapply IH; [exact Hcl|exact Hr]);
    ( destruct Hr as (parent & g2 & g3 & g4 & Hp & H2 & C3 & C4 & ->);
      apply classified_classify;
      refine (calls_inv _ fuel (fun ga x gb Hga Hx => IH _ ga x gb Hga Hx) _ _ C4 _);
      refine (calls_inv _ fuel (fun ga x gb Hga Hx => IH _ ga x gb Hga Hx) _ _ C3 _);
      pose proof (classified_add _ _ _ Hcl Hn) as Hadd;
      destruct (set_mem parent _);
        [subst g2; exact Hadd|
         destruct H2 as (gp & Hgp & Ha);
         apply register_alternative_ret in Ha as [_ ->];
         exact (IH _ _ _ _ Hadd Hgp)] ).
Qed.

Lemma is_abstract_class t : is_abstract CT t = true -> underlying t = t.
Proof. destruct t; cbn [is_abstract]; try discriminate. reflexivity. Qed.

Lemma alternatives_ok_more g g' :
  alternatives_ok CT g -> alternatives g' = alternatives g ->
  (forall x, x ∈ all_nodes g -> x ∈ all_nodes g') -> alternatives_ok CT g'.
Proof.
  intros Hok Ha Hn k prods Hk. rewrite Ha in Hk.
  destruct (Hok _ _ Hk) as (H1 & H2 & H3 & H4).
  split; [exact H1|]. split; [auto|]. split; [exact H3|].
  intros p Hp. destruct (H4 _ Hp). auto.
Qed.

Lemma register_type_alternatives fuel : forall g t g',
  alternatives_ok CT g -> register_type CT fuel g t = Ret g' -> alternatives_ok CT g'.
Proof.
  induction fuel as [|fuel IH]; intros g t g' Hok Hr; [discriminate|].
  apply register_type_unfold in Hr as [[_ ->]|[Hn Hr]]; [exact Hok|].
  destruct t as [| | | | | | | |u|u m|c]; try (eapply IH; [exact Hok|exact Hr]);
    ( destruct Hr as (parent & g2 & g3 & g4 & Hp & H2 & C3 & C4 & ->);
      apply (alternatives_ok_more g4);
        [|unfold classify; now destruct (_ && _)
         |unfold classify; now destruct (_ && _)];
      refine (calls_inv _ fuel IH _ _ C4 _);
      refine (calls_inv _ fuel IH _ _ C3 _);
      match type of Hn with ?t0 ∉ _ =>
        pose proof (alternatives_ok_more g (with_all_nodes g (set_add t0 (all_nodes g)))
                      Hok eq_refl (proj1 (add_node_more g t0))) as Hadd;
        assert (Hin : t0 ∈ all_nodes (with_all_nodes g (set_add t0 (all_nodes g))))
          by (cbn [with_all_nodes all_nodes]; apply elem_of_set_add; now left)
      end;
      destruct (set_mem parent _);
        [subst g2; exact Hadd|];
      destruct H2 as (gp & Hgp & Ha);
      pose proof (IH _ _ _ Hadd Hgp) as Hokp;
      apply (proj1 (register_type_more _ _ _ _ Hgp)) in Hin;
      apply register_alternative_ret in Ha as [Habs ->];
      pose proof (register_type_adds _ _ _ _ Hgp (is_abstract_class _ Habs)) as Hpin;
      intros k prods Hk; cbn [with_alternatives alternatives all_nodes] in Hk |- *;
      destruct (decide (k = parent)) as [->|Hne];
        [ rewrite dict_get_set_eq in Hk; injection Hk as <-;
          split; [exact Habs|]; split; [exact Hpin|];
          split; [now destruct (default [] _)|];
          intros p Hpp; apply elem_of_app in Hpp as [Hpp|Hpp];
            [ destruct (dict_get (alternatives gp) parent) as [old|] eqn:Hold;
                cbn [default] in Hpp; [|now apply elem_of_nil in Hpp];
              destruct (Hokp _ _ Hold) as (_ & _ & _ & H4); exact (H4 _ Hpp)
            | apply list_elem_of_singleton in Hpp as ->; now split ]
        | rewrite dict_get_set_ne in Hk by exact Hne; exact (Hokp _ _ Hk) ] ).
Qed.

Lemma register_type_plain fuel : forall g t g',
  (forall x, x ∈ all_nodes g -> underlying x = x) ->
  register_type CT fuel g t = Ret g' ->
  forall x, x ∈ all_nodes g' -> underlying x = x.
Proof.
  induction fuel as [|fuel IH]; intros g t g' Hpl Hr; [discriminate|].
  apply register_type_unfold in Hr as [[_ ->]|[Hn Hr]]; [exact Hpl|].
  destruct t as [| | | | | | | |u|u m|c]; try (eapply IH; [exact Hpl|exact Hr]);
    ( destruct Hr as (parent & g2 & g3 & g4 & Hp & H2 & C3 & C4 & ->);
      assert (Hcl : forall ga, all_nodes (classify CT ga g4) = all_nodes g4)
        by (intros ga; unfold classify; now destruct (_ && _));
      rewrite Hcl;
      refine (calls_inv (fun ga => forall x, x ∈ all_nodes ga -> underlying x = x)
                fuel IH _ _ C4 _);
      refine (calls_inv (fun ga => forall x, x ∈ all_nodes ga -> underlying x = x)
                fuel IH _ _ C3 _);
      match type of Hn with ?t0 ∉ _ =>
        assert (Hadd : forall x, x ∈ all_nodes (with_all_nodes g (set_add t0 (all_nodes g))) ->
                                 underlying x = x)
          by (intros x Hx; cbn [with_all_nodes all_nodes] in Hx;
              apply elem_of_set_add in Hx as [->|Hx]; [reflexivity|now apply Hpl])
      end;
      destruct (set_mem parent _);
        [subst g2; exact Hadd|];
      destruct H2 as (gp & Hgp & Ha);
      apply register_alternative_ret in Ha as [_ ->];
      exact (IH _ _ _ Hadd Hgp) ).
Qed.

(** X17. A registration only adds: whatever was registered, classified or
    listed as an alternative before is still there afterwards (the lists
    of alternatives are extended at their ends), the remaining fields of
    the grammar are untouched, and a type that is neither a list nor an
    annotated type is itself registered afterwards. *)
Theorem register_type_only_adds fuel g t g' :
  register_type CT fuel g t = Ret g' ->
  registers_more g g' /\ (underlying t = t -> t ∈ all_nodes g').
Proof.
  intros Hr. split; [exact (register_type_more _ _ _ _ Hr)|].
  exact (register_type_adds _ _ _ _ Hr).
Qed.

(** X18. Registration keeps the classification of the registered types:
    each is either a terminal or a non-terminal, never both, and the
    terminals are concrete types without constructor arguments, while a
    non-terminal is abstract or has constructor arguments. *)
Theorem register_type_keeps_classification fuel g t g' :
  classified CT [] g -> register_type CT fuel g t = Ret g' -> classified CT [] g'.
Proof. apply register_type_classified. Qed.

(** X19. Registration keeps the table of alternatives in order: every key
    is a registered abstract type with at least one alternative, and each
    alternative is a registered type whose first base is that key. *)
Theorem register_type_keeps_alternatives fuel g t g' :
  alternatives_ok CT g -> register_type CT fuel g t = Ret g' -> alternatives_ok CT g'.
Proof. apply register_type_alternatives. Qed.

(** X20. Registration never registers a list type or an annotated type:
    when no such type is among the registered nodes before, none is
    afterwards, and the type underneath the registered one is a
    registered node. *)
Theorem register_type_registers_underlying fuel g t g' :
  (forall x, x ∈ all_nodes g -> underlying x = x) ->
  register_type CT fuel g t = Ret g' ->
  (forall x, x ∈ all_nodes g' -> underlying x = x) /\ underlying t ∈ all_nodes g'.
Proof.
  intros Hpl Hr. split; [exact (register_type_plain _ _ _ _ Hpl Hr)|].
  revert g t g' Hpl Hr. induction fuel as [|fuel IH]; intros g t g' Hpl Hr; [discriminate|].
  pose proof Hr as Hr0.
  apply register_type_unfold in Hr as [[Hin ->]|[Hn Hr]];
    [now rewrite (Hpl _ Hin)|].
  destruct t as [| | | | | | | |u|u m|c]; cbn [underlying];
    try (eapply IH; [exact Hpl|exact Hr]);
    exact (register_type_adds _ _ _ _ Hr0 eq_refl).
Qed.
End GrammarProperties.

Lemma register_type_only_adds_witness :
  exists g',
    register_type Example.CT 5 Fresh.grammar Example.Expr = Ret g' /\
    registers_more Fresh.grammar g' /\ Example.Expr ∈ all_nodes g'.
Proof.
  eexists. split; [vm_compute; reflexivity|].
  destruct (register_type_only_adds Example.CT 5 Fresh.grammar Example.Expr _ eq_refl)
    as [Hm Hin].
  split; [exact Hm|exact (Hin eq_refl)].
Defined.

Lemma fresh_classified : classified Example.CT [] Fresh.grammar.
Proof.
  unfold classified. cbn [Fresh.grammar all_nodes terminals non_terminals].
  split; [constructor|].
  split; [intros x; split; [intros H|intros [H|[H|H]]]; now apply elem_of_nil in H|].
  repeat match goal with |- _ /\ _ => split end;
    intros y Hy; now apply elem_of_nil in Hy.
Qed.

Lemma register_type_keeps_classification_witness :
  exists g',
    register_type Example.CT 5 Fresh.grammar Example.Expr = Ret g' /\
    classified Example.CT [] g'.
Proof.
  eexists. split; [vm_compute; reflexivity|].
  exact (register_type_keeps_classification Example.CT 5 Fresh.grammar Example.Expr _
           fresh_classified eq_refl).
Defined.

Lemma register_type_keeps_alternatives_witness :
  exists g',
    register_type Example.CT 5 Fresh.grammar Example.Expr = Ret g' /\
    alternatives_ok Example.CT g'.
Proof.
  eexists. split; [vm_compute; reflexivity|].
  refine (register_type_keeps_alternatives Example.CT 5 Fresh.grammar Example.Expr _
            _ eq_refl).
  intros k prods Hk. discriminate Hk.
Defined.

Lemma register_type_registers_underlying_witness :
  exists g',
    register_type Example.CT 5 Fresh.grammar (TList Example.Expr) = Ret g' /\
    (forall x, x ∈ all_nodes g' -> underlying x = x) /\ Example.Expr ∈ all_nodes g'.
Proof.
  eexists. split; [vm_compute; reflexivity|].
  refine (register_type_registers_underlying Example.CT 5 Fresh.grammar
            (TList Example.Expr) _ _ eq_refl).
  intros x Hx. now apply elem_of_nil in Hx.
Defined.
